(** * Cuckoo Cycle miner: edge trimming, degree counting, cuckoo table and
      solution recovery.

    Shallow embedding of [cuckoo_miner.h] (the pthread miner) and of the
    device classes of the CUDA miners.  Machine integers are [Z] with the
    wrap-around written out, vectors and raw arrays are [list Z] read and
    written by index, and an access outside an array, a failed [assert] and a
    probe loop that never ends are results of their own. *)

From Stdlib Require Import ZArith Lia List Bool Sorted.
From stdpp Require Import base option list gmap.

Local Open Scope Z_scope.

(** ** Results of fallible code *)

Inductive fault : Type :=
| OutOfBounds     (* read or write outside an array: undefined in C++ *)
| AssertFailed    (* an [assert] of the source does not hold *)
| Spins.          (* a loop of the source never ends *)

Inductive res (A : Type) : Type :=
| Ok (a : A)
| Err (f : fault).

Arguments Ok {A} a.
Arguments Err {A} f.

Definition bind {A B : Type} (m : res A) (k : A -> res B) : res B :=
  match m with
  | Ok a => k a
  | Err f => Err f
  end.

Notation "'do' x <- m ; k" := (bind m (fun x => k))
  (at level 10, x name, m at level 100, k at level 200).

Fixpoint foldM {A B : Type} (f : A -> B -> res A) (l : list B) (a : A) : res A :=
  match l with
  | [] => Ok a
  | b :: l' => do a' <- f a b ; foldM f l' a'
  end.

(** ** Machine words *)

Definition wrap (w x : Z) : Z := x mod 2 ^ w.
Definition u32 (x : Z) : Z := wrap 32 x.
Definition u64 (x : Z) : Z := wrap 64 x.

(** [__builtin_ffsll] / [__ffs] / [__ffsll]: one plus the index of the least
    significant set bit, and 0 for 0. *)
Fixpoint ffs_pos (p : positive) : Z :=
  match p with
  | xO q => 1 + ffs_pos q
  | _ => 1
  end.

Definition ffsll (x : Z) : Z :=
  match x with
  | Zpos p => ffs_pos p
  | _ => 0
  end.

(** ** Arrays *)

Definition vec_get {A : Type} (v : list A) (i : Z) : res A :=
  if 0 <=? i then
    match v !! Z.to_nat i with
    | Some x => Ok x
    | None => Err OutOfBounds
    end
  else Err OutOfBounds.

Definition vec_set {A : Type} (v : list A) (i : Z) (x : A) : res (list A) :=
  if (0 <=? i) && (i <? Z.of_nat (length v)) then Ok (<[Z.to_nat i := x]> v)
  else Err OutOfBounds.

(** A toy keyed hash for the worked examples: two U nodes and two V nodes
    joined in a 4-cycle by the nonces 0..3, the other nonces spread over the
    remaining nodes. *)
Definition toy_hash (x : Z) : Z :=
  match x with
  | 0 => 1 | 1 => 1
  | 2 => 2 | 3 => 1
  | 4 => 2 | 5 => 2
  | 6 => 1 | 7 => 2
  | _ => 32 + x / 2
  end.

Section Cuckoo.

(** Compile-time parameters.  [SIZESHIFT] and [PROOFSIZE] come from the
    build, [PART_BITS] and [IDXSHIFT] may be overridden there
    ([IDXSHIFT] defaults to [PART_BITS + 6]).  [siphash24] is the keyed hash of
    [cuckoo.h] with the key of the header already set. *)
Variables SIZESHIFT PART_BITS IDXSHIFT PROOFSIZE : Z.
Variable siphash24 : Z -> Z.

(** Modelled from the spec: cuckoo.h is not among the sources; the spec gives
    SIZE = 2^SIZESHIFT, HALFSIZE = SIZE/2 and NODEMASK = SIZE/2 - 1. *)
Definition SIZE : Z := 2 ^ SIZESHIFT.
Definition HALFSIZE : Z := SIZE / 2.
Definition NODEMASK : Z := HALFSIZE - 1.

Definition IDXSHIFT_default : Z := PART_BITS + 6.
Definition MAXPATHLEN : Z := Z.shiftl 8 (SIZESHIFT / 3).

(** [nonce_t] and [node_t] are [u32] when [SIZESHIFT <= 32] and [u64]
    otherwise. *)
Definition NONCE_BITS : Z := if SIZESHIFT <=? 32 then 32 else 64.
Definition nonce_t (x : Z) : Z := wrap NONCE_BITS x.
Definition node_t (x : Z) : Z := wrap NONCE_BITS x.

(** Modelled from the spec: _sipnode and sipnode live in cuckoo.h, which is not
    among the sources; the spec (4.1) and the device copy [dipnode] hash
    2*nonce + side and mask the result with NODEMASK; the miner's [sipnode]
    keeps the side in the low bit of the node. *)
Definition _sipnode (nonce uorv : Z) : Z :=
  Z.land (siphash24 (u64 (2 * nonce + uorv))) NODEMASK.
Definition sipnode (nonce uorv : Z) : Z :=
  Z.lor (node_t (Z.shiftl (_sipnode nonce uorv) 1)) uorv.

(** ** shrinkingset: the set of alive nonces (pthread miner) *)

Record shrinkingset : Type := mk_shrinkingset {
  bits : list Z;   (* u64 words; a set bit is a dead nonce *)
  cnt : list Z     (* one u64 counter per thread *)
}.

Definition shrinkingset_new (nthreads : Z) : res shrinkingset :=
  let nwords := nonce_t (HALFSIZE / 64) in
  let bits0 := replicate (Z.to_nat nwords) 0 in
  let cnt0 := replicate (Z.to_nat nthreads) 0 in
  do cnt1 <- vec_set cnt0 0 (u64 HALFSIZE) ;
  Ok (mk_shrinkingset bits0 cnt1).

Definition count (s : shrinkingset) : Z :=
  fold_left (fun sum c => u64 (sum + c)) (cnt s) 0.

Definition reset (s : shrinkingset) (n thread : Z) : res shrinkingset :=
  do w <- vec_get (bits s) (n / 64) ;
  do bits' <- vec_set (bits s) (n / 64) (Z.lor w (u64 (Z.shiftl 1 (n mod 64)))) ;
  do c <- vec_get (cnt s) thread ;
  do cnt' <- vec_set (cnt s) thread (u64 (c - 1)) ;
  Ok (mk_shrinkingset bits' cnt').

Definition test (s : shrinkingset) (n : Z) : res bool :=
  do w <- vec_get (bits s) (n / 64) ;
  Ok (Z.land (Z.shiftr w (n mod 64)) 1 =? 0).

Definition block (s : shrinkingset) (n : Z) : res Z :=
  do w <- vec_get (bits s) (n / 64) ;
  Ok (u64 (Z.lnot w)).


(** ** shrinkingset of the CUDA miners: u32 words, no counters *)

Definition gpu_reset (b : list Z) (n : Z) : res (list Z) :=
  do w <- vec_get b (n / 32) ;
  vec_set b (n / 32) (Z.lor w (u32 (Z.shiftl 1 (n mod 32)))).

Definition gpu_test (b : list Z) (n : Z) : res bool :=
  do w <- vec_get b (n / 32) ;
  Ok (Z.land (Z.shiftr w (n mod 32)) 1 =? 0).

Definition gpu_block (b : list Z) (n : Z) : res Z :=
  do w <- vec_get b (n / 32) ;
  Ok (u32 (Z.lnot w)).

(** [wideblock] reads the u32 array through a u64 pointer; the devices are
    little-endian, so word [k] is made of the u32 words [2k] (low half) and
    [2k+1] (high half). *)
Definition gpu_wideblock (b : list Z) (n : Z) : res Z :=
  do lo <- vec_get b (2 * (n / 64)) ;
  do hi <- vec_get b (2 * (n / 64) + 1) ;
  Ok (u64 (Z.lnot (Z.lor lo (Z.shiftl hi 32)))).

(** Final load of the CUDA miner: a population count of the complemented
    words copied back from the device. *)
Fixpoint popcount_pos (p : positive) : Z :=
  match p with
  | xH => 1
  | xO q => popcount_pos q
  | xI q => 1 + popcount_pos q
  end.

Definition popcountll (x : Z) : Z :=
  match x with
  | Zpos p => popcount_pos p
  | _ => 0
  end.

(** ** twice_set: two bits per node of the current partition *)

Definition PART_MASK : Z := Z.shiftl 1 PART_BITS - 1.
Definition ONCE_BITS : Z := Z.shiftr HALFSIZE PART_BITS.
Definition TWICE_WORDS : Z := (2 * ONCE_BITS) / 32.

Definition twice_set_new : list Z := replicate (Z.to_nat TWICE_WORDS) 0.

Definition twice_set_reset (tw : list Z) : list Z :=
  replicate (Z.to_nat TWICE_WORDS) 0 ++ drop (Z.to_nat TWICE_WORDS) tw.

(** [set] without ATOMIC. *)
Definition twice_set_set (tw : list Z) (u : Z) : res (list Z) :=
  let idx := u / 16 in
  let bit := u32 (Z.shiftl 1 (2 * (u mod 16))) in
  do old <- vec_get tw idx ;
  vec_set tw idx (Z.lor old (u32 (bit + Z.land old bit))).

(** [set] under ATOMIC: two fetch-or steps. *)
Definition twice_set_set_atomic (tw : list Z) (u : Z) : res (list Z) :=
  let idx := u / 16 in
  let bit := u32 (Z.shiftl 1 (2 * (u mod 16))) in
  do old <- vec_get tw idx ;
  do tw1 <- vec_set tw idx (Z.lor old bit) ;
  if Z.land old bit =? 0 then Ok tw1
  else
    do cur <- vec_get tw1 idx ;
    vec_set tw1 idx (Z.lor cur (u32 (Z.shiftl bit 1))).

(** [set] of the CUDA miners: atomicOr, then a second one when only the low
    bit was there. *)
Definition gpu_twice_set_set (tw : list Z) (u : Z) : res (list Z) :=
  let idx := u / 16 in
  let bit := u32 (Z.shiftl 1 (2 * (u mod 16))) in
  do old <- vec_get tw idx ;
  do tw1 <- vec_set tw idx (Z.lor old bit) ;
  let bit2 := u32 (Z.shiftl bit 1) in
  if Z.land old (Z.lor bit2 bit) =? bit then
    do cur <- vec_get tw1 idx ;
    vec_set tw1 idx (Z.lor cur bit2)
  else Ok tw1.

Definition twice_set_test (tw : list Z) (u : Z) : res Z :=
  do w <- vec_get tw (u / 16) ;
  Ok (Z.land (Z.shiftr w (2 * (u mod 16))) 2).

(** The two bits kept for node [u], as a number 0..3. *)
Definition twice_set_state (tw : list Z) (u : Z) : res Z :=
  do w <- vec_get tw (u / 16) ;
  Ok (Z.land (Z.shiftr w (2 * (u mod 16))) 3).

(** ** cuckoo_hash *)

Definition CUCKOO_SIZE : Z := Z.shiftr SIZE IDXSHIFT.
Definition CUCKOO_MASK : Z := CUCKOO_SIZE - 1.
Definition KEYBITS : Z := 64 - SIZESHIFT.
Definition KEYMASK : Z := Z.shiftl 1 KEYBITS - 1.
Definition MAXDRIFT : Z := Z.shiftl 1 (KEYBITS - IDXSHIFT).

Definition cuckoo_new : list Z := replicate (Z.to_nat CUCKOO_SIZE) 0.

(** The probe loops have no bound in the source.  A probe that has looked at
    [CUCKOO_SIZE] slots is back where it started, so the model gives it that
    many rounds and reports [Spins] after them.  [set] is written for the
    build without ATOMIC; the compare-and-swap of the ATOMIC build and of the
    CUDA miners stores and returns the same when no other thread writes in
    between. *)
Fixpoint set_probe (fuel : nat) (c : list Z) (u niew ui : Z) : res (list Z) :=
  match fuel with
  | O => Err Spins
  | S fuel' =>
    do old <- vec_get c ui ;
    if (old =? 0) || (Z.shiftr old SIZESHIFT =? Z.land u KEYMASK) then
      vec_set c ui niew
    else set_probe fuel' c u niew (Z.land (node_t (ui + 1)) CUCKOO_MASK)
  end.

Definition cuckoo_set (c : list Z) (u v : Z) : res (list Z) :=
  let niew := Z.lor (u64 (Z.shiftl u SIZESHIFT)) v in
  set_probe (Z.to_nat CUCKOO_SIZE) c u niew (Z.shiftr u IDXSHIFT).

Fixpoint get_probe (fuel : nat) (c : list Z) (u ui : Z) : res Z :=
  match fuel with
  | O => Err Spins
  | S fuel' =>
    do cu <- vec_get c ui ;
    if cu =? 0 then Ok 0
    else if Z.shiftr cu SIZESHIFT =? Z.land u KEYMASK then
      if Z.land (node_t (ui - Z.shiftr u IDXSHIFT)) CUCKOO_MASK <? MAXDRIFT
      then Ok (node_t (Z.land cu (SIZE - 1)))
      else Err AssertFailed
    else get_probe fuel' c u (Z.land (node_t (ui + 1)) CUCKOO_MASK)
  end.

(** [operator[]] of the pthread miner, [node] of the CUDA miners. *)
Definition cuckoo_get (c : list Z) (u : Z) : res Z :=
  get_probe (Z.to_nat CUCKOO_SIZE) c u (Z.shiftr u IDXSHIFT).


(** ** The sweep over the alive nonces of one block

    [for (nonce = block-1; alive64; ) { ffs = ffs(alive64); nonce += ffs;
    alive64 >>= ffs; BODY; if (ffs & 64) break; }].  Every round shifts at
    least one bit out of a 64-bit word, so the callers give the loop 64 bodies
    and one last test; the shift by 64 is left as [Z.shiftr], the loop breaks
    before its result is read. *)
Fixpoint ffs_sweep {A : Type} (fuel : nat) (body : Z -> A -> res A)
    (nonce alive64 : Z) (a : A) : res A :=
  match fuel with
  | O => Err Spins
  | S fuel' =>
    if alive64 =? 0 then Ok a
    else
      let ffs := ffsll alive64 in
      let nonce' := nonce_t (nonce + ffs) in
      let alive64' := Z.shiftr alive64 ffs in
      do a' <- body nonce' a ;
      if Z.land ffs 64 =? 0 then ffs_sweep fuel' body nonce' alive64' a'
      else Ok a'
  end.

(** [for (block = id*64; block < HALFSIZE; block += nthreads*64)]: at most
    [HALFSIZE/64] bodies and one last test when the stride does not wrap. *)
Fixpoint block_loop {A : Type} (fuel : nat) (step : Z) (body : Z -> A -> res A)
    (blk : Z) (a : A) : res A :=
  match fuel with
  | O => Err Spins
  | S fuel' =>
    if blk <? HALFSIZE then
      do a' <- body blk a ;
      block_loop fuel' step body (nonce_t (blk + step)) a'
    else Ok a
  end.

Definition block_fuel : nat := S (Z.to_nat (HALFSIZE / 64)).

(** [u64 buffer[64]; buffer[bsize++] = x]. *)
Definition buffer_push (buffer : list Z) (x : Z) : res (list Z) :=
  if Z.of_nat (length buffer) <? 64 then Ok (buffer ++ [u64 x])
  else Err OutOfBounds.

Definition NONCESHIFT : Z := SIZESHIFT - 1 - PART_BITS.
Definition NODEPARTMASK : Z := Z.shiftr NODEMASK PART_BITS.

Definition count_block (alive : shrinkingset) (uorv part blk : Z)
    (nonleaf : list Z) : res (list Z) :=
  do alive64 <- block alive blk ;
  do buffer <- ffs_sweep 65
      (fun nonce buffer =>
         let u := _sipnode nonce uorv in
         if Z.land u PART_MASK =? part
         then buffer_push buffer (Z.shiftr u PART_BITS)
         else Ok buffer)
      (nonce_t (blk - 1)) alive64 [] ;
  foldM (fun nonleaf x => twice_set_set nonleaf (node_t x)) buffer nonleaf.

Definition count_node_deg (id nthreads : Z) (alive : shrinkingset)
    (uorv part : Z) (nonleaf : list Z) : res (list Z) :=
  block_loop block_fuel (u32 (nthreads * 64))
    (count_block alive uorv part) (nonce_t (u32 (id * 64))) nonleaf.

Definition kill_block (id : Z) (nonleaf : list Z) (uorv part blk : Z)
    (alive : shrinkingset) : res shrinkingset :=
  do alive64 <- block alive blk ;
  do buffer <- ffs_sweep 65
      (fun nonce buffer =>
         let u := _sipnode nonce uorv in
         if Z.land u PART_MASK =? part
         then buffer_push buffer
                (Z.lor (u64 (Z.shiftl nonce NONCESHIFT)) (Z.shiftr u PART_BITS))
         else Ok buffer)
      (nonce_t (blk - 1)) alive64 [] ;
  foldM (fun alive bi =>
           do t <- twice_set_test nonleaf (node_t (Z.land bi NODEPARTMASK)) ;
           if t =? 0
           then reset alive (nonce_t (Z.lor blk (Z.shiftr bi NONCESHIFT))) id
           else Ok alive)
        buffer alive.

Definition kill_leaf_edges (id nthreads : Z) (nonleaf : list Z)
    (uorv part : Z) (alive : shrinkingset) : res shrinkingset :=
  block_loop block_fuel (u32 (nthreads * 64))
    (kill_block id nonleaf uorv part) (nonce_t (u32 (id * 64))) alive.

(** ** The trimming rounds of [worker]

    The threads meet at a barrier after the reset of [nonleaf], after
    [count_node_deg] and after [kill_leaf_edges].  Between two barriers
    [count_phase] and [kill_phase] run the threads one after the other, in
    the order of their ids.  For [kill_leaf_edges] that is all there is: a
    thread writes the words of [alive] of its own blocks and its own counter,
    and reads [nonleaf].  For [count_node_deg] it is exact with one thread.
    With more threads the [set] of the build without ATOMIC reads a word of
    [nonleaf] and writes it back while other threads do the same, and a count
    of one thread can be lost under the write of another; [count_phase] has
    no such run, and what is proved of it for more than one thread is proved
    for every content of [nonleaf].  The count phase of the ATOMIC build,
    with the atomic steps of the threads in any order, is
    [count_phase_atomic]. *)
Definition thread_ids (nthreads : Z) : list Z := seqZ 0 nthreads.

Definition count_phase (nthreads : Z) (alive : shrinkingset) (uorv part : Z)
    (nonleaf : list Z) : res (list Z) :=
  foldM (fun nonleaf id => count_node_deg id nthreads alive uorv part nonleaf)
        (thread_ids nthreads) nonleaf.

Definition kill_phase (nthreads : Z) (nonleaf : list Z) (uorv part : Z)
    (alive : shrinkingset) : res shrinkingset :=
  foldM (fun alive id => kill_leaf_edges id nthreads nonleaf uorv part alive)
        (thread_ids nthreads) alive.

Record cuckoo_ctx : Type := mk_cuckoo_ctx {
  alive : shrinkingset;
  nonleaf : list Z
}.

Definition cuckoo_ctx_new (nthreads : Z) : res cuckoo_ctx :=
  do s <- shrinkingset_new nthreads ;
  Ok (mk_cuckoo_ctx s twice_set_new).

Definition trim_pass (nthreads : Z) (ctx : cuckoo_ctx) (pass : Z * Z)
    : res cuckoo_ctx :=
  let '(uorv, part) := pass in
  do nonleaf' <- count_phase nthreads (alive ctx) uorv part
                   (twice_set_reset (nonleaf ctx)) ;
  do alive' <- kill_phase nthreads nonleaf' uorv part (alive ctx) ;
  Ok (mk_cuckoo_ctx alive' nonleaf').

(** [for (uorv = 0; uorv < 2; uorv++) for (part = 0; part <= PART_MASK; part++)]. *)
Definition passes : list (Z * Z) :=
  flat_map (fun uorv => map (fun part => (uorv, part)) (seqZ 0 (PART_MASK + 1)))
           [0; 1].

Definition trim_round (nthreads : Z) (ctx : cuckoo_ctx) : res cuckoo_ctx :=
  foldM (trim_pass nthreads) passes ctx.

(** [for (round = 1; round <= ntrims; round++)]. *)
Fixpoint trim (nthreads : Z) (ntrims : nat) (ctx : cuckoo_ctx) : res cuckoo_ctx :=
  match ntrims with
  | O => Ok ctx
  | S k => do ctx' <- trim nthreads k ctx ; trim_round nthreads ctx'
  end.

(** After the last round thread 0 computes the load and leaves the process
    when it is 90 or more; otherwise the cuckoo table is made and every thread
    goes on to the cycle search. *)
Inductive status : Type := Overloaded | Search.

Definition final_load (alive : shrinkingset) : Z :=
  u32 (u64 (100 * count alive) / CUCKOO_SIZE).

Definition after_trim (alive : shrinkingset) : status :=
  if 90 <=? final_load alive then Overloaded else Search.

(** The same test in the CUDA miner: the bitmap is copied back from the
    device and read as u64 words, the alive nonces are counted with a
    population count of the complemented words, and the load is kept in a
    u64. *)
Definition gpu_count (b : list Z) : res Z :=
  foldM (fun cnt i =>
           do x <- gpu_wideblock b (64 * i) ;
           Ok (u64 (cnt + popcountll x)))
        (seqZ 0 (HALFSIZE / 64)) 0.

Definition gpu_final_load (b : list Z) : res Z :=
  do cnt <- gpu_count b ;
  Ok (u64 (u64 (100 * cnt) / CUCKOO_SIZE)).

Definition gpu_after_trim (b : list Z) : res status :=
  do load <- gpu_final_load b ;
  Ok (if 90 <=? load then Overloaded else Search).

(** ** solution: nonces of a cycle, recovered from the alive set *)

Record solutions : Type := mk_solutions {
  sols : list (list Z);   (* maxsols rows of PROOFSIZE nonces *)
  nsols : Z
}.

(** [while (nu--) cycle.insert(edge(us[(nu+1)&~1], us[nu|1]))]. *)
Fixpoint cycle_us (us : list Z) (nu : nat) (cycle : gset (Z * Z))
    : res (gset (Z * Z)) :=
  match nu with
  | O => Ok cycle
  | S n =>
    do a <- vec_get us (Z.land (u32 (Z.of_nat n + 1)) (u32 (Z.lnot 1))) ;
    do b <- vec_get us (Z.lor (Z.of_nat n) 1) ;
    cycle_us us n ({[ (a, b) ]} ∪ cycle)
  end.

(** [while (nv--) cycle.insert(edge(vs[nv|1], vs[(nv+1)&~1]))]. *)
Fixpoint cycle_vs (vs : list Z) (nv : nat) (cycle : gset (Z * Z))
    : res (gset (Z * Z)) :=
  match nv with
  | O => Ok cycle
  | S n =>
    do a <- vec_get vs (Z.lor (Z.of_nat n) 1) ;
    do b <- vec_get vs (Z.land (u32 (Z.of_nat n + 1)) (u32 (Z.lnot 1))) ;
    cycle_vs vs n ({[ (a, b) ]} ∪ cycle)
  end.

(** State of the recovery sweep: the edges still looked for, the row being
    filled and the number of nonces written to it. *)
Definition solution_step (nonce : Z) (st : gset (Z * Z) * list Z * Z)
    : res (gset (Z * Z) * list Z * Z) :=
  let '(cycle, row, n) := st in
  let e := (sipnode nonce 0, sipnode nonce 1) in
  if decide (e ∈ cycle) then
    do row' <- vec_set row n nonce ;
    Ok (if 2 <? PROOFSIZE then cycle ∖ {[ e ]} else cycle, row', u32 (n + 1))
  else Ok st.

Definition solution (alive : shrinkingset) (ctx : solutions)
    (us : list Z) (nu : nat) (vs : list Z) (nv : nat) : res solutions :=
  do u0 <- vec_get us 0 ;
  do v0 <- vec_get vs 0 ;
  do cycle1 <- cycle_us us nu {[ (u0, v0) ]} ;
  do cycle <- cycle_vs vs nv cycle1 ;
  let soli := nsols ctx in
  do row <- vec_get (sols ctx) soli ;
  do st <- block_loop block_fuel 64
      (fun blk st =>
         do alive64 <- block alive blk ;
         ffs_sweep 65 solution_step (nonce_t (blk - 1)) alive64 st)
      0 (cycle, row, 0) ;
  let '(_, row', n) := st in
  if n =? PROOFSIZE then
    do sols' <- vec_set (sols ctx) soli row' ;
    Ok (mk_solutions sols' (u32 (soli + 1)))
  else Err AssertFailed.

(** ** The trimming kernel [kill_leaf_edges] of the CUDA miner *)

(** [dipnode], the device copy of the node hash: the rounds (SIPROUND, a macro
    of cuckoo.h) applied to [2*nce + uorv] are [siphash24]. *)
Definition dipnode (nce uorv : Z) : Z :=
  Z.land (siphash24 (u64 (nonce_t (2 * nce + uorv)))) NODEMASK.

(** [for (nonce = block-1; alive32; ) { ffs = __ffs(alive32); nonce += ffs;
    alive32 >>= ffs; BODY }].  The kernels do not leave the loop before a
    shift by the whole width; the device gives 0 for it, as [Z.shiftr] does.
    A 32-bit word takes at most 32 bodies and one last test. *)
Fixpoint gpu_sweep {A : Type} (fuel : nat) (body : Z -> A -> res A)
    (nonce alive32 : Z) (a : A) : res A :=
  match fuel with
  | O => Err Spins
  | S fuel' =>
    if alive32 =? 0 then Ok a
    else
      let ffs := ffsll alive32 in
      let nonce' := nonce_t (nonce + ffs) in
      let alive32' := Z.shiftr alive32 ffs in
      do a' <- body nonce' a ;
      gpu_sweep fuel' body nonce' alive32' a'
  end.

(** The thread [id] of the kernel works on the 32 nonces from [id * 32]. *)
Definition gpu_kill_leaf_edges (id : Z) (nonleaf : list Z) (uorv part : Z)
    (b : list Z) : res (list Z) :=
  let blk := nonce_t (id * 32) in
  do alive32 <- gpu_block b blk ;
  gpu_sweep 33
    (fun nonce b =>
       let u := dipnode nonce uorv in
       if Z.land u PART_MASK =? part then
         do t <- twice_set_test nonleaf (Z.shiftr u PART_BITS) ;
         if t =? 0 then gpu_reset b nonce else Ok b
       else Ok b)
    (nonce_t (blk - 1)) alive32 b.

(** [kernel<<<nblocks, tpb>>>]: thread [tx] of block [bx] has the id
    [bx * tpb + tx].  Every thread of the kernel reads and writes a word of
    its own; the model runs the threads in the order of their ids. *)
Definition gpu_thread_ids (nblocks tpb : Z) : list Z :=
  flat_map (fun bx => map (fun tx => bx * tpb + tx) (seqZ 0 tpb)) (seqZ 0 nblocks).

(** [kill_leaf_edges<<<(HALFSIZE/32)/tpb, tpb>>>(device_ctx, uorv, part)]. *)
Definition gpu_kill_phase (tpb : Z) (nonleaf : list Z) (uorv part : Z)
    (b : list Z) : res (list Z) :=
  foldM (fun b id => gpu_kill_leaf_edges id nonleaf uorv part b)
        (gpu_thread_ids ((HALFSIZE / 32) / tpb) tpb) b.

(** ** Output of a solution by the CUDA miner *)

Record noncedge_t : Type := mk_noncedge {
  nonce : Z;
  edge : Z * Z
}.

(** Conversion of an unsigned difference to [int]. *)
Definition int32 (x : Z) : Z :=
  let y := x mod 2 ^ 32 in if y <? 2 ^ 31 then y else y - 2 ^ 32.

Definition noncedge_cmp (a b : noncedge_t) : Z :=
  int32 (nonce_t (nonce a - nonce b)).

(** [qsort] of the C library, which orders an array by the comparator it is
    given: here an insertion sort that keeps [a] before [b] when
    [cmp a b <= 0]. *)
Fixpoint qsort_insert {A : Type} (cmp : A -> A -> Z) (x : A) (l : list A)
    : list A :=
  match l with
  | [] => [x]
  | y :: l' => if cmp x y <=? 0 then x :: l else y :: qsort_insert cmp x l'
  end.

Definition qsort {A : Type} (cmp : A -> A -> Z) (l : list A) : list A :=
  fold_right (qsort_insert cmp) [] l.

(** [qsort(ctx.sols[i], PROOFSIZE, sizeof(noncedge_t), noncedge_cmp)] and the
    loop that prints the nonces of the row. *)
Definition gpu_print_solution (row : list noncedge_t) : list Z :=
  map nonce (qsort noncedge_cmp row).

(** * Vocabulary of the statements *)

(** The nonces of the graph, what [test] says of one of them, and how many
    of them test alive. *)
Definition nonces : list Z := seqZ 0 HALFSIZE.

Definition is_alive (s : shrinkingset) (n : Z) : bool :=
  match test s n with
  | Ok b => b
  | Err _ => false
  end.

Definition alive_count (s : shrinkingset) : Z :=
  Z.of_nat (length (List.filter (is_alive s) nonces)).

(** Shape of a shrinkingset made for [nthreads] threads. *)
Definition shrinkingset_wf (nthreads : Z) (s : shrinkingset) : Prop :=
  Z.of_nat (length (bits s)) = HALFSIZE / 64 /\
  Z.of_nat (length (cnt s)) = nthreads.

(** Positions of the set bits of a word, in increasing order. *)
Fixpoint pos_bits (p : positive) (i : Z) : list Z :=
  match p with
  | xH => [i]
  | xO q => pos_bits q (i + 1)
  | xI q => i :: pos_bits q (i + 1)
  end.

Definition word_bits (w : Z) : list Z :=
  match w with
  | Zpos p => pos_bits p 0
  | _ => []
  end.

Definition Zsum (l : list Z) : Z := fold_right Z.add 0 l.

(** Shape of the alive bitmap of the CUDA miners. *)
Definition gpu_bits_wf (b : list Z) : Prop :=
  Z.of_nat (length b) = HALFSIZE / 32 /\
  Forall (fun w => 0 <= w < 2 ^ 32) b.

(** One step of the two-bit counter: 00 -> 01, 01 -> 11, 11 -> 11. *)
Definition bump (st : Z) : Z := if st =? 0 then 1 else 3.

(** The word written by [set] for the node in slot [k] of the word. *)
Definition twice_word (w k : Z) : Z :=
  Z.lor w (if Z.testbit w (2 * k) then 2 ^ (2 * k + 1) else 2 ^ (2 * k)).

(** What a trimming pass looks at for nonce [n]: whether its node lies in the
    partition, and whether the degree counter of the node says "fewer than
    two". *)
Definition in_part (uorv part n : Z) : bool :=
  Z.land (_sipnode n uorv) PART_MASK =? part.

Definition is_leaf (nonleaf : list Z) (uorv n : Z) : bool :=
  match twice_set_test nonleaf (Z.shiftr (_sipnode n uorv) PART_BITS) with
  | Ok t => t =? 0
  | Err _ => false
  end.

Definition leaf_edge (nonleaf : list Z) (uorv part n : Z) : bool :=
  in_part uorv part n && is_leaf nonleaf uorv n.

Definition in_block (blk m : Z) : bool := (blk <=? m) && (m <? blk + 64).

(** The blocks a thread visits. *)
Fixpoint blocks_from (fuel : nat) (step blk : Z) : list Z :=
  match fuel with
  | O => []
  | S fuel' =>
    if blk <? HALFSIZE then blk :: blocks_from fuel' step (blk + step) else []
  end.

Definition thread_blocks (id nthreads : Z) : list Z :=
  blocks_from block_fuel (nthreads * 64) (id * 64).

(** The value [kill_leaf_edges] keeps in its buffer for a nonce. *)
Definition pack (uorv nonce : Z) : Z :=
  u64 (Z.lor (u64 (Z.shiftl nonce NONCESHIFT))
             (Z.shiftr (_sipnode nonce uorv) PART_BITS)).

(** The nonces a sweep of block [blk] visits, given the word read for it. *)
Definition block_nonces (blk x : Z) : list Z := map (Z.add blk) (word_bits x).

Definition mem (m : Z) (l : list Z) : bool :=
  if in_dec Z.eq_dec m l then true else false.

(** What a part of the kill phase does to the alive set, for the nonces
    selected by [inb]: the doomed ones among them die, nothing else changes,
    and [reset] is called once for every nonce that dies (the counters and
    the number of alive nonces stay in step). *)
Definition kill_rel (nthreads : Z) (doomed inb : Z -> bool)
    (s s' : shrinkingset) : Prop :=
  shrinkingset_wf nthreads s' /\
  (forall m, 0 <= m < HALFSIZE ->
     is_alive s' m = is_alive s m && negb (doomed m && inb m)) /\
  u64 (count s' - alive_count s') = u64 (count s - alive_count s).

Definition ctx_wf (nthreads : Z) (ctx : cuckoo_ctx) : Prop :=
  shrinkingset_wf nthreads (alive ctx) /\
  Z.of_nat (length (nonleaf ctx)) = TWICE_WORDS.

(** One or more trimming passes took [ctx] to [ctx']: nothing came back to
    life, and the counters moved with the number of alive nonces. *)
Definition trimmed (nthreads : Z) (ctx ctx' : cuckoo_ctx) : Prop :=
  ctx_wf nthreads ctx' /\
  (forall m, 0 <= m < HALFSIZE ->
     is_alive (alive ctx') m = true -> is_alive (alive ctx) m = true) /\
  u64 (count (alive ctx') - alive_count (alive ctx'))
  = u64 (count (alive ctx) - alive_count (alive ctx)).

(** The solution rows of a fresh context: [calloc(maxsols, PROOFSIZE *
    sizeof(nonce_t))] and [nsols = 0]. *)
Definition solutions_new (maxsols : nat) : solutions :=
  mk_solutions (replicate maxsols (replicate (Z.to_nat PROOFSIZE) 0)) 0.

Definition solutions_wf (ctx : solutions) : Prop :=
  Forall (fun row => Z.of_nat (length row) = PROOFSIZE) (sols ctx).

(** The edges of the cycle handed to [solution]. *)
Definition cycle_edges (us : list Z) (nu : nat) (vs : list Z) (nv : nat)
    : res (gset (Z * Z)) :=
  do u0 <- vec_get us 0 ;
  do v0 <- vec_get vs 0 ;
  do cycle1 <- cycle_us us nu {[ (u0, v0) ]} ;
  cycle_vs vs nv cycle1.

(** A nonce the recovery sweep may write: alive, and its edge in the cycle. *)
Definition found (alive : shrinkingset) (cycle0 : gset (Z * Z)) (x : Z) : Prop :=
  0 <= x < HALFSIZE /\ test alive x = Ok true /\
  (sipnode x 0, sipnode x 1) ∈ cycle0.

(** Invariant of the recovery sweep once every nonce below [bound] has been
    looked at. *)
Definition sweep_inv (alive : shrinkingset) (cycle0 : gset (Z * Z)) (len0 : nat)
    (bound : Z) (st : gset (Z * Z) * list Z * Z) : Prop :=
  let '(cycle, row, n) := st in
  0 <= n < 2 ^ 32 /\ length row = len0 /\
  (Z.of_nat len0 < 2 ^ 32 ->
   cycle ⊆ cycle0 /\ n <= Z.of_nat len0 /\
   StronglySorted Z.lt (take (Z.to_nat n) row) /\
   List.Forall (fun x => x < bound /\ found alive cycle0 x) (take (Z.to_nat n) row)).

(** The slot a probe for [u] ends at, and whether it holds the key of [u]
    ([true]) or is empty ([false]): the loop shared by [set] and the lookup. *)
Fixpoint probe (fuel : nat) (c : list Z) (u ui : Z) : res (Z * bool) :=
  match fuel with
  | O => Err Spins
  | S fuel' =>
    do cu <- vec_get c ui ;
    if cu =? 0 then Ok (ui, false)
    else if Z.shiftr cu SIZESHIFT =? Z.land u KEYMASK then Ok (ui, true)
    else probe fuel' c u (Z.land (node_t (ui + 1)) CUCKOO_MASK)
  end.

Definition home (u : Z) : Z := Z.shiftr u IDXSHIFT.
Definition entry (u v : Z) : Z := Z.lor (u64 (Z.shiftl u SIZESHIFT)) v.
Definition occupied (c : list Z) : nat :=
  length (List.filter (fun e => negb (e =? 0)) c).

(** The cuckoo table as the spec words it: a map from nodes to nodes in which
    the most recent [set] for a key wins, and [lookup] gives 0 for a key that
    was never set. *)
Definition cuckoo_model (ops : list (Z * Z)) : gmap Z Z :=
  fold_left (fun m kv => <[kv.1 := kv.2]> m) ops ∅.

Definition model_lookup (ops : list (Z * Z)) (u : Z) : Z :=
  default 0 (cuckoo_model ops !! u).

(** Value of the most recent [set] for [u] in the run [ops], 0 when there is
    none. *)
Definition last_set (ops : list (Z * Z)) (u : Z) : Z :=
  fold_left (fun acc kv => if kv.1 =? u then kv.2 else acc) ops 0.

Definition distinct_keys (ops : list (Z * Z)) : Z :=
  Z.of_nat (size (cuckoo_model ops)).

Definition cuckoo_run (ops : list (Z * Z)) : res (list Z) :=
  foldM (fun c kv => cuckoo_set c kv.1 kv.2) ops cuckoo_new.

(** The table [c] holds the map [m]. *)
Definition cuckoo_inv (c : list Z) (m : gmap Z Z) : Prop :=
  Z.of_nat (length c) = CUCKOO_SIZE /\
  (forall j e, vec_get c j = Ok e -> e <> 0 ->
     exists k v, e = entry k v /\
                 (0 <= k < SIZE /\ (k <> 0 \/ v <> 0)) /\ 0 <= v < SIZE /\
                 m !! k = Some v /\
                 probe (Z.to_nat CUCKOO_SIZE) c k (home k) = Ok (j, true)) /\
  (forall k v, m !! k = Some v ->
     (0 <= k < SIZE /\ (k <> 0 \/ v <> 0)) /\ 0 <= v < SIZE /\
     exists j, probe (Z.to_nat CUCKOO_SIZE) c k (home k) = Ok (j, true) /\
               vec_get c j = Ok (entry k v)) /\
  occupied c = size m.

Definition gpu_is_alive (b : list Z) (n : Z) : bool :=
  match gpu_test b n with
  | Ok t => t
  | Err _ => false
  end.

Definition gpu_alive_count (b : list Z) : Z :=
  Z.of_nat (length (List.filter (gpu_is_alive b) nonces)).

(** What the kernel looks at for nonce [n], and what a part of the launch
    does to the bitmap. *)
Definition gpu_leaf_edge (nonleaf : list Z) (uorv part n : Z) : bool :=
  (Z.land (dipnode n uorv) PART_MASK =? part) &&
  match twice_set_test nonleaf (Z.shiftr (dipnode n uorv) PART_BITS) with
  | Ok t => t =? 0
  | Err _ => false
  end.

Definition gpu_kill_rel (doomed inb : Z -> bool) (b b' : list Z) : Prop :=
  gpu_bits_wf b' /\
  (forall m, 0 <= m < HALFSIZE ->
     gpu_is_alive b' m = gpu_is_alive b m && negb (doomed m && inb m)).

(** * Further vocabulary: degrees, cycles and the order of the threads *)

(** The node a pass on side [uorv] counts for nonce [n], and the number of
    alive nonces of the partition that share the node [u]. *)
Definition part_node (uorv n : Z) : Z := Z.shiftr (_sipnode n uorv) PART_BITS.

Definition degree (s : shrinkingset) (uorv part u : Z) : nat :=
  length (List.filter
            (fun n => is_alive s n && in_part uorv part n
                      && (part_node uorv n =? u))
            nonces).

(** The word [block] reads for [blk], and the nonces the threads of a phase
    visit, in the order of the sequential schedule. *)
Definition block_word (s : shrinkingset) (blk : Z) : Z :=
  match block s blk with
  | Ok x => x
  | Err _ => 0
  end.

Definition thread_nonces (s : shrinkingset) (id nthreads : Z) : list Z :=
  flat_map (fun blk => block_nonces blk (block_word s blk))
           (thread_blocks id nthreads).

Definition phase_nonces (nthreads : Z) (s : shrinkingset) : list Z :=
  flat_map (fun id => thread_nonces s id nthreads) (thread_ids nthreads).

(** What [count_node_deg] does for one nonce. *)
Definition count_step (uorv part : Z) (tw : list Z) (n : Z) : res (list Z) :=
  if in_part uorv part n then twice_set_set tw (part_node uorv n) else Ok tw.

(** Two alive sets with the same alive nonces. *)
Definition same_alive (s1 s2 : shrinkingset) : Prop :=
  forall m, 0 <= m < HALFSIZE -> is_alive s1 m = is_alive s2 m.

(** A set of nonces in which every edge has, at both of its ends, another
    edge of the set: the edges of a cycle, or of any union of cycles. *)
Definition two_core (C : Z -> bool) : Prop :=
  forall n, C n = true ->
    0 <= n < HALFSIZE /\
    forall uorv, 0 <= uorv <= 1 ->
      exists m, C m = true /\ m <> n /\ _sipnode m uorv = _sipnode n uorv.

(** * The count phase of the ATOMIC build

    With ATOMIC, [set] is two [std::atomic_fetch_or_explicit] on a word of
    [nonleaf], the second one only when the first found the low bit of the
    node there.  Between the two barriers of the count phase the threads take
    these steps in any order; everything else a thread does there touches
    only its own variables, and [alive] is not written before the barrier. *)

(** The nodes [count_node_deg] hands to [set] for one block, in the order of
    its buffer, and for all the blocks of a thread. *)
Definition count_block_calls (alive : shrinkingset) (uorv part blk : Z)
    (calls : list Z) : res (list Z) :=
  do alive64 <- block alive blk ;
  do buffer <- ffs_sweep 65
      (fun nonce buffer =>
         let u := _sipnode nonce uorv in
         if Z.land u PART_MASK =? part
         then buffer_push buffer (Z.shiftr u PART_BITS)
         else Ok buffer)
      (nonce_t (blk - 1)) alive64 [] ;
  Ok (calls ++ map node_t buffer).

Definition count_calls (id nthreads : Z) (alive : shrinkingset)
    (uorv part : Z) : res (list Z) :=
  block_loop block_fuel (u32 (nthreads * 64))
    (count_block_calls alive uorv part) (nonce_t (u32 (id * 64))) [].

(** [std::atomic_fetch_or_explicit(&bits[idx], v, std::memory_order_relaxed)]:
    the word is or-ed with [v] in one step, and its old value returned. *)
Definition fetch_or (tw : list Z) (idx v : Z) : res (Z * list Z) :=
  do old <- vec_get tw idx ;
  do tw' <- vec_set tw idx (Z.lor old v) ;
  Ok (old, tw').

(** A thread between two of its atomic steps: the node whose first fetch-or
    found the low bit set, so that the second one is due, and the nodes it
    has still to [set]. *)
Record count_thread : Type := mk_count_thread {
  ct_due : option Z;
  ct_todo : list Z
}.

(** The next atomic step of a thread; a thread at the barrier takes none. *)
Definition thread_step (tw : list Z) (t : count_thread)
    : res (list Z * count_thread) :=
  match ct_due t with
  | Some u =>
    let idx := u / 16 in
    let bit := u32 (Z.shiftl 1 (2 * (u mod 16))) in
    do r <- fetch_or tw idx (u32 (Z.shiftl bit 1)) ;
    Ok (r.2, mk_count_thread None (ct_todo t))
  | None =>
    match ct_todo t with
    | [] => Ok (tw, t)
    | u :: rest =>
      let idx := u / 16 in
      let bit := u32 (Z.shiftl 1 (2 * (u mod 16))) in
      do r <- fetch_or tw idx bit ;
      Ok (r.2, mk_count_thread (if Z.land r.1 bit =? 0 then None else Some u)
                               rest)
    end
  end.

(** A schedule names, step by step, the thread that moves; a number that
    names no thread moves nothing. *)
Definition sched_step (st : list Z * list count_thread) (i : Z)
    : res (list Z * list count_thread) :=
  match vec_get st.2 i with
  | Ok t => do r <- thread_step st.1 t ; Ok (r.1, <[Z.to_nat i := r.2]> st.2)
  | Err _ => Ok st
  end.

Definition run_schedule (sched : list Z) (st : list Z * list count_thread)
    : res (list Z * list count_thread) :=
  foldM sched_step sched st.

(** The threads run to the barrier, one after the other: enough steps for
    each to finish whatever it had left. *)
Definition steps_bound (ts : list count_thread) : nat :=
  list_sum (map (fun t => 2 * length (ct_todo t))%nat ts).

Definition completion (ts : list count_thread) : list Z :=
  flat_map (fun i => replicate (steps_bound ts) i)
           (seqZ 0 (Z.of_nat (length ts))).

Definition count_threads (nthreads : Z) (alive : shrinkingset) (uorv part : Z)
    : res (list count_thread) :=
  foldM (fun ts id =>
           do calls <- count_calls id nthreads alive uorv part ;
           Ok (ts ++ [mk_count_thread None calls]))
        (thread_ids nthreads) [].

(** One execution of the count phase: the atomic steps are taken in the
    order of [sched], and when [sched] is used up the threads that are not
    yet at the barrier go on to it.  Every interleaving of the steps of the
    threads is the run of some [sched]. *)
Definition count_phase_atomic (nthreads : Z) (sched : list Z)
    (alive : shrinkingset) (uorv part : Z) (nonleaf : list Z)
    : res (list Z) :=
  do ts <- count_threads nthreads alive uorv part ;
  do st <- run_schedule (sched ++ completion ts) (nonleaf, ts) ;
  Ok st.1.

(** A pass, a round and the rounds of trimming on the ATOMIC build: each
    count phase runs under a schedule of its own, [scheds k pass] for the
    pass [pass] of round [k + 1]. *)
Definition trim_pass_atomic (nthreads : Z) (sched : list Z) (ctx : cuckoo_ctx)
    (pass : Z * Z) : res cuckoo_ctx :=
  let '(uorv, part) := pass in
  do nonleaf' <- count_phase_atomic nthreads sched (alive ctx) uorv part
                   (twice_set_reset (nonleaf ctx)) ;
  do alive' <- kill_phase nthreads nonleaf' uorv part (alive ctx) ;
  Ok (mk_cuckoo_ctx alive' nonleaf').

Definition trim_round_atomic (nthreads : Z) (sched : Z * Z -> list Z)
    (ctx : cuckoo_ctx) : res cuckoo_ctx :=
  foldM (fun ctx pass => trim_pass_atomic nthreads (sched pass) ctx pass)
        passes ctx.

Fixpoint trim_atomic (nthreads : Z) (scheds : nat -> Z * Z -> list Z)
    (ntrims : nat) (ctx : cuckoo_ctx) : res cuckoo_ctx :=
  match ntrims with
  | O => Ok ctx
  | S k =>
    do ctx' <- trim_atomic nthreads scheds k ctx ;
    trim_round_atomic nthreads (scheds k) ctx'
  end.

(** Bookkeeping for a node [u] while the count phase runs: the calls
    [set(u)] not yet begun, and the threads whose second fetch-or for [u] is
    due. *)
Definition todo_at (u : Z) (t : count_thread) : nat :=
  count_occ Z.eq_dec (ct_todo t) u.

Definition due_at (u : Z) (t : count_thread) : nat :=
  match ct_due t with
  | Some x => if Z.eq_dec x u then 1%nat else 0%nat
  | None => 0%nat
  end.

Definition calls_left (u : Z) (ts : list count_thread) : nat :=
  list_sum (map (todo_at u) ts).

Definition calls_due (u : Z) (ts : list count_thread) : nat :=
  list_sum (map (due_at u) ts).

(** The nodes thread [id] sets in a count phase. *)
Definition thread_calls (s : shrinkingset) (uorv part id nthreads : Z)
    : list Z :=
  map (part_node uorv)
      (List.filter (in_part uorv part) (thread_nonces s id nthreads)).

Definition steps_left (t : count_thread) : nat :=
  (2 * length (ct_todo t) + match ct_due t with Some _ => 1 | None => 0 end)%nat.

(** No thread has gone back: the same threads, none with more steps to take. *)
Definition no_more_steps (ts ts' : list count_thread) : Prop :=
  length ts' = length ts /\
  forall j t, ts !! j = Some t ->
    exists t', ts' !! j = Some t' /\ (steps_left t' <= steps_left t)%nat.

(** The two bits of a node, against the [total] calls for it of which [left]
    have not begun and [due] are between their two steps. *)
Definition tally (total left due : nat) (st : Z) : Prop :=
  (left <= total)%nat /\
  ((total = left /\ due = 0%nat /\ st = 0) \/
   (total = (left + due + 1)%nat /\ st = 1) \/
   ((left + due + 2 <= total)%nat /\ st = 3)).

Definition count_ok (total : Z -> nat) (st : list Z * list count_thread)
    : Prop :=
  Z.of_nat (length st.1) = TWICE_WORDS /\
  Forall (fun t => Forall (fun x => 0 <= x < ONCE_BITS) (ct_todo t) /\
                   forall x, ct_due t = Some x -> 0 <= x < ONCE_BITS) st.2 /\
  forall u, 0 <= u < ONCE_BITS ->
    exists s, twice_set_state st.1 u = Ok s /\
              tally (total u) (calls_left u st.2) (calls_due u st.2) s.

(** What a pass on side [uorv] and partition [part] makes of [ctx]: a nonce
    tests alive afterwards when it was alive and is not both in the
    partition and the only alive nonce of the partition at its node. *)
Definition leaves_removed (nthreads : Z) (ctx : cuckoo_ctx) (uorv part : Z)
    (ctx' : cuckoo_ctx) : Prop :=
  ctx_wf nthreads ctx' /\
  forall n, 0 <= n < HALFSIZE ->
    test (alive ctx') n
    = Ok (is_alive (alive ctx) n
          && negb ((Z.land (_sipnode n uorv) PART_MASK =? part)
                   && (degree (alive ctx) uorv part
                         (Z.shiftr (_sipnode n uorv) PART_BITS) <? 2)%nat)).

(** * The cycle search of [worker]

    For every alive nonce of its blocks a thread follows the paths from the
    two ends of the edge through the cuckoo table: the edge closes a cycle
    when the paths end in the same node, and is added to the table otherwise.
    [us] and [vs] are the arrays of the thread; the table and the solutions
    are shared. *)

(** [path]: the nodes [u], [cuckoo[u]], ... are stored from [us[1]] on until
    the lookup gives 0.  [None] is the branch that prints and leaves the
    thread by [pthread_exit], taken when [++nu] reaches MAXPATHLEN; the loop
    is in its round MAXPATHLEN at the latest then. *)
Fixpoint path (fuel : nat) (cuckoo : list Z) (u : Z) (us : list Z) (nu : Z)
    : res (option (Z * list Z)) :=
  match fuel with
  | O => Err Spins
  | S fuel' =>
    if u =? 0 then Ok (Some (nu, us))
    else
      let nu' := u32 (nu + 1) in
      if MAXPATHLEN <=? nu' then Ok None
      else
        do us' <- vec_set us nu' u ;
        do u' <- cuckoo_get cuckoo u ;
        path fuel' cuckoo u' us' nu'
  end.

Definition path_fuel : nat := Z.to_nat MAXPATHLEN.

(** [for (nu -= min, nv -= min; us[nu] != vs[nv]; nu++, nv++) ;]. *)
Fixpoint meet (fuel : nat) (us vs : list Z) (nu nv : Z) : res (Z * Z) :=
  match fuel with
  | O => Err Spins
  | S fuel' =>
    do a <- vec_get us nu ;
    do b <- vec_get vs nv ;
    if a =? b then Ok (nu, nv)
    else meet fuel' us vs (u32 (nu + 1)) (u32 (nv + 1))
  end.

(** [while (nu--) cuckoo.set(us[nu+1], us[nu])]. *)
Fixpoint relink (nu : nat) (us : list Z) (cuckoo : list Z) : res (list Z) :=
  match nu with
  | O => Ok cuckoo
  | S n =>
    do a <- vec_get us (u32 (Z.of_nat n + 1)) ;
    do b <- vec_get us (Z.of_nat n) ;
    do cuckoo' <- cuckoo_set cuckoo a b ;
    relink n us cuckoo'
  end.

Record search_state : Type := mk_search_state {
  st_cuckoo : list Z;
  st_sols : solutions;
  st_us : list Z;
  st_vs : list Z
}.

(** How the body of the search loop was left: at its last statement, by
    [continue], or with the thread by [pthread_exit] inside [path]. *)
Inductive flow : Type := Next | Skip | Exited.

(** The body of the search loop for one nonce. *)
Definition search_step (alive : shrinkingset) (maxsols : Z) (nonce : Z)
    (st : search_state) : res (search_state * flow) :=
  let u0 := sipnode nonce 0 in
  let v0 := sipnode nonce 1 in
  if u0 =? 0 then Ok (st, Skip)
  else
    let cuckoo := st_cuckoo st in
    do us0 <- vec_set (st_us st) 0 u0 ;
    do u <- cuckoo_get cuckoo u0 ;
    do vs0 <- vec_set (st_vs st) 0 v0 ;
    do v <- cuckoo_get cuckoo v0 ;
    do pu <- path path_fuel cuckoo u us0 0 ;
    match pu with
    | None => Ok (mk_search_state cuckoo (st_sols st) us0 vs0, Exited)
    | Some (nu, us1) =>
      do pv <- path path_fuel cuckoo v vs0 0 ;
      match pv with
      | None => Ok (mk_search_state cuckoo (st_sols st) us1 vs0, Exited)
      | Some (nv, vs1) =>
        do ru <- vec_get us1 nu ;
        do rv <- vec_get vs1 nv ;
        if ru =? rv then
          let min := if nu <? nv then nu else nv in
          do m <- meet (S path_fuel) us1 vs1 (u32 (nu - min)) (u32 (nv - min)) ;
          let '(nu', nv') := m in
          let len := u32 (nu' + nv' + 1) in
          if (len =? PROOFSIZE) && (nsols (st_sols st) <? maxsols) then
            do sols' <- solution alive (st_sols st) us1 (Z.to_nat nu')
                          vs1 (Z.to_nat nv') ;
            Ok (mk_search_state cuckoo sols' us1 vs1, Skip)
          else Ok (mk_search_state cuckoo (st_sols st) us1 vs1, Skip)
        else if nu <? nv then
          do c1 <- relink (Z.to_nat nu) us1 cuckoo ;
          do c2 <- cuckoo_set c1 u0 v0 ;
          Ok (mk_search_state c2 (st_sols st) us1 vs1, Next)
        else
          do c1 <- relink (Z.to_nat nv) vs1 cuckoo ;
          do c2 <- cuckoo_set c1 v0 u0 ;
          Ok (mk_search_state c2 (st_sols st) us1 vs1, Next)
      end
    end.

(** ** The search of a thread, and of all threads

    How a thread stands in its search: still running; gone by
    [pthread_exit] inside [path]; or past the point where C gives the loop a
    meaning.  The last is the [continue] of a round whose [ffs] is 64: it
    skips [if (ffs & 64) break], and the loop goes on to test the [alive64]
    that was shifted by 64. *)
Inductive progress : Type :=
| Running (st : search_state)
| Gone (st : search_state)
| Undefined.

(** The sweep of the search over one block, with the [continue]s of its
    body. *)
Fixpoint search_sweep (fuel : nat) (alive : shrinkingset) (maxsols : Z)
    (nonce alive64 : Z) (st : search_state) : res progress :=
  match fuel with
  | O => Err Spins
  | S fuel' =>
    if alive64 =? 0 then Ok (Running st)
    else
      let ffs := ffsll alive64 in
      let nonce' := nonce_t (nonce + ffs) in
      let alive64' := Z.shiftr alive64 ffs in
      do r <- search_step alive maxsols nonce' st ;
      match r.2 with
      | Exited => Ok (Gone r.1)
      | Next =>
        if Z.land ffs 64 =? 0
        then search_sweep fuel' alive maxsols nonce' alive64' r.1
        else Ok (Running r.1)
      | Skip =>
        if ffs <? 64
        then search_sweep fuel' alive maxsols nonce' alive64' r.1
        else Ok Undefined
      end
  end.

Definition search_block (alive : shrinkingset) (maxsols : Z) (blk : Z)
    (p : progress) : res progress :=
  match p with
  | Running st =>
    do alive64 <- block alive blk ;
    search_sweep 65 alive maxsols (nonce_t (blk - 1)) alive64 st
  | _ => Ok p
  end.

(** The search of thread [id], from the barrier after the load test to its
    [pthread_exit]: on the table and the solutions the threads share, with
    arrays [us] and [vs] of its own.  The arrays are not initialised in the
    source; every entry is written before it is read, the model starts them
    at 0.  [None]: the thread went past the meaning of C. *)
Definition worker_search (id nthreads : Z) (alive : shrinkingset)
    (maxsols : Z) (shared : list Z * solutions)
    : res (option (list Z * solutions)) :=
  let st := mk_search_state shared.1 shared.2
              (replicate (Z.to_nat MAXPATHLEN) 0)
              (replicate (Z.to_nat MAXPATHLEN) 0) in
  do p <- block_loop block_fuel (u32 (nthreads * 64))
            (search_block alive maxsols) (nonce_t (u32 (id * 64)))
            (Running st) ;
  Ok match p with
     | Running st' | Gone st' => Some (st_cuckoo st', st_sols st')
     | Undefined => None
     end.

(** The search of all threads on a fresh table.  The threads run one after
    the other, in the order of their ids: one of the orders in which they
    may come to the table. *)
Definition search (nthreads : Z) (alive : shrinkingset) (maxsols : nat)
    : res (option solutions) :=
  do r <- foldM (fun shared id =>
                   match shared with
                   | Some sh =>
                     worker_search id nthreads alive (Z.of_nat maxsols) sh
                   | None => Ok None
                   end)
                (thread_ids nthreads)
                (Some (cuckoo_new, solutions_new maxsols)) ;
  Ok (option_map snd r).

(** The solver on its ATOMIC build: [nthreads] workers trim for [ntrims]
    rounds, thread 0 leaves the process when the load is 90 or more
    ([Overloaded]), and the threads search otherwise. *)
Definition solve (nthreads : Z) (scheds : nat -> Z * Z -> list Z)
    (ntrims maxsols : nat) : res (status * option solutions) :=
  do ctx0 <- cuckoo_ctx_new nthreads ;
  do ctx <- trim_atomic nthreads scheds ntrims ctx0 ;
  match after_trim (alive ctx) with
  | Overloaded => Ok (Overloaded, None)
  | Search =>
    do r <- search nthreads (alive ctx) maxsols ;
    Ok (Search, r)
  end.

(** A keyed hash for the worked examples of the search: on 256 nonces, the
    nonces 0, 64, 65, 66, 128 and 129 are the six edges between the U nodes
    1, 2 and the V nodes 1, 2, 3; every other nonce has two nodes of its
    own. *)
Definition k23_hash (x : Z) : Z :=
  match x with
  | 0 => 1 | 1 => 1
  | 128 => 2 | 129 => 1
  | 130 => 1 | 131 => 2
  | 132 => 2 | 133 => 2
  | 256 => 1 | 257 => 3
  | 258 => 2 | 259 => 3
  | 2 => 64 | 3 => 64
  | 4 => 65 | 5 => 65
  | 7 => 66
  | _ => x / 2
  end.



(** * Vocabulary of the search: the table as a forest *)

(** The node the table gives for [x], and the [k]-th node on the way from
    [u]. *)
Definition next (m : gmap Z Z) (x : Z) : Z := default 0 (m !! x).

Definition walk (m : gmap Z Z) (u : Z) (k : nat) : Z := Nat.iter k (next m) u.

(** The way from [u] has [k] nodes before the table gives 0. *)
Definition ends_after (m : gmap Z Z) (u : Z) (k : nat) : Prop :=
  walk m u k = 0 /\ forall i : nat, (i < k)%nat -> walk m u i <> 0.

(** [a] and [b] are joined by an entry of the table, in either direction. *)
Definition linked (m : gmap Z Z) (a b : Z) : Prop :=
  a <> 0 /\ b <> 0 /\ (m !! a = Some b \/ m !! b = Some a).

(** The table after [while (nu--) cuckoo.set(us[nu+1], us[nu])] on an array
    that holds [f 0], ..., [f nu]. *)
Fixpoint relink_map (f : nat -> Z) (n : nat) (m : gmap Z Z) : gmap Z Z :=
  match n with
  | O => m
  | S k => relink_map f k (<[f (S k) := f k]> m)
  end.

(** * Trimming by the CUDA miner *)

(** The kernel [count_node_deg]: thread [id] counts the nodes of the alive
    nonces of its 32-bit word. *)
Definition gpu_count_node_deg (id uorv part : Z) (b nonleaf : list Z)
    : res (list Z) :=
  let blk := nonce_t (id * 32) in
  do alive32 <- gpu_block b blk ;
  gpu_sweep 33
    (fun nonce nonleaf =>
       let u := dipnode nonce uorv in
       if Z.land u PART_MASK =? part
       then gpu_twice_set_set nonleaf (Z.shiftr u PART_BITS)
       else Ok nonleaf)
    (nonce_t (blk - 1)) alive32 nonleaf.

(** [count_node_deg<<<(HALFSIZE/32)/tpb, tpb>>>(device_ctx, uorv, part)], the
    threads in the order of their ids. *)
Definition gpu_count_phase (tpb : Z) (b : list Z) (uorv part : Z)
    (nonleaf : list Z) : res (list Z) :=
  foldM (fun nonleaf id => gpu_count_node_deg id uorv part b nonleaf)
        (gpu_thread_ids ((HALFSIZE / 32) / tpb) tpb) nonleaf.

(** The two arrays on the device. *)
Record gpu_ctx : Type := mk_gpu_ctx {
  gpu_alive : list Z;
  gpu_nonleaf : list Z
}.

(** [main]: the bitmap is allocated and cleared, [nonleaf] is allocated and
    holds whatever [nl0] the device memory held. *)
Definition gpu_ctx_new (nl0 : list Z) : gpu_ctx :=
  mk_gpu_ctx (replicate (Z.to_nat (HALFSIZE / 32)) 0) nl0.

(** One pass of the loops of [main]: [cudaMemset(ctx.nonleaf.bits, 0,
    nodeBytes)] and the two kernels. *)
Definition gpu_trim_pass (tpb : Z) (ctx : gpu_ctx) (pass : Z * Z) : res gpu_ctx :=
  let '(uorv, part) := pass in
  do nonleaf' <- gpu_count_phase tpb (gpu_alive ctx) uorv part
                   (twice_set_reset (gpu_nonleaf ctx)) ;
  do alive' <- gpu_kill_phase tpb nonleaf' uorv part (gpu_alive ctx) ;
  Ok (mk_gpu_ctx alive' nonleaf').

Definition gpu_trim_round (tpb : Z) (ctx : gpu_ctx) : res gpu_ctx :=
  foldM (gpu_trim_pass tpb) passes ctx.

(** [for (round = 0; round < ntrims; round++)]. *)
Fixpoint gpu_trim (tpb : Z) (ntrims : nat) (ctx : gpu_ctx) : res gpu_ctx :=
  match ntrims with
  | O => Ok ctx
  | S k => do ctx' <- gpu_trim tpb k ctx ; gpu_trim_round tpb ctx'
  end.

(** The word [block] of the CUDA miner reads for [blk], the nonces the
    threads of a kernel visit, and a bitmap and an alive set with the same
    alive nonces. *)
Definition gpu_block_word (b : list Z) (blk : Z) : Z :=
  match gpu_block b blk with
  | Ok x => x
  | Err _ => 0
  end.

Definition gpu_phase_nonces (tpb : Z) (b : list Z) : list Z :=
  flat_map (fun id => block_nonces (id * 32) (gpu_block_word b (id * 32)))
           (gpu_thread_ids ((HALFSIZE / 32) / tpb) tpb).

Definition agree (b : list Z) (s : shrinkingset) : Prop :=
  forall m, 0 <= m < HALFSIZE -> gpu_is_alive b m = is_alive s m.

(** * Launches of the CUDA miner *)

(** [if (!tpb) for (tpb = 1; tpb*tpb < nthreads; tpb *= 2) ;] of [main], on
    [int]s.  An overflow of [tpb*tpb], undefined in C, is written as the
    wrap-around of the machine; there is none for [nthreads <= 2^30], and the
    loop stops within 16 rounds then. *)
Fixpoint tpb_loop (fuel : nat) (nthreads tpb : Z) : res Z :=
  match fuel with
  | O => Err Spins
  | S fuel' =>
    if int32 (tpb * tpb) <? nthreads
    then tpb_loop fuel' nthreads (int32 (tpb * 2))
    else Ok tpb
  end.

Definition main_tpb (nthreads tpb : Z) : res Z :=
  if tpb =? 0 then tpb_loop 32 nthreads 1 else Ok tpb.

(** [find_cycles<<<nthreads / tpb, tpb>>>(device_ctx)]: every thread of the
    launch runs [for (block = id*64; block < HALFSIZE; block +=
    ctx->nthreads*64)] around the sweep of a block, which is [sweep] here;
    nothing in the sweep leaves the loop over the blocks. *)
Definition find_cycles_launch {A : Type} (sweep : Z -> Z -> A -> res A)
    (nthreads tpb : Z) (a : A) : res A :=
  foldM (fun a id =>
           block_loop block_fuel (u32 (int32 (nthreads * 64))) (sweep id)
             (nonce_t (int32 (id * 64))) a)
        (gpu_thread_ids (nthreads / tpb) tpb) a.

(** The blocks the launch sweeps, with the thread that sweeps each. *)
Definition find_cycles_blocks (nthreads tpb : Z) : list (Z * Z) :=
  flat_map (fun id => map (fun blk => (id, blk)) (thread_blocks id nthreads))
           (gpu_thread_ids (nthreads / tpb) tpb).

(** * find_nonces: the nonces of the solutions of the CUDA miner *)

(** [make_edge(dipnode(sip_ctx, nonce, 0) << 1, dipnode(sip_ctx, nonce, 1) <<
    1 | 1)]. *)
Definition gpu_edge (nce : Z) : Z * Z :=
  (node_t (Z.shiftl (dipnode nce 0) 1),
   Z.lor (node_t (Z.shiftl (dipnode nce 1) 1)) 1).

(** [for (j = 0; j < PROOFSIZE; j++) if (sol[j].edge == edge) sol[j].nonce =
    nonce;]. *)
Definition match_row (e : Z * Z) (nce : Z) (sol : list noncedge_t)
    : res (list noncedge_t) :=
  foldM (fun sol j =>
           do ne <- vec_get sol j ;
           if decide (edge ne = e)
           then vec_set sol j (mk_noncedge nce (edge ne))
           else Ok sol)
        (seqZ 0 PROOFSIZE) sol.

(** [for (i = 0; i < ctx->nsols; i++)] around it. *)
Definition find_nonces_step (nsols : Z) (nce : Z) (sols : list (list noncedge_t))
    : res (list (list noncedge_t)) :=
  foldM (fun sols i =>
           do sol <- vec_get sols i ;
           do sol' <- match_row (gpu_edge nce) nce sol ;
           vec_set sols i sol')
        (seqZ 0 nsols) sols.

(** The kernel: thread [id] sweeps the 64 nonces from [id * 64]. *)
Definition find_nonces (id : Z) (b : list Z) (nsols : Z)
    (sols : list (list noncedge_t)) : res (list (list noncedge_t)) :=
  let blk := nonce_t (id * 64) in
  do alive64 <- gpu_wideblock b blk ;
  gpu_sweep 65 (find_nonces_step nsols) (nonce_t (blk - 1)) alive64 sols.

(** [find_nonces<<<(HALFSIZE / 64) / tpb, tpb>>>(device_ctx)]. *)
Definition find_nonces_launch (tpb : Z) (b : list Z) (nsols : Z)
    (sols : list (list noncedge_t)) : res (list (list noncedge_t)) :=
  foldM (fun sols id => find_nonces id b nsols sols)
        (gpu_thread_ids ((HALFSIZE / 64) / tpb) tpb) sols.

(** What the body does to one entry of a solution, and the nonces the
    threads of the launch sweep. *)
Definition match_cell (nce : Z) (ne : noncedge_t) : noncedge_t :=
  if decide (edge ne = gpu_edge nce) then mk_noncedge nce (edge ne) else ne.

Definition gpu_wide_word (b : list Z) (blk : Z) : Z :=
  match gpu_wideblock b blk with
  | Ok x => x
  | Err _ => 0
  end.

Definition find_nonces_nonces (tpb : Z) (b : list Z) : list Z :=
  flat_map (fun id => block_nonces (id * 64) (gpu_wide_word b (id * 64)))
           (gpu_thread_ids ((HALFSIZE / 64) / tpb) tpb).

(** * The solutions of the CUDA miner *)

(** [ne++->edge = make_edge(a, b)]: the entry keeps its nonce. *)
Definition set_edge (row : list noncedge_t) (k : Z) (e : Z * Z)
    : res (list noncedge_t) :=
  do ne <- vec_get row k ;
  vec_set row k (mk_noncedge (nonce ne) e).

(** [while (nu--) ne++->edge = make_edge(us[(nu + 1)&~1], us[nu | 1])]. *)
Fixpoint record_us (us : list Z) (nu : nat) (row : list noncedge_t) (k : Z)
    : res (list noncedge_t * Z) :=
  match nu with
  | O => Ok (row, k)
  | S n =>
    do a <- vec_get us (Z.land (u32 (Z.of_nat n + 1)) (u32 (Z.lnot 1))) ;
    do b <- vec_get us (Z.lor (Z.of_nat n) 1) ;
    do row' <- set_edge row k (a, b) ;
    record_us us n row' (k + 1)
  end.

(** [while (nv--) ne++->edge = make_edge(vs[nv | 1], vs[(nv + 1)&~1])]. *)
Fixpoint record_vs (vs : list Z) (nv : nat) (row : list noncedge_t) (k : Z)
    : res (list noncedge_t * Z) :=
  match nv with
  | O => Ok (row, k)
  | S n =>
    do a <- vec_get vs (Z.lor (Z.of_nat n) 1) ;
    do b <- vec_get vs (Z.land (u32 (Z.of_nat n + 1)) (u32 (Z.lnot 1))) ;
    do row' <- set_edge row k (a, b) ;
    record_vs vs n row' (k + 1)
  end.

Definition gpu_record (row : list noncedge_t) (us : list Z) (nu : nat)
    (vs : list Z) (nv : nat) : res (list noncedge_t) :=
  do u0 <- vec_get us 0 ;
  do v0 <- vec_get vs 0 ;
  do row0 <- set_edge row 0 (u0, v0) ;
  do r1 <- record_us us nu row0 1 ;
  do r2 <- record_vs vs nv r1.1 r1.2 ;
  Ok r2.1.

(** [#define MAXINT (1<<31-1)]: the shift binds weaker than the minus. *)
Definition MAXINT : Z := Z.shiftl 1 (31 - 1).

(** [atomicInc(&x, val)] gives back the old value and stores
    [(old >= val) ? 0 : old + 1]. *)
Definition atomicInc (old val : Z) : Z := if val <=? old then 0 else u32 (old + 1).

Record gpu_solutions : Type := mk_gpu_solutions {
  gsols : list (list noncedge_t);   (* MAXSOLS rows of PROOFSIZE entries *)
  gnsols : Z
}.

(** What [find_cycles] does with a cycle of length PROOFSIZE:
    [slot = atomicInc(&ctx->nsols, MAXINT); if (slot < MAXSOLS) { ... }]. *)
Definition gpu_solution (maxsols : Z) (ctx : gpu_solutions) (us : list Z)
    (nu : nat) (vs : list Z) (nv : nat) : res gpu_solutions :=
  let slot := gnsols ctx in
  let nsols' := atomicInc slot MAXINT in
  if slot <? maxsols then
    do row <- vec_get (gsols ctx) slot ;
    do row' <- gpu_record row us nu vs nv ;
    do sols' <- vec_set (gsols ctx) slot row' ;
    Ok (mk_gpu_solutions sols' nsols')
  else Ok (mk_gpu_solutions (gsols ctx) nsols').

(** * find_cycles: the search of the CUDA miner *)

(** [path] of the CUDA miner: where the pthread miner leaves the thread, it
    returns [~0]. *)
Fixpoint gpu_path (fuel : nat) (cuckoo : list Z) (u : Z) (us : list Z) (nu : Z)
    : res (Z * list Z) :=
  match fuel with
  | O => Err Spins
  | S fuel' =>
    if u =? 0 then Ok (nu, us)
    else
      let nu' := u32 (nu + 1) in
      if MAXPATHLEN <=? nu' then Ok (u32 (Z.lnot 0), us)
      else
        do us' <- vec_set us nu' u ;
        do u' <- cuckoo_get cuckoo u ;
        gpu_path fuel' cuckoo u' us' nu'
  end.

Record gpu_search_state : Type := mk_gpu_search_state {
  gs_cuckoo : list Z;
  gs_sols : gpu_solutions;
  gs_us : list Z;
  gs_vs : list Z
}.

(** The body of the search loop of [find_cycles] for one nonce; both
    [continue]s lead to the test of [alive64]. *)
Definition gpu_search_step (maxsols : Z) (nce : Z) (st : gpu_search_state)
    : res gpu_search_state :=
  let u0 := node_t (Z.shiftl (dipnode nce 0) 1) in
  let v0 := Z.lor (node_t (Z.shiftl (dipnode nce 1) 1)) 1 in
  if u0 =? 0 then Ok st
  else
    let cuckoo := gs_cuckoo st in
    do us0 <- vec_set (gs_us st) 0 u0 ;
    do u <- cuckoo_get cuckoo u0 ;
    do vs0 <- vec_set (gs_vs st) 0 v0 ;
    do v <- cuckoo_get cuckoo v0 ;
    do pu <- gpu_path path_fuel cuckoo u us0 0 ;
    do pv <- gpu_path path_fuel cuckoo v vs0 0 ;
    let '(nu, us1) := pu in
    let '(nv, vs1) := pv in
    do ru <- vec_get us1 nu ;
    do rv <- vec_get vs1 nv ;
    if ru =? rv then
      let min := if nu <? nv then nu else nv in
      do m <- meet (S path_fuel) us1 vs1 (u32 (nu - min)) (u32 (nv - min)) ;
      let '(nu', nv') := m in
      let len := u32 (nu' + nv' + 1) in
      if len =? PROOFSIZE then
        do sols' <- gpu_solution maxsols (gs_sols st) us1 (Z.to_nat nu')
                      vs1 (Z.to_nat nv') ;
        Ok (mk_gpu_search_state cuckoo sols' us1 vs1)
      else Ok (mk_gpu_search_state cuckoo (gs_sols st) us1 vs1)
    else if nu <? nv then
      do c1 <- relink (Z.to_nat nu) us1 cuckoo ;
      do c2 <- cuckoo_set c1 u0 v0 ;
      Ok (mk_gpu_search_state c2 (gs_sols st) us1 vs1)
    else
      do c1 <- relink (Z.to_nat nv) vs1 cuckoo ;
      do c2 <- cuckoo_set c1 v0 u0 ;
      Ok (mk_gpu_search_state c2 (gs_sols st) us1 vs1).

(** The kernel for thread [id]: arrays [us] and [vs] of its own (not
    initialised in the source, written before they are read, 0 here), the
    table and the solutions of the context. *)
Definition find_cycles (id nthreads maxsols : Z) (b : list Z)
    (shared : list Z * gpu_solutions) : res (list Z * gpu_solutions) :=
  let st := mk_gpu_search_state shared.1 shared.2
              (replicate (Z.to_nat MAXPATHLEN) 0)
              (replicate (Z.to_nat MAXPATHLEN) 0) in
  do st' <- block_loop block_fuel (u32 (int32 (nthreads * 64)))
              (fun blk st =>
                 do alive64 <- gpu_wideblock b blk ;
                 gpu_sweep 65 (gpu_search_step maxsols) (nonce_t (blk - 1))
                   alive64 st)
              (nonce_t (int32 (id * 64))) st ;
  Ok (gs_cuckoo st', gs_sols st').

(** [find_cycles<<<nthreads / tpb, tpb>>>(device_ctx)], the threads in the
    order of their ids. *)
Definition find_cycles_kernel (nthreads tpb maxsols : Z) (b : list Z)
    (shared : list Z * gpu_solutions) : res (list Z * gpu_solutions) :=
  foldM (fun shared id => find_cycles id nthreads maxsols b shared)
        (gpu_thread_ids (nthreads / tpb) tpb) shared.

(** [main] after the load test: the table is cleared, [find_cycles] runs,
    and when [nsols] is not 0 [find_nonces] runs and [main] sorts and prints
    the rows below [nsols].  [rows0] is what the rows of the context held:
    they are on the stack of [main] and no one clears them.  The result is
    the lines printed. *)
Definition gpu_search (nthreads tpb maxsols : Z) (b : list Z)
    (rows0 : list (list noncedge_t)) : res (list (list Z)) :=
  do r <- find_cycles_kernel nthreads tpb maxsols b
            (cuckoo_new, mk_gpu_solutions rows0 0) ;
  let ctx := r.2 in
  if gnsols ctx =? 0 then Ok []
  else
    do rows <- find_nonces_launch tpb b (gnsols ctx) (gsols ctx) ;
    foldM (fun out i =>
             do row <- vec_get rows i ;
             Ok (out ++ [gpu_print_solution row]))
          (seqZ 0 (gnsols ctx)) [].

(** [main] of the CUDA miner from the first launch on: [ntrims] rounds of
    the two trimming kernels, the load test (the process leaves with
    [exit(0)] when the load is 90 or more: [Overloaded], nothing printed),
    then the search and the solutions printed. *)
Definition gpu_main (nthreads tpb : Z) (ntrims : nat) (maxsols : Z)
    (nl0 : list Z) (rows0 : list (list noncedge_t))
    : res (status * list (list Z)) :=
  do g <- gpu_trim tpb ntrims (gpu_ctx_new nl0) ;
  do verdict <- gpu_after_trim (gpu_alive g) ;
  match verdict with
  | Overloaded => Ok (Overloaded, [])
  | Search =>
    do out <- gpu_search nthreads tpb maxsols (gpu_alive g) rows0 ;
    Ok (Search, out)
  end.

(** * Proofs *)

(** ** The result monad and the arrays *)

Lemma bind_Ok {A B : Type} (m : res A) (k : A -> res B) (b : B) :
  bind m k = Ok b -> exists a, m = Ok a /\ k a = Ok b.
Proof. destruct m as [a|f]; simpl; [eauto | discriminate]. Qed.

Ltac bind_inv H :=
  let a := fresh "x" in
  let Ha := fresh "H" a in
  apply bind_Ok in H; destruct H as (a & Ha & H).

Tactic Notation "bind_as" hyp(H) ident(a) ident(Ha) :=
  apply bind_Ok in H; destruct H as (a & Ha & H).

Lemma vec_get_Ok {A : Type} (v : list A) (i : Z) (x : A) :
  vec_get v i = Ok x <-> 0 <= i /\ v !! Z.to_nat i = Some x.
Proof.
  unfold vec_get. destruct (Z.leb_spec 0 i) as [Hi|Hi].
  - destruct (v !! Z.to_nat i) as [y|]; split.
    + intros [= ->]. auto.
    + intros [_ [= ->]]. reflexivity.
    + discriminate.
    + intros [_ [=]].
  - split; [discriminate | lia].
Qed.

Lemma vec_get_lt {A : Type} (v : list A) (i : Z) (x : A) :
  vec_get v i = Ok x -> 0 <= i < Z.of_nat (length v).
Proof.
  intros [Hi Hx]%vec_get_Ok. apply lookup_lt_Some in Hx. lia.
Qed.

Lemma vec_get_in_range {A : Type} (v : list A) (i : Z) :
  0 <= i < Z.of_nat (length v) -> exists x, vec_get v i = Ok x.
Proof.
  intros Hi. destruct (lookup_lt_is_Some_2 v (Z.to_nat i)) as [x Hx]; [lia|].
  exists x. apply vec_get_Ok. split; [lia | exact Hx].
Qed.

Lemma vec_set_Ok {A : Type} (v v' : list A) (i : Z) (x : A) :
  vec_set v i x = Ok v' <->
  0 <= i < Z.of_nat (length v) /\ v' = <[Z.to_nat i := x]> v.
Proof.
  unfold vec_set.
  destruct (Z.leb_spec 0 i), (Z.ltb_spec i (Z.of_nat (length v))); simpl;
    (split; [intros [= <-] | intros [? ->]]); try (split; [lia | reflexivity]);
    try reflexivity; try lia.
Qed.

Lemma vec_set_in_range {A : Type} (v : list A) (i : Z) (x : A) :
  0 <= i < Z.of_nat (length v) -> vec_set v i x = Ok (<[Z.to_nat i := x]> v).
Proof. intros Hi. apply vec_set_Ok. auto. Qed.

Lemma vec_get_set_eq {A : Type} (v : list A) (i : Z) (x : A) :
  0 <= i < Z.of_nat (length v) ->
  vec_get (<[Z.to_nat i := x]> v) i = Ok x.
Proof.
  intros Hi. apply vec_get_Ok. split; [lia|].
  apply list_lookup_insert_eq. lia.
Qed.

Lemma vec_get_set_ne {A : Type} (v : list A) (i j : Z) (x : A) :
  0 <= i -> 0 <= j -> i <> j ->
  vec_get (<[Z.to_nat i := x]> v) j = vec_get v j.
Proof.
  intros Hi Hj Hne. unfold vec_get.
  rewrite list_lookup_insert_ne by lia. reflexivity.
Qed.

(** ** Bits of machine words *)

Lemma land_1_testbit (a : Z) : Z.land a 1 = Z.b2z (Z.testbit a 0).
Proof.
  change 1 with (Z.ones 1). rewrite Z.land_ones by lia.
  rewrite Z.bit0_mod. reflexivity.
Qed.

Lemma shiftr_land_1 (w k : Z) :
  0 <= k -> (Z.land (Z.shiftr w k) 1 =? 0) = negb (Z.testbit w k).
Proof.
  intros Hk. rewrite land_1_testbit, Z.shiftr_spec by lia.
  rewrite Z.add_0_l. destruct (Z.testbit w k); reflexivity.
Qed.

Lemma wrap_testbit (w x i : Z) :
  0 <= w -> Z.testbit (wrap w x) i = (i <? w) && Z.testbit x i.
Proof.
  intros Hw. unfold wrap.
  destruct (Z.ltb_spec i w) as [Hi|Hi]; simpl.
  - destruct (Z.ltb_spec i 0) as [Hn|Hn].
    + rewrite !Z.testbit_neg_r by lia. reflexivity.
    + apply Z.mod_pow2_bits_low. lia.
  - apply Z.mod_pow2_bits_high. lia.
Qed.

Lemma wrap_range (w x : Z) : 0 <= w -> 0 <= wrap w x < 2 ^ w.
Proof. intros Hw. unfold wrap. apply Z.mod_pos_bound. lia. Qed.

Lemma wrap_small (w x : Z) : 0 <= x < 2 ^ w -> wrap w x = x.
Proof. intros Hx. unfold wrap. apply Z.mod_small. exact Hx. Qed.

Lemma pow2_testbit (k i : Z) :
  0 <= k -> Z.testbit (Z.shiftl 1 k) i = (i =? k).
Proof.
  intros Hk. rewrite Z.shiftl_1_l.
  destruct (Z.eqb_spec i k) as [->|Hne].
  - apply Z.pow2_bits_true. lia.
  - apply Z.pow2_bits_false. lia.
Qed.


Lemma foldM_app {A B : Type} (f : A -> B -> res A) (l1 l2 : list B) (a : A) :
  foldM f (l1 ++ l2) a = do a' <- foldM f l1 a ; foldM f l2 a'.
Proof.
  revert a. induction l1 as [|b l1 IH]; intros a; simpl; [reflexivity|].
  destruct (f a b) as [a'|e]; simpl; [apply IH | reflexivity].
Qed.

Lemma foldM_map {A B C : Type} (f : A -> B -> res A) (g : C -> B)
    (l : list C) (a : A) :
  foldM f (map g l) a = foldM (fun a c => f a (g c)) l a.
Proof.
  revert a. induction l as [|c l IH]; intros a; simpl; [reflexivity|].
  destruct (f a (g c)) as [a'|e]; simpl; [apply IH | reflexivity].
Qed.

Lemma foldM_ext_in {A B : Type} (f g : A -> B -> res A) (l : list B) (a : A) :
  (forall b a', In b l -> f a' b = g a' b) -> foldM f l a = foldM g l a.
Proof.
  revert a. induction l as [|b l IH]; intros a Hfg; simpl; [reflexivity|].
  rewrite (Hfg b a) by (left; reflexivity).
  destruct (g a b) as [a'|e]; simpl; [|reflexivity].
  apply IH. intros b' a'' Hb'. apply Hfg. right. exact Hb'.
Qed.

Lemma foldM_filter {A B : Type} (f : A -> B -> res A) (p : B -> bool)
    (l : list B) (a : A) :
  foldM (fun a b => if p b then f a b else Ok a) l a
  = foldM f (List.filter p l) a.
Proof.
  revert a. induction l as [|b l IH]; intros a; simpl; [reflexivity|].
  destruct (p b); simpl.
  - destruct (f a b) as [a'|e]; simpl; [apply IH | reflexivity].
  - apply IH.
Qed.

(** An invariant kept by every step is kept by the fold, and the fold does
    not fail when no step does. *)
Lemma foldM_invariant {A B : Type} (I : A -> Prop) (Q : B -> Prop)
    (f : A -> B -> res A) (l : list B) (a : A) :
  (forall a b, I a -> Q b -> exists a', f a b = Ok a' /\ I a') ->
  I a -> Forall Q l ->
  exists a', foldM f l a = Ok a' /\ I a'.
Proof.
  intros Hstep. revert a. induction l as [|b l IH]; intros a Ha Hl; simpl.
  - eauto.
  - inversion Hl as [|? ? Hb Hl']; subst.
    destruct (Hstep a b Ha Hb) as (a1 & -> & Ha1). simpl. apply IH; assumption.
Qed.

(** ** ffs and the set bits of a word *)

Lemma ffs_pos_ge_1 (p : positive) : 1 <= ffs_pos p.
Proof. induction p; simpl; lia. Qed.

Lemma pos_bits_shift (p : positive) (i k : Z) :
  pos_bits p (i + k) = map (Z.add k) (pos_bits p i).
Proof.
  revert i. induction p as [q IH|q IH|]; intros i; simpl.
  - f_equal; [lia|]. rewrite <- IH. f_equal. lia.
  - rewrite <- IH. f_equal. lia.
  - f_equal. lia.
Qed.

Lemma shiftr_xO (q : positive) (k : Z) :
  0 <= k -> Z.shiftr (Zpos q~0) (1 + k) = Z.shiftr (Zpos q) k.
Proof.
  intros Hk. rewrite <- Z.shiftr_shiftr by lia. reflexivity.
Qed.

Lemma word_bits_ffs (p : positive) :
  word_bits (Zpos p)
  = (ffs_pos p - 1)
      :: map (Z.add (ffs_pos p)) (word_bits (Z.shiftr (Zpos p) (ffs_pos p))).
Proof.
  induction p as [q _|q IH|].
  - change (ffs_pos q~1) with 1. change (Z.shiftr (Zpos q~1) 1) with (Zpos q).
    simpl. f_equal. apply (pos_bits_shift q 0 1).
  - change (ffs_pos q~0) with (1 + ffs_pos q).
    rewrite shiftr_xO by (pose proof (ffs_pos_ge_1 q); lia).
    change (word_bits (Zpos q~0)) with (pos_bits q (0 + 1)).
    rewrite pos_bits_shift. change (pos_bits q 0) with (word_bits (Zpos q)).
    rewrite IH. simpl. f_equal; [lia|].
    rewrite map_map. apply map_ext. intros j. lia.
  - reflexivity.
Qed.

Lemma pos_bits_spec (p : positive) (i j : Z) :
  In j (pos_bits p i) <-> i <= j /\ Z.testbit (Zpos p) (j - i) = true.
Proof.
  clear siphash24.
  revert i. induction p as [q IH|q IH|]; intros i; simpl pos_bits.
  - simpl In. rewrite IH. rewrite Pos2Z.inj_xI.
    destruct (Z.eq_dec i j) as [->|Hne].
    + rewrite Z.sub_diag, Z.testbit_odd_0. intuition lia.
    + split.
      * intros [Heq|[Hle Hb]]; [congruence|]. split; [lia|].
        replace (j - i) with (Z.succ (j - (i + 1))) by lia.
        rewrite Z.testbit_odd_succ by lia. exact Hb.
      * intros [Hle Hb]. right. split; [lia|].
        replace (j - i) with (Z.succ (j - (i + 1))) in Hb by lia.
        rewrite Z.testbit_odd_succ in Hb by lia. exact Hb.
  - rewrite IH. rewrite Pos2Z.inj_xO.
    destruct (Z.eq_dec i j) as [->|Hne].
    + rewrite Z.sub_diag, Z.testbit_even_0. intuition (try lia; try discriminate).
    + split.
      * intros [Hle Hb]. split; [lia|].
        replace (j - i) with (Z.succ (j - (i + 1))) by lia.
        rewrite Z.testbit_even_succ by lia. exact Hb.
      * intros [Hle Hb]. split; [lia|].
        replace (j - i) with (Z.succ (j - (i + 1))) in Hb by lia.
        rewrite Z.testbit_even_succ in Hb by lia. exact Hb.
  - simpl In. split.
    + intros [<-|[]]. rewrite Z.sub_diag. split; [lia | reflexivity].
    + intros [Hle Hb]. left.
      destruct (Z.eq_dec i j) as [->|Hne]; [reflexivity|].
      replace (j - i) with (Z.succ (j - i - 1)) in Hb by lia.
      change 1 with (2 * 0 + 1) in Hb.
      rewrite Z.testbit_odd_succ in Hb by lia.
      rewrite Z.testbit_0_l in Hb. discriminate.
Qed.

Lemma word_bits_spec (w j : Z) :
  0 <= w -> (In j (word_bits w) <-> 0 <= j /\ Z.testbit w j = true).
Proof.
  clear siphash24.
  intros Hw. destruct w as [|p|p]; [| |lia].
  - simpl. rewrite Z.testbit_0_l. intuition discriminate.
  - unfold word_bits. rewrite pos_bits_spec, Z.sub_0_r. reflexivity.
Qed.

Lemma pos_bits_sorted (p : positive) (i : Z) :
  StronglySorted Z.lt (pos_bits p i).
Proof.
  clear siphash24.
  revert i. induction p as [q IH|q IH|]; intros i; simpl.
  - constructor; [apply IH|]. apply List.Forall_forall. intros j Hj.
    apply pos_bits_spec in Hj. lia.
  - apply IH.
  - repeat constructor.
Qed.

Lemma word_bits_sorted (w : Z) : StronglySorted Z.lt (word_bits w).
Proof.
  clear siphash24. destruct w; simpl; try constructor. apply pos_bits_sorted. Qed.

Lemma pos_bits_length (p : positive) (i : Z) (k : nat) :
  Zpos p < 2 ^ Z.of_nat k -> (length (pos_bits p i) <= k)%nat.
Proof.
  revert i k. induction p as [q IH|q IH|]; intros i k Hk; simpl.
  - destruct k as [|k]; [simpl in Hk; lia|].
    rewrite Nat2Z.inj_succ, Z.pow_succ_r in Hk by lia.
    specialize (IH (i + 1) k). lia.
  - destruct k as [|k]; [simpl in Hk; lia|].
    rewrite Nat2Z.inj_succ, Z.pow_succ_r in Hk by lia.
    specialize (IH (i + 1) k). lia.
  - destruct k as [|k]; [simpl in Hk; lia|]. lia.
Qed.

Lemma word_bits_length (w : Z) :
  0 <= w < 2 ^ 64 -> (length (word_bits w) <= 64)%nat.
Proof.
  intros Hw. destruct w as [|p|p]; simpl; [lia| |lia].
  apply pos_bits_length. exact (proj2 Hw).
Qed.

Lemma word_bits_lt (w j : Z) :
  0 <= w < 2 ^ 64 -> In j (word_bits w) -> 0 <= j < 64.
Proof.
  clear siphash24.
  intros Hw Hj. apply word_bits_spec in Hj; [|lia]. destruct Hj as [Hj Hb].
  split; [exact Hj|].
  destruct (Z.lt_ge_cases j 64) as [|Hge]; [assumption|].
  rewrite <- (Z.mod_small w (2 ^ 64)) in Hb by lia.
  rewrite Z.mod_pow2_bits_high in Hb by lia. discriminate.
Qed.


Lemma land_64_small (x : Z) : 0 <= x < 64 -> Z.land x 64 = 0.
Proof.
  intros Hx. apply Z.bits_inj'. intros i Hi.
  rewrite Z.land_spec, Z.bits_0. change 64 with (Z.shiftl 1 6).
  rewrite pow2_testbit by lia.
  destruct (Z.eqb_spec i 6) as [->|]; [|apply andb_false_r].
  rewrite <- (Z.mod_small x (2 ^ 6)) by (change (2 ^ 6) with 64; lia).
  rewrite Z.mod_pow2_bits_high by lia. reflexivity.
Qed.

Lemma nonce_t_add_l (x y : Z) : nonce_t (nonce_t x + y) = nonce_t (x + y).
Proof. unfold nonce_t, wrap. apply Zplus_mod_idemp_l. Qed.

Lemma ffsll_le_64 (w : Z) : 0 < w < 2 ^ 64 -> 1 <= ffsll w <= 64.
Proof.
  clear siphash24.
  intros Hw. destruct w as [|p|p]; try lia. simpl.
  pose proof (ffs_pos_ge_1 p).
  assert (Hin : In (ffs_pos p - 1) (word_bits (Zpos p)))
    by (rewrite word_bits_ffs; left; reflexivity).
  apply word_bits_lt in Hin; lia.
Qed.

Lemma shiftr_ffs_bound (w k : Z) (f : nat) :
  0 <= w < 2 ^ Z.of_nat (S f) -> 1 <= k ->
  0 <= Z.shiftr w k < 2 ^ Z.of_nat f.
Proof.
  intros Hw Hk. rewrite Z.shiftr_div_pow2 by lia.
  rewrite Nat2Z.inj_succ, Z.pow_succ_r in Hw by lia.
  assert (H2 : 2 <= 2 ^ k).
  { change 2 with (2 ^ 1) at 1. apply Z.pow_le_mono_r; lia. }
  split.
  - apply Z.div_pos; lia.
  - apply Z.div_lt_upper_bound; [lia|]. nia.
Qed.

Lemma ffs_sweep_S {A : Type} (body : Z -> A -> res A) (f : nat)
    (nonce w : Z) (a : A) :
  ffs_sweep (S f) body nonce w a
  = if w =? 0 then Ok a
    else do a' <- body (nonce_t (nonce + ffsll w)) a ;
         if Z.land (ffsll w) 64 =? 0
         then ffs_sweep f body (nonce_t (nonce + ffsll w)) (Z.shiftr w (ffsll w)) a'
         else Ok a'.
Proof. reflexivity. Qed.

(** The sweep calls its body once for every set bit of the word, lowest bit
    first, with the nonce of that bit. *)
Lemma ffs_sweep_spec {A : Type} (body : Z -> A -> res A) (f : nat) :
  forall (w nonce : Z) (a : A),
    0 <= w < 2 ^ 64 -> w < 2 ^ Z.of_nat f ->
    ffs_sweep (S f) body nonce w a
    = foldM (fun a j => body (nonce_t (nonce + 1 + j)) a) (word_bits w) a.
Proof.
  clear siphash24.
  induction f as [|f IH]; intros w nonce a Hw Hf.
  - assert (w = 0) by (simpl in Hf; lia). subst w. reflexivity.
  - destruct w as [|p|p]; [reflexivity| |lia].
    rewrite ffs_sweep_S. change (Zpos p =? 0) with false. cbv iota.
    rewrite word_bits_ffs. cbn [foldM ffsll].
    replace (nonce + 1 + (ffs_pos p - 1)) with (nonce + ffs_pos p) by lia.
    destruct (body (nonce_t (nonce + ffs_pos p)) a) as [a'|e]; cbn [bind];
      [|reflexivity].
    pose proof (ffsll_le_64 (Zpos p) ltac:(lia)) as Hffs. simpl in Hffs.
    destruct (Z.eqb_spec (Z.land (ffs_pos p) 64) 0) as [Hl|Hl].
    + rewrite IH.
      * rewrite foldM_map. apply foldM_ext_in. intros j a'' _.
        rewrite <- Z.add_assoc, nonce_t_add_l. f_equal. f_equal. lia.
      * pose proof (shiftr_ffs_bound (Zpos p) (ffs_pos p) 63 ltac:(simpl; lia)
                      ltac:(lia)) as Hb.
        simpl in Hb. lia.
      * apply (shiftr_ffs_bound (Zpos p) (ffs_pos p) f); lia.
    + assert (ffs_pos p = 64).
      { destruct (Z.eq_dec (ffs_pos p) 64); [assumption|].
        exfalso. apply Hl. apply land_64_small. lia. }
      rewrite H, Z.shiftr_div_pow2, Z.div_small by lia. reflexivity.
Qed.

(** ** shrinkingset *)

Lemma test_unfold (s : shrinkingset) (n : Z) :
  test s n = match vec_get (bits s) (n / 64) with
             | Ok w => Ok (negb (Z.testbit w (n mod 64)))
             | Err e => Err e
             end.
Proof.
  unfold test. destruct (vec_get (bits s) (n / 64)) as [w|e]; simpl; [|reflexivity].
  rewrite shiftr_land_1; [reflexivity|]. apply Z.mod_pos_bound. lia.
Qed.

Lemma div_mod_block (n j : Z) :
  0 <= j < 64 -> (64 * n + j) / 64 = n /\ (64 * n + j) mod 64 = j.
Proof.
  intros Hj. split.
  - rewrite Z.mul_comm, Z.div_add_l by lia. rewrite Z.div_small by lia. lia.
  - rewrite Z.mul_comm, Z.add_comm, Z.mod_add by lia. apply Z.mod_small. lia.
Qed.

(** A word returned by [block] holds the alive bits of the 64 nonces of the
    word that [n] lies in. *)
Lemma block_test (s : shrinkingset) (n x j : Z) :
  block s n = Ok x -> 0 <= j < 64 ->
  0 <= x < 2 ^ 64 /\ test s (64 * (n / 64) + j) = Ok (Z.testbit x j).
Proof.
  intros Hb Hj. unfold block in Hb. bind_inv Hb. injection Hb as <-.
  split; [apply wrap_range; lia|].
  rewrite test_unfold. destruct (div_mod_block (n / 64) j Hj) as [-> ->].
  rewrite Hx0. f_equal. unfold u64. rewrite wrap_testbit by lia.
  rewrite Z.lnot_spec by lia.
  destruct (Z.ltb_spec j 64); [reflexivity | lia].
Qed.


(** Parameters of the 32-bit build: [nonce_t] is [u32], and the alive set has
    at least one whole word. *)
Hypothesis SIZESHIFT_lo : 7 <= SIZESHIFT.
Hypothesis SIZESHIFT_hi : SIZESHIFT <= 32.

Lemma HALFSIZE_pow : HALFSIZE = 2 ^ (SIZESHIFT - 1).
Proof.
  unfold HALFSIZE, SIZE.
  replace SIZESHIFT with (Z.succ (SIZESHIFT - 1)) at 1 by lia.
  rewrite Z.pow_succ_r by lia. rewrite Z.mul_comm, Z.div_mul by lia. reflexivity.
Qed.

Lemma HALFSIZE_words : HALFSIZE = 64 * (HALFSIZE / 64) /\ 0 < HALFSIZE / 64.
Proof.
  rewrite HALFSIZE_pow.
  replace (SIZESHIFT - 1) with (6 + (SIZESHIFT - 7)) by lia.
  rewrite Z.pow_add_r by lia. change (2 ^ 6) with 64.
  rewrite (Z.mul_comm 64), Z.div_mul by lia. split; [lia|].
  apply Z.pow_pos_nonneg; lia.
Qed.

Lemma HALFSIZE_bound : 64 <= HALFSIZE <= 2 ^ 31.
Proof.
  pose proof HALFSIZE_words as [H1 H2]. split; [lia|].
  rewrite HALFSIZE_pow. apply Z.pow_le_mono_r; lia.
Qed.

Lemma NONCE_BITS_32 : NONCE_BITS = 32.
Proof. unfold NONCE_BITS. destruct (Z.leb_spec SIZESHIFT 32); [reflexivity | lia]. Qed.

Lemma nonce_t_small (x : Z) : 0 <= x < 2 ^ 32 -> nonce_t x = x.
Proof. intros Hx. unfold nonce_t. rewrite NONCE_BITS_32. apply wrap_small, Hx. Qed.

Lemma word_index (n : Z) :
  0 <= n < HALFSIZE -> 0 <= n / 64 < HALFSIZE / 64.
Proof.
  intros Hn. pose proof HALFSIZE_words as [H1 H2]. split.
  - apply Z.div_pos; lia.
  - apply Z.div_lt_upper_bound; lia.
Qed.

Lemma Zsum_insert (l : list Z) (i : nat) (x y : Z) :
  l !! i = Some x -> Zsum (<[i := y]> l) = Zsum l - x + y.
Proof.
  revert i. induction l as [|c l IH]; intros i Hi; [discriminate|].
  destruct i as [|i]; simpl in *.
  - injection Hi as ->. lia.
  - rewrite (IH i Hi). lia.
Qed.

Lemma Zsum_replicate (k : nat) : Zsum (replicate k 0) = 0.
Proof. induction k as [|k IH]; simpl; [reflexivity | exact IH]. Qed.

Lemma u64_add_l (a b : Z) : u64 (u64 a + b) = u64 (a + b).
Proof. unfold u64, wrap. apply Zplus_mod_idemp_l. Qed.

Lemma u64_add_r (a b : Z) : u64 (a + u64 b) = u64 (a + b).
Proof. unfold u64, wrap. apply Zplus_mod_idemp_r. Qed.

Lemma count_fold (l : list Z) (a : Z) :
  fold_left (fun sum c => u64 (sum + c)) l (u64 a) = u64 (a + Zsum l).
Proof.
  revert a. induction l as [|c l IH]; intros a; simpl.
  - f_equal. lia.
  - rewrite u64_add_l, IH. f_equal. lia.
Qed.

(** [count] is the sum of the thread counters modulo 2^64. *)
Lemma count_Zsum (s : shrinkingset) : count s = u64 (Zsum (cnt s)).
Proof. unfold count. change 0 with (u64 0) at 1. apply count_fold. Qed.

Lemma reset_Ok (s s' : shrinkingset) (n thread : Z) :
  reset s n thread = Ok s' ->
  exists w c,
    vec_get (bits s) (n / 64) = Ok w /\
    vec_get (cnt s) thread = Ok c /\
    bits s' = <[Z.to_nat (n / 64) := Z.lor w (Z.shiftl 1 (n mod 64))]> (bits s) /\
    cnt s' = <[Z.to_nat thread := u64 (c - 1)]> (cnt s).
Proof.
  intros H. unfold reset in H.
  bind_inv H. bind_inv H. bind_inv H. bind_inv H. injection H as <-.
  apply vec_set_Ok in Hx0 as [_ ->]. apply vec_set_Ok in Hx2 as [_ ->].
  exists x, x1. repeat split; try assumption. simpl. f_equal. f_equal.
  pose proof (Z.mod_pos_bound n 64 ltac:(lia)).
  apply wrap_small. rewrite Z.shiftl_1_l. split; [apply Z.pow_nonneg; lia|].
  apply Z.pow_lt_mono_r; lia.
Qed.

Lemma reset_in_range (nthreads : Z) (s : shrinkingset) (n thread : Z) :
  shrinkingset_wf nthreads s -> 0 <= n < HALFSIZE -> 0 <= thread < nthreads ->
  exists s', reset s n thread = Ok s' /\ shrinkingset_wf nthreads s'.
Proof.
  intros [Hb Hc] Hn Ht. pose proof (word_index n Hn) as Hi.
  destruct (vec_get_in_range (bits s) (n / 64)) as [w Hw]; [lia|].
  destruct (vec_get_in_range (cnt s) thread) as [c Hcv]; [lia|].
  unfold reset. rewrite Hw. cbn [bind].
  rewrite vec_set_in_range by lia. cbn [bind]. rewrite Hcv. cbn [bind].
  rewrite vec_set_in_range by lia. cbn [bind].
  eexists. split; [reflexivity|].
  split; simpl; rewrite length_insert; assumption.
Qed.

(** After [reset s n], nonce [n] tests dead and every other nonce tests as
    before. *)
Lemma reset_test (s s' : shrinkingset) (n thread m : Z) :
  reset s n thread = Ok s' -> 0 <= n -> 0 <= m ->
  test s' m = if decide (m = n) then Ok false else test s m.
Proof.
  intros H Hn Hm. apply reset_Ok in H as (w & c & Hw & _ & Hb & _).
  rewrite !test_unfold, Hb.
  pose proof (vec_get_lt _ _ _ Hw) as Hlt.
  pose proof (Z.mod_pos_bound n 64 ltac:(lia)) as Hn64.
  pose proof (Z.mod_pos_bound m 64 ltac:(lia)) as Hm64.
  destruct (Z.eq_dec (m / 64) (n / 64)) as [Heq|Hne].
  - rewrite Heq, vec_get_set_eq, Hw by lia.
    rewrite Z.lor_spec, pow2_testbit by lia.
    destruct (decide (m = n)) as [->|Hmn].
    + rewrite Z.eqb_refl, orb_true_r. reflexivity.
    + destruct (Z.eqb_spec (m mod 64) (n mod 64)) as [Hmod|Hmod].
      * exfalso. apply Hmn.
        rewrite (Z.div_mod m 64), (Z.div_mod n 64) by lia. congruence.
      * rewrite orb_false_r. reflexivity.
  - rewrite vec_get_set_ne by (try apply Z.div_pos; lia).
    destruct (decide (m = n)) as [->|]; [congruence | reflexivity].
Qed.

Lemma reset_count (s s' : shrinkingset) (n thread : Z) :
  reset s n thread = Ok s' -> count s' = u64 (count s - 1).
Proof.
  intros H. apply reset_Ok in H as (w & c & _ & Hc & _ & Hcnt).
  rewrite !count_Zsum, Hcnt. apply vec_get_Ok in Hc as [_ Hc].
  rewrite (Zsum_insert _ _ _ _ Hc).
  rewrite u64_add_r.
  replace (u64 (Zsum (cnt s)) - 1) with (u64 (Zsum (cnt s)) + -1) by lia.
  rewrite u64_add_l. f_equal. lia.
Qed.


Lemma shrinkingset_new_Ok (nthreads : Z) :
  0 < nthreads ->
  shrinkingset_new nthreads
  = Ok (mk_shrinkingset (replicate (Z.to_nat (HALFSIZE / 64)) 0)
          (<[0%nat := HALFSIZE]> (replicate (Z.to_nat nthreads) 0))).
Proof.
  intros Hn. unfold shrinkingset_new.
  pose proof HALFSIZE_bound as Hb. pose proof HALFSIZE_words as [_ Hw].
  rewrite vec_set_in_range by (rewrite length_replicate; lia). cbn [bind].
  rewrite nonce_t_small.
  - unfold u64. rewrite wrap_small by lia. reflexivity.
  - split; [lia|]. apply Z.div_lt_upper_bound; lia.
Qed.

Lemma shrinkingset_new_wf (nthreads : Z) (s : shrinkingset) :
  0 < nthreads -> shrinkingset_new nthreads = Ok s ->
  shrinkingset_wf nthreads s.
Proof.
  intros Hn. rewrite shrinkingset_new_Ok by assumption. intros [= <-].
  pose proof HALFSIZE_words as [_ Hw].
  split; simpl; rewrite ?length_insert, length_replicate; lia.
Qed.

Lemma shrinkingset_new_spec (nthreads n : Z) (s : shrinkingset) :
  0 < nthreads -> 0 <= n < HALFSIZE -> shrinkingset_new nthreads = Ok s ->
  test s n = Ok true /\ count s = HALFSIZE.
Proof.
  intros Hn Hlt. rewrite shrinkingset_new_Ok by assumption. intros [= <-].
  pose proof HALFSIZE_bound as Hb. pose proof (word_index n Hlt) as Hi.
  split.
  - rewrite test_unfold. cbn [bits].
    assert (Hg : vec_get (replicate (Z.to_nat (HALFSIZE / 64)) 0) (n / 64) = Ok 0).
    { apply vec_get_Ok. split; [lia|]. apply lookup_replicate_2. lia. }
    rewrite Hg, Z.testbit_0_l. reflexivity.
  - rewrite count_Zsum. cbn [cnt].
    rewrite (Zsum_insert _ _ 0) by (apply lookup_replicate_2; lia).
    rewrite Zsum_replicate. unfold u64. apply wrap_small. lia.
Qed.

(** C10. Right after construction for a positive number of threads (on a build
    with 7 <= SIZESHIFT <= 32) every nonce below HALFSIZE tests alive and
    count() is HALFSIZE. *)
Theorem shrinkingset_new_all_alive (nthreads n : Z) :
  0 < nthreads -> 0 <= n < HALFSIZE ->
  exists s, shrinkingset_new nthreads = Ok s /\
            test s n = Ok true /\ count s = HALFSIZE.
Proof.
  intros Hn Hlt. eexists. split; [apply shrinkingset_new_Ok; assumption|].
  apply (shrinkingset_new_spec nthreads n); [assumption | assumption|].
  apply shrinkingset_new_Ok. assumption.
Qed.

Lemma block_in_range (nthreads : Z) (s : shrinkingset) (n : Z) :
  shrinkingset_wf nthreads s -> 0 <= n < HALFSIZE ->
  exists x, block s n = Ok x.
Proof.
  intros [Hlen _] Hn. pose proof (word_index n Hn).
  destruct (vec_get_in_range (bits s) (n / 64)) as [w Hw]; [lia|].
  unfold block. rewrite Hw. cbn [bind]. eauto.
Qed.

Lemma gpu_test_unfold (b : list Z) (n : Z) :
  gpu_test b n = match vec_get b (n / 32) with
                 | Ok w => Ok (negb (Z.testbit w (n mod 32)))
                 | Err e => Err e
                 end.
Proof.
  unfold gpu_test. destruct (vec_get b (n / 32)) as [w|e]; simpl; [|reflexivity].
  rewrite shiftr_land_1; [reflexivity|]. apply Z.mod_pos_bound. lia.
Qed.

Lemma gpu_block_test (b : list Z) (n x j : Z) :
  gpu_block b n = Ok x -> 0 <= j < 32 ->
  gpu_test b (32 * (n / 32) + j) = Ok (Z.testbit x j).
Proof.
  clear siphash24.
  intros Hb Hj. unfold gpu_block in Hb. bind_inv Hb. injection Hb as <-.
  rewrite gpu_test_unfold.
  replace ((32 * (n / 32) + j) / 32) with (n / 32)
    by (Z.div_mod_to_equations; lia).
  replace ((32 * (n / 32) + j) mod 32) with j
    by (Z.div_mod_to_equations; lia).
  rewrite Hx0. f_equal. unfold u32. rewrite wrap_testbit by lia.
  rewrite Z.lnot_spec by lia.
  destruct (Z.ltb_spec j 32); [reflexivity | lia].
Qed.

Lemma testbit_above (w k i : Z) :
  0 <= w < 2 ^ k -> k <= i -> Z.testbit w i = false.
Proof.
  intros Hw Hi. destruct (Z.lt_ge_cases k 0) as [Hk|Hk].
  - rewrite Z.pow_neg_r in Hw by lia. lia.
  - rewrite <- (Z.mod_small w (2 ^ k)) by lia.
    apply Z.mod_pow2_bits_high. lia.
Qed.

Lemma gpu_wideblock_test (b : list Z) (n x j : Z) :
  Forall (fun w => 0 <= w < 2 ^ 32) b ->
  gpu_wideblock b n = Ok x -> 0 <= n -> 0 <= j < 64 ->
  gpu_test b (64 * (n / 64) + j) = Ok (Z.testbit x j).
Proof.
  clear siphash24.
  intros Hwf Hb Hn Hj. unfold gpu_wideblock in Hb.
  bind_inv Hb. bind_inv Hb. injection Hb as <-.
  rename x0 into lo, x1 into hi.
  assert (Hlo : 0 <= lo < 2 ^ 32).
  { apply vec_get_Ok in Hx0 as [_ Hl].
    exact (proj1 (Forall_lookup _ _) Hwf _ _ Hl). }
  rewrite gpu_test_unfold. unfold u64. rewrite wrap_testbit by lia.
  rewrite Z.lnot_spec, Z.lor_spec by lia.
  replace (j <? 64) with true by (symmetry; apply Z.ltb_lt; lia). cbn [andb].
  destruct (Z.lt_ge_cases j 32) as [Hlow|Hhigh].
  - replace ((64 * (n / 64) + j) / 32) with (2 * (n / 64))
      by (Z.div_mod_to_equations; lia).
    replace ((64 * (n / 64) + j) mod 32) with j
      by (Z.div_mod_to_equations; lia).
    rewrite Hx0, Z.shiftl_spec_low, orb_false_r by lia. reflexivity.
  - replace ((64 * (n / 64) + j) / 32) with (2 * (n / 64) + 1)
      by (Z.div_mod_to_equations; lia).
    replace ((64 * (n / 64) + j) mod 32) with (j - 32)
      by (Z.div_mod_to_equations; lia).
    rewrite Hx1, Z.shiftl_spec, (testbit_above lo 32 j) by lia. reflexivity.
Qed.

(** C9 (amended). block(n) returns the alive bits of the aligned word that
    holds n: bit i of the result tells whether nonce W*(n/W) + i is alive, so
    the word covers [n, n+W) when n is a multiple of W, as it is at every call
    in the miners.  W is 64 for [block] of the pthread miner and [wideblock]
    of the CUDA miner, and 32 for [block] of the CUDA miners. *)
Theorem block_alive_bits (nthreads : Z) (s : shrinkingset) (b : list Z) (n : Z) :
  shrinkingset_wf nthreads s -> gpu_bits_wf b -> 0 <= n < HALFSIZE ->
  (exists x, block s n = Ok x /\
     (forall i, 0 <= i < 64 -> test s (64 * (n / 64) + i) = Ok (Z.testbit x i)) /\
     (n mod 64 = 0 ->
      forall i, 0 <= i < 64 -> test s (n + i) = Ok (Z.testbit x i))) /\
  (exists x, gpu_block b n = Ok x /\
     (forall i, 0 <= i < 32 -> gpu_test b (32 * (n / 32) + i) = Ok (Z.testbit x i)) /\
     (n mod 32 = 0 ->
      forall i, 0 <= i < 32 -> gpu_test b (n + i) = Ok (Z.testbit x i))) /\
  (exists x, gpu_wideblock b n = Ok x /\
     (forall i, 0 <= i < 64 -> gpu_test b (64 * (n / 64) + i) = Ok (Z.testbit x i)) /\
     (n mod 64 = 0 ->
      forall i, 0 <= i < 64 -> gpu_test b (n + i) = Ok (Z.testbit x i))).
Proof.
  clear siphash24.
  intros Hs [Hlen Hwords] Hn.
  pose proof HALFSIZE_words as [Hw1 Hw2].
  assert (H32 : 0 <= n / 32 < HALFSIZE / 32) by (Z.div_mod_to_equations; lia).
  assert (H64 : 0 <= 2 * (n / 64) + 1 < HALFSIZE / 32)
    by (Z.div_mod_to_equations; lia).
  split; [|split].
  - destruct (block_in_range nthreads s n Hs Hn) as [x Hx]. exists x.
    split; [exact Hx|]. split.
    + intros i Hi. apply (block_test s n x i Hx Hi).
    + intros Hal i Hi. replace (n + i) with (64 * (n / 64) + i)
        by (Z.div_mod_to_equations; lia).
      apply (block_test s n x i Hx Hi).
  - destruct (vec_get_in_range b (n / 32)) as [w Hw]; [lia|].
    assert (Hx : gpu_block b n = Ok (u32 (Z.lnot w)))
      by (unfold gpu_block; rewrite Hw; reflexivity).
    eexists. split; [exact Hx|]. split.
    + intros i Hi. apply (gpu_block_test b n _ i Hx Hi).
    + intros Hal i Hi. replace (n + i) with (32 * (n / 32) + i)
        by (Z.div_mod_to_equations; lia).
      apply (gpu_block_test b n _ i Hx Hi).
  - destruct (vec_get_in_range b (2 * (n / 64))) as [lo Hlo]; [lia|].
    destruct (vec_get_in_range b (2 * (n / 64) + 1)) as [hi Hhi]; [lia|].
    assert (Hx : gpu_wideblock b n = Ok (u64 (Z.lnot (Z.lor lo (Z.shiftl hi 32)))))
      by (unfold gpu_wideblock; rewrite Hlo, Hhi; reflexivity).
    eexists. split; [exact Hx|]. split.
    + intros i Hi. apply (gpu_wideblock_test b n _ i Hwords Hx ltac:(lia) Hi).
    + intros Hal i Hi. replace (n + i) with (64 * (n / 64) + i)
        by (Z.div_mod_to_equations; lia).
      apply (gpu_wideblock_test b n _ i Hwords Hx ltac:(lia) Hi).
Qed.


(** ** twice_set *)

Lemma land_pow2 (w j : Z) :
  0 <= j -> Z.land w (2 ^ j) = if Z.testbit w j then 2 ^ j else 0.
Proof.
  intros Hj. apply Z.bits_inj'. intros i Hi. rewrite Z.land_spec.
  destruct (Z.testbit w j) eqn:Hb.
  - destruct (Z.eq_dec i j) as [->|Hne].
    + rewrite Hb, Z.pow2_bits_true by lia. reflexivity.
    + rewrite Z.pow2_bits_false by lia. apply andb_false_r.
  - rewrite Z.bits_0. destruct (Z.eq_dec i j) as [->|Hne].
    + rewrite Hb. reflexivity.
    + rewrite Z.pow2_bits_false by lia. apply andb_false_r.
Qed.

Lemma lor_pow2_absorb (w j : Z) :
  0 <= j -> Z.testbit w j = true -> Z.lor w (2 ^ j) = w.
Proof.
  intros Hj Hb. apply Z.bits_inj'. intros i Hi. rewrite Z.lor_spec.
  destruct (Z.eq_dec i j) as [->|Hne].
  - rewrite Hb. reflexivity.
  - rewrite Z.pow2_bits_false by lia. apply orb_false_r.
Qed.

Lemma twice_bit (k : Z) :
  0 <= k < 16 ->
  u32 (Z.shiftl 1 (2 * k)) = 2 ^ (2 * k) /\
  u32 (Z.shiftl (2 ^ (2 * k)) 1) = 2 ^ (2 * k + 1) /\
  u32 (2 ^ (2 * k) + 2 ^ (2 * k)) = 2 ^ (2 * k + 1).
Proof.
  intros Hk.
  assert (H1 : 0 < 2 ^ (2 * k) < 2 ^ 32).
  { split; [apply Z.pow_pos_nonneg; lia | apply Z.pow_lt_mono_r; lia]. }
  assert (H2 : 0 < 2 ^ (2 * k + 1) < 2 ^ 32).
  { split; [apply Z.pow_pos_nonneg; lia | apply Z.pow_lt_mono_r; lia]. }
  assert (H3 : 2 ^ (2 * k + 1) = 2 ^ (2 * k) + 2 ^ (2 * k)).
  { rewrite Z.pow_add_r by lia. lia. }
  unfold u32. rewrite Z.shiftl_1_l, Z.shiftl_mul_pow2 by lia.
  rewrite Z.pow_1_r. rewrite !wrap_small by lia. lia.
Qed.

Lemma twice_set_set_eq (tw : list Z) (u : Z) :
  0 <= u ->
  twice_set_set tw u
  = do w <- vec_get tw (u / 16) ;
    vec_set tw (u / 16) (twice_word w (u mod 16)).
Proof.
  intros Hu. unfold twice_set_set.
  pose proof (Z.mod_pos_bound u 16 ltac:(lia)) as Hk.
  destruct (twice_bit (u mod 16) Hk) as (E1 & E2 & E3).
  destruct (vec_get tw (u / 16)) as [w|e]; [|reflexivity]. cbn [bind].
  f_equal. unfold twice_word. rewrite E1, land_pow2 by lia.
  destruct (Z.testbit w (2 * (u mod 16))).
  - rewrite E3. reflexivity.
  - rewrite Z.add_0_r. f_equal. apply wrap_small.
    split; [apply Z.pow_nonneg; lia | apply Z.pow_lt_mono_r; lia].
Qed.

(** The ATOMIC build and the CUDA miners write the same word. *)
Lemma twice_set_set_atomic_eq (tw : list Z) (u : Z) :
  0 <= u -> twice_set_set_atomic tw u = twice_set_set tw u.
Proof.
  intros Hu. rewrite twice_set_set_eq by assumption. unfold twice_set_set_atomic.
  pose proof (Z.mod_pos_bound u 16 ltac:(lia)) as Hk.
  destruct (twice_bit (u mod 16) Hk) as (E1 & E2 & E3).
  destruct (vec_get tw (u / 16)) as [w|e] eqn:Hw; [|reflexivity]. cbn [bind].
  pose proof (vec_get_lt _ _ _ Hw) as Hi.
  rewrite E1, !vec_set_in_range by lia. cbn [bind].
  rewrite land_pow2 by lia. unfold twice_word.
  destruct (Z.testbit w (2 * (u mod 16))) eqn:Hb.
  - assert (Hnz : (2 ^ (2 * (u mod 16)) =? 0) = false).
    { apply Z.eqb_neq. pose proof (Z.pow_pos_nonneg 2 (2 * (u mod 16))). lia. }
    rewrite Hnz, vec_get_set_eq by lia. cbn [bind].
    rewrite vec_set_in_range by (rewrite length_insert; lia).
    rewrite list_insert_insert_eq, E2.
    rewrite (lor_pow2_absorb w (2 * (u mod 16))) by (lia || assumption).
    reflexivity.
  - reflexivity.
Qed.

Lemma gpu_twice_set_set_eq (tw : list Z) (u : Z) :
  0 <= u -> gpu_twice_set_set tw u = twice_set_set tw u.
Proof.
  intros Hu. rewrite twice_set_set_eq by assumption. unfold gpu_twice_set_set.
  pose proof (Z.mod_pos_bound u 16 ltac:(lia)) as Hk.
  destruct (twice_bit (u mod 16) Hk) as (E1 & E2 & E3).
  destruct (vec_get tw (u / 16)) as [w|e] eqn:Hw; [|reflexivity]. cbn [bind].
  pose proof (vec_get_lt _ _ _ Hw) as Hi.
  rewrite E1, E2, !vec_set_in_range by lia. cbn [bind].
  set (k := u mod 16) in *.
  assert (Hp1 : 0 < 2 ^ (2 * k)) by (apply Z.pow_pos_nonneg; lia).
  assert (Hp2 : 2 ^ (2 * k + 1) = 2 * 2 ^ (2 * k))
    by (rewrite Z.pow_add_r by lia; lia).
  assert (Hl : Z.land w (Z.lor (2 ^ (2 * k + 1)) (2 ^ (2 * k)))
               = (if Z.testbit w (2 * k + 1) then 2 ^ (2 * k + 1) else 0)
                 + (if Z.testbit w (2 * k) then 2 ^ (2 * k) else 0)).
  { rewrite Z.land_lor_distr_r, !land_pow2 by lia.
    destruct (Z.testbit w (2 * k + 1)), (Z.testbit w (2 * k));
      rewrite ?Z.lor_0_r, ?Z.lor_0_l, ?Z.add_0_r, ?Z.add_0_l; try reflexivity.
    assert (Hdis : Z.land (2 ^ (2 * k + 1)) (2 ^ (2 * k)) = 0).
    { rewrite land_pow2, Z.pow2_bits_false by lia. reflexivity. }
    rewrite <- (Z.lxor_lor _ _ Hdis), (Z.add_nocarry_lxor _ _ Hdis).
    reflexivity. }
  rewrite Hl. unfold twice_word.
  destruct (Z.testbit w (2 * k)) eqn:Hlo, (Z.testbit w (2 * k + 1)) eqn:Hhi.
  - replace (2 ^ (2 * k + 1) + 2 ^ (2 * k) =? 2 ^ (2 * k)) with false
      by (symmetry; apply Z.eqb_neq; lia).
    rewrite !lor_pow2_absorb by (lia || assumption). reflexivity.
  - rewrite Z.add_0_l, Z.eqb_refl, vec_get_set_eq by lia. cbn [bind].
    rewrite vec_set_in_range by (rewrite length_insert; lia).
    rewrite list_insert_insert_eq, (lor_pow2_absorb w (2 * k)) by (lia || assumption).
    reflexivity.
  - replace (2 ^ (2 * k + 1) + 0 =? 2 ^ (2 * k)) with false
      by (symmetry; apply Z.eqb_neq; lia).
    reflexivity.
  - replace (0 + 0 =? 2 ^ (2 * k)) with false
      by (symmetry; apply Z.eqb_neq; lia).
    reflexivity.
Qed.


Hypothesis PART_BITS_lo : 0 <= PART_BITS.
Hypothesis PART_BITS_hi : PART_BITS <= SIZESHIFT - 5.

Lemma ONCE_BITS_pow : ONCE_BITS = 2 ^ NONCESHIFT.
Proof.
  unfold ONCE_BITS, NONCESHIFT. rewrite HALFSIZE_pow, Z.shiftr_div_pow2 by lia.
  rewrite <- Z.pow_sub_r by lia. reflexivity.
Qed.

Lemma TWICE_WORDS_eq : ONCE_BITS = 16 * TWICE_WORDS /\ 0 < TWICE_WORDS.
Proof.
  unfold TWICE_WORDS. rewrite ONCE_BITS_pow. unfold NONCESHIFT.
  replace (SIZESHIFT - 1 - PART_BITS) with (4 + (SIZESHIFT - 5 - PART_BITS)) by lia.
  rewrite Z.pow_add_r by lia. change (2 ^ 4) with 16.
  pose proof (Z.pow_pos_nonneg 2 (SIZESHIFT - 5 - PART_BITS) ltac:(lia) ltac:(lia)).
  replace (2 * (16 * 2 ^ (SIZESHIFT - 5 - PART_BITS)))
    with (2 ^ (SIZESHIFT - 5 - PART_BITS) * 32) by lia.
  rewrite Z.div_mul by lia. lia.
Qed.

Lemma twice_index (u : Z) : 0 <= u < ONCE_BITS -> 0 <= u / 16 < TWICE_WORDS.
Proof.
  intros Hu. pose proof TWICE_WORDS_eq as [H1 H2]. split.
  - apply Z.div_pos; lia.
  - apply Z.div_lt_upper_bound; lia.
Qed.

Lemma land_3_bits (x : Z) :
  Z.land x 3 = Z.b2z (Z.testbit x 0) + 2 * Z.b2z (Z.testbit x 1).
Proof.
  change 3 with (Z.ones 2). rewrite Z.land_ones by lia.
  change (2 ^ 2) with (2 * 2). rewrite Z.rem_mul_r by lia.
  assert (H1 : Z.testbit x 1 = Z.testbit (x / 2) 0).
  { rewrite Z.div2_bits by lia. reflexivity. }
  rewrite H1, !Z.bit0_mod. reflexivity.
Qed.

Lemma land_2_bits (x : Z) : Z.land x 2 = 2 * Z.b2z (Z.testbit x 1).
Proof.
  change 2 with (2 ^ 1) at 1. rewrite land_pow2 by lia.
  destruct (Z.testbit x 1); reflexivity.
Qed.

Lemma twice_set_state_unfold (tw : list Z) (u : Z) :
  twice_set_state tw u
  = match vec_get tw (u / 16) with
    | Ok w => Ok (Z.b2z (Z.testbit w (2 * (u mod 16)))
                  + 2 * Z.b2z (Z.testbit w (2 * (u mod 16) + 1)))
    | Err e => Err e
    end.
Proof.
  unfold twice_set_state. destruct (vec_get tw (u / 16)) as [w|e]; [|reflexivity].
  cbn [bind]. pose proof (Z.mod_pos_bound u 16 ltac:(lia)).
  rewrite land_3_bits, !Z.shiftr_spec by lia.
  rewrite Z.add_0_l, (Z.add_comm 1). reflexivity.
Qed.

Lemma twice_set_test_unfold (tw : list Z) (u : Z) :
  twice_set_test tw u
  = match vec_get tw (u / 16) with
    | Ok w => Ok (2 * Z.b2z (Z.testbit w (2 * (u mod 16) + 1)))
    | Err e => Err e
    end.
Proof.
  unfold twice_set_test. destruct (vec_get tw (u / 16)) as [w|e]; [|reflexivity].
  cbn [bind]. pose proof (Z.mod_pos_bound u 16 ltac:(lia)).
  rewrite land_2_bits, !Z.shiftr_spec by lia.
  rewrite (Z.add_comm 1). reflexivity.
Qed.

Lemma twice_word_bits (w k i : Z) :
  0 <= k -> 0 <= i ->
  Z.testbit (twice_word w k) i
  = Z.testbit w i || (if Z.testbit w (2 * k) then i =? 2 * k + 1 else i =? 2 * k).
Proof.
  intros Hk Hi. unfold twice_word. rewrite Z.lor_spec. f_equal.
  destruct (Z.testbit w (2 * k)).
  - destruct (Z.eqb_spec i (2 * k + 1)) as [->|];
      [apply Z.pow2_bits_true | apply Z.pow2_bits_false]; lia.
  - destruct (Z.eqb_spec i (2 * k)) as [->|];
      [apply Z.pow2_bits_true | apply Z.pow2_bits_false]; lia.
Qed.

(** [set u] bumps the counter of [u] and leaves every other counter alone. *)
Lemma twice_set_set_state (tw tw' : list Z) (u u' : Z) :
  0 <= u -> 0 <= u' -> twice_set_set tw u = Ok tw' ->
  twice_set_state tw' u'
  = if decide (u' = u)
    then do st <- twice_set_state tw u ; Ok (bump st)
    else twice_set_state tw u'.
Proof.
  intros Hu Hu' H. rewrite twice_set_set_eq in H by assumption.
  bind_inv H. rename x into w. apply vec_set_Ok in H as [Hi ->].
  rewrite !twice_set_state_unfold.
  pose proof (Z.mod_pos_bound u 16 ltac:(lia)) as Hk.
  pose proof (Z.mod_pos_bound u' 16 ltac:(lia)) as Hk'.
  destruct (Z.eq_dec (u' / 16) (u / 16)) as [Heq|Hne].
  - rewrite Heq, vec_get_set_eq, Hx by lia.
    rewrite !twice_word_bits by lia.
    destruct (decide (u' = u)) as [->|Hneq].
    + cbn [bind]. f_equal.
      destruct (Z.testbit w (2 * (u mod 16))) eqn:Hlo,
               (Z.testbit w (2 * (u mod 16) + 1)) eqn:Hhi;
        rewrite ?Z.eqb_refl;
        repeat match goal with
               | |- context [?a =? ?b] =>
                   destruct (Z.eqb_spec a b); try lia
               end; reflexivity.
    + assert (u' mod 16 <> u mod 16).
      { intros E. apply Hneq.
        rewrite (Z.div_mod u' 16), (Z.div_mod u 16) by lia. congruence. }
      f_equal.
      destruct (Z.testbit w (2 * (u mod 16)));
        repeat match goal with
               | |- context [?a =? ?b] =>
                   destruct (Z.eqb_spec a b); try lia
               end; rewrite !orb_false_r; reflexivity.
  - rewrite vec_get_set_ne by (try apply Z.div_pos; lia).
    destruct (decide (u' = u)) as [->|]; [congruence | reflexivity].
Qed.

Lemma twice_set_set_in_range (tw : list Z) (u : Z) :
  Z.of_nat (length tw) = TWICE_WORDS -> 0 <= u < ONCE_BITS ->
  exists tw', twice_set_set tw u = Ok tw' /\
              Z.of_nat (length tw') = TWICE_WORDS.
Proof.
  intros Hlen Hu. pose proof (twice_index u Hu) as Hi.
  rewrite twice_set_set_eq by lia.
  destruct (vec_get_in_range tw (u / 16)) as [w Hw]; [lia|].
  rewrite Hw. cbn [bind]. rewrite vec_set_in_range by lia.
  eexists. split; [reflexivity|]. rewrite length_insert. exact Hlen.
Qed.

Lemma twice_set_reset_zero (tw0 : list Z) :
  Z.of_nat (length tw0) = TWICE_WORDS ->
  twice_set_reset tw0 = replicate (Z.to_nat TWICE_WORDS) 0.
Proof.
  intros Hlen. unfold twice_set_reset. rewrite drop_ge by lia.
  apply app_nil_r.
Qed.

Lemma twice_set_zero_state (u : Z) :
  0 <= u < ONCE_BITS ->
  twice_set_state (replicate (Z.to_nat TWICE_WORDS) 0) u = Ok 0.
Proof.
  intros Hu. pose proof (twice_index u Hu) as Hi.
  rewrite twice_set_state_unfold.
  assert (Hg : vec_get (replicate (Z.to_nat TWICE_WORDS) 0) (u / 16) = Ok 0).
  { apply vec_get_Ok. split; [lia|]. apply lookup_replicate_2. lia. }
  rewrite Hg, !Z.testbit_0_l. reflexivity.
Qed.

(** After a run of [set] calls the counter of [u] has been bumped once for
    every call made for [u]. *)
Lemma twice_set_fold_state (calls : list Z) (u : Z) :
  forall (tw : list Z) (st : Z),
    Z.of_nat (length tw) = TWICE_WORDS ->
    Forall (fun x => 0 <= x < ONCE_BITS) calls -> 0 <= u ->
    twice_set_state tw u = Ok st ->
    exists tw', foldM twice_set_set calls tw = Ok tw' /\
                Z.of_nat (length tw') = TWICE_WORDS /\
                twice_set_state tw' u
                = Ok (Nat.iter (count_occ Z.eq_dec calls u) bump st).
Proof.
  induction calls as [|x calls IH]; intros tw st Hlen Hcalls Hu Hst.
  - exists tw. auto.
  - inversion Hcalls as [|? ? Hx Hcalls']; subst.
    destruct (twice_set_set_in_range tw x Hlen Hx) as (tw1 & Hset & Hlen1).
    pose proof (twice_set_set_state tw tw1 x u ltac:(lia) Hu Hset) as Hst1.
    cbn [foldM]. rewrite Hset. cbn [bind count_occ].
    destruct (Z.eq_dec x u) as [->|Hne].
    + rewrite decide_True in Hst1 by reflexivity. rewrite Hst in Hst1.
      cbn [bind] in Hst1.
      destruct (IH tw1 (bump st) Hlen1 Hcalls' Hu Hst1) as (tw' & Hf & Hl & Hs).
      exists tw'. repeat split; try assumption.
      rewrite Hs. f_equal. rewrite Nat.iter_succ_r. reflexivity.
    + rewrite decide_False in Hst1 by congruence. rewrite Hst in Hst1.
      apply (IH tw1 st Hlen1 Hcalls' Hu Hst1).
Qed.

Lemma bump_iter (k : nat) :
  Nat.iter k bump 0 = match k with O => 0 | S O => 1 | _ => 3 end.
Proof.
  destruct k as [|[|k]]; try reflexivity.
  induction k as [|k IH]; [reflexivity|].
  rewrite Nat.iter_succ, IH. reflexivity.
Qed.

Lemma twice_set_test_state (tw : list Z) (u st : Z) :
  twice_set_state tw u = Ok st ->
  twice_set_test tw u = Ok (Z.land st 2).
Proof.
  unfold twice_set_state, twice_set_test.
  destruct (vec_get tw (u / 16)) as [w|e]; [|discriminate]. cbn [bind].
  intros [= <-]. f_equal. rewrite <- Z.land_assoc. reflexivity.
Qed.


Lemma twice_set_state_range (tw : list Z) (u st : Z) :
  twice_set_state tw u = Ok st -> 0 <= st <= 3.
Proof.
  rewrite twice_set_state_unfold.
  destruct (vec_get tw (u / 16)) as [w|e]; [|discriminate]. intros [= <-].
  destruct (Z.testbit w (2 * (u mod 16))), (Z.testbit w (2 * (u mod 16) + 1));
    simpl; lia.
Qed.

(** C4. Starting from a reset twice_set (on a build with
    0 <= PART_BITS <= SIZESHIFT - 5, 7 <= SIZESHIFT <= 32), after any run of
    set calls for nodes of the partition the two bits of node u are 00 and
    test(u) is false when set(u) was never called, 01 and false after exactly
    one call, 11 and true after two or more; one set(u) takes 00 to 01, 01 to
    11 and 11 to 11, never lowers the counter and leaves the other nodes
    alone.  The plain, the ATOMIC and the CUDA [set] compute the same. *)
Theorem twice_set_saturating (tw0 calls : list Z) (u : Z) :
  Z.of_nat (length tw0) = TWICE_WORDS ->
  Forall (fun x => 0 <= x < ONCE_BITS) calls ->
  0 <= u < ONCE_BITS ->
  (exists tw st t,
     foldM twice_set_set calls (twice_set_reset tw0) = Ok tw /\
     foldM twice_set_set_atomic calls (twice_set_reset tw0) = Ok tw /\
     foldM gpu_twice_set_set calls (twice_set_reset tw0) = Ok tw /\
     twice_set_state tw u = Ok st /\ twice_set_test tw u = Ok t /\
     (count_occ Z.eq_dec calls u = 0%nat -> st = 0 /\ t = 0) /\
     (count_occ Z.eq_dec calls u = 1%nat -> st = 1 /\ t = 0) /\
     ((2 <= count_occ Z.eq_dec calls u)%nat -> st = 3 /\ t <> 0)) /\
  (forall tw st,
     Z.of_nat (length tw) = TWICE_WORDS -> twice_set_state tw u = Ok st ->
     exists tw' st',
       twice_set_set tw u = Ok tw' /\
       twice_set_set_atomic tw u = Ok tw' /\
       gpu_twice_set_set tw u = Ok tw' /\
       twice_set_state tw' u = Ok st' /\
       (st = 0 -> st' = 1) /\ (st = 1 -> st' = 3) /\ (st = 3 -> st' = 3) /\
       st <= st' /\
       (forall u', 0 <= u' -> u' <> u ->
                   twice_set_state tw' u' = twice_set_state tw u')).
Proof.
  intros Hlen Hcalls Hu. split.
  - rewrite twice_set_reset_zero by assumption.
    destruct (twice_set_fold_state calls u (replicate (Z.to_nat TWICE_WORDS) 0) 0)
      as (tw & Hf & Hl & Hs).
    + rewrite length_replicate. pose proof TWICE_WORDS_eq. lia.
    + assumption.
    + lia.
    + apply twice_set_zero_state. assumption.
    + rewrite bump_iter in Hs. pose proof (twice_set_test_state _ _ _ Hs) as Ht.
      exists tw. eexists. eexists. split; [exact Hf|].
      split; [|split; [|split; [exact Hs|split; [exact Ht|]]]].
      * rewrite <- Hf. apply foldM_ext_in. intros x a Hx.
        apply twice_set_set_atomic_eq.
        rewrite List.Forall_forall in Hcalls. specialize (Hcalls x Hx). lia.
      * rewrite <- Hf. apply foldM_ext_in. intros x a Hx.
        apply gpu_twice_set_set_eq.
        rewrite List.Forall_forall in Hcalls. specialize (Hcalls x Hx). lia.
      * destruct (count_occ Z.eq_dec calls u) as [|[|k]];
          (split; [|split]); intros Hk; try lia;
          (split; [reflexivity | first [reflexivity | discriminate]]).
  - intros tw st Hl Hst.
    destruct (twice_set_set_in_range tw u Hl Hu) as (tw' & Hset & Hl').
    pose proof (twice_set_state_range _ _ _ Hst) as Hr.
    exists tw', (bump st). split; [exact Hset|].
    split; [rewrite twice_set_set_atomic_eq by lia; exact Hset|].
    split; [rewrite gpu_twice_set_set_eq by lia; exact Hset|].
    split.
    { rewrite (twice_set_set_state tw tw' u u) by (lia || assumption).
      rewrite decide_True by reflexivity. rewrite Hst. reflexivity. }
    unfold bump. repeat split; try (intros ->; reflexivity).
    + destruct (Z.eqb_spec st 0); lia.
    + intros u' Hu' Hne.
      rewrite (twice_set_set_state tw tw' u u') by (lia || assumption).
      rewrite decide_False by assumption. reflexivity.
Qed.


(** ** The buffers of the trimming kernels *)

Lemma NONCESHIFT_range : 4 <= NONCESHIFT <= 31.
Proof. unfold NONCESHIFT. lia. Qed.

Lemma sipnode_range (n uorv : Z) : 0 <= _sipnode n uorv < HALFSIZE.
Proof.
  unfold _sipnode, NODEMASK. rewrite HALFSIZE_pow.
  rewrite Z.sub_1_r, <- Z.ones_equiv, Z.land_ones by lia.
  apply Z.mod_pos_bound. apply Z.pow_pos_nonneg; lia.
Qed.

Lemma sipnode_part_range (n uorv : Z) :
  0 <= Z.shiftr (_sipnode n uorv) PART_BITS < ONCE_BITS.
Proof.
  pose proof (sipnode_range n uorv) as Hr. pose proof NONCESHIFT_range as Hns.
  rewrite ONCE_BITS_pow, Z.shiftr_div_pow2 by lia.
  pose proof (Z.pow_pos_nonneg 2 PART_BITS ltac:(lia) ltac:(lia)) as Hp.
  split; [apply Z.div_pos; lia|].
  apply Z.div_lt_upper_bound; [lia|].
  rewrite <- Z.pow_add_r by lia. rewrite HALFSIZE_pow in Hr.
  replace (PART_BITS + NONCESHIFT) with (SIZESHIFT - 1) by (unfold NONCESHIFT; lia).
  lia.
Qed.

Lemma NODEPARTMASK_ones : NODEPARTMASK = Z.ones NONCESHIFT.
Proof.
  pose proof NONCESHIFT_range as Hns.
  unfold NODEPARTMASK, NODEMASK. rewrite HALFSIZE_pow, Z.sub_1_r, <- Z.ones_equiv.
  apply Z.bits_inj'. intros i Hi.
  rewrite Z.shiftr_spec, !Z.testbit_ones_nonneg by lia.
  unfold NONCESHIFT.
  destruct (Z.ltb_spec (i + PART_BITS) (SIZESHIFT - 1)),
           (Z.ltb_spec i (SIZESHIFT - 1 - PART_BITS)); lia || reflexivity.
Qed.

Lemma block_bits (n i : Z) :
  0 <= n -> 0 <= i ->
  Z.testbit (64 * (n / 64)) i = (6 <=? i) && Z.testbit n i.
Proof.
  intros Hn Hi.
  replace (64 * (n / 64)) with (Z.shiftl (Z.shiftr n 6) 6)
    by (rewrite Z.shiftl_mul_pow2, Z.shiftr_div_pow2 by lia;
        change (2 ^ 6) with 64; lia).
  destruct (Z.leb_spec 6 i).
  - rewrite Z.shiftl_spec, Z.shiftr_spec by lia. simpl. f_equal. lia.
  - rewrite Z.shiftl_spec_low by lia. reflexivity.
Qed.

(** The packed buffer entry gives back the node and the nonce. *)
Lemma pack_unpack (uorv blk j : Z) :
  0 <= blk -> blk mod 64 = 0 -> 0 <= j < 64 -> blk + j < 2 ^ 32 ->
  node_t (Z.land (pack uorv (blk + j)) NODEPARTMASK)
  = Z.shiftr (_sipnode (blk + j) uorv) PART_BITS /\
  nonce_t (Z.lor blk (Z.shiftr (pack uorv (blk + j)) NONCESHIFT)) = blk + j.
Proof.
  intros Hblk Hal Hj Hlt. pose proof NONCESHIFT_range as Hns.
  set (n := blk + j) in *. unfold pack.
  set (x := Z.shiftr (_sipnode n uorv) PART_BITS).
  assert (Hx : 0 <= x < 2 ^ NONCESHIFT).
  { rewrite <- ONCE_BITS_pow. apply sipnode_part_range. }
  assert (Hx32 : 0 <= x < 2 ^ 32).
  { split; [lia|]. apply Z.lt_le_trans with (2 ^ NONCESHIFT); [lia|].
    apply Z.pow_le_mono_r; lia. }
  assert (Hbits : forall i, 0 <= i ->
            Z.testbit (u64 (Z.lor (u64 (Z.shiftl n NONCESHIFT)) x)) i
            = if i <? NONCESHIFT then Z.testbit x i
              else Z.testbit n (i - NONCESHIFT)).
  { intros i Hi. unfold u64. rewrite wrap_testbit, Z.lor_spec, wrap_testbit by lia.
    destruct (Z.ltb_spec i NONCESHIFT) as [Hlo|Hhi].
    - rewrite Z.shiftl_spec_low by lia.
      replace (i <? 64) with true by (symmetry; apply Z.ltb_lt; lia).
      reflexivity.
    - rewrite Z.shiftl_spec, (testbit_above x NONCESHIFT i) by lia.
      rewrite orb_false_r.
      destruct (Z.ltb_spec i 64) as [|Hbig]; [reflexivity|].
      symmetry. apply (testbit_above n 32); lia. }
  split.
  - rewrite NODEPARTMASK_ones.
    replace (Z.land _ (Z.ones NONCESHIFT)) with x.
    + unfold node_t. rewrite NONCE_BITS_32. apply wrap_small. exact Hx32.
    + apply Z.bits_inj'. intros i Hi.
      rewrite Z.land_spec, Hbits, Z.testbit_ones_nonneg by lia.
      destruct (Z.ltb_spec i NONCESHIFT); [rewrite andb_true_r; reflexivity|].
      rewrite andb_false_r. apply (testbit_above x NONCESHIFT); lia.
  - replace (Z.lor blk _) with n; [apply nonce_t_small; lia|].
    assert (Hb : blk = 64 * (n / 64)) by (unfold n; Z.div_mod_to_equations; lia).
    apply Z.bits_inj'. intros i Hi.
    rewrite Z.lor_spec, Z.shiftr_spec, Hbits by lia.
    replace (i + NONCESHIFT <? NONCESHIFT) with false
      by (symmetry; apply Z.ltb_ge; lia).
    replace (i + NONCESHIFT - NONCESHIFT) with i by lia.
    rewrite Hb, block_bits by lia.
    destruct (6 <=? i), (Z.testbit n i); reflexivity.
Qed.

Lemma buffer_fold (p : Z -> bool) (g : Z -> Z) (l : list Z) :
  forall buffer : list Z,
    (length buffer + length l <= 64)%nat ->
    foldM (fun buffer n => if p n then buffer_push buffer (g n) else Ok buffer)
          l buffer
    = Ok (buffer ++ map (fun n => u64 (g n)) (List.filter p l)).
Proof.
  induction l as [|n l IH]; intros buffer Hlen; simpl.
  - rewrite app_nil_r. reflexivity.
  - simpl in Hlen. destruct (p n); simpl.
    + unfold buffer_push.
      replace (Z.of_nat (length buffer) <? 64) with true
        by (symmetry; apply Z.ltb_lt; lia).
      cbn [bind]. rewrite IH by (rewrite length_app; simpl; lia).
      rewrite <- app_assoc. reflexivity.
    + apply IH. lia.
Qed.

Lemma sweep_block {A : Type} (body : Z -> A -> res A) (blk x : Z) (a : A) :
  0 <= blk -> blk + 64 <= 2 ^ 32 -> 0 <= x < 2 ^ 64 ->
  ffs_sweep 65 body (nonce_t (blk - 1)) x a
  = foldM (fun a n => body n a) (block_nonces blk x) a.
Proof.
  clear siphash24.
  intros Hblk Hlt Hx. rewrite ffs_sweep_spec by (simpl; lia).
  unfold block_nonces. rewrite foldM_map. apply foldM_ext_in.
  intros j a' Hj. apply word_bits_lt in Hj; [|assumption].
  rewrite <- Z.add_assoc, nonce_t_add_l. f_equal. rewrite nonce_t_small by lia.
  lia.
Qed.

Lemma block_nonces_spec (s : shrinkingset) (blk x m : Z) :
  block s blk = Ok x -> 0 <= blk -> blk mod 64 = 0 ->
  (In m (block_nonces blk x) <->
   blk <= m < blk + 64 /\ test s m = Ok true).
Proof.
  clear siphash24.
  intros Hb Hblk Hal. unfold block_nonces. rewrite in_map_iff.
  assert (Hq : blk = 64 * (blk / 64)) by (Z.div_mod_to_equations; lia).
  split.
  - intros (j & <- & Hj).
    destruct (block_test s blk x 0 Hb ltac:(lia)) as [Hx _].
    pose proof (word_bits_lt x j Hx Hj) as Hj64.
    apply word_bits_spec in Hj; [|lia]. destruct Hj as [_ Hbit].
    destruct (block_test s blk x j Hb Hj64) as [_ Ht].
    rewrite <- Hq, Hbit in Ht. split; [lia | exact Ht].
  - intros [Hm Ht]. exists (m - blk). split; [lia|].
    destruct (block_test s blk x (m - blk) Hb ltac:(lia)) as [Hx Ht'].
    rewrite <- Hq in Ht'. replace (blk + (m - blk)) with m in Ht' by lia.
    apply word_bits_spec; [lia|]. split; [lia|]. congruence.
Qed.

Lemma sorted_NoDup (l : list Z) : StronglySorted Z.lt l -> List.NoDup l.
Proof.
  intros Hs. induction Hs as [|j l Hs IH Hall]; constructor; [|exact IH].
  intros Hin. rewrite List.Forall_forall in Hall. specialize (Hall j Hin). lia.
Qed.

Lemma block_nonces_sorted (blk x : Z) : StronglySorted Z.lt (block_nonces blk x).
Proof.
  clear siphash24.
  unfold block_nonces. pose proof (word_bits_sorted x) as Hs.
  induction Hs as [|j l Hs IH Hall]; simpl; constructor; [exact IH|].
  rewrite List.Forall_forall in *. intros y Hy.
  apply in_map_iff in Hy as (z & <- & Hz). specialize (Hall z Hz). lia.
Qed.

Lemma block_nonces_NoDup (blk x : Z) : List.NoDup (block_nonces blk x).
Proof.
  clear siphash24. apply sorted_NoDup, block_nonces_sorted. Qed.


Lemma filter_filter_andb {A : Type} (p q : A -> bool) (l : list A) :
  List.filter p (List.filter q l) = List.filter (fun x => q x && p x) l.
Proof.
  induction l as [|x l IH]; simpl; [reflexivity|].
  destruct (q x); simpl; [destruct (p x)|]; rewrite IH; reflexivity.
Qed.

Lemma filter_remove_one (x : Z) (l : list Z) :
  List.NoDup l -> In x l ->
  length (List.filter (fun m => negb (m =? x)) l) = (length l - 1)%nat.
Proof.
  induction l as [|y l IH]; intros Hnd Hin; [destruct Hin|].
  inversion Hnd as [|? ? Hy Hnd']; subst. simpl.
  destruct (Z.eqb_spec y x) as [->|Hne]; simpl.
  - rewrite forallb_filter_id; [lia|].
    apply forallb_forall. intros z Hz.
    destruct (Z.eqb_spec z x) as [->|]; [contradiction | reflexivity].
  - destruct Hin as [->|Hin]; [congruence|].
    rewrite (IH Hnd' Hin). destruct l; [destruct Hin | simpl; lia].
Qed.

Lemma filter_remove_length (R : list Z) :
  forall l : list Z,
    List.NoDup l -> List.NoDup R -> incl R l ->
    length (List.filter (fun m => negb (mem m R)) l)
    = (length l - length R)%nat.
Proof.
  clear siphash24.
  induction R as [|x R IH]; intros l Hl HR Hincl.
  - rewrite forallb_filter_id; [simpl; lia|].
    apply forallb_forall. reflexivity.
  - inversion HR as [|? ? Hx HR']; subst.
    set (l1 := List.filter (fun m => negb (m =? x)) l).
    assert (Hl1 : List.NoDup l1) by (apply List.NoDup_filter; exact Hl).
    assert (Hincl1 : incl R l1).
    { intros r Hr. apply filter_In. split; [apply Hincl; right; exact Hr|].
      destruct (Z.eqb_spec r x) as [->|]; [contradiction | reflexivity]. }
    assert (Hlen1 : length l1 = (length l - 1)%nat).
    { apply filter_remove_one; [exact Hl|]. apply Hincl. left. reflexivity. }
    replace (List.filter (fun m => negb (mem m (x :: R))) l)
      with (List.filter (fun m => negb (mem m R)) l1).
    + rewrite (IH l1 Hl1 HR' Hincl1), Hlen1. simpl. lia.
    + unfold l1. rewrite filter_filter_andb. apply filter_ext. intros m.
      unfold mem. destruct (in_dec Z.eq_dec m R) as [Hi|Hi],
        (in_dec Z.eq_dec m (x :: R)) as [Hj|Hj], (Z.eqb_spec m x) as [->|Hm];
        simpl in *; try reflexivity; exfalso; intuition congruence.
Qed.

Lemma test_is_alive (nthreads : Z) (s : shrinkingset) (m : Z) :
  shrinkingset_wf nthreads s -> 0 <= m < HALFSIZE ->
  test s m = Ok (is_alive s m).
Proof.
  intros [Hlen _] Hm. pose proof (word_index m Hm).
  destruct (vec_get_in_range (bits s) (m / 64)) as [w Hw]; [lia|].
  unfold is_alive. rewrite test_unfold, Hw. reflexivity.
Qed.

Lemma nonces_In (m : Z) : In m nonces <-> 0 <= m < HALFSIZE.
Proof.
  unfold nonces. rewrite <- list_elem_of_In, elem_of_seqZ. lia.
Qed.

Lemma nonces_NoDup : List.NoDup nonces.
Proof. apply NoDup_ListNoDup, NoDup_seqZ. Qed.

(** Killing a list of distinct alive nonces lowers the number of alive
    nonces by the length of the list. *)
Lemma alive_count_kill (nthreads : Z) (s s' : shrinkingset) (R : list Z) :
  shrinkingset_wf nthreads s -> shrinkingset_wf nthreads s' ->
  List.NoDup R ->
  (forall m, In m R -> 0 <= m < HALFSIZE /\ test s m = Ok true) ->
  (forall m, 0 <= m -> test s' m = if mem m R then Ok false else test s m) ->
  alive_count s' = alive_count s - Z.of_nat (length R) /\
  Z.of_nat (length R) <= alive_count s.
Proof.
  clear siphash24.
  intros Hs Hs' HR Hin Ht. unfold alive_count.
  assert (Hincl : incl R (List.filter (is_alive s) nonces)).
  { intros m Hm. destruct (Hin m Hm) as [Hr Hm']. apply filter_In.
    split; [apply nonces_In; exact Hr|]. unfold is_alive. rewrite Hm'. reflexivity. }
  assert (Hnd : List.NoDup (List.filter (is_alive s) nonces))
    by (apply List.NoDup_filter, nonces_NoDup).
  pose proof (NoDup_incl_length HR Hincl) as Hle.
  replace (List.filter (is_alive s') nonces)
    with (List.filter (fun m => negb (mem m R)) (List.filter (is_alive s) nonces)).
  - rewrite (filter_remove_length R _ Hnd HR Hincl). lia.
  - rewrite filter_filter_andb. apply filter_ext_in. intros m Hm.
    apply nonces_In in Hm.
    pose proof (test_is_alive nthreads s m Hs Hm) as E.
    pose proof (test_is_alive nthreads s' m Hs' Hm) as E'.
    rewrite Ht, E in E' by lia.
    destruct (mem m R); injection E' as <-; simpl.
    + apply andb_false_r.
    + apply andb_true_r.
Qed.

Lemma reset_fold (nthreads id : Z) (R : list Z) :
  forall s : shrinkingset,
    shrinkingset_wf nthreads s ->
    (forall m, In m R -> 0 <= m < HALFSIZE) -> 0 <= id < nthreads ->
    exists s', foldM (fun s n => reset s n id) R s = Ok s' /\
               shrinkingset_wf nthreads s' /\
               (forall m, 0 <= m ->
                  test s' m = if mem m R then Ok false else test s m) /\
               count s' = u64 (count s - Z.of_nat (length R)).
Proof.
  clear siphash24.
  induction R as [|n R IH]; intros s Hs HR Hid.
  - exists s. split; [reflexivity|]. split; [exact Hs|]. split.
    + intros m _. reflexivity.
    + replace (count s - Z.of_nat (length (@nil Z))) with (count s)
        by (simpl; lia).
      rewrite count_Zsum. unfold u64, wrap.
      rewrite Z.mod_mod by lia. reflexivity.
  - destruct (reset_in_range nthreads s n id Hs (HR n (or_introl eq_refl)) Hid)
      as (s1 & Hr & Hs1).
    destruct (IH s1 Hs1 (fun m Hm => HR m (or_intror Hm)) Hid)
      as (s' & Hf & Hs' & Ht & Hc).
    exists s'. cbn [foldM]. rewrite Hr. cbn [bind].
    split; [exact Hf|]. split; [exact Hs'|]. split.
    + intros m Hm. rewrite Ht by assumption.
      pose proof (HR n (or_introl eq_refl)) as Hn.
      rewrite (reset_test s s1 n id m Hr) by lia.
      unfold mem. destruct (in_dec Z.eq_dec m R) as [Hi|Hi],
        (in_dec Z.eq_dec m (n :: R)) as [Hj|Hj], (decide (m = n)) as [->|Hne];
        simpl in *; try reflexivity; exfalso; intuition congruence.
    + rewrite Hc, (reset_count s s1 n id Hr).
      replace (u64 (count s - 1) - Z.of_nat (length R))
        with (u64 (count s - 1) + - Z.of_nat (length R)) by lia.
      rewrite u64_add_l. f_equal. simpl length. lia.
Qed.


(** ** kill_leaf_edges *)

Lemma twice_set_test_in_range (nonleaf : list Z) (u : Z) :
  Z.of_nat (length nonleaf) = TWICE_WORDS -> 0 <= u < ONCE_BITS ->
  exists t, twice_set_test nonleaf u = Ok t.
Proof.
  intros Hlen Hu. pose proof (twice_index u Hu).
  destruct (vec_get_in_range nonleaf (u / 16)) as [w Hw]; [lia|].
  unfold twice_set_test. rewrite Hw. cbn [bind]. eauto.
Qed.

Lemma mem_In (m : Z) (l : list Z) : mem m l = true <-> In m l.
Proof.
  unfold mem. destruct (in_dec Z.eq_dec m l); split; auto; discriminate.
Qed.

Lemma kill_rel_refl (nthreads : Z) (doomed : Z -> bool) (s : shrinkingset) :
  shrinkingset_wf nthreads s -> kill_rel nthreads doomed (fun _ => false) s s.
Proof.
  intros Hs. split; [exact Hs|]. split; [|reflexivity].
  intros m _. rewrite andb_false_r, andb_true_r. reflexivity.
Qed.

Lemma kill_rel_trans (nthreads : Z) (doomed inb1 inb2 : Z -> bool)
    (s s1 s2 : shrinkingset) :
  kill_rel nthreads doomed inb1 s s1 -> kill_rel nthreads doomed inb2 s1 s2 ->
  kill_rel nthreads doomed (fun m => inb1 m || inb2 m) s s2.
Proof.
  intros (_ & H1 & C1) (Hw & H2 & C2). split; [exact Hw|]. split.
  - intros m Hm. rewrite (H2 m Hm), (H1 m Hm).
    destruct (is_alive s m), (doomed m), (inb1 m), (inb2 m); reflexivity.
  - rewrite C2. exact C1.
Qed.

Lemma kill_rel_ext (nthreads : Z) (doomed inb1 inb2 : Z -> bool)
    (s s' : shrinkingset) :
  (forall m, 0 <= m < HALFSIZE -> inb1 m = inb2 m) ->
  kill_rel nthreads doomed inb1 s s' -> kill_rel nthreads doomed inb2 s s'.
Proof.
  intros He (Hw & H & C). split; [exact Hw|]. split; [|exact C].
  intros m Hm. rewrite <- (He m Hm). apply H. exact Hm.
Qed.

Lemma kill_fold {B : Type} (nthreads : Z) (doomed : Z -> bool)
    (f : shrinkingset -> B -> res shrinkingset) (inb : B -> Z -> bool)
    (Q : B -> Prop) :
  (forall s b, shrinkingset_wf nthreads s -> Q b ->
     exists s', f s b = Ok s' /\ kill_rel nthreads doomed (inb b) s s') ->
  forall (l : list B) (s : shrinkingset),
    shrinkingset_wf nthreads s -> List.Forall Q l ->
    exists s', foldM f l s = Ok s' /\
               kill_rel nthreads doomed
                 (fun m => existsb (fun b => inb b m) l) s s'.
Proof.
  intros Hstep. induction l as [|b l IH]; intros s Hs Hl.
  - exists s. split; [reflexivity|]. apply kill_rel_refl. exact Hs.
  - inversion Hl as [|? ? Hb Hl']; subst.
    destruct (Hstep s b Hs Hb) as (s1 & Hf & Hr1).
    destruct (IH s1 (proj1 Hr1) Hl') as (s' & Hf' & Hr').
    exists s'. cbn [foldM]. rewrite Hf. cbn [bind]. split; [exact Hf'|].
    apply (kill_rel_trans _ _ _ _ _ _ _ Hr1 Hr').
Qed.

Lemma kill_block_spec (nthreads id : Z) (nonleaf : list Z) (uorv part blk : Z)
    (s : shrinkingset) :
  shrinkingset_wf nthreads s -> Z.of_nat (length nonleaf) = TWICE_WORDS ->
  0 <= id < nthreads -> 0 <= blk < HALFSIZE -> blk mod 64 = 0 ->
  exists s', kill_block id nonleaf uorv part blk s = Ok s' /\
             kill_rel nthreads (leaf_edge nonleaf uorv part) (in_block blk) s s'.
Proof.
  intros Hs Hnl Hid Hblk Hal.
  pose proof HALFSIZE_bound as Hb. pose proof HALFSIZE_words as [Hw1 Hw2].
  assert (Hend : blk + 64 <= HALFSIZE) by (Z.div_mod_to_equations; lia).
  destruct (block_in_range nthreads s blk Hs Hblk) as [x Hx].
  destruct (block_test s blk x 0 Hx ltac:(lia)) as [Hxr _].
  set (L := block_nonces blk x).
  assert (HL : forall m, In m L <-> blk <= m < blk + 64 /\ test s m = Ok true)
    by (intros m; apply (block_nonces_spec s blk x m Hx); lia).
  set (R := List.filter (leaf_edge nonleaf uorv part) L).
  assert (HR : forall m, In m R -> 0 <= m < HALFSIZE /\ test s m = Ok true).
  { intros m Hm. apply filter_In in Hm as [Hm _]. apply HL in Hm. split; [lia|tauto]. }
  destruct (reset_fold nthreads id R s Hs (fun m Hm => proj1 (HR m Hm)) Hid)
    as (s' & Hf & Hs' & Ht & Hc).
  exists s'. split.
  - unfold kill_block. rewrite Hx. cbn [bind].
    rewrite sweep_block by lia. fold L.
    rewrite (buffer_fold (in_part uorv part)
               (fun n => Z.lor (u64 (Z.shiftl n NONCESHIFT))
                               (Z.shiftr (_sipnode n uorv) PART_BITS))).
    2:{ unfold L, block_nonces. rewrite length_map.
        pose proof (word_bits_length x Hxr). simpl. lia. }
    cbn [bind app]. change (fun n => u64 _) with (pack uorv).
    rewrite foldM_map.
    rewrite (foldM_ext_in _
               (fun s n => if is_leaf nonleaf uorv n then reset s n id else Ok s)).
    + rewrite foldM_filter, filter_filter_andb. exact Hf.
    + intros n a Hn. apply filter_In in Hn as [Hn _]. apply HL in Hn as [Hn _].
      destruct (pack_unpack uorv blk (n - blk)) as [E1 E2]; try lia.
      replace (blk + (n - blk)) with n in * by lia.
      rewrite E1, E2. unfold is_leaf.
      destruct (twice_set_test_in_range nonleaf _ Hnl (sipnode_part_range n uorv))
        as [t ->].
      reflexivity.
  - assert (HRnd : List.NoDup R)
      by (apply List.NoDup_filter, block_nonces_NoDup).
    destruct (alive_count_kill nthreads s s' R Hs Hs' HRnd HR Ht) as [Hac Hle].
    split; [exact Hs'|]. split.
    + intros m Hm.
      pose proof (test_is_alive nthreads s m Hs Hm) as E.
      pose proof (test_is_alive nthreads s' m Hs' Hm) as E'.
      rewrite Ht, E in E' by lia.
      destruct (mem m R) eqn:Hmem.
      * injection E' as <-. apply mem_In, filter_In in Hmem as [Hin Hd].
        apply HL in Hin as [Hin Halive]. rewrite E in Halive.
        injection Halive as ->. rewrite Hd. unfold in_block.
        replace (blk <=? m) with true by (symmetry; apply Z.leb_le; lia).
        replace (m <? blk + 64) with true by (symmetry; apply Z.ltb_lt; lia).
        reflexivity.
      * injection E' as <-.
        destruct (is_alive s m) eqn:Ha; [|reflexivity].
        destruct (leaf_edge nonleaf uorv part m) eqn:Hd; [|reflexivity].
        destruct (in_block blk m) eqn:Hib; [|reflexivity].
        exfalso. assert (Hin : In m R).
        { apply filter_In. split; [|exact Hd]. apply HL.
          unfold in_block in Hib. apply andb_prop in Hib as [H1 H2].
          apply Z.leb_le in H1. apply Z.ltb_lt in H2. split; [lia | exact E]. }
        apply mem_In in Hin. congruence.
    + rewrite Hc, Hac.
      replace (u64 (count s - Z.of_nat (length R))
               - (alive_count s - Z.of_nat (length R)))
        with (u64 (count s - Z.of_nat (length R))
              + (Z.of_nat (length R) - alive_count s)) by lia.
      rewrite u64_add_l. f_equal. lia.
Qed.


(** ** The block loop of a thread *)

Lemma block_loop_blocks {A : Type} (body : Z -> A -> res A) (step : Z) :
  64 <= step -> step + HALFSIZE <= 2 ^ 32 ->
  forall (fuel : nat) (blk : Z) (a : A),
    0 <= blk -> HALFSIZE <= blk + 64 * Z.of_nat fuel ->
    block_loop (S fuel) step body blk a
    = foldM (fun a b => body b a) (blocks_from (S fuel) step blk) a.
Proof.
  intros Hstep Hwrap. induction fuel as [|fuel IH]; intros blk a Hblk Hfuel.
  - simpl. destruct (Z.ltb_spec blk HALFSIZE); [lia | reflexivity].
  - change (block_loop (S (S fuel)) step body blk a)
      with (if blk <? HALFSIZE
            then do a' <- body blk a ;
                 block_loop (S fuel) step body (nonce_t (blk + step)) a'
            else Ok a).
    change (blocks_from (S (S fuel)) step blk)
      with (if blk <? HALFSIZE
            then blk :: blocks_from (S fuel) step (blk + step) else []).
    destruct (Z.ltb_spec blk HALFSIZE) as [Hlt|Hge]; [|reflexivity].
    cbn [foldM]. destruct (body blk a) as [a'|e]; [|reflexivity]. cbn [bind].
    rewrite nonce_t_small by lia. apply IH; lia.
Qed.

Lemma blocks_from_In (fuel : nat) (step blk b : Z) :
  0 <= step -> In b (blocks_from fuel step blk) ->
  exists k, 0 <= k /\ b = blk + k * step /\ b < HALFSIZE.
Proof.
  intros Hstep. revert blk. induction fuel as [|fuel IH]; intros blk Hin;
    [destruct Hin|].
  simpl in Hin. destruct (Z.ltb_spec blk HALFSIZE) as [Hlt|]; [|destruct Hin].
  destruct Hin as [<-|Hin].
  - exists 0. lia.
  - destruct (IH _ Hin) as (k & Hk & -> & Hb). exists (k + 1). lia.
Qed.

Lemma blocks_from_covers (step : Z) :
  0 < step ->
  forall (fuel : nat) (blk k : Z),
    0 <= k -> k < Z.of_nat fuel -> blk + k * step < HALFSIZE ->
    In (blk + k * step) (blocks_from fuel step blk).
Proof.
  intros Hstep. induction fuel as [|fuel IH]; intros blk k Hk Hf Hlt; [lia|].
  simpl. destruct (Z.ltb_spec blk HALFSIZE) as [_|Hge]; [|nia].
  destruct (Z.eq_dec k 0) as [->|Hne]; [left; lia|]. right.
  replace (blk + k * step) with ((blk + step) + (k - 1) * step) by lia.
  apply IH; lia.
Qed.

Lemma block_fuel_enough : HALFSIZE <= 64 * Z.of_nat (Z.to_nat (HALFSIZE / 64)).
Proof. pose proof HALFSIZE_words as [H1 H2]. lia. Qed.

Lemma thread_blocks_ok (id nthreads b : Z) :
  0 <= id -> 0 < nthreads -> In b (thread_blocks id nthreads) ->
  0 <= b < HALFSIZE /\ b mod 64 = 0.
Proof.
  intros Hid Hn Hin. apply blocks_from_In in Hin; [|lia].
  destruct Hin as (k & Hk & -> & Hlt). split; [nia|].
  replace (id * 64 + k * (nthreads * 64)) with ((id + k * nthreads) * 64) by lia.
  apply Z.mod_mul. lia.
Qed.

Lemma thread_blocks_covers (nthreads m : Z) :
  0 < nthreads -> 0 <= m < HALFSIZE ->
  In (64 * (m / 64)) (thread_blocks ((m / 64) mod nthreads) nthreads).
Proof.
  intros Hn Hm. pose proof (word_index m Hm) as Hi.
  pose proof (Z.div_mod (m / 64) nthreads ltac:(lia)) as Hdm.
  pose proof (Z.mod_pos_bound (m / 64) nthreads Hn) as Hmod.
  assert (Hq : 0 <= m / 64 / nthreads) by (apply Z.div_pos; lia).
  unfold thread_blocks.
  replace (64 * (m / 64))
    with ((m / 64) mod nthreads * 64 + (m / 64 / nthreads) * (nthreads * 64))
    by lia.
  apply blocks_from_covers; try lia.
  - unfold block_fuel. nia.
  - pose proof HALFSIZE_words as [H1 H2]. nia.
Qed.

Lemma kill_leaf_edges_spec (nthreads id : Z) (nonleaf : list Z) (uorv part : Z)
    (s : shrinkingset) :
  0 < nthreads <= 2 ^ 25 ->
  shrinkingset_wf nthreads s -> Z.of_nat (length nonleaf) = TWICE_WORDS ->
  0 <= id < nthreads ->
  exists s', kill_leaf_edges id nthreads nonleaf uorv part s = Ok s' /\
             kill_rel nthreads (leaf_edge nonleaf uorv part)
               (fun m => existsb (fun b => in_block b m) (thread_blocks id nthreads))
               s s'.
Proof.
  intros Hn Hs Hnl Hid. pose proof HALFSIZE_bound as Hb.
  unfold kill_leaf_edges.
  assert (E1 : u32 (nthreads * 64) = nthreads * 64)
    by (apply wrap_small; lia).
  assert (E2 : nonce_t (u32 (id * 64)) = id * 64).
  { unfold u32. rewrite wrap_small by lia. apply nonce_t_small. lia. }
  rewrite E1, E2. unfold block_fuel.
  rewrite block_loop_blocks by (pose proof block_fuel_enough; lia).
  apply (kill_fold nthreads _ _ in_block
           (fun b => 0 <= b < HALFSIZE /\ b mod 64 = 0)).
  - intros s0 b Hs0 [Hb1 Hb2]. apply kill_block_spec; assumption.
  - exact Hs.
  - apply List.Forall_forall. intros b Hin.
    apply (thread_blocks_ok id nthreads); [lia | lia | exact Hin].
Qed.

Lemma thread_ids_In (nthreads id : Z) :
  In id (thread_ids nthreads) <-> 0 <= id < nthreads.
Proof. unfold thread_ids. rewrite <- list_elem_of_In, elem_of_seqZ. lia. Qed.

(** The kill phase of a pass: the alive nonces that are leaf edges of the
    partition die, every other nonce stays as it was. *)
Lemma kill_phase_spec (nthreads : Z) (nonleaf : list Z) (uorv part : Z)
    (s : shrinkingset) :
  0 < nthreads <= 2 ^ 25 ->
  shrinkingset_wf nthreads s -> Z.of_nat (length nonleaf) = TWICE_WORDS ->
  exists s', kill_phase nthreads nonleaf uorv part s = Ok s' /\
             kill_rel nthreads (leaf_edge nonleaf uorv part) (fun _ => true) s s'.
Proof.
  intros Hn Hs Hnl. unfold kill_phase.
  destruct (kill_fold nthreads (leaf_edge nonleaf uorv part)
              (fun s id => kill_leaf_edges id nthreads nonleaf uorv part s)
              (fun id m => existsb (fun b => in_block b m) (thread_blocks id nthreads))
              (fun id => 0 <= id < nthreads)) with (l := thread_ids nthreads) (s := s)
    as (s' & Hf & Hr).
  - intros s0 id Hs0 Hid. apply kill_leaf_edges_spec; assumption.
  - exact Hs.
  - apply List.Forall_forall. intros id Hin. apply thread_ids_In. exact Hin.
  - exists s'. split; [exact Hf|].
    eapply kill_rel_ext; [|exact Hr].
    intros m Hm. simpl. apply existsb_exists.
    exists ((m / 64) mod nthreads). split.
    + apply thread_ids_In. apply Z.mod_pos_bound. lia.
    + apply existsb_exists. exists (64 * (m / 64)).
      split; [apply thread_blocks_covers; lia|].
      unfold in_block. apply andb_true_intro. split.
      * apply Z.leb_le. Z.div_mod_to_equations; lia.
      * apply Z.ltb_lt. Z.div_mod_to_equations; lia.
Qed.


Lemma filter_length_le {A : Type} (p q : A -> bool) (l : list A) :
  (forall x, In x l -> p x = true -> q x = true) ->
  (length (List.filter p l) <= length (List.filter q l))%nat.
Proof.
  induction l as [|x l IH]; intros H; simpl; [lia|].
  assert (IH' := IH (fun y Hy => H y (or_intror Hy))).
  pose proof (H x (or_introl eq_refl)) as Hx.
  destruct (p x); [rewrite Hx by reflexivity; simpl; lia|].
  destruct (q x); simpl; lia.
Qed.

Lemma alive_count_range (s : shrinkingset) : 0 <= alive_count s <= HALFSIZE.
Proof.
  unfold alive_count. pose proof (List.filter_length_le (is_alive s) nonces) as H.
  unfold nonces in *. rewrite length_seqZ in H.
  pose proof HALFSIZE_bound. lia.
Qed.

Lemma alive_count_mono (s s' : shrinkingset) :
  (forall m, 0 <= m < HALFSIZE -> is_alive s' m = true -> is_alive s m = true) ->
  alive_count s' <= alive_count s.
Proof.
  intros H. unfold alive_count. apply inj_le. apply filter_length_le.
  intros m Hm. apply H. apply nonces_In. exact Hm.
Qed.

(** C8 (amended). A second reset(n) by the same thread leaves the bitmap as
    the first one made it, so test(m) and block(m) answer as before for every
    m.  count() is a sum of per-thread counters that every call decrements:
    a reset of an alive nonce keeps count() equal to the number of alive
    nonces (on a build with 7 <= SIZESHIFT <= 32), and the second call, which
    kills nothing, lowers count() by one more. *)
Theorem reset_twice (s s1 : shrinkingset) (n thread : Z) :
  reset s n thread = Ok s1 ->
  exists s2, reset s1 n thread = Ok s2 /\
             bits s2 = bits s1 /\
             (forall m, test s2 m = test s1 m) /\
             (forall m, block s2 m = block s1 m) /\
             count s1 = u64 (count s - 1) /\
             count s2 = u64 (count s1 - 1) /\
             (forall nthreads,
                shrinkingset_wf nthreads s -> 0 <= n < HALFSIZE ->
                test s n = Ok true -> count s = alive_count s ->
                count s1 = alive_count s1 /\ alive_count s2 = alive_count s1).
Proof.
  clear siphash24.
  intros H. pose proof (reset_count _ _ _ _ H) as Hc1.
  pose proof H as H0.
  apply reset_Ok in H as (w & c & Hw & Hc & Hb & Hcnt).
  pose proof (vec_get_lt _ _ _ Hw) as Hwi. pose proof (vec_get_lt _ _ _ Hc) as Hci.
  assert (Hr : exists s2, reset s1 n thread = Ok s2).
  { unfold reset. rewrite Hb, Hcnt.
    rewrite vec_get_set_eq by lia. cbn [bind].
    rewrite vec_set_in_range by (rewrite length_insert; lia). cbn [bind].
    rewrite vec_get_set_eq by lia. cbn [bind].
    rewrite vec_set_in_range by (rewrite length_insert; lia). cbn [bind].
    eauto. }
  destruct Hr as (s2 & Hr). exists s2. split; [exact Hr|].
  pose proof (reset_count _ _ _ _ Hr) as Hc2.
  apply reset_Ok in Hr as (w' & c' & Hw' & _ & Hb' & Hcnt').
  assert (Hbits : bits s2 = bits s1).
  { rewrite Hb' , Hb in *. rewrite vec_get_set_eq in Hw' by lia.
    injection Hw' as <-. rewrite list_insert_insert_eq.
    rewrite <- Z.lor_assoc, Z.lor_diag. reflexivity. }
  assert (Htest : forall m, test s2 m = test s1 m)
    by (intros m; unfold test; rewrite Hbits; reflexivity).
  split; [exact Hbits|]. split; [exact Htest|].
  split; [intros m; unfold block; rewrite Hbits; reflexivity|].
  split; [exact Hc1|]. split; [exact Hc2|].
  intros nthreads Hs Hn Halive Hcount. pose proof HALFSIZE_bound as Hbd.
  assert (Hs1 : shrinkingset_wf nthreads s1).
  { destruct Hs as [Hl1 Hl2]. split; [rewrite Hb | rewrite Hcnt];
      rewrite length_insert; assumption. }
  destruct (alive_count_kill nthreads s s1 [n] Hs Hs1) as [Hac Hle].
  - repeat constructor. intros [].
  - intros m [<-|[]]. split; assumption.
  - intros m Hm. rewrite (reset_test s s1 n thread m H0) by lia.
    unfold mem. destruct (in_dec Z.eq_dec m [n]) as [Hi|Hi],
      (decide (m = n)) as [->|Hne]; simpl in *;
      try reflexivity; exfalso; intuition congruence.
  - simpl length in *. pose proof (alive_count_range s) as Hr.
    split.
    + rewrite Hc1, Hcount, Hac. apply wrap_small. lia.
    + unfold alive_count. f_equal. f_equal. apply filter_ext. intros m.
      unfold is_alive. rewrite Htest. reflexivity.
Qed.

(** ** kill_leaf_edges of the CUDA miner *)

Lemma gpu_test_is_alive (b : list Z) (m : Z) :
  gpu_bits_wf b -> 0 <= m < HALFSIZE -> gpu_test b m = Ok (gpu_is_alive b m).
Proof.
  clear siphash24.
  intros [Hlen _] Hm. pose proof HALFSIZE_words as [Hw1 Hw2].
  destruct (vec_get_in_range b (m / 32)) as [w Hw];
    [Z.div_mod_to_equations; lia|].
  unfold gpu_is_alive. rewrite gpu_test_unfold, Hw. reflexivity.
Qed.

Lemma gpu_sweep_S {A : Type} (body : Z -> A -> res A) (f : nat)
    (nonce w : Z) (a : A) :
  gpu_sweep (S f) body nonce w a
  = if w =? 0 then Ok a
    else do a' <- body (nonce_t (nonce + ffsll w)) a ;
         gpu_sweep f body (nonce_t (nonce + ffsll w)) (Z.shiftr w (ffsll w)) a'.
Proof. reflexivity. Qed.

Lemma gpu_sweep_spec {A : Type} (body : Z -> A -> res A) (f : nat) :
  forall (w nonce : Z) (a : A),
    0 <= w < 2 ^ Z.of_nat f ->
    gpu_sweep (S f) body nonce w a
    = foldM (fun a j => body (nonce_t (nonce + 1 + j)) a) (word_bits w) a.
Proof.
  induction f as [|f IH]; intros w nonce a Hf.
  - assert (w = 0) by (simpl in Hf; lia). subst w. reflexivity.
  - destruct w as [|p|p]; [reflexivity| |lia].
    rewrite gpu_sweep_S. change (Zpos p =? 0) with false. cbv iota.
    rewrite word_bits_ffs. cbn [foldM ffsll].
    replace (nonce + 1 + (ffs_pos p - 1)) with (nonce + ffs_pos p) by lia.
    destruct (body (nonce_t (nonce + ffs_pos p)) a) as [a'|e]; cbn [bind];
      [|reflexivity].
    rewrite IH.
    + rewrite foldM_map. apply foldM_ext_in. intros j a'' _.
      rewrite <- Z.add_assoc, nonce_t_add_l. f_equal. f_equal. lia.
    + apply (shiftr_ffs_bound (Zpos p) (ffs_pos p) f); [lia|].
      apply ffs_pos_ge_1.
Qed.

Lemma word_bits_lt_32 (w j : Z) :
  0 <= w < 2 ^ 32 -> In j (word_bits w) -> 0 <= j < 32.
Proof.
  clear siphash24.
  intros Hw Hj. apply word_bits_spec in Hj; [|lia]. destruct Hj as [Hj Hb].
  split; [exact Hj|].
  destruct (Z.lt_ge_cases j 32) as [|Hge]; [assumption|].
  rewrite (testbit_above w 32 j) in Hb by lia. discriminate.
Qed.

Lemma gpu_sweep_block {A : Type} (body : Z -> A -> res A) (blk x : Z) (a : A) :
  0 <= blk -> blk + 32 <= 2 ^ 32 -> 0 <= x < 2 ^ 32 ->
  gpu_sweep 33 body (nonce_t (blk - 1)) x a
  = foldM (fun a n => body n a) (block_nonces blk x) a.
Proof.
  clear siphash24.
  intros Hblk Hlt Hx. rewrite gpu_sweep_spec by (simpl; lia).
  unfold block_nonces. rewrite foldM_map. apply foldM_ext_in.
  intros j a' Hj. apply word_bits_lt_32 in Hj; [|assumption].
  rewrite <- Z.add_assoc, nonce_t_add_l. f_equal. rewrite nonce_t_small by lia.
  lia.
Qed.

Lemma lor_range (a c k : Z) :
  0 <= a < 2 ^ k -> 0 <= c < 2 ^ k -> 0 <= Z.lor a c < 2 ^ k.
Proof.
  intros Ha Hc.
  assert (H0 : 0 <= Z.lor a c) by (apply Z.lor_nonneg; lia).
  split; [exact H0|].
  destruct (Z.eq_dec (Z.lor a c) 0) as [->|Hne]; [lia|].
  destruct (Z.lt_ge_cases k 0) as [Hk|Hk];
    [rewrite Z.pow_neg_r in Ha by lia; lia|].
  apply Z.log2_lt_pow2; [lia|].
  rewrite Z.log2_lor by lia.
  destruct (Z.eq_dec a 0) as [->|Ha0], (Z.eq_dec c 0) as [->|Hc0].
  - exfalso. apply Hne. reflexivity.
  - change (Z.log2 0) with 0. pose proof (Z.log2_nonneg c).
    rewrite Z.max_r by lia. apply Z.log2_lt_pow2; lia.
  - change (Z.log2 0) with 0. pose proof (Z.log2_nonneg a).
    rewrite Z.max_l by lia. apply Z.log2_lt_pow2; lia.
  - apply Z.max_lub_lt; apply Z.log2_lt_pow2; lia.
Qed.

Lemma gpu_reset_spec (b : list Z) (n : Z) :
  gpu_bits_wf b -> 0 <= n < HALFSIZE ->
  exists b', gpu_reset b n = Ok b' /\ gpu_bits_wf b' /\
    (forall m, 0 <= m < HALFSIZE ->
       gpu_is_alive b' m = gpu_is_alive b m && negb (m =? n)).
Proof.
  clear siphash24.
  intros [Hlen Hw] Hn. pose proof HALFSIZE_words as [Hw1 Hw2].
  assert (Hi : 0 <= n / 32 < Z.of_nat (length b))
    by (Z.div_mod_to_equations; lia).
  destruct (vec_get_in_range b (n / 32) Hi) as [w Hget].
  assert (Hwr : 0 <= w < 2 ^ 32).
  { apply vec_get_Ok in Hget as [_ Hl].
    exact (proj1 (Forall_lookup _ _) Hw _ _ Hl). }
  pose proof (Z.mod_pos_bound n 32 ltac:(lia)) as Hmod.
  set (w' := Z.lor w (u32 (Z.shiftl 1 (n mod 32)))).
  exists (<[Z.to_nat (n / 32) := w']> b).
  split.
  { unfold gpu_reset. rewrite Hget. cbn [bind]. apply vec_set_in_range. exact Hi. }
  assert (Hbit : forall i, 0 <= i < 32 ->
            Z.testbit w' i = Z.testbit w i || (i =? n mod 32)).
  { intros i Hi0. unfold w', u32.
    rewrite Z.lor_spec, wrap_testbit, pow2_testbit by lia.
    replace (i <? 32) with true by (symmetry; apply Z.ltb_lt; lia).
    reflexivity. }
  split.
  - split; [rewrite length_insert; exact Hlen|].
    apply Forall_insert; [exact Hw|].
    apply lor_range; [exact Hwr|]. apply wrap_range. lia.
  - intros m Hm. unfold gpu_is_alive. rewrite !gpu_test_unfold.
    pose proof (Z.mod_pos_bound m 32 ltac:(lia)) as Hmm.
    destruct (Z.eq_dec (m / 32) (n / 32)) as [E|E].
    + rewrite E, vec_get_set_eq, Hget by exact Hi.
      rewrite Hbit by lia. rewrite negb_orb. f_equal. f_equal.
      destruct (Z.eqb_spec (m mod 32) (n mod 32)), (Z.eqb_spec m n);
        try reflexivity; exfalso; Z.div_mod_to_equations; lia.
    + rewrite vec_get_set_ne by (Z.div_mod_to_equations; lia).
      destruct (Z.eqb_spec m n) as [->|_]; [contradiction|].
      destruct (vec_get b (m / 32)); [|reflexivity].
      rewrite andb_true_r. reflexivity.
Qed.

Lemma gpu_reset_fold (R : list Z) :
  forall b : list Z,
    gpu_bits_wf b -> (forall m, In m R -> 0 <= m < HALFSIZE) ->
    exists b', foldM (fun b n => gpu_reset b n) R b = Ok b' /\
               gpu_bits_wf b' /\
               (forall m, 0 <= m < HALFSIZE ->
                  gpu_is_alive b' m = gpu_is_alive b m && negb (mem m R)).
Proof.
  clear siphash24.
  induction R as [|n R IH]; intros b Hb HR.
  - exists b. split; [reflexivity|]. split; [exact Hb|].
    intros m _. rewrite andb_true_r. reflexivity.
  - destruct (gpu_reset_spec b n Hb (HR n (or_introl eq_refl)))
      as (b1 & Hr & Hb1 & Ht1).
    destruct (IH b1 Hb1 (fun m Hm => HR m (or_intror Hm))) as (b' & Hf & Hb' & Ht).
    exists b'. cbn [foldM]. rewrite Hr. cbn [bind].
    split; [exact Hf|]. split; [exact Hb'|].
    intros m Hm. rewrite (Ht m Hm), (Ht1 m Hm), <- andb_assoc. f_equal.
    unfold mem. destruct (in_dec Z.eq_dec m R) as [Hi|Hi],
      (in_dec Z.eq_dec m (n :: R)) as [Hj|Hj], (Z.eqb_spec m n) as [->|Hne];
      simpl in *; try reflexivity; exfalso; intuition congruence.
Qed.

Lemma dipnode_part_range (n uorv : Z) :
  0 <= Z.shiftr (dipnode n uorv) PART_BITS < ONCE_BITS.
Proof.
  assert (Hr : 0 <= dipnode n uorv < HALFSIZE).
  { unfold dipnode, NODEMASK. rewrite HALFSIZE_pow.
    rewrite Z.sub_1_r, <- Z.ones_equiv, Z.land_ones by lia.
    apply Z.mod_pos_bound. apply Z.pow_pos_nonneg; lia. }
  pose proof NONCESHIFT_range as Hns.
  rewrite ONCE_BITS_pow, Z.shiftr_div_pow2 by lia.
  pose proof (Z.pow_pos_nonneg 2 PART_BITS ltac:(lia) ltac:(lia)) as Hp.
  split; [apply Z.div_pos; lia|].
  apply Z.div_lt_upper_bound; [lia|].
  rewrite <- Z.pow_add_r by lia. rewrite HALFSIZE_pow in Hr.
  replace (PART_BITS + NONCESHIFT) with (SIZESHIFT - 1) by (unfold NONCESHIFT; lia).
  lia.
Qed.

Lemma gpu_kill_leaf_edges_spec (id : Z) (nonleaf : list Z) (uorv part : Z)
    (b : list Z) :
  gpu_bits_wf b -> Z.of_nat (length nonleaf) = TWICE_WORDS ->
  0 <= id < HALFSIZE / 32 ->
  exists b', gpu_kill_leaf_edges id nonleaf uorv part b = Ok b' /\
             gpu_kill_rel (gpu_leaf_edge nonleaf uorv part)
               (fun m => m / 32 =? id) b b'.
Proof.
  intros Hb Hnl Hid. pose proof HALFSIZE_bound as Hbd.
  pose proof HALFSIZE_words as [Hw1 Hw2].
  assert (Hblk : 0 <= id * 32 /\ id * 32 + 32 <= HALFSIZE)
    by (Z.div_mod_to_equations; lia).
  assert (Hq : id * 32 / 32 = id) by (apply Z.div_mul; lia).
  destruct (vec_get_in_range b id) as [w Hw]; [destruct Hb as [-> _]; lia|].
  set (x := u32 (Z.lnot w)).
  assert (Hx : gpu_block b (id * 32) = Ok x)
    by (unfold gpu_block; rewrite Hq, Hw; reflexivity).
  assert (Hxr : 0 <= x < 2 ^ 32) by (apply wrap_range; lia).
  set (L := block_nonces (id * 32) x).
  assert (HL : forall m, In m L <->
             id * 32 <= m < id * 32 + 32 /\ gpu_is_alive b m = true).
  { intros m. unfold L, block_nonces. rewrite in_map_iff. split.
    - intros (j & <- & Hj). pose proof (word_bits_lt_32 x j Hxr Hj) as Hj32.
      apply word_bits_spec in Hj as [_ Hbit]; [|lia]. split; [lia|].
      pose proof (gpu_block_test b (id * 32) x j Hx Hj32) as Ht.
      rewrite Hq in Ht. replace (32 * id + j) with (id * 32 + j) in Ht by lia.
      unfold gpu_is_alive. rewrite Ht. exact Hbit.
    - intros [Hm Ha]. exists (m - id * 32). split; [lia|].
      apply word_bits_spec; [lia|]. split; [lia|].
      pose proof (gpu_block_test b (id * 32) x (m - id * 32) Hx ltac:(lia)) as Ht.
      rewrite Hq in Ht. replace (32 * id + (m - id * 32)) with m in Ht by lia.
      unfold gpu_is_alive in Ha. rewrite Ht in Ha. exact Ha. }
  set (R := List.filter (gpu_leaf_edge nonleaf uorv part) L).
  assert (HR : forall m, In m R -> 0 <= m < HALFSIZE).
  { intros m Hm. apply filter_In in Hm as [Hm _]. apply HL in Hm. lia. }
  destruct (gpu_reset_fold R b Hb HR) as (b' & Hf & Hb' & Ht).
  exists b'. split.
  - unfold gpu_kill_leaf_edges. rewrite nonce_t_small by lia.
    rewrite Hx. cbn [bind]. rewrite gpu_sweep_block by lia. fold L.
    rewrite (foldM_ext_in _
               (fun b n => if gpu_leaf_edge nonleaf uorv part n
                           then gpu_reset b n else Ok b)).
    + rewrite foldM_filter. exact Hf.
    + intros n a _. unfold gpu_leaf_edge.
      destruct (twice_set_test_in_range nonleaf _ Hnl (dipnode_part_range n uorv))
        as [t ->].
      cbn [bind]. destruct (Z.land (dipnode n uorv) PART_MASK =? part); reflexivity.
  - split; [exact Hb'|]. intros m Hm. rewrite (Ht m Hm).
    destruct (mem m R) eqn:Hmem.
    + apply mem_In, filter_In in Hmem as [Hin Hd]. apply HL in Hin as [Hin Ha].
      rewrite Ha, Hd.
      replace (m / 32 =? id) with true
        by (symmetry; apply Z.eqb_eq; Z.div_mod_to_equations; lia).
      reflexivity.
    + destruct (gpu_is_alive b m) eqn:Ha; [|reflexivity].
      destruct (gpu_leaf_edge nonleaf uorv part m) eqn:Hd; [|reflexivity].
      destruct (Z.eqb_spec (m / 32) id) as [E|E]; [|reflexivity].
      exfalso. assert (Hin : In m R).
      { apply filter_In. split; [|exact Hd]. apply HL.
        split; [Z.div_mod_to_equations; lia | exact Ha]. }
      apply mem_In in Hin. congruence.
Qed.

Lemma gpu_thread_ids_In (nblocks tpb id : Z) :
  0 < tpb ->
  (In id (gpu_thread_ids nblocks tpb) <-> 0 <= id < nblocks * tpb).
Proof.
  intros Htpb. unfold gpu_thread_ids. rewrite in_flat_map. split.
  - intros (bx & Hbx & Hin). apply in_map_iff in Hin as (tx & <- & Htx).
    apply list_elem_of_In, elem_of_seqZ in Hbx.
    apply list_elem_of_In, elem_of_seqZ in Htx. nia.
  - intros Hid. exists (id / tpb). split.
    + apply list_elem_of_In, elem_of_seqZ.
      split; [apply Z.div_pos; lia|]. rewrite Z.add_0_l.
      apply Z.div_lt_upper_bound; lia.
    + apply in_map_iff. exists (id mod tpb). split.
      * pose proof (Z.div_mod id tpb ltac:(lia)). lia.
      * apply list_elem_of_In, elem_of_seqZ.
        pose proof (Z.mod_pos_bound id tpb Htpb). lia.
Qed.

Lemma gpu_kill_fold (doomed : Z -> bool) (f : list Z -> Z -> res (list Z))
    (inb : Z -> Z -> bool) (Q : Z -> Prop) :
  (forall b id, gpu_bits_wf b -> Q id ->
     exists b', f b id = Ok b' /\ gpu_kill_rel doomed (inb id) b b') ->
  forall (l : list Z) (b : list Z),
    gpu_bits_wf b -> List.Forall Q l ->
    exists b', foldM f l b = Ok b' /\
               gpu_kill_rel doomed (fun m => existsb (fun id => inb id m) l) b b'.
Proof.
  intros Hstep. induction l as [|id l IH]; intros b Hb Hl.
  - exists b. split; [reflexivity|]. split; [exact Hb|].
    intros m _. cbn [existsb]. rewrite andb_false_r, andb_true_r. reflexivity.
  - inversion Hl as [|? ? Hid Hl']; subst.
    destruct (Hstep b id Hb Hid) as (b1 & Hf & Hb1 & H1).
    destruct (IH b1 Hb1 Hl') as (b' & Hf' & Hb' & H2).
    exists b'. cbn [foldM]. rewrite Hf. cbn [bind]. split; [exact Hf'|].
    split; [exact Hb'|]. intros m Hm. rewrite (H2 m Hm), (H1 m Hm).
    cbn [existsb].
    destruct (gpu_is_alive b m), (doomed m), (inb id m),
      (existsb (fun id0 => inb id0 m) l); reflexivity.
Qed.

(** A launch with a thread for every word of the bitmap: the alive nonces
    that are leaf edges of the partition die, every other nonce stays as it
    was. *)
Lemma gpu_kill_phase_spec (tpb : Z) (nonleaf : list Z) (uorv part : Z)
    (b : list Z) :
  0 < tpb -> (HALFSIZE / 32) mod tpb = 0 ->
  gpu_bits_wf b -> Z.of_nat (length nonleaf) = TWICE_WORDS ->
  exists b', gpu_kill_phase tpb nonleaf uorv part b = Ok b' /\
             gpu_kill_rel (gpu_leaf_edge nonleaf uorv part) (fun _ => true) b b'.
Proof.
  intros Htpb Hdiv Hb Hnl. unfold gpu_kill_phase.
  assert (Hcov : HALFSIZE / 32 / tpb * tpb = HALFSIZE / 32)
    by (Z.div_mod_to_equations; nia).
  destruct (gpu_kill_fold (gpu_leaf_edge nonleaf uorv part)
              (fun b id => gpu_kill_leaf_edges id nonleaf uorv part b)
              (fun id m => m / 32 =? id)
              (fun id => 0 <= id < HALFSIZE / 32))
    with (l := gpu_thread_ids (HALFSIZE / 32 / tpb) tpb) (b := b)
    as (b' & Hf & Hb' & Hr).
  - intros b0 id Hb0 Hid. apply gpu_kill_leaf_edges_spec; assumption.
  - exact Hb.
  - apply List.Forall_forall. intros id Hin.
    apply gpu_thread_ids_In in Hin; lia.
  - exists b'. split; [exact Hf|]. split; [exact Hb'|].
    intros m Hm. rewrite (Hr m Hm). f_equal. f_equal. f_equal.
    apply existsb_exists. exists (m / 32). split.
    + apply gpu_thread_ids_In; [exact Htpb|]. rewrite Hcov.
      pose proof HALFSIZE_words as [Hw1 Hw2]. Z.div_mod_to_equations; lia.
    + apply Z.eqb_refl.
Qed.

(** On the nonces and the sides the miners use, the device hash is the host
    hash. *)
Lemma dipnode_sipnode (n uorv : Z) :
  0 <= n < HALFSIZE -> 0 <= uorv <= 1 -> dipnode n uorv = _sipnode n uorv.
Proof.
  intros Hn Hu. pose proof HALFSIZE_bound as Hb.
  unfold dipnode, _sipnode. rewrite nonce_t_small by lia. reflexivity.
Qed.

(** C3. In the kill phase of a pass (side, part), run by 1 to 2^25 threads on
    a build with 7 <= SIZESHIFT <= 32 and 0 <= PART_BITS <= SIZESHIFT - 5, a
    nonce n below HALFSIZE is alive afterwards exactly when it was alive
    before and not both node(n,side) & PART_MASK = part and
    nonleaf.test(node(n,side) >> PART_BITS) false; so the alive nonces that
    meet the condition are reset and every other alive bit is unchanged.
    reset is called once for each nonce that dies: the counters drop by the
    number of nonces killed.  The kernel of the CUDA miner does the same to
    its bitmap when the launch has a thread for every word of it, that is
    when the threads per block divide HALFSIZE / 32. *)
Theorem kill_phase_kills_leaf_edges (nthreads : Z) (nonleaf : list Z)
    (uorv part : Z) (s : shrinkingset) :
  0 < nthreads <= 2 ^ 25 ->
  shrinkingset_wf nthreads s -> Z.of_nat (length nonleaf) = TWICE_WORDS ->
  (exists s',
     kill_phase nthreads nonleaf uorv part s = Ok s' /\
     (forall n, 0 <= n < HALFSIZE ->
        exists b t,
          test s n = Ok b /\
          twice_set_test nonleaf (Z.shiftr (_sipnode n uorv) PART_BITS) = Ok t /\
          test s' n
          = Ok (b && negb ((Z.land (_sipnode n uorv) PART_MASK =? part)
                           && (t =? 0)))) /\
     u64 (count s - count s') = alive_count s - alive_count s') /\
  (forall (tpb : Z) (b : list Z),
     0 < tpb -> (HALFSIZE / 32) mod tpb = 0 -> gpu_bits_wf b ->
     exists b',
       gpu_kill_phase tpb nonleaf uorv part b = Ok b' /\
       (forall n, 0 <= n < HALFSIZE ->
          exists a t,
            gpu_test b n = Ok a /\
            twice_set_test nonleaf (Z.shiftr (dipnode n uorv) PART_BITS) = Ok t /\
            gpu_test b' n
            = Ok (a && negb ((Z.land (dipnode n uorv) PART_MASK =? part)
                             && (t =? 0))))).
Proof.
  intros Hn Hs Hnl. split.
  2:{ intros tpb b Htpb Hdiv Hb.
      destruct (gpu_kill_phase_spec tpb nonleaf uorv part b Htpb Hdiv Hb Hnl)
        as (b' & Hk & Hb' & Hal).
      exists b'. split; [exact Hk|]. intros n Hr.
      destruct (twice_set_test_in_range nonleaf _ Hnl (dipnode_part_range n uorv))
        as [t Ht].
      exists (gpu_is_alive b n), t.
      split; [apply gpu_test_is_alive; assumption|]. split; [exact Ht|].
      rewrite (gpu_test_is_alive b' n Hb' Hr), (Hal n Hr).
      unfold gpu_leaf_edge. rewrite Ht, andb_true_r. reflexivity. }
  destruct (kill_phase_spec nthreads nonleaf uorv part s Hn Hs Hnl)
    as (s' & Hk & Hs' & Hal & Hc).
  exists s'. split; [exact Hk|]. split.
  - intros n Hr.
    destruct (twice_set_test_in_range nonleaf _ Hnl (sipnode_part_range n uorv))
      as [t Ht].
    exists (is_alive s n), t.
    split; [apply (test_is_alive nthreads); assumption|]. split; [exact Ht|].
    rewrite (test_is_alive nthreads s' n Hs' Hr), (Hal n Hr).
    unfold leaf_edge, in_part, is_leaf. rewrite Ht, andb_true_r. reflexivity.
  - pose proof (alive_count_range s). pose proof (alive_count_range s').
    pose proof HALFSIZE_bound.
    assert (alive_count s' <= alive_count s).
    { apply alive_count_mono. intros m Hm. rewrite (Hal m Hm).
      intros H'. apply andb_prop in H'. tauto. }
    assert (Hsmall : u64 (alive_count s - alive_count s')
                     = alive_count s - alive_count s')
      by (apply wrap_small; lia).
    rewrite <- Hsmall. unfold u64, wrap in *.
    Z.div_mod_to_equations. lia.
Qed.

(** ** count_node_deg *)

Lemma count_block_spec (nthreads : Z) (s : shrinkingset) (uorv part blk : Z)
    (nonleaf : list Z) :
  shrinkingset_wf nthreads s -> Z.of_nat (length nonleaf) = TWICE_WORDS ->
  0 <= blk < HALFSIZE -> blk mod 64 = 0 ->
  exists nonleaf', count_block s uorv part blk nonleaf = Ok nonleaf' /\
                   Z.of_nat (length nonleaf') = TWICE_WORDS.
Proof.
  intros Hs Hnl Hblk Hal.
  pose proof HALFSIZE_bound as Hb. pose proof HALFSIZE_words as [Hw1 Hw2].
  assert (Hend : blk + 64 <= HALFSIZE) by (Z.div_mod_to_equations; lia).
  destruct (block_in_range nthreads s blk Hs Hblk) as [x Hx].
  destruct (block_test s blk x 0 Hx ltac:(lia)) as [Hxr _].
  unfold count_block. rewrite Hx. cbn [bind]. rewrite sweep_block by lia.
  rewrite (buffer_fold (in_part uorv part)
             (fun n => Z.shiftr (_sipnode n uorv) PART_BITS)).
  2:{ unfold block_nonces. rewrite length_map.
      pose proof (word_bits_length x Hxr). simpl. lia. }
  cbn [bind app].
  apply (foldM_invariant (fun tw => Z.of_nat (length tw) = TWICE_WORDS)
           (fun x => 0 <= node_t x < ONCE_BITS)).
  - intros tw y Htw Hy. apply twice_set_set_in_range; assumption.
  - exact Hnl.
  - apply List.Forall_forall. intros y Hy. apply in_map_iff in Hy as (n & <- & _).
    pose proof (sipnode_part_range n uorv) as Hr.
    pose proof TWICE_WORDS_eq as [Ht1 Ht2]. pose proof NONCESHIFT_range as Hns.
    assert (ONCE_BITS <= 2 ^ 31).
    { rewrite ONCE_BITS_pow. apply Z.pow_le_mono_r; lia. }
    unfold u64. rewrite wrap_small by lia. rewrite nonce_t_small by lia.
    exact Hr.
Qed.

Lemma count_node_deg_spec (nthreads id : Z) (s : shrinkingset) (uorv part : Z)
    (nonleaf : list Z) :
  0 < nthreads <= 2 ^ 25 -> 0 <= id < nthreads ->
  shrinkingset_wf nthreads s -> Z.of_nat (length nonleaf) = TWICE_WORDS ->
  exists nonleaf', count_node_deg id nthreads s uorv part nonleaf = Ok nonleaf' /\
                   Z.of_nat (length nonleaf') = TWICE_WORDS.
Proof.
  intros Hn Hid Hs Hnl. pose proof HALFSIZE_bound as Hb.
  unfold count_node_deg.
  assert (E1 : u32 (nthreads * 64) = nthreads * 64)
    by (apply wrap_small; lia).
  assert (E2 : nonce_t (u32 (id * 64)) = id * 64).
  { unfold u32. rewrite wrap_small by lia. apply nonce_t_small. lia. }
  rewrite E1, E2. unfold block_fuel.
  rewrite block_loop_blocks by (pose proof block_fuel_enough; lia).
  apply (foldM_invariant (fun tw => Z.of_nat (length tw) = TWICE_WORDS)
           (fun b => 0 <= b < HALFSIZE /\ b mod 64 = 0)).
  - intros tw b Htw [Hb1 Hb2]. apply (count_block_spec nthreads); assumption.
  - exact Hnl.
  - apply List.Forall_forall. intros b Hin.
    apply (thread_blocks_ok id nthreads); [lia | lia | exact Hin].
Qed.

Lemma count_phase_spec (nthreads : Z) (s : shrinkingset) (uorv part : Z)
    (nonleaf : list Z) :
  0 < nthreads <= 2 ^ 25 ->
  shrinkingset_wf nthreads s -> Z.of_nat (length nonleaf) = TWICE_WORDS ->
  exists nonleaf', count_phase nthreads s uorv part nonleaf = Ok nonleaf' /\
                   Z.of_nat (length nonleaf') = TWICE_WORDS.
Proof.
  intros Hn Hs Hnl. unfold count_phase.
  apply (foldM_invariant (fun tw => Z.of_nat (length tw) = TWICE_WORDS)
           (fun id => 0 <= id < nthreads)).
  - intros tw id Htw Hid. apply count_node_deg_spec; assumption.
  - exact Hnl.
  - apply List.Forall_forall. intros id Hin. apply thread_ids_In. exact Hin.
Qed.


(** ** The trimming rounds *)

Lemma trimmed_refl (nthreads : Z) (ctx : cuckoo_ctx) :
  ctx_wf nthreads ctx -> trimmed nthreads ctx ctx.
Proof. intros H. split; [exact H|]. split; [auto | reflexivity]. Qed.

Lemma trimmed_trans (nthreads : Z) (c0 c1 c2 : cuckoo_ctx) :
  trimmed nthreads c0 c1 -> trimmed nthreads c1 c2 -> trimmed nthreads c0 c2.
Proof.
  intros (_ & H1 & C1) (Hw & H2 & C2). split; [exact Hw|]. split.
  - intros m Hm Ha. apply H1; [exact Hm|]. apply H2; assumption.
  - rewrite C2. exact C1.
Qed.

Lemma trim_pass_spec (nthreads : Z) (ctx : cuckoo_ctx) (pass : Z * Z) :
  0 < nthreads <= 2 ^ 25 -> ctx_wf nthreads ctx ->
  exists ctx', trim_pass nthreads ctx pass = Ok ctx' /\ trimmed nthreads ctx ctx'.
Proof.
  intros Hn [Hs Hnl]. destruct pass as [uorv part]. unfold trim_pass.
  assert (Hz : Z.of_nat (length (twice_set_reset (nonleaf ctx))) = TWICE_WORDS).
  { rewrite twice_set_reset_zero, length_replicate by assumption.
    pose proof TWICE_WORDS_eq. lia. }
  destruct (count_phase_spec nthreads (alive ctx) uorv part _ Hn Hs Hz)
    as (nl & Hcp & Hnl').
  destruct (kill_phase_spec nthreads nl uorv part (alive ctx) Hn Hs Hnl')
    as (s' & Hkp & Hs' & Hal & Hc).
  rewrite Hcp. cbn [bind]. rewrite Hkp. cbn [bind].
  eexists. split; [reflexivity|]. split; [split; assumption|]. split.
  - cbn [alive]. intros m Hm. rewrite (Hal m Hm). intros H.
    apply andb_prop in H. tauto.
  - exact Hc.
Qed.

Lemma trim_round_spec (nthreads : Z) (ctx : cuckoo_ctx) :
  0 < nthreads <= 2 ^ 25 -> ctx_wf nthreads ctx ->
  exists ctx', trim_round nthreads ctx = Ok ctx' /\ trimmed nthreads ctx ctx'.
Proof.
  intros Hn Hctx. unfold trim_round.
  apply (foldM_invariant (trimmed nthreads ctx) (fun _ => True)).
  - intros c pass Hc _.
    destruct (trim_pass_spec nthreads c pass Hn (proj1 Hc)) as (c' & Hp & Hc').
    exists c'. split; [exact Hp|]. apply (trimmed_trans _ _ _ _ Hc Hc').
  - apply trimmed_refl. exact Hctx.
  - apply List.Forall_forall. auto.
Qed.

Lemma trim_spec (nthreads : Z) (ntrims : nat) (ctx : cuckoo_ctx) :
  0 < nthreads <= 2 ^ 25 -> ctx_wf nthreads ctx ->
  exists ctx', trim nthreads ntrims ctx = Ok ctx' /\ trimmed nthreads ctx ctx'.
Proof.
  intros Hn Hctx. induction ntrims as [|k IH].
  - exists ctx. split; [reflexivity|]. apply trimmed_refl. exact Hctx.
  - destruct IH as (c1 & Hk & H1).
    destruct (trim_round_spec nthreads c1 Hn (proj1 H1)) as (c2 & Hr & H2).
    exists c2. cbn [trim]. rewrite Hk. cbn [bind]. split; [exact Hr|].
    apply (trimmed_trans _ _ _ _ H1 H2).
Qed.

(** C2. Trimming only shrinks the alive set: with 1 to 2^25 threads on a
    build with 7 <= SIZESHIFT <= 32 and 0 <= PART_BITS <= SIZESHIFT - 5, the
    rounds k and k+1 both complete, and a nonce that tests dead after round
    k tests dead after round k+1; and a single reset never turns a dead nonce
    alive. *)
Theorem trimming_monotonic (nthreads : Z) (k : nat) (ctx : cuckoo_ctx) :
  0 < nthreads <= 2 ^ 25 -> ctx_wf nthreads ctx ->
  (exists ctxk ctxk1,
     trim nthreads k ctx = Ok ctxk /\
     trim nthreads (S k) ctx = Ok ctxk1 /\
     forall n, 0 <= n < HALFSIZE ->
       test (alive ctxk) n = Ok false -> test (alive ctxk1) n = Ok false) /\
  (forall s s' n thread m,
     0 <= n -> 0 <= m -> reset s n thread = Ok s' ->
     test s m = Ok false -> test s' m = Ok false).
Proof.
  intros Hn Hctx. split.
  - destruct (trim_spec nthreads k ctx Hn Hctx) as (c1 & Hk & H1).
    destruct (trim_round_spec nthreads c1 Hn (proj1 H1)) as (c2 & Hr & H2).
    exists c1, c2. split; [exact Hk|]. split.
    + cbn [trim]. rewrite Hk. exact Hr.
    + intros n Hr' Hdead. destruct H2 as ([Hs2 _] & Hmono & _).
      destruct H1 as ([Hs1 _] & _).
      rewrite (test_is_alive nthreads _ n Hs1 Hr') in Hdead.
      rewrite (test_is_alive nthreads _ n Hs2 Hr'). f_equal.
      injection Hdead as Hdead.
      destruct (is_alive (alive c2) n) eqn:E; [|reflexivity].
      rewrite (Hmono n Hr' E) in Hdead. discriminate.
  - intros s s' n thread m H0 Hm Hreset Hdead.
    rewrite (reset_test s s' n thread m Hreset H0 Hm).
    destruct (decide (m = n)); [reflexivity | exact Hdead].
Qed.

(** ** Threads, blocks and launches *)

Lemma launch_ids_In (nblocks tpb id : Z) :
  0 < tpb ->
  (In id (gpu_thread_ids nblocks tpb) <-> 0 <= id < nblocks * tpb).
Proof.
  clear. intros Htpb. unfold gpu_thread_ids. rewrite in_flat_map. split.
  - intros (bx & Hbx & Hin). apply in_map_iff in Hin as (tx & <- & Htx).
    apply list_elem_of_In, elem_of_seqZ in Hbx.
    apply list_elem_of_In, elem_of_seqZ in Htx. nia.
  - intros Hid. exists (id / tpb). split.
    + apply list_elem_of_In, elem_of_seqZ.
      split; [apply Z.div_pos; lia|]. rewrite Z.add_0_l.
      apply Z.div_lt_upper_bound; lia.
    + apply in_map_iff. exists (id mod tpb). split.
      * pose proof (Z.div_mod id tpb ltac:(lia)). lia.
      * apply list_elem_of_In, elem_of_seqZ.
        pose proof (Z.mod_pos_bound id tpb Htpb). lia.
Qed.

Lemma blocks_from_hit (step : Z) :
  0 < step ->
  forall (fuel : nat) (blk k : Z),
    0 <= k -> k < Z.of_nat fuel -> blk + k * step < HALFSIZE ->
    In (blk + k * step) (blocks_from fuel step blk).
Proof.
  clear. intros Hstep. induction fuel as [|fuel IH]; intros blk k Hk Hf Hlt; [lia|].
  simpl. destruct (Z.ltb_spec blk HALFSIZE) as [_|Hge]; [|nia].
  destruct (Z.eq_dec k 0) as [->|Hne]; [left; lia|]. right.
  replace (blk + k * step) with ((blk + step) + (k - 1) * step) by lia.
  apply IH; lia.
Qed.

Lemma thread_blocks_range (id nthreads b : Z) :
  0 <= id -> 0 < nthreads -> In b (thread_blocks id nthreads) ->
  0 <= b < HALFSIZE /\ b mod 64 = 0.
Proof.
  clear. intros Hid Hn Hin. apply blocks_from_In in Hin; [|lia].
  destruct Hin as (k & Hk & -> & Hlt). split; [nia|].
  replace (id * 64 + k * (nthreads * 64)) with ((id + k * nthreads) * 64) by lia.
  apply Z.mod_mul. lia.
Qed.

Lemma thread_blocks_hit (nthreads m : Z) :
  0 < nthreads -> 0 <= m < HALFSIZE ->
  In (64 * (m / 64)) (thread_blocks ((m / 64) mod nthreads) nthreads).
Proof.
  clear siphash24 PART_BITS PART_BITS_lo PART_BITS_hi.
  intros Hn Hm. pose proof (word_index m Hm) as Hi.
  pose proof (Z.div_mod (m / 64) nthreads ltac:(lia)) as Hdm.
  pose proof (Z.mod_pos_bound (m / 64) nthreads Hn) as Hmod.
  assert (Hq : 0 <= m / 64 / nthreads) by (apply Z.div_pos; lia).
  unfold thread_blocks.
  replace (64 * (m / 64))
    with ((m / 64) mod nthreads * 64 + (m / 64 / nthreads) * (nthreads * 64))
    by lia.
  apply blocks_from_hit; try lia.
  - unfold block_fuel. nia.
  - pose proof HALFSIZE_words as [H1 H2]. nia.
Qed.

(** ** Degrees: what the count phase leaves in [nonleaf] *)

Lemma foldM_flat_map {A B C : Type} (f : A -> B -> res A) (g : C -> list B)
    (l : list C) (a : A) :
  foldM (fun a c => foldM f (g c) a) l a = foldM f (flat_map g l) a.
Proof.
  revert a. induction l as [|c l IH]; intros a; simpl; [reflexivity|].
  rewrite foldM_app. destruct (foldM f (g c) a) as [a'|e]; simpl;
    [apply IH | reflexivity].
Qed.

Lemma Permutation_filter {A : Type} (p : A -> bool) (l l' : list A) :
  Permutation l l' -> Permutation (List.filter p l) (List.filter p l').
Proof.
  induction 1 as [|x l l' _ IH|x y l|l l' l'' _ IH1 _ IH2]; simpl.
  - constructor.
  - destruct (p x); [constructor|]; exact IH.
  - destruct (p x), (p y); try reflexivity. apply perm_swap.
  - exact (perm_trans IH1 IH2).
Qed.

Lemma NoDup_flat_map {A B : Type} (f : A -> list B) (l : list A) :
  List.NoDup l -> (forall x, In x l -> List.NoDup (f x)) ->
  (forall x y b, In x l -> In y l -> In b (f x) -> In b (f y) -> x = y) ->
  List.NoDup (flat_map f l).
Proof.
  induction l as [|x l IH]; intros Hl Hf Hd; simpl; [constructor|].
  inversion Hl as [|? ? Hx Hl']; subst.
  apply List.NoDup_app.
  - apply Hf. left. reflexivity.
  - apply IH; [exact Hl'| |].
    + intros y Hy. apply Hf. right. exact Hy.
    + intros y z b Hy Hz. apply Hd; right; assumption.
  - intros b Hb Hb'. apply in_flat_map in Hb' as (y & Hy & Hby).
    assert (x = y)
      by (apply (Hd x y b); [left; reflexivity | right; exact Hy | exact Hb | exact Hby]).
    subst. contradiction.
Qed.

Lemma blocks_from_NoDup (fuel : nat) (step blk : Z) :
  0 < step -> List.NoDup (blocks_from fuel step blk).
Proof.
  clear. intros Hstep. revert blk. induction fuel as [|fuel IH]; intros blk; simpl;
    [constructor|].
  destruct (blk <? HALFSIZE); [|constructor].
  constructor; [|apply IH].
  intros Hin. apply blocks_from_In in Hin; [|lia].
  destruct Hin as (k & Hk & E & _). nia.
Qed.

Lemma thread_blocks_id (id nthreads b : Z) :
  0 <= id < nthreads -> In b (thread_blocks id nthreads) ->
  (b / 64) mod nthreads = id.
Proof.
  intros Hid Hin. apply blocks_from_In in Hin; [|lia].
  destruct Hin as (k & Hk & -> & _).
  replace (id * 64 + k * (nthreads * 64)) with ((id + k * nthreads) * 64) by lia.
  rewrite Z.div_mul, Z.mod_add by lia. apply Z.mod_small. lia.
Qed.

Lemma block_word_block (nthreads : Z) (s : shrinkingset) (blk : Z) :
  shrinkingset_wf nthreads s -> 0 <= blk < HALFSIZE ->
  block s blk = Ok (block_word s blk) /\ 0 <= block_word s blk < 2 ^ 64.
Proof.
  intros Hs Hblk. destruct (block_in_range nthreads s blk Hs Hblk) as [x Hx].
  unfold block_word. rewrite Hx. split; [reflexivity|].
  exact (proj1 (block_test s blk x 0 Hx ltac:(lia))).
Qed.

Lemma block_nonces_block (blk x m : Z) :
  0 <= x < 2 ^ 64 -> 0 <= blk -> blk mod 64 = 0 ->
  In m (block_nonces blk x) -> 64 * (m / 64) = blk.
Proof.
  intros Hx Hblk Hal Hm. unfold block_nonces in Hm.
  apply in_map_iff in Hm as (j & <- & Hj).
  apply word_bits_lt in Hj; [|exact Hx]. Z.div_mod_to_equations. lia.
Qed.

(** The threads of a phase visit every alive nonce, once. *)
Lemma phase_nonces_In (nthreads : Z) (s : shrinkingset) (m : Z) :
  0 < nthreads -> shrinkingset_wf nthreads s ->
  (In m (phase_nonces nthreads s) <-> 0 <= m < HALFSIZE /\ is_alive s m = true).
Proof.
  intros Hn Hs. pose proof HALFSIZE_words as [Hw1 Hw2].
  unfold phase_nonces, thread_nonces. rewrite in_flat_map. split.
  - intros (id & Hid & Hm). apply thread_ids_In in Hid.
    apply in_flat_map in Hm as (blk & Hblk & Hm).
    destruct (thread_blocks_range id nthreads blk ltac:(lia) Hn Hblk) as [Hr Hal].
    destruct (block_word_block nthreads s blk Hs Hr) as [Hb _].
    apply (block_nonces_spec s blk _ m Hb) in Hm; [|lia|exact Hal].
    destruct Hm as [Hm Ht]. split.
    + Z.div_mod_to_equations. lia.
    + unfold is_alive. rewrite Ht. reflexivity.
  - intros [Hm Ha]. exists ((m / 64) mod nthreads). split.
    + apply thread_ids_In. apply Z.mod_pos_bound. lia.
    + apply in_flat_map. exists (64 * (m / 64)).
      split; [apply thread_blocks_hit; assumption|].
      assert (Hr : 0 <= 64 * (m / 64) < HALFSIZE)
        by (Z.div_mod_to_equations; lia).
      destruct (block_word_block nthreads s _ Hs Hr) as [Hb _].
      apply (block_nonces_spec s _ _ m Hb); [lia | |].
      * rewrite Z.mul_comm. apply Z.mod_mul. lia.
      * split; [Z.div_mod_to_equations; lia|].
        rewrite (test_is_alive nthreads s m Hs Hm), Ha. reflexivity.
Qed.

Lemma phase_nonces_NoDup (nthreads : Z) (s : shrinkingset) :
  0 < nthreads -> shrinkingset_wf nthreads s ->
  List.NoDup (phase_nonces nthreads s).
Proof.
  intros Hn Hs.
  assert (Hblock : forall id blk m,
            In id (thread_ids nthreads) -> In blk (thread_blocks id nthreads) ->
            In m (block_nonces blk (block_word s blk)) ->
            64 * (m / 64) = blk /\ (m / 64) mod nthreads = id).
  { intros id blk m Hid Hblk Hm. apply thread_ids_In in Hid.
    destruct (thread_blocks_range id nthreads blk ltac:(lia) Hn Hblk) as [Hr Hal].
    destruct (block_word_block nthreads s blk Hs Hr) as [_ Hx].
    pose proof (block_nonces_block blk _ m Hx ltac:(lia) Hal Hm) as E.
    split; [exact E|].
    pose proof (thread_blocks_id id nthreads blk Hid Hblk) as Hi.
    rewrite <- E in Hi. rewrite Z.mul_comm, Z.div_mul in Hi by lia. exact Hi. }
  unfold phase_nonces. apply NoDup_flat_map.
  - apply NoDup_ListNoDup, NoDup_seqZ.
  - intros id Hid. unfold thread_nonces. apply NoDup_flat_map.
    + apply blocks_from_NoDup. lia.
    + intros blk _. apply block_nonces_NoDup.
    + intros b1 b2 m H1 H2 Hm1 Hm2.
      destruct (Hblock id b1 m Hid H1 Hm1) as [<- _].
      destruct (Hblock id b2 m Hid H2 Hm2) as [<- _]. reflexivity.
  - intros i1 i2 m H1 H2 Hm1 Hm2. unfold thread_nonces in *.
    apply in_flat_map in Hm1 as (b1 & Hb1 & Hm1).
    apply in_flat_map in Hm2 as (b2 & Hb2 & Hm2).
    destruct (Hblock i1 b1 m H1 Hb1 Hm1) as [_ <-].
    destruct (Hblock i2 b2 m H2 Hb2 Hm2) as [_ <-]. reflexivity.
Qed.

Lemma phase_nonces_perm (nthreads : Z) (s : shrinkingset) :
  0 < nthreads -> shrinkingset_wf nthreads s ->
  Permutation (phase_nonces nthreads s) (List.filter (is_alive s) nonces).
Proof.
  intros Hn Hs. apply Permutation.NoDup_Permutation.
  - apply phase_nonces_NoDup; assumption.
  - apply List.NoDup_filter, nonces_NoDup.
  - intros m. rewrite (phase_nonces_In nthreads s m Hn Hs), filter_In, nonces_In.
    reflexivity.
Qed.

Lemma part_node_range (uorv n : Z) : 0 <= part_node uorv n < ONCE_BITS.
Proof. apply sipnode_part_range. Qed.

Lemma count_block_step (nthreads : Z) (s : shrinkingset) (uorv part blk : Z)
    (tw : list Z) :
  shrinkingset_wf nthreads s -> 0 <= blk < HALFSIZE -> blk mod 64 = 0 ->
  count_block s uorv part blk tw
  = foldM (count_step uorv part) (block_nonces blk (block_word s blk)) tw.
Proof.
  intros Hs Hblk Hal.
  pose proof HALFSIZE_bound as Hb. pose proof HALFSIZE_words as [Hw1 Hw2].
  assert (Hend : blk + 64 <= HALFSIZE) by (Z.div_mod_to_equations; lia).
  destruct (block_word_block nthreads s blk Hs Hblk) as [Hx Hxr].
  unfold count_block. rewrite Hx. cbn [bind]. rewrite sweep_block by lia.
  rewrite (buffer_fold (in_part uorv part) (part_node uorv)).
  2:{ unfold block_nonces. rewrite length_map.
      pose proof (word_bits_length _ Hxr). simpl. lia. }
  cbn [bind app]. rewrite foldM_map. unfold count_step.
  rewrite (foldM_filter (fun tw n => twice_set_set tw (part_node uorv n))
             (in_part uorv part)).
  apply foldM_ext_in. intros n a _. f_equal.
  pose proof (part_node_range uorv n) as Hr.
  pose proof NONCESHIFT_range as Hns.
  assert (ONCE_BITS <= 2 ^ 31).
  { rewrite ONCE_BITS_pow. apply Z.pow_le_mono_r; lia. }
  unfold u64. rewrite wrap_small by lia. apply nonce_t_small. lia.
Qed.

Lemma count_node_deg_step (nthreads id : Z) (s : shrinkingset) (uorv part : Z)
    (tw : list Z) :
  0 < nthreads <= 2 ^ 25 -> 0 <= id < nthreads -> shrinkingset_wf nthreads s ->
  count_node_deg id nthreads s uorv part tw
  = foldM (count_step uorv part) (thread_nonces s id nthreads) tw.
Proof.
  intros Hn Hid Hs. pose proof HALFSIZE_bound as Hb.
  unfold count_node_deg.
  assert (E1 : u32 (nthreads * 64) = nthreads * 64)
    by (apply wrap_small; lia).
  assert (E2 : nonce_t (u32 (id * 64)) = id * 64).
  { unfold u32. rewrite wrap_small by lia. apply nonce_t_small. lia. }
  rewrite E1, E2. unfold block_fuel.
  rewrite block_loop_blocks by (pose proof block_fuel_enough; lia).
  unfold thread_nonces. rewrite <- foldM_flat_map.
  apply foldM_ext_in. intros blk a Hin.
  destruct (thread_blocks_range id nthreads blk ltac:(lia) ltac:(lia) Hin)
    as [Hr Hal].
  apply (count_block_step nthreads); assumption.
Qed.

Lemma count_phase_step (nthreads : Z) (s : shrinkingset) (uorv part : Z)
    (tw : list Z) :
  0 < nthreads <= 2 ^ 25 -> shrinkingset_wf nthreads s ->
  count_phase nthreads s uorv part tw
  = foldM (count_step uorv part) (phase_nonces nthreads s) tw.
Proof.
  intros Hn Hs. unfold count_phase, phase_nonces. rewrite <- foldM_flat_map.
  apply foldM_ext_in. intros id a Hin. apply thread_ids_In in Hin.
  apply count_node_deg_step; assumption.
Qed.

Lemma count_occ_filter_length (g : Z -> Z) (l : list Z) (u : Z) :
  count_occ Z.eq_dec (map g l) u = length (List.filter (fun n => g n =? u) l).
Proof.
  induction l as [|n l IH]; simpl; [reflexivity|].
  destruct (Z.eq_dec (g n) u) as [E|E], (Z.eqb_spec (g n) u); try contradiction;
    simpl; rewrite IH; reflexivity.
Qed.

(** After the count phase the counter of node [u] has been bumped once for
    every alive nonce of the partition whose node is [u]. *)
Lemma count_phase_state (nthreads : Z) (s : shrinkingset) (uorv part : Z)
    (tw nl : list Z) (u : Z) :
  0 < nthreads <= 2 ^ 25 -> shrinkingset_wf nthreads s ->
  Z.of_nat (length tw) = TWICE_WORDS -> 0 <= u < ONCE_BITS ->
  count_phase nthreads s uorv part (twice_set_reset tw) = Ok nl ->
  twice_set_state nl u = Ok (Nat.iter (degree s uorv part u) bump 0).
Proof.
  intros Hn Hs Hlen Hu H.
  rewrite count_phase_step in H by assumption.
  unfold count_step in H.
  rewrite (foldM_filter (fun tw n => twice_set_set tw (part_node uorv n))
             (in_part uorv part)) in H.
  rewrite <- (foldM_map twice_set_set (part_node uorv)) in H.
  rewrite twice_set_reset_zero in H by assumption.
  destruct (twice_set_fold_state
              (map (part_node uorv)
                 (List.filter (in_part uorv part) (phase_nonces nthreads s)))
              u (replicate (Z.to_nat TWICE_WORDS) 0) 0)
    as (tw' & Hf & _ & Hst).
  - rewrite length_replicate. pose proof TWICE_WORDS_eq. lia.
  - apply List.Forall_forall. intros x Hx.
    apply in_map_iff in Hx as (n & <- & _). apply part_node_range.
  - lia.
  - apply twice_set_zero_state. exact Hu.
  - rewrite Hf in H. injection H as <-. rewrite Hst. f_equal. f_equal.
    rewrite count_occ_filter_length. unfold degree.
    rewrite filter_filter_andb.
    apply Permutation_length.
    rewrite <- filter_filter_andb, <- (filter_filter_andb _ (fun n => is_alive s n && in_part uorv part n)).
    apply Permutation_filter.
    rewrite <- filter_filter_andb. apply Permutation_filter.
    apply phase_nonces_perm; [lia | exact Hs].
Qed.

Lemma test_degree (nl : list Z) (u : Z) (d : nat) :
  twice_set_state nl u = Ok (Nat.iter d bump 0) ->
  exists t, twice_set_test nl u = Ok t /\ (t =? 0) = (d <? 2)%nat.
Proof.
  intros Hst. rewrite (twice_set_test_state nl u _ Hst), bump_iter.
  eexists. split; [reflexivity|]. destruct d as [|[|d]]; reflexivity.
Qed.

(** ** The count phase of the ATOMIC build, under every schedule *)

Lemma foldM_snoc_flat_map {B C : Type} (g : C -> list B) (l : list C) :
  forall acc : list B,
    foldM (fun calls c => Ok (calls ++ g c)) l acc = Ok (acc ++ flat_map g l).
Proof.
  induction l as [|c l IH]; intros acc; cbn [foldM flat_map bind].
  - rewrite app_nil_r. reflexivity.
  - rewrite IH, app_assoc. reflexivity.
Qed.

Lemma map_filter_flat_map {A B C : Type} (g : B -> C) (p : B -> bool)
    (h : A -> list B) (l : list A) :
  map g (List.filter p (flat_map h l))
  = flat_map (fun a => map g (List.filter p (h a))) l.
Proof.
  induction l as [|a l IH]; [reflexivity|]. cbn [flat_map].
  rewrite List.filter_app, map_app, IH. reflexivity.
Qed.

Lemma flat_map_single {A B : Type} (f : A -> B) (l : list A) :
  flat_map (fun a => [f a]) l = map f l.
Proof. induction l as [|a l IH]; [reflexivity|]. cbn. rewrite IH. reflexivity. Qed.

Lemma count_block_calls_step (nthreads : Z) (s : shrinkingset)
    (uorv part blk : Z) (calls : list Z) :
  shrinkingset_wf nthreads s -> 0 <= blk < HALFSIZE -> blk mod 64 = 0 ->
  count_block_calls s uorv part blk calls
  = Ok (calls ++ map (part_node uorv)
                   (List.filter (in_part uorv part)
                      (block_nonces blk (block_word s blk)))).
Proof.
  intros Hs Hblk Hal.
  pose proof HALFSIZE_bound as Hb. pose proof HALFSIZE_words as [Hw1 Hw2].
  assert (Hend : blk + 64 <= HALFSIZE) by (Z.div_mod_to_equations; lia).
  destruct (block_word_block nthreads s blk Hs Hblk) as [Hx Hxr].
  unfold count_block_calls. rewrite Hx. cbn [bind]. rewrite sweep_block by lia.
  rewrite (buffer_fold (in_part uorv part) (part_node uorv)).
  2:{ unfold block_nonces. rewrite length_map.
      pose proof (word_bits_length _ Hxr). simpl. lia. }
  cbn [bind app]. f_equal. f_equal. rewrite map_map. apply map_ext.
  intros n. pose proof (part_node_range uorv n) as Hr.
  pose proof NONCESHIFT_range as Hns.
  assert (ONCE_BITS <= 2 ^ 31).
  { rewrite ONCE_BITS_pow. apply Z.pow_le_mono_r; lia. }
  unfold u64. rewrite wrap_small by lia. apply nonce_t_small. lia.
Qed.

Lemma count_calls_step (nthreads id : Z) (s : shrinkingset) (uorv part : Z) :
  0 < nthreads <= 2 ^ 25 -> 0 <= id < nthreads -> shrinkingset_wf nthreads s ->
  count_calls id nthreads s uorv part
  = Ok (thread_calls s uorv part id nthreads).
Proof.
  intros Hn Hid Hs. pose proof HALFSIZE_bound as Hb.
  unfold count_calls.
  assert (E1 : u32 (nthreads * 64) = nthreads * 64)
    by (apply wrap_small; lia).
  assert (E2 : nonce_t (u32 (id * 64)) = id * 64).
  { unfold u32. rewrite wrap_small by lia. apply nonce_t_small. lia. }
  rewrite E1, E2. unfold block_fuel.
  rewrite block_loop_blocks by (pose proof block_fuel_enough; lia).
  unfold thread_calls, thread_nonces. rewrite map_filter_flat_map.
  rewrite <- (app_nil_l (flat_map _ _)), <- foldM_snoc_flat_map.
  apply foldM_ext_in. intros blk a Hin.
  destruct (thread_blocks_range id nthreads blk ltac:(lia) ltac:(lia) Hin)
    as [Hr Hal].
  apply (count_block_calls_step nthreads); assumption.
Qed.

Lemma count_threads_step (nthreads : Z) (s : shrinkingset) (uorv part : Z) :
  0 < nthreads <= 2 ^ 25 -> shrinkingset_wf nthreads s ->
  count_threads nthreads s uorv part
  = Ok (map (fun id => mk_count_thread None
                         (thread_calls s uorv part id nthreads))
            (thread_ids nthreads)).
Proof.
  intros Hn Hs. unfold count_threads.
  rewrite <- flat_map_single, <- (app_nil_l (flat_map _ _)).
  rewrite <- foldM_snoc_flat_map.
  apply foldM_ext_in. intros id a Hin. apply thread_ids_In in Hin.
  rewrite count_calls_step by assumption. reflexivity.
Qed.

(** [count_node_deg] is [set] for these nodes, one after the other. *)
Lemma count_node_deg_calls (nthreads id : Z) (s : shrinkingset)
    (uorv part : Z) (tw : list Z) :
  0 < nthreads <= 2 ^ 25 -> 0 <= id < nthreads -> shrinkingset_wf nthreads s ->
  count_node_deg id nthreads s uorv part tw
  = do calls <- count_calls id nthreads s uorv part ;
    foldM twice_set_set calls tw.
Proof.
  intros Hn Hid Hs. rewrite count_node_deg_step, count_calls_step by assumption.
  cbn [bind]. unfold thread_calls, count_step. rewrite foldM_map.
  apply (foldM_filter (fun tw n => twice_set_set tw (part_node uorv n))
           (in_part uorv part)).
Qed.

(** One fetch-or with the low ([k = 0]) or the high ([k = 1]) bit of node
    [u]: the bits of [u] before, and the bits of every node after. *)
Lemma fetch_or_state (tw : list Z) (u k : Z) :
  Z.of_nat (length tw) = TWICE_WORDS -> 0 <= u < ONCE_BITS -> 0 <= k <= 1 ->
  exists old tw',
    fetch_or tw (u / 16) (2 ^ (2 * (u mod 16) + k)) = Ok (old, tw') /\
    Z.of_nat (length tw') = TWICE_WORDS /\
    twice_set_state tw u
    = Ok (Z.b2z (Z.testbit old (2 * (u mod 16)))
          + 2 * Z.b2z (Z.testbit old (2 * (u mod 16) + 1))) /\
    (forall u', 0 <= u' -> u' <> u ->
       twice_set_state tw' u' = twice_set_state tw u') /\
    twice_set_state tw' u
    = Ok (Z.b2z (Z.testbit old (2 * (u mod 16)) || (k =? 0))
          + 2 * Z.b2z (Z.testbit old (2 * (u mod 16) + 1) || (k =? 1))).
Proof.
  clear siphash24. intros Hlen Hu Hk.
  pose proof (twice_index u Hu) as Hi.
  pose proof (Z.mod_pos_bound u 16 ltac:(lia)) as Hm.
  destruct (vec_get_in_range tw (u / 16)) as [old Hold]; [lia|].
  exists old, (<[Z.to_nat (u / 16) := Z.lor old (2 ^ (2 * (u mod 16) + k))]> tw).
  unfold fetch_or. rewrite Hold. cbn [bind].
  rewrite vec_set_in_range by lia. cbn [bind].
  split; [reflexivity|]. split; [rewrite length_insert; exact Hlen|].
  rewrite !twice_set_state_unfold, Hold. split; [reflexivity|]. split.
  - intros u' Hu' Hne. rewrite !twice_set_state_unfold.
    pose proof (Z.mod_pos_bound u' 16 ltac:(lia)) as Hm'.
    destruct (Z.eq_dec (u' / 16) (u / 16)) as [Heq|Hd].
    + rewrite Heq, vec_get_set_eq, Hold by lia.
      assert (u' mod 16 <> u mod 16).
      { intros E. apply Hne.
        rewrite (Z.div_mod u' 16), (Z.div_mod u 16) by lia. congruence. }
      rewrite !Z.lor_spec, !Z.pow2_bits_false by lia.
      rewrite !orb_false_r. reflexivity.
    + rewrite vec_get_set_ne by (try apply Z.div_pos; lia). reflexivity.
  - rewrite vec_get_set_eq by lia. rewrite !Z.lor_spec.
    assert (Hk' : k = 0 \/ k = 1) by lia. destruct Hk' as [-> | ->].
    + rewrite Z.add_0_r, Z.pow2_bits_true, Z.pow2_bits_false by lia.
      reflexivity.
    + rewrite Z.pow2_bits_false, Z.pow2_bits_true by lia. reflexivity.
Qed.

Lemma list_sum_insert {A : Type} (f : A -> nat) (l : list A) (i : nat)
    (x y : A) :
  l !! i = Some x ->
  (list_sum (map f (<[i := y]> l)) + f x = list_sum (map f l) + f y)%nat.
Proof.
  revert i. induction l as [|a l IH]; intros [|i] H; try discriminate.
  - injection H as ->. cbn [list_insert insert map list_sum fold_right]. lia.
  - specialize (IH i H). cbn [lookup list_lookup] in H.
    change (<[S i := y]> (a :: l)) with (a :: <[i := y]> l).
    cbn [map list_sum fold_right]. fold (list_sum (map f (<[i := y]> l))).
    fold (list_sum (map f l)). lia.
Qed.

Lemma Forall_list_insert {A : Type} (P : A -> Prop) (l : list A) (i : nat)
    (y : A) :
  List.Forall P l -> P y -> List.Forall P (<[i := y]> l).
Proof.
  intros Hl Hy. revert i. induction Hl as [|a l Ha Hl IH]; intros [|i]; cbn;
    constructor; auto.
Qed.

(** An atomic step of a thread keeps the books right. *)
Lemma thread_step_ok (total : Z -> nat) (tw : list Z)
    (ts : list count_thread) (i : nat) (t : count_thread) :
  count_ok total (tw, ts) -> ts !! i = Some t ->
  exists tw' t',
    thread_step tw t = Ok (tw', t') /\
    count_ok total (tw', <[i := t']> ts) /\
    ((steps_left t' < steps_left t)%nat \/
     (steps_left t = 0%nat /\ t' = t /\ tw' = tw)).
Proof.
  clear siphash24. intros (Hlen & Hr & Hst) Hi. cbn [fst snd] in *.
  assert (Hin : In t ts).
  { apply list_elem_of_In. eapply list_elem_of_lookup_2. exact Hi. }
  pose proof (proj1 (List.Forall_forall _ _) Hr t Hin) as [Htodo Hdue].
  assert (HL : forall u t', (calls_left u (<[i := t']> ts) + todo_at u t
                             = calls_left u ts + todo_at u t')%nat).
  { intros u t'. apply list_sum_insert. exact Hi. }
  assert (HD : forall u t', (calls_due u (<[i := t']> ts) + due_at u t
                             = calls_due u ts + due_at u t')%nat).
  { intros u t'. apply list_sum_insert. exact Hi. }
  destruct t as [due todo]. cbn [ct_due ct_todo] in *.
  unfold thread_step. cbn [ct_due ct_todo].
  destruct due as [u|]; [|destruct todo as [|u rest]].
  - (* the second fetch-or of [set(u)] *)
    pose proof (Hdue u eq_refl) as Hu.
    pose proof (Z.mod_pos_bound u 16 ltac:(lia)) as Hk.
    destruct (twice_bit (u mod 16) Hk) as (E1 & E2 & _). rewrite E1, E2.
    destruct (fetch_or_state tw u 1 Hlen Hu ltac:(lia))
      as (old & tw' & Hf & Hlen' & Hold & Hother & Hnew).
    rewrite Hf. cbn [bind fst snd]. eexists _, _. split; [reflexivity|].
    split; [|left; unfold steps_left; cbn [ct_due ct_todo]; lia].
    split; [exact Hlen'|]. split.
    + apply Forall_list_insert; [exact Hr|]. cbn [ct_due ct_todo].
      split; [exact Htodo | discriminate].
    + intros u' Hu'. cbn [fst snd]. destruct (Hst u' Hu') as (s & Hs & Ht).
      specialize (HL u' (mk_count_thread None todo)).
      specialize (HD u' (mk_count_thread None todo)).
      unfold todo_at, due_at in HL, HD. cbn [ct_due ct_todo] in HL, HD.
      destruct (Z.eq_dec u u') as [<-|Hne].
      * rewrite Hold in Hs. injection Hs as <-. rewrite Hnew.
        eexists. split; [reflexivity|]. unfold tally in *.
        destruct (Z.testbit old (2 * (u mod 16))),
                 (Z.testbit old (2 * (u mod 16) + 1));
          cbn [Z.b2z orb Z.eqb Pos.eqb] in *; lia.
      * rewrite Hother by lia. exists s. split; [exact Hs|].
        unfold tally in *. lia.
  - (* at the barrier *)
    exists tw, (mk_count_thread None []). split; [reflexivity|].
    rewrite list_insert_id by exact Hi.
    split; [split; [exact Hlen | split; [exact Hr | exact Hst]]|].
    right. auto.
  - (* the first fetch-or of [set(u)] *)
    inversion Htodo as [|? ? Hu Hrest]; subst.
    pose proof (Z.mod_pos_bound u 16 ltac:(lia)) as Hk.
    destruct (twice_bit (u mod 16) Hk) as (E1 & _ & _). rewrite E1.
    destruct (fetch_or_state tw u 0 Hlen Hu ltac:(lia))
      as (old & tw' & Hf & Hlen' & Hold & Hother & Hnew).
    rewrite Z.add_0_r in Hf. rewrite Hf. cbn [bind fst snd].
    rewrite land_pow2 by lia.
    assert (Hnz : (2 ^ (2 * (u mod 16)) =? 0) = false).
    { apply Z.eqb_neq. pose proof (Z.pow_pos_nonneg 2 (2 * (u mod 16))). lia. }
    set (d := if (if Z.testbit old (2 * (u mod 16))
                  then 2 ^ (2 * (u mod 16)) else 0) =? 0
              then None else Some u).
    assert (Hd : d = if Z.testbit old (2 * (u mod 16)) then Some u else None).
    { unfold d. destruct (Z.testbit old (2 * (u mod 16)));
        [rewrite Hnz | rewrite Z.eqb_refl]; reflexivity. }
    clearbody d. subst d.
    eexists tw', _. split; [reflexivity|].
    split; [|left; unfold steps_left; cbn [ct_due ct_todo length];
             destruct (Z.testbit old (2 * (u mod 16))); lia].
    split; [exact Hlen'|]. split.
    + apply Forall_list_insert; [exact Hr|]. cbn [ct_due ct_todo].
      split; [exact Hrest|]. intros x Hx.
      destruct (Z.testbit old (2 * (u mod 16))); [|discriminate].
      injection Hx as <-. exact Hu.
    + intros u' Hu'. cbn [fst snd]. destruct (Hst u' Hu') as (s & Hs & Ht).
      match goal with
      | |- context [mk_count_thread ?d rest] =>
          specialize (HL u' (mk_count_thread d rest));
          specialize (HD u' (mk_count_thread d rest))
      end.
      unfold todo_at, due_at in HL, HD.
      cbn [ct_due ct_todo count_occ] in HL, HD.
      destruct (Z.eq_dec u u') as [<-|Hne].
      * rewrite Hold in Hs. injection Hs as <-. rewrite Hnew.
        eexists. split; [reflexivity|]. unfold tally in *.
        destruct (Z.testbit old (2 * (u mod 16))),
                 (Z.testbit old (2 * (u mod 16) + 1));
          cbn [Z.b2z orb Z.eqb Pos.eqb ct_due] in *;
          try (destruct (Z.eq_dec u u); [|contradiction]); lia.
      * rewrite Hother by lia. exists s. split; [exact Hs|].
        unfold tally in *.
        destruct (Z.testbit old (2 * (u mod 16))); cbn [ct_due] in *;
          try (destruct (Z.eq_dec u u'); [contradiction|]); lia.
Qed.

Lemma no_more_steps_refl (ts : list count_thread) : no_more_steps ts ts.
Proof. split; [reflexivity|]. intros j t H. exists t. split; [exact H | lia]. Qed.

Lemma no_more_steps_trans (ts1 ts2 ts3 : list count_thread) :
  no_more_steps ts1 ts2 -> no_more_steps ts2 ts3 -> no_more_steps ts1 ts3.
Proof.
  intros [L1 H1] [L2 H2]. split; [congruence|]. intros j t Hj.
  destruct (H1 j t Hj) as (t2 & Hj2 & Hle2).
  destruct (H2 j t2 Hj2) as (t3 & Hj3 & Hle3).
  exists t3. split; [exact Hj3 | lia].
Qed.

(** One entry of a schedule: the thread it names comes a step nearer to the
    barrier, unless it is there. *)
Lemma sched_step_ok (total : Z -> nat) (st : list Z * list count_thread)
    (i : Z) :
  count_ok total st ->
  exists st',
    sched_step st i = Ok st' /\ count_ok total st' /\
    no_more_steps st.2 st'.2 /\
    forall t, 0 <= i -> st.2 !! Z.to_nat i = Some t ->
      exists t', st'.2 !! Z.to_nat i = Some t' /\
                 (steps_left t' <= steps_left t - 1)%nat.
Proof.
  clear siphash24. destruct st as [tw ts]. intros Hok. unfold sched_step.
  cbn [fst snd]. destruct (vec_get ts i) as [t|e] eqn:Hg.
  - apply vec_get_Ok in Hg as [Hi Hg].
    destruct (thread_step_ok total tw ts _ t Hok Hg)
      as (tw' & t' & Hstep & Hok' & Hless).
    rewrite Hstep. cbn [bind fst snd]. eexists. split; [reflexivity|].
    split; [exact Hok'|]. cbn [fst snd].
    assert (Hlt : (Z.to_nat i < length ts)%nat)
      by (eapply lookup_lt_Some; exact Hg).
    assert (Hle : (steps_left t' <= steps_left t - 1)%nat).
    { destruct Hless as [H | (H & -> & _)]; lia. }
    split; [split|].
    + apply length_insert.
    + intros j t0 Hj. destruct (Nat.eq_dec (Z.to_nat i) j) as [<-|Hne].
      * rewrite list_lookup_insert_eq by exact Hlt. exists t'.
        split; [reflexivity|]. rewrite Hg in Hj. injection Hj as <-. lia.
      * rewrite list_lookup_insert_ne by exact Hne. exists t0.
        split; [exact Hj | lia].
    + intros t0 _ Ht0. rewrite Hg in Ht0. injection Ht0 as <-.
      rewrite list_lookup_insert_eq by exact Hlt. exists t'.
      split; [reflexivity | exact Hle].
  - exists (tw, ts). split; [reflexivity|]. split; [exact Hok|].
    split; [apply no_more_steps_refl|]. cbn [fst snd]. intros t Hi Ht.
    assert (E : vec_get ts i = Ok t) by (apply vec_get_Ok; auto).
    congruence.
Qed.

Lemma run_schedule_ok (total : Z -> nat) (sched : list Z) :
  forall st, count_ok total st ->
    exists st', run_schedule sched st = Ok st' /\ count_ok total st' /\
                no_more_steps st.2 st'.2.
Proof.
  clear siphash24. unfold run_schedule.
  induction sched as [|i sched IH]; intros st Hok; cbn [foldM].
  - exists st. split; [reflexivity|]. split; [exact Hok|].
    apply no_more_steps_refl.
  - destruct (sched_step_ok total st i Hok) as (st1 & -> & Hok1 & Hm1 & _).
    cbn [bind]. destruct (IH st1 Hok1) as (st' & Hrun & Hok' & Hm').
    exists st'. split; [exact Hrun|]. split; [exact Hok'|].
    exact (no_more_steps_trans _ _ _ Hm1 Hm').
Qed.

(** The same thread [k] times over. *)
Lemma run_replicate_ok (total : Z -> nat) (i : Z) (k : nat) :
  forall st, count_ok total st ->
    exists st', run_schedule (replicate k i) st = Ok st' /\
                count_ok total st' /\ no_more_steps st.2 st'.2 /\
                forall t, 0 <= i -> st.2 !! Z.to_nat i = Some t ->
                  exists t', st'.2 !! Z.to_nat i = Some t' /\
                             (steps_left t' <= steps_left t - k)%nat.
Proof.
  clear siphash24. unfold run_schedule.
  induction k as [|k IH]; intros st Hok; cbn [replicate foldM].
  - exists st. split; [reflexivity|]. split; [exact Hok|].
    split; [apply no_more_steps_refl|]. intros t _ Ht. exists t.
    split; [exact Ht | lia].
  - destruct (sched_step_ok total st i Hok) as (st1 & -> & Hok1 & Hm1 & Hs1).
    cbn [bind]. destruct (IH st1 Hok1) as (st' & Hrun & Hok' & Hm' & Hs').
    exists st'. split; [exact Hrun|]. split; [exact Hok'|].
    split; [exact (no_more_steps_trans _ _ _ Hm1 Hm')|].
    intros t Hi Ht. destruct (Hs1 t Hi Ht) as (t1 & Ht1 & Hle1).
    destruct (Hs' t1 Hi Ht1) as (t' & Ht' & Hle').
    exists t'. split; [exact Ht' | lia].
Qed.

(** After [bound] steps for each thread of [l], every one of them that had
    at most [bound] steps left is at the barrier. *)
Lemma run_completion_ok (total : Z -> nat) (bound : nat) (l : list Z) :
  forall st, count_ok total st ->
    List.Forall (fun t => (steps_left t <= bound)%nat) st.2 ->
    exists st',
      run_schedule (flat_map (fun i => replicate bound i) l) st = Ok st' /\
      count_ok total st' /\ no_more_steps st.2 st'.2 /\
      forall i t, In i l -> 0 <= i -> st'.2 !! Z.to_nat i = Some t ->
        steps_left t = 0%nat.
Proof.
  clear siphash24.
  induction l as [|i l IH]; intros st Hok Hb; cbn [flat_map].
  - exists st. split; [reflexivity|]. split; [exact Hok|].
    split; [apply no_more_steps_refl|]. intros i t [].
  - unfold run_schedule. rewrite foldM_app.
    destruct (run_replicate_ok total i bound st Hok)
      as (st1 & Hrun1 & Hok1 & Hm1 & Hs1).
    unfold run_schedule in Hrun1. rewrite Hrun1. cbn [bind].
    assert (Hb1 : List.Forall (fun t => (steps_left t <= bound)%nat) st1.2).
    { apply List.Forall_forall. intros t1 Hin.
      apply list_elem_of_In, list_elem_of_lookup_1 in Hin as [j Hj].
      destruct Hm1 as [Hlen Hm1].
      destruct (lookup_lt_is_Some_2 st.2 j) as [t0 Ht0].
      { rewrite <- Hlen. eapply lookup_lt_Some. exact Hj. }
      destruct (Hm1 j t0 Ht0) as (t1' & Hj' & Hle).
      rewrite Hj in Hj'. injection Hj' as <-.
      pose proof (proj1 (List.Forall_forall _ _) Hb t0
                    (proj1 (list_elem_of_In _ _)
                       (list_elem_of_lookup_2 _ _ _ Ht0))).
      cbn beta in *. lia. }
    destruct (IH st1 Hok1 Hb1) as (st' & Hrun & Hok' & Hm' & Hdone).
    exists st'. split; [exact Hrun|]. split; [exact Hok'|].
    split; [exact (no_more_steps_trans _ _ _ Hm1 Hm')|].
    intros j t [<-|Hin] Hj Ht; [|exact (Hdone j t Hin Hj Ht)].
    destruct Hm1 as [Hlen1 _]. destruct Hm' as [Hlen' Hm'].
    destruct (lookup_lt_is_Some_2 st.2 (Z.to_nat i)) as [t0 Ht0].
    { rewrite <- Hlen1, <- Hlen'. eapply lookup_lt_Some. exact Ht. }
    destruct (Hs1 t0 Hj Ht0) as (t1 & Ht1 & Hle1).
    destruct (Hm' _ t1 Ht1) as (t2 & Ht2 & Hle2).
    rewrite Ht in Ht2. injection Ht2 as <-.
    pose proof (proj1 (List.Forall_forall _ _) Hb t0
                  (proj1 (list_elem_of_In _ _)
                     (list_elem_of_lookup_2 _ _ _ Ht0))).
    cbn beta in *. lia.
Qed.

(** With every thread at the barrier the two bits of a node tell how often it
    was set: not at all, once, or more often. *)
Lemma calls_done (u : Z) (ts : list count_thread) :
  List.Forall (fun t => steps_left t = 0%nat) ts ->
  calls_left u ts = 0%nat /\ calls_due u ts = 0%nat.
Proof.
  clear. unfold calls_left, calls_due.
  induction 1 as [|t ts Ht _ [IH1 IH2]]; [split; reflexivity|].
  cbn [map list_sum fold_right]. unfold list_sum in IH1, IH2.
  rewrite IH1, IH2. unfold steps_left in Ht. unfold todo_at, due_at.
  destruct t as [[x|] [|y todo]]; cbn [ct_due ct_todo length] in *;
    try lia. split; reflexivity.
Qed.

Lemma tally_done (total : nat) (s : Z) :
  tally total 0 0 s -> s = Nat.iter total bump 0.
Proof.
  clear. rewrite bump_iter. unfold tally.
  destruct total as [|[|n]]; lia.
Qed.

Lemma calls_left_map (u : Z) (calls : Z -> list Z) (ids : list Z) :
  calls_left u (map (fun id => mk_count_thread None (calls id)) ids)
  = count_occ Z.eq_dec (flat_map calls ids) u.
Proof.
  clear. unfold calls_left. induction ids as [|id ids IH]; [reflexivity|].
  cbn [map list_sum fold_right flat_map]. rewrite count_occ_app.
  unfold list_sum in IH. rewrite IH. reflexivity.
Qed.

Lemma calls_due_map (u : Z) (calls : Z -> list Z) (ids : list Z) :
  calls_due u (map (fun id => mk_count_thread None (calls id)) ids) = 0%nat.
Proof.
  clear. unfold calls_due. induction ids as [|id ids IH]; [reflexivity|].
  cbn [map list_sum fold_right]. unfold list_sum in IH. rewrite IH.
  reflexivity.
Qed.

(** The calls of all threads for node [u] are as many as the alive nonces of
    the partition at [u]. *)
Lemma calls_degree (nthreads : Z) (s : shrinkingset) (uorv part u : Z) :
  0 < nthreads -> shrinkingset_wf nthreads s ->
  count_occ Z.eq_dec
    (map (part_node uorv)
       (List.filter (in_part uorv part) (phase_nonces nthreads s))) u
  = degree s uorv part u.
Proof.
  intros Hn Hs. rewrite count_occ_filter_length. unfold degree.
  rewrite filter_filter_andb.
  apply Permutation_length.
  rewrite <- filter_filter_andb,
    <- (filter_filter_andb _ (fun n => is_alive s n && in_part uorv part n)).
  apply Permutation_filter.
  rewrite <- filter_filter_andb. apply Permutation_filter.
  apply phase_nonces_perm; [lia | exact Hs].
Qed.

Lemma steps_bound_ge (ts : list count_thread) :
  List.Forall (fun t => ct_due t = None) ts ->
  List.Forall (fun t => (steps_left t <= steps_bound ts)%nat) ts.
Proof.
  clear. unfold steps_bound. induction 1 as [|t ts Ht _ IH]; constructor.
  - unfold steps_left. rewrite Ht. cbn [map list_sum fold_right]. lia.
  - eapply List.Forall_impl; [|exact IH]. cbn beta. intros t' Ht'.
    cbn [map list_sum fold_right]. unfold list_sum in Ht'. lia.
Qed.

(** Whatever the schedule, the count phase of the ATOMIC build leaves in
    [nonleaf] the degrees of the nodes, capped at two. *)
Lemma count_phase_atomic_state (nthreads : Z) (sched : list Z)
    (s : shrinkingset) (uorv part : Z) (tw : list Z) :
  0 < nthreads <= 2 ^ 25 -> shrinkingset_wf nthreads s ->
  Z.of_nat (length tw) = TWICE_WORDS ->
  exists nl,
    count_phase_atomic nthreads sched s uorv part (twice_set_reset tw) = Ok nl /\
    Z.of_nat (length nl) = TWICE_WORDS /\
    forall u, 0 <= u < ONCE_BITS ->
      twice_set_state nl u = Ok (Nat.iter (degree s uorv part u) bump 0).
Proof.
  intros Hn Hs Hlen. unfold count_phase_atomic.
  rewrite count_threads_step by assumption. cbn [bind].
  set (ts := map (fun id => mk_count_thread None
                              (thread_calls s uorv part id nthreads))
                 (thread_ids nthreads)).
  set (total := fun u => degree s uorv part u).
  rewrite twice_set_reset_zero by assumption.
  assert (Hok : count_ok total (replicate (Z.to_nat TWICE_WORDS) 0, ts)).
  { split; [|split]; cbn [fst snd].
    - rewrite length_replicate. pose proof TWICE_WORDS_eq. lia.
    - apply List.Forall_forall. intros t Ht. unfold ts in Ht.
      apply in_map_iff in Ht as (id & <- & _). cbn [ct_due ct_todo].
      split; [|discriminate]. apply List.Forall_forall. intros x Hx.
      unfold thread_calls in Hx.
      apply in_map_iff in Hx as (n & <- & _). apply part_node_range.
    - intros u Hu. exists 0. split; [apply twice_set_zero_state; exact Hu|].
      unfold ts.
      rewrite (calls_left_map u (fun id => thread_calls s uorv part id nthreads)).
      rewrite (calls_due_map u (fun id => thread_calls s uorv part id nthreads)).
      unfold thread_calls. rewrite <- map_filter_flat_map.
      fold (phase_nonces nthreads s).
      rewrite calls_degree by (lia || assumption).
      unfold tally, total. lia. }
  unfold run_schedule. rewrite foldM_app.
  destruct (run_schedule_ok total sched _ Hok) as (st1 & Hrun1 & Hok1 & Hm1).
  unfold run_schedule in Hrun1. rewrite Hrun1. cbn [bind]. cbn [snd] in Hm1.
  assert (Hb0 : List.Forall (fun t => (steps_left t <= steps_bound ts)%nat) ts).
  { apply steps_bound_ge. apply List.Forall_forall. intros t Ht. unfold ts in Ht.
    apply in_map_iff in Ht as (id & <- & _). reflexivity. }
  assert (Hb1 : List.Forall (fun t => (steps_left t <= steps_bound ts)%nat) st1.2).
  { apply List.Forall_forall. intros t1 Hin.
    apply list_elem_of_In, list_elem_of_lookup_1 in Hin as [j Hj].
    destruct Hm1 as [Hl Hm1].
    destruct (lookup_lt_is_Some_2 ts j) as [t0 Ht0].
    { rewrite <- Hl. eapply lookup_lt_Some. exact Hj. }
    destruct (Hm1 j t0 Ht0) as (t1' & Hj' & Hle).
    rewrite Hj in Hj'. injection Hj' as <-.
    pose proof (proj1 (List.Forall_forall _ _) Hb0 t0
                  (proj1 (list_elem_of_In _ _)
                     (list_elem_of_lookup_2 _ _ _ Ht0))).
    cbn beta in *. lia. }
  unfold completion.
  destruct (run_completion_ok total (steps_bound ts)
              (seqZ 0 (Z.of_nat (length ts))) st1 Hok1 Hb1)
    as (st' & Hrun & (Hlen' & _ & Hst') & Hm' & Hdone).
  unfold run_schedule in Hrun. rewrite Hrun. cbn [bind].
  exists st'.1. split; [reflexivity|]. split; [exact Hlen'|].
  intros u Hu. destruct (Hst' u Hu) as (x & Hx & Ht). rewrite Hx. f_equal.
  assert (Hall : List.Forall (fun t => steps_left t = 0%nat) st'.2).
  { apply List.Forall_forall. intros t Hin.
    apply list_elem_of_In, list_elem_of_lookup_1 in Hin as [j Hj].
    apply (Hdone (Z.of_nat j)).
    - apply list_elem_of_In, elem_of_seqZ.
      pose proof (lookup_lt_Some _ _ _ Hj) as Hlt.
      destruct Hm1 as [L1 _]. destruct Hm' as [L2 _]. lia.
    - lia.
    - rewrite Nat2Z.id. exact Hj. }
  destruct (calls_done u _ Hall) as [E1 E2]. rewrite E1, E2 in Ht.
  apply tally_done. exact Ht.
Qed.
Lemma test_cap (nl : list Z) (u : Z) (d : nat) :
  twice_set_state nl u = Ok (Nat.iter d bump 0) ->
  exists t, twice_set_test nl u = Ok t /\ (t <> 0 <-> (2 <= d)%nat).
Proof.
  intros Hst. destruct (test_degree nl u d Hst) as (t & Ht & E).
  exists t. split; [exact Ht|].
  destruct (Z.eqb_spec t 0), (Nat.ltb_spec d 2); try discriminate;
    split; intros; lia.
Qed.

(** X1. After [count_node_deg] of all threads, started from a reset
    [nonleaf], [test(u)] is nonzero exactly for the nodes [u] of the
    partition that at least two alive nonces map to: the counters hold the
    degrees of the nodes, capped at two.  On the ATOMIC build this holds for
    1 to 2^25 threads and every order of their atomic steps; without ATOMIC
    it is stated for one thread, where no step of [set] can be lost.  (Builds
    with 7 <= SIZESHIFT <= 32 and 0 <= PART_BITS <= SIZESHIFT - 5.) *)
Theorem count_phase_degree (nthreads : Z) (sched : list Z) (s : shrinkingset)
    (uorv part : Z) (tw : list Z) :
  0 < nthreads <= 2 ^ 25 -> shrinkingset_wf nthreads s ->
  Z.of_nat (length tw) = TWICE_WORDS ->
  (exists nl,
     count_phase_atomic nthreads sched s uorv part (twice_set_reset tw) = Ok nl /\
     Z.of_nat (length nl) = TWICE_WORDS /\
     forall u, 0 <= u < ONCE_BITS ->
       exists t, twice_set_test nl u = Ok t /\
                 (t <> 0 <-> (2 <= degree s uorv part u)%nat)) /\
  (nthreads = 1 ->
   exists nl,
     count_phase nthreads s uorv part (twice_set_reset tw) = Ok nl /\
     Z.of_nat (length nl) = TWICE_WORDS /\
     forall u, 0 <= u < ONCE_BITS ->
       exists t, twice_set_test nl u = Ok t /\
                 (t <> 0 <-> (2 <= degree s uorv part u)%nat)).
Proof.
  intros Hn Hs Hlen. split.
  - destruct (count_phase_atomic_state nthreads sched s uorv part tw Hn Hs Hlen)
      as (nl & Hcp & Hnl & Hst).
    exists nl. split; [exact Hcp|]. split; [exact Hnl|]. intros u Hu.
    apply test_cap. apply Hst. exact Hu.
  - intros _.
    assert (Hz : Z.of_nat (length (twice_set_reset tw)) = TWICE_WORDS).
    { rewrite twice_set_reset_zero, length_replicate by assumption.
      pose proof TWICE_WORDS_eq. lia. }
    destruct (count_phase_spec nthreads s uorv part _ Hn Hs Hz)
      as (nl & Hcp & Hnl).
    exists nl. split; [exact Hcp|]. split; [exact Hnl|]. intros u Hu.
    apply test_cap.
    exact (count_phase_state nthreads s uorv part tw nl u Hn Hs Hlen Hu Hcp).
Qed.

(** One pass of trimming: the alive nonces of the partition whose node has
    degree below two die, nothing else changes. *)
Lemma pass_alive (nthreads : Z) (ctx : cuckoo_ctx) (uorv part : Z)
    (nl : list Z) :
  0 < nthreads <= 2 ^ 25 -> ctx_wf nthreads ctx ->
  Z.of_nat (length nl) = TWICE_WORDS ->
  (forall u, 0 <= u < ONCE_BITS ->
     twice_set_state nl u
     = Ok (Nat.iter (degree (alive ctx) uorv part u) bump 0)) ->
  exists s',
    kill_phase nthreads nl uorv part (alive ctx) = Ok s' /\
    trimmed nthreads ctx (mk_cuckoo_ctx s' nl) /\
    forall m, 0 <= m < HALFSIZE ->
      is_alive s' m
      = is_alive (alive ctx) m
        && negb (in_part uorv part m
                 && (degree (alive ctx) uorv part (part_node uorv m) <? 2)%nat).
Proof.
  intros Hn [Hs Hnl] Hnl' Hst.
  destruct (kill_phase_spec nthreads nl uorv part (alive ctx) Hn Hs Hnl')
    as (s' & Hkp & Hs' & Hal & Hc).
  exists s'. split; [exact Hkp|]. split.
  - split; [split; assumption|]. split; [|exact Hc].
    cbn [alive]. intros m Hm. rewrite (Hal m Hm). intros H.
    apply andb_prop in H. tauto.
  - intros m Hm. rewrite (Hal m Hm), andb_true_r. f_equal. f_equal.
    unfold leaf_edge. f_equal. unfold is_leaf. fold (part_node uorv m).
    destruct (test_degree nl _ _ (Hst _ (part_node_range uorv m)))
      as (t & -> & E).
    exact E.
Qed.

Lemma trim_pass_alive (nthreads : Z) (ctx : cuckoo_ctx) (uorv part : Z) :
  0 < nthreads <= 2 ^ 25 -> ctx_wf nthreads ctx ->
  exists ctx',
    trim_pass nthreads ctx (uorv, part) = Ok ctx' /\
    trimmed nthreads ctx ctx' /\
    forall m, 0 <= m < HALFSIZE ->
      is_alive (alive ctx') m
      = is_alive (alive ctx) m
        && negb (in_part uorv part m
                 && (degree (alive ctx) uorv part (part_node uorv m) <? 2)%nat).
Proof.
  intros Hn Hctx. pose proof Hctx as [Hs Hnl]. unfold trim_pass.
  assert (Hz : Z.of_nat (length (twice_set_reset (nonleaf ctx))) = TWICE_WORDS).
  { rewrite twice_set_reset_zero, length_replicate by assumption.
    pose proof TWICE_WORDS_eq. lia. }
  destruct (count_phase_spec nthreads (alive ctx) uorv part _ Hn Hs Hz)
    as (nl & Hcp & Hnl').
  destruct (pass_alive nthreads ctx uorv part nl Hn Hctx Hnl')
    as (s' & Hkp & Htr & Hal).
  { intros u Hu.
    exact (count_phase_state nthreads (alive ctx) uorv part (nonleaf ctx) nl u
             Hn Hs Hnl Hu Hcp). }
  rewrite Hcp. cbn [bind]. rewrite Hkp. cbn [bind].
  eexists. split; [reflexivity|]. split; [exact Htr | exact Hal].
Qed.

Lemma trim_pass_atomic_alive (nthreads : Z) (sched : list Z)
    (ctx : cuckoo_ctx) (uorv part : Z) :
  0 < nthreads <= 2 ^ 25 -> ctx_wf nthreads ctx ->
  exists ctx',
    trim_pass_atomic nthreads sched ctx (uorv, part) = Ok ctx' /\
    trimmed nthreads ctx ctx' /\
    forall m, 0 <= m < HALFSIZE ->
      is_alive (alive ctx') m
      = is_alive (alive ctx) m
        && negb (in_part uorv part m
                 && (degree (alive ctx) uorv part (part_node uorv m) <? 2)%nat).
Proof.
  intros Hn Hctx. pose proof Hctx as [Hs Hnl]. unfold trim_pass_atomic.
  destruct (count_phase_atomic_state nthreads sched (alive ctx) uorv part
              (nonleaf ctx) Hn Hs Hnl) as (nl & Hcp & Hnl' & Hst).
  destruct (pass_alive nthreads ctx uorv part nl Hn Hctx Hnl' Hst)
    as (s' & Hkp & Htr & Hal).
  rewrite Hcp. cbn [bind]. rewrite Hkp. cbn [bind].
  eexists. split; [reflexivity|]. split; [exact Htr | exact Hal].
Qed.

Lemma alive_leaves_removed (nthreads : Z) (ctx ctx' : cuckoo_ctx)
    (uorv part : Z) :
  trimmed nthreads ctx ctx' ->
  (forall m, 0 <= m < HALFSIZE ->
     is_alive (alive ctx') m
     = is_alive (alive ctx) m
       && negb (in_part uorv part m
                && (degree (alive ctx) uorv part (part_node uorv m) <? 2)%nat)) ->
  leaves_removed nthreads ctx uorv part ctx'.
Proof.
  intros Htr Hal. split; [exact (proj1 Htr)|].
  intros n Hr. rewrite (test_is_alive nthreads _ n (proj1 (proj1 Htr)) Hr).
  rewrite (Hal n Hr). reflexivity.
Qed.

(** X2. One pass of trimming on side [uorv] and partition [part] removes
    exactly the leaf edges: afterwards a nonce tests alive when it was alive
    and is not both in the partition and the only alive nonce of the
    partition at its node.  On the ATOMIC build for 1 to 2^25 threads and
    every order of the atomic steps of the count phase; without ATOMIC for
    one thread. *)
Theorem trim_pass_removes_leaves (nthreads : Z) (sched : list Z)
    (ctx : cuckoo_ctx) (uorv part : Z) :
  0 < nthreads <= 2 ^ 25 -> ctx_wf nthreads ctx ->
  (exists ctx',
     trim_pass_atomic nthreads sched ctx (uorv, part) = Ok ctx' /\
     leaves_removed nthreads ctx uorv part ctx') /\
  (nthreads = 1 ->
   exists ctx',
     trim_pass nthreads ctx (uorv, part) = Ok ctx' /\
     leaves_removed nthreads ctx uorv part ctx').
Proof.
  intros Hn Hctx. split.
  - destruct (trim_pass_atomic_alive nthreads sched ctx uorv part Hn Hctx)
      as (ctx' & Hp & Htr & Hal).
    exists ctx'. split; [exact Hp|].
    apply alive_leaves_removed; assumption.
  - intros _.
    destruct (trim_pass_alive nthreads ctx uorv part Hn Hctx)
      as (ctx' & Hp & Htr & Hal).
    exists ctx'. split; [exact Hp|].
    apply alive_leaves_removed; assumption.
Qed.

(** ** Trimming keeps the cycles *)

Lemma degree_two (s : shrinkingset) (uorv part n m : Z) :
  0 <= n < HALFSIZE -> 0 <= m < HALFSIZE -> m <> n ->
  is_alive s n = true -> is_alive s m = true ->
  in_part uorv part n = true -> _sipnode m uorv = _sipnode n uorv ->
  (2 <= degree s uorv part (part_node uorv n))%nat.
Proof.
  intros Hn Hm Hne Han Ham Hp He. unfold degree.
  set (p := fun k => is_alive s k && in_part uorv part k
                     && (part_node uorv k =? part_node uorv n)).
  change 2%nat with (length [n; m]). apply NoDup_incl_length.
  - constructor; [intros [E|[]]; congruence|]. constructor; [intros []|constructor].
  - intros k [<-|[<-|[]]]; apply filter_In; (split; [apply nonces_In; assumption|]);
      unfold p, in_part, part_node in *.
    + rewrite Han, Hp, Z.eqb_refl. reflexivity.
    + rewrite Ham, He, Hp, Z.eqb_refl. reflexivity.
Qed.

(** The nonces of a 2-core are no leaf edges. *)
Lemma core_survives (C : Z -> bool) (s s' : shrinkingset) (uorv part : Z) :
  0 <= uorv <= 1 -> two_core C ->
  (forall n, C n = true -> is_alive s n = true) ->
  (forall m, 0 <= m < HALFSIZE ->
     is_alive s' m
     = is_alive s m
       && negb (in_part uorv part m
                && (degree s uorv part (part_node uorv m) <? 2)%nat)) ->
  forall n, C n = true -> is_alive s' n = true.
Proof.
  intros Hu HC Hal Hal' n Hc. destruct (HC n Hc) as [Hr Hnb].
  rewrite (Hal' n Hr), (Hal n Hc). cbn [andb].
  destruct (in_part uorv part n) eqn:Hip; [|reflexivity]. cbn [andb].
  destruct (Hnb uorv Hu) as (m & Hcm & Hne & He).
  pose proof (degree_two s uorv part n m Hr (proj1 (HC m Hcm)) Hne
                (Hal n Hc) (Hal m Hcm) Hip He) as Hd.
  destruct (Nat.ltb_spec (degree s uorv part (part_node uorv n)) 2);
    [lia | reflexivity].
Qed.

Lemma passes_side (pass : Z * Z) : In pass passes -> 0 <= pass.1 <= 1.
Proof.
  unfold passes. rewrite in_flat_map. intros (uorv & Hu & Hin).
  apply in_map_iff in Hin as (part & <- & _). cbn [fst].
  destruct Hu as [<-|[<-|[]]]; lia.
Qed.

Lemma trim_keeps_core (C : Z -> bool) (nthreads : Z) (k : nat)
    (ctx : cuckoo_ctx) :
  0 < nthreads <= 2 ^ 25 -> two_core C ->
  ctx_wf nthreads ctx /\ (forall n, C n = true -> is_alive (alive ctx) n = true) ->
  exists ctx', trim nthreads k ctx = Ok ctx' /\
    ctx_wf nthreads ctx' /\
    (forall n, C n = true -> is_alive (alive ctx') n = true).
Proof.
  intros Hn HC Hinv. induction k as [|k IH].
  - exists ctx. split; [reflexivity | exact Hinv].
  - destruct IH as (c1 & Hk & Hinv1). cbn [trim]. rewrite Hk. cbn [bind].
    unfold trim_round.
    apply (foldM_invariant
             (fun c => ctx_wf nthreads c /\
                       (forall n, C n = true -> is_alive (alive c) n = true))
             (fun pass => 0 <= pass.1 <= 1)).
    + intros c [uorv part] [Hc Hal] Hside.
      destruct (trim_pass_alive nthreads c uorv part Hn Hc)
        as (c' & Hp & Htr & Hal').
      exists c'. split; [exact Hp|]. split; [exact (proj1 Htr)|].
      exact (core_survives C _ _ uorv part Hside HC Hal Hal').
    + exact Hinv1.
    + apply List.Forall_forall. intros pass. apply passes_side.
Qed.

Lemma trim_atomic_keeps_core (C : Z -> bool) (nthreads : Z)
    (scheds : nat -> Z * Z -> list Z) (k : nat) (ctx : cuckoo_ctx) :
  0 < nthreads <= 2 ^ 25 -> two_core C ->
  ctx_wf nthreads ctx /\ (forall n, C n = true -> is_alive (alive ctx) n = true) ->
  exists ctx', trim_atomic nthreads scheds k ctx = Ok ctx' /\
    ctx_wf nthreads ctx' /\
    (forall n, C n = true -> is_alive (alive ctx') n = true).
Proof.
  intros Hn HC Hinv. induction k as [|k IH].
  - exists ctx. split; [reflexivity | exact Hinv].
  - destruct IH as (c1 & Hk & Hinv1). cbn [trim_atomic]. rewrite Hk.
    cbn [bind]. unfold trim_round_atomic.
    apply (foldM_invariant
             (fun c => ctx_wf nthreads c /\
                       (forall n, C n = true -> is_alive (alive c) n = true))
             (fun pass => 0 <= pass.1 <= 1)).
    + intros c [uorv part] [Hc Hal] Hside.
      destruct (trim_pass_atomic_alive nthreads (scheds k (uorv, part)) c
                  uorv part Hn Hc) as (c' & Hp & Htr & Hal').
      exists c'. split; [exact Hp|]. split; [exact (proj1 Htr)|].
      exact (core_survives C _ _ uorv part Hside HC Hal Hal').
    + exact Hinv1.
    + apply List.Forall_forall. intros pass. apply passes_side.
Qed.

(** X3. Trimming never removes the edges of a cycle: if every nonce of a set
    is alive and has, at each of its two ends, another nonce of the set with
    the same node, then all its nonces still test alive after any number of
    trimming rounds.  On the ATOMIC build for 1 to 2^25 threads and every
    order of the atomic steps of the count phases; without ATOMIC for one
    thread. *)
Theorem trimming_keeps_cycles (C : Z -> bool) (nthreads : Z)
    (scheds : nat -> Z * Z -> list Z) (k : nat) (ctx : cuckoo_ctx) :
  0 < nthreads <= 2 ^ 25 -> ctx_wf nthreads ctx -> two_core C ->
  (forall n, C n = true -> test (alive ctx) n = Ok true) ->
  (exists ctx', trim_atomic nthreads scheds k ctx = Ok ctx' /\
     forall n, C n = true -> test (alive ctx') n = Ok true) /\
  (nthreads = 1 ->
   exists ctx', trim nthreads k ctx = Ok ctx' /\
     forall n, C n = true -> test (alive ctx') n = Ok true).
Proof.
  intros Hn Hctx HC Hal.
  assert (Hinv : ctx_wf nthreads ctx /\
                 (forall n, C n = true -> is_alive (alive ctx) n = true)).
  { split; [exact Hctx|]. intros n Hc. unfold is_alive. rewrite (Hal n Hc).
    reflexivity. }
  split; [|intros _].
  - destruct (trim_atomic_keeps_core C nthreads scheds k ctx Hn HC Hinv)
      as (ctx' & Hk & Hctx' & Hal').
    exists ctx'. split; [exact Hk|]. intros n Hc.
    rewrite (test_is_alive nthreads _ n (proj1 Hctx') (proj1 (HC n Hc))).
    rewrite (Hal' n Hc). reflexivity.
  - destruct (trim_keeps_core C nthreads k ctx Hn HC Hinv)
      as (ctx' & Hk & Hctx' & Hal').
    exists ctx'. split; [exact Hk|]. intros n Hc.
    rewrite (test_is_alive nthreads _ n (proj1 Hctx') (proj1 (HC n Hc))).
    rewrite (Hal' n Hc). reflexivity.
Qed.
(** ** The load test after trimming *)

Lemma CUCKOO_SIZE_pow :
  0 <= IDXSHIFT <= SIZESHIFT -> CUCKOO_SIZE = 2 ^ (SIZESHIFT - IDXSHIFT).
Proof.
  intros Hi. unfold CUCKOO_SIZE, SIZE. rewrite Z.shiftr_div_pow2 by lia.
  rewrite <- Z.pow_sub_r by lia. reflexivity.
Qed.

Lemma alive_count_new (nthreads : Z) (s : shrinkingset) :
  0 < nthreads -> shrinkingset_new nthreads = Ok s ->
  alive_count s = HALFSIZE /\ count s = HALFSIZE.
Proof.
  intros Hn Hs. pose proof HALFSIZE_bound as Hb. split.
  - unfold alive_count. rewrite forallb_filter_id.
    + unfold nonces. rewrite length_seqZ. lia.
    + apply forallb_forall. intros m Hm. apply nonces_In in Hm.
      destruct (shrinkingset_new_spec nthreads m s Hn Hm Hs) as [Ht _].
      unfold is_alive. rewrite Ht. reflexivity.
  - exact (proj2 (shrinkingset_new_spec nthreads 0 s Hn ltac:(lia) Hs)).
Qed.

Lemma cuckoo_ctx_new_spec (nthreads : Z) :
  0 < nthreads ->
  exists ctx, cuckoo_ctx_new nthreads = Ok ctx /\ ctx_wf nthreads ctx /\
              count (alive ctx) = alive_count (alive ctx).
Proof.
  intros Hn. unfold cuckoo_ctx_new.
  pose proof (shrinkingset_new_Ok nthreads Hn) as Hs. rewrite Hs. cbn [bind].
  eexists. split; [reflexivity|]. unfold ctx_wf. cbn [alive nonleaf].
  split; [split|].
  - apply shrinkingset_new_wf; assumption.
  - unfold twice_set_new. rewrite length_replicate.
    pose proof TWICE_WORDS_eq. lia.
  - destruct (alive_count_new nthreads _ Hn Hs) as [-> ->]. reflexivity.
Qed.

(** The population count of the CUDA miner. *)
Lemma popcount_pos_bits (p : positive) (i : Z) :
  popcount_pos p = Z.of_nat (length (pos_bits p i)).
Proof.
  revert i. induction p as [q IH|q IH|]; intros i; simpl.
  - rewrite (IH (i + 1)). lia.
  - apply IH.
  - reflexivity.
Qed.

Lemma popcountll_bits (x : Z) : popcountll x = Z.of_nat (length (word_bits x)).
Proof. destruct x; try reflexivity. apply popcount_pos_bits. Qed.

Lemma gpu_wideblock_in_range (b : list Z) (n : Z) :
  gpu_bits_wf b -> 0 <= n < HALFSIZE ->
  exists x, gpu_wideblock b n = Ok x /\ 0 <= x < 2 ^ 64.
Proof.
  clear siphash24.
  intros [Hlen _] Hn. pose proof HALFSIZE_words as [Hw1 Hw2].
  destruct (vec_get_in_range b (2 * (n / 64))) as [lo Hlo];
    [Z.div_mod_to_equations; lia|].
  destruct (vec_get_in_range b (2 * (n / 64) + 1)) as [hi Hhi];
    [Z.div_mod_to_equations; lia|].
  unfold gpu_wideblock. rewrite Hlo, Hhi. cbn [bind].
  eexists. split; [reflexivity|]. apply wrap_range. lia.
Qed.

(** The alive nonces of a 64-bit block are as many as the bits set in the
    word [wideblock] returns for it. *)
Lemma gpu_block_count (b : list Z) (k x : Z) :
  gpu_bits_wf b -> 0 <= k -> 64 * k + 64 <= HALFSIZE ->
  gpu_wideblock b (64 * k) = Ok x ->
  length (List.filter (gpu_is_alive b) (seqZ (64 * k) 64))
  = length (word_bits x).
Proof.
  clear siphash24.
  intros Hwf Hk Hend Hx.
  assert (Hxr : 0 <= x < 2 ^ 64).
  { destruct (gpu_wideblock_in_range b (64 * k) Hwf ltac:(lia)) as (x' & E & Hr).
    congruence. }
  rewrite <- (length_map (Z.add (64 * k)) (word_bits x)).
  apply Permutation.Permutation_length. apply Permutation.NoDup_Permutation.
  - apply List.NoDup_filter, NoDup_ListNoDup, NoDup_seqZ.
  - apply (block_nonces_NoDup (64 * k) x).
  - intros m. rewrite filter_In, <- list_elem_of_In, elem_of_seqZ, in_map_iff.
    assert (Hq : 64 * k / 64 = k) by (Z.div_mod_to_equations; lia).
    split.
    + intros [Hm Ha]. exists (m - 64 * k). split; [lia|].
      apply word_bits_spec; [lia|]. split; [lia|].
      pose proof (gpu_wideblock_test b (64 * k) x (m - 64 * k) (proj2 Hwf) Hx
                    ltac:(lia) ltac:(lia)) as Ht.
      rewrite Hq in Ht. replace (64 * k + (m - 64 * k)) with m in Ht by lia.
      unfold gpu_is_alive in Ha. rewrite Ht in Ha. exact Ha.
    + intros (j & <- & Hj). pose proof (word_bits_lt x j Hxr Hj) as Hj64.
      apply word_bits_spec in Hj as [_ Hbit]; [|lia]. split; [lia|].
      pose proof (gpu_wideblock_test b (64 * k) x j (proj2 Hwf) Hx
                    ltac:(lia) Hj64) as Ht.
      rewrite Hq in Ht. unfold gpu_is_alive. rewrite Ht. exact Hbit.
Qed.

Lemma gpu_count_prefix (b : list Z) :
  gpu_bits_wf b ->
  forall K : nat,
    Z.of_nat K <= HALFSIZE / 64 ->
    foldM (fun cnt i =>
             do x <- gpu_wideblock b (64 * i) ;
             Ok (u64 (cnt + popcountll x)))
          (seqZ 0 (Z.of_nat K)) 0
    = Ok (Z.of_nat (length (List.filter (gpu_is_alive b)
                              (seqZ 0 (64 * Z.of_nat K))))).
Proof.
  clear siphash24.
  intros Hwf. pose proof HALFSIZE_words as [Hw1 Hw2].
  pose proof HALFSIZE_bound as Hb.
  induction K as [|K IH]; intros HK; [reflexivity|].
  rewrite seqZ_S, foldM_app, IH by lia. cbn [bind foldM]. rewrite Z.add_0_l.
  destruct (gpu_wideblock_in_range b (64 * Z.of_nat K) Hwf ltac:(lia))
    as (x & Hx & Hxr).
  rewrite Hx. cbn [bind]. f_equal.
  replace (64 * Z.of_nat (S K)) with (64 * Z.of_nat K + 64) by lia.
  rewrite seqZ_app, List.filter_app, length_app, Z.add_0_l by lia.
  rewrite (gpu_block_count b (Z.of_nat K) x Hwf) by (lia || assumption).
  rewrite popcountll_bits, Nat2Z.inj_add.
  apply wrap_small. split; [lia|].
  pose proof (List.filter_length_le (gpu_is_alive b) (seqZ 0 (64 * Z.of_nat K))) as H1.
  rewrite length_seqZ in H1.
  pose proof (word_bits_length x Hxr). lia.
Qed.

Lemma gpu_count_spec (b : list Z) :
  gpu_bits_wf b -> gpu_count b = Ok (gpu_alive_count b).
Proof.
  clear siphash24.
  intros Hwf. pose proof HALFSIZE_words as [Hw1 Hw2].
  unfold gpu_count, gpu_alive_count, nonces.
  pose proof (gpu_count_prefix b Hwf (Z.to_nat (HALFSIZE / 64)) ltac:(lia)) as H.
  rewrite Z2Nat.id in H by lia. rewrite H, <- Hw1. reflexivity.
Qed.

Lemma gpu_alive_count_range (b : list Z) : 0 <= gpu_alive_count b <= HALFSIZE.
Proof.
  unfold gpu_alive_count.
  pose proof (List.filter_length_le (gpu_is_alive b) nonces) as H.
  unfold nonces in *. rewrite length_seqZ in H.
  pose proof HALFSIZE_bound. lia.
Qed.

(** C6. After the last trimming round (1 to 2^25 threads, 7 <= SIZESHIFT <=
    32, 0 <= PART_BITS <= SIZESHIFT - 5, 0 <= IDXSHIFT <= 26 and IDXSHIFT <=
    SIZESHIFT) count() is the number of alive nonces, the load computed is
    100 * alive / CUCKOO_SIZE, and the miner reports "overloaded" and leaves
    exactly when that load is at least 90, that is when the alive nonces
    reach nine tenths of CUCKOO_SIZE; otherwise it goes on to the search.
    The CUDA miner decides the same way on the population count of the
    bitmap it copies back from the device. *)
Theorem overload_check (nthreads : Z) (ntrims : nat) :
  0 < nthreads <= 2 ^ 25 -> 0 <= IDXSHIFT <= 26 -> IDXSHIFT <= SIZESHIFT ->
  (exists ctx0 ctx,
    cuckoo_ctx_new nthreads = Ok ctx0 /\
    trim nthreads ntrims ctx0 = Ok ctx /\
    count (alive ctx) = alive_count (alive ctx) /\
    final_load (alive ctx) = 100 * alive_count (alive ctx) / CUCKOO_SIZE /\
    (after_trim (alive ctx) = Overloaded <->
     90 <= 100 * alive_count (alive ctx) / CUCKOO_SIZE) /\
    (after_trim (alive ctx) = Search <->
     100 * alive_count (alive ctx) / CUCKOO_SIZE < 90) /\
    (90 <= 100 * alive_count (alive ctx) / CUCKOO_SIZE <->
     9 * CUCKOO_SIZE <= 10 * alive_count (alive ctx))) /\
  (forall b, gpu_bits_wf b ->
     exists st, gpu_after_trim b = Ok st /\
       (st = Overloaded <-> 90 <= 100 * gpu_alive_count b / CUCKOO_SIZE) /\
       (st = Search <-> 100 * gpu_alive_count b / CUCKOO_SIZE < 90)).
Proof.
  intros Hn Hi1 Hi2. split.
  2:{ intros b Hwf. pose proof (gpu_alive_count_range b) as Hr.
      pose proof HALFSIZE_bound as Hb.
      assert (Hcs : CUCKOO_SIZE = 2 ^ (SIZESHIFT - IDXSHIFT))
        by (apply CUCKOO_SIZE_pow; lia).
      assert (Hpos : 0 < CUCKOO_SIZE)
        by (rewrite Hcs; apply Z.pow_pos_nonneg; lia).
      unfold gpu_after_trim, gpu_final_load. rewrite gpu_count_spec by assumption.
      cbn [bind]. eexists. split; [reflexivity|].
      set (ac := gpu_alive_count b) in *.
      assert (Hq : 0 <= 100 * ac / CUCKOO_SIZE <= 100 * ac).
      { split; [apply Z.div_pos; lia|].
        apply Z.div_le_upper_bound; [lia|]. nia. }
      unfold u64. rewrite (wrap_small 64 (100 * ac)) by lia.
      rewrite wrap_small by lia.
      destruct (Z.leb_spec 90 (100 * ac / CUCKOO_SIZE)); split; split; intros;
        try reflexivity; try discriminate; lia. }
  destruct (cuckoo_ctx_new_spec nthreads ltac:(lia)) as (ctx0 & Hnew & Hwf & Hc0).
  destruct (trim_spec nthreads ntrims ctx0 Hn Hwf) as (ctx & Htrim & _ & _ & Hd).
  exists ctx0, ctx. split; [exact Hnew|]. split; [exact Htrim|].
  pose proof (alive_count_range (alive ctx)) as Hr.
  pose proof HALFSIZE_bound as Hb.
  assert (Hcount : count (alive ctx) = alive_count (alive ctx)).
  { rewrite Hc0, Z.sub_diag in Hd.
    assert (Hcr : 0 <= count (alive ctx) < 2 ^ 64)
      by (rewrite count_Zsum; apply wrap_range; lia).
    unfold u64, wrap in Hd. Z.div_mod_to_equations. lia. }
  assert (Hcs : CUCKOO_SIZE = 2 ^ (SIZESHIFT - IDXSHIFT))
    by (apply CUCKOO_SIZE_pow; lia).
  assert (Hpos : 0 < CUCKOO_SIZE) by (rewrite Hcs; apply Z.pow_pos_nonneg; lia).
  assert (Hsz : 2 * HALFSIZE = CUCKOO_SIZE * 2 ^ IDXSHIFT).
  { rewrite Hcs, <- Z.pow_add_r, HALFSIZE_pow by lia.
    replace (SIZESHIFT - IDXSHIFT + IDXSHIFT) with (Z.succ (SIZESHIFT - 1)) by lia.
    rewrite Z.pow_succ_r by lia. reflexivity. }
  assert (Hp26 : 2 ^ IDXSHIFT <= 2 ^ 26) by (apply Z.pow_le_mono_r; lia).
  set (ac := alive_count (alive ctx)) in *.
  assert (Hq : 0 <= 100 * ac / CUCKOO_SIZE < 2 ^ 32).
  { split; [apply Z.div_pos; lia|].
    apply Z.div_lt_upper_bound; [lia|]. nia. }
  assert (Hload : final_load (alive ctx) = 100 * ac / CUCKOO_SIZE).
  { unfold final_load. rewrite Hcount. fold ac. unfold u64, u32.
    rewrite (wrap_small 64) by lia. apply wrap_small. exact Hq. }
  split; [exact Hcount|]. split; [exact Hload|].
  unfold after_trim. rewrite Hload.
  split; [|split].
  - destruct (Z.leb_spec 90 (100 * ac / CUCKOO_SIZE)); split; intros;
      try reflexivity; try discriminate; lia.
  - destruct (Z.leb_spec 90 (100 * ac / CUCKOO_SIZE)); split; intros;
      try reflexivity; try discriminate; lia.
  - split; intros H.
    + pose proof (Z.mul_div_le (100 * ac) CUCKOO_SIZE Hpos). nia.
    + apply Z.div_le_lower_bound; lia.
Qed.


(** ** Trimming does not depend on the threads *)

Lemma degree_ext (s1 s2 : shrinkingset) (uorv part u : Z) :
  same_alive s1 s2 -> degree s1 uorv part u = degree s2 uorv part u.
Proof.
  intros H. unfold degree. f_equal. apply filter_ext_in. intros m Hm.
  apply nonces_In in Hm. rewrite (H m Hm). reflexivity.
Qed.

Lemma same_alive_count (s1 s2 : shrinkingset) :
  same_alive s1 s2 -> alive_count s1 = alive_count s2.
Proof.
  intros H. unfold alive_count. f_equal. f_equal. apply filter_ext_in.
  intros m Hm. apply H. apply nonces_In. exact Hm.
Qed.

Lemma trimmed_count (nthreads : Z) (c0 c : cuckoo_ctx) :
  trimmed nthreads c0 c ->
  count (alive c0) = alive_count (alive c0) ->
  count (alive c) = alive_count (alive c).
Proof.
  intros (_ & _ & Hd) Hc0.
  pose proof (alive_count_range (alive c)) as Hr.
  pose proof HALFSIZE_bound as Hb.
  rewrite Hc0, Z.sub_diag in Hd.
  assert (Hcr : 0 <= count (alive c) < 2 ^ 64)
    by (rewrite count_Zsum; apply wrap_range; lia).
  unfold u64, wrap in Hd. Z.div_mod_to_equations. lia.
Qed.

Lemma trim_count (nthreads : Z) (ntrims : nat) (c0 c : cuckoo_ctx) :
  0 < nthreads <= 2 ^ 25 -> ctx_wf nthreads c0 ->
  count (alive c0) = alive_count (alive c0) ->
  trim nthreads ntrims c0 = Ok c ->
  count (alive c) = alive_count (alive c).
Proof.
  intros Hn Hwf Hc0 Htrim.
  destruct (trim_spec nthreads ntrims c0 Hn Hwf) as (c' & E & Htr).
  rewrite Htrim in E. injection E as <-.
  exact (trimmed_count nthreads c0 c Htr Hc0).
Qed.

(** The passes of one thread without ATOMIC and the passes of the ATOMIC
    build, with any threads and schedules, go the same way. *)
Lemma trim_atomic_passes_same (n : Z) (sched : Z * Z -> list Z) :
  0 < n <= 2 ^ 25 ->
  forall (l : list (Z * Z)) (c1 c : cuckoo_ctx),
    ctx_wf 1 c1 -> ctx_wf n c -> same_alive (alive c1) (alive c) ->
    exists c1' c',
      foldM (trim_pass 1) l c1 = Ok c1' /\
      foldM (fun ctx pass => trim_pass_atomic n (sched pass) ctx pass) l c
      = Ok c' /\
      trimmed 1 c1 c1' /\ trimmed n c c' /\
      same_alive (alive c1') (alive c').
Proof.
  intros Hn. induction l as [|[uorv part] l IH]; intros c1 c Hw1 Hw Hs.
  - exists c1, c. split; [reflexivity|]. split; [reflexivity|].
    split; [apply trimmed_refl; exact Hw1|].
    split; [apply trimmed_refl; exact Hw | exact Hs].
  - destruct (trim_pass_alive 1 c1 uorv part ltac:(lia) Hw1)
      as (d1 & Hp1 & Ht1 & Ha1).
    destruct (trim_pass_atomic_alive n (sched (uorv, part)) c uorv part Hn Hw)
      as (d & Hp & Ht & Ha).
    cbn [foldM]. rewrite Hp1, Hp. cbn [bind].
    destruct (IH d1 d (proj1 Ht1) (proj1 Ht)) as (e1 & e & H1 & H2 & T1 & T2 & S).
    { intros m Hm. rewrite (Ha1 m Hm), (Ha m Hm), (Hs m Hm).
      rewrite (degree_ext _ _ uorv part _ Hs). reflexivity. }
    exists e1, e. split; [exact H1|]. split; [exact H2|].
    split; [exact (trimmed_trans _ _ _ _ Ht1 T1)|].
    split; [exact (trimmed_trans _ _ _ _ Ht T2) | exact S].
Qed.

Lemma trim_atomic_same (n : Z) (scheds : nat -> Z * Z -> list Z)
    (ntrims : nat) (c1 c : cuckoo_ctx) :
  0 < n <= 2 ^ 25 ->
  ctx_wf 1 c1 -> ctx_wf n c -> same_alive (alive c1) (alive c) ->
  exists c1' c',
    trim 1 ntrims c1 = Ok c1' /\ trim_atomic n scheds ntrims c = Ok c' /\
    trimmed 1 c1 c1' /\ trimmed n c c' /\
    same_alive (alive c1') (alive c').
Proof.
  intros Hn Hw1 Hw Hs. induction ntrims as [|k IH].
  - exists c1, c. split; [reflexivity|]. split; [reflexivity|].
    split; [apply trimmed_refl; exact Hw1|].
    split; [apply trimmed_refl; exact Hw | exact Hs].
  - destruct IH as (d1 & d & Hk1 & Hk & T1 & T & S).
    cbn [trim trim_atomic]. rewrite Hk1, Hk. cbn [bind].
    unfold trim_round, trim_round_atomic.
    destruct (trim_atomic_passes_same n (scheds k) Hn passes d1 d
                (proj1 T1) (proj1 T) S) as (e1 & e & H1 & H2 & U1 & U & S').
    exists e1, e. split; [exact H1|]. split; [exact H2|].
    split; [exact (trimmed_trans _ _ _ _ T1 U1)|].
    split; [exact (trimmed_trans _ _ _ _ T U) | exact S'].
Qed.

Lemma fresh_alive (n : Z) (c0 : cuckoo_ctx) :
  0 < n -> cuckoo_ctx_new n = Ok c0 ->
  forall m, 0 <= m < HALFSIZE -> is_alive (alive c0) m = true.
Proof.
  intros Hn Hnew m Hm. unfold cuckoo_ctx_new in Hnew.
  bind_as Hnew s Hs. injection Hnew as <-. cbn [alive].
  destruct (shrinkingset_new_spec n m s Hn Hm Hs) as [Ht _].
  unfold is_alive. rewrite Ht. reflexivity.
Qed.

(** From fresh contexts, one thread without ATOMIC and the ATOMIC build end
    with the same alive nonces, and both with [count()] the number of them. *)
Lemma trim_atomic_fresh (n : Z) (scheds : nat -> Z * Z -> list Z)
    (ntrims : nat) :
  0 < n <= 2 ^ 25 ->
  exists c01 c1 c0 c,
    cuckoo_ctx_new 1 = Ok c01 /\ trim 1 ntrims c01 = Ok c1 /\
    cuckoo_ctx_new n = Ok c0 /\ trim_atomic n scheds ntrims c0 = Ok c /\
    ctx_wf 1 c1 /\ ctx_wf n c /\ same_alive (alive c1) (alive c) /\
    count (alive c1) = alive_count (alive c1) /\
    count (alive c) = alive_count (alive c).
Proof.
  intros Hn.
  destruct (cuckoo_ctx_new_spec 1 ltac:(lia)) as (c01 & Hn1 & Hw1 & Hc1).
  destruct (cuckoo_ctx_new_spec n ltac:(lia)) as (c0 & Hn0 & Hw & Hc).
  destruct (trim_atomic_same n scheds ntrims c01 c0 Hn Hw1 Hw)
    as (c1 & c & Ht1 & Ht & T1 & T & S).
  { intros m Hm. rewrite (fresh_alive 1 c01), (fresh_alive n c0)
      by (assumption || lia). reflexivity. }
  exists c01, c1, c0, c. split; [exact Hn1|]. split; [exact Ht1|].
  split; [exact Hn0|]. split; [exact Ht|]. split; [exact (proj1 T1)|].
  split; [exact (proj1 T)|]. split; [exact S|].
  split; [exact (trimmed_count _ _ _ T1 Hc1) | exact (trimmed_count _ _ _ T Hc)].
Qed.

(** X4. The outcome of trimming does not depend on the number of threads
    or on the order of their steps: from fresh contexts, [ntrims] rounds on
    the ATOMIC build with [nthreads] threads (1 to 2^25) and any order of the
    atomic steps of the count phases leave the same nonces alive, the same
    [count()] and the same verdict of the load test as [ntrims] rounds of
    one thread without ATOMIC. *)
Theorem trimming_thread_independent (nthreads : Z)
    (scheds : nat -> Z * Z -> list Z) (ntrims : nat) :
  0 < nthreads <= 2 ^ 25 ->
  exists c01 c1 c0 c,
    cuckoo_ctx_new 1 = Ok c01 /\ trim 1 ntrims c01 = Ok c1 /\
    cuckoo_ctx_new nthreads = Ok c0 /\
    trim_atomic nthreads scheds ntrims c0 = Ok c /\
    (forall n, 0 <= n < HALFSIZE -> test (alive c1) n = test (alive c) n) /\
    count (alive c1) = count (alive c) /\
    after_trim (alive c1) = after_trim (alive c).
Proof.
  intros Hn.
  destruct (trim_atomic_fresh nthreads scheds ntrims Hn)
    as (c01 & c1 & c0 & c & Hn1 & Ht1 & Hn0 & Ht0 & Hw1 & Hw & S & Hc1 & Hc).
  exists c01, c1, c0, c.
  split; [exact Hn1|]. split; [exact Ht1|]. split; [exact Hn0|].
  split; [exact Ht0|].
  assert (E : count (alive c1) = count (alive c)).
  { rewrite Hc1, Hc. apply same_alive_count, S. }
  split; [|split; [exact E|]].
  - intros n Hr. rewrite (test_is_alive 1 _ n (proj1 Hw1) Hr).
    rewrite (test_is_alive nthreads _ n (proj1 Hw) Hr), (S n Hr). reflexivity.
  - unfold after_trim, final_load. rewrite E. reflexivity.
Qed.

(** C7, as amended.  For a fixed header, SIZESHIFT, PART_BITS and ntrims the
    edges that survive trimming do not depend on the threads: on the ATOMIC
    build two runs, with [n1] and [n2] threads (1 to 2^25 each) and whatever
    the order of the atomic steps of their count phases, leave the same
    nonces alive, the same [count()] and the same verdict of the load test,
    and these are the ones that one thread leaves without ATOMIC.  (Which
    cycles the search then reports depends on the order in which the edges
    reach the cuckoo table.) *)
Theorem trimming_deterministic (n1 n2 : Z)
    (scheds1 scheds2 : nat -> Z * Z -> list Z) (ntrims : nat) :
  0 < n1 <= 2 ^ 25 -> 0 < n2 <= 2 ^ 25 ->
  exists c01 c1 c02 c2 c0 c,
    cuckoo_ctx_new n1 = Ok c01 /\ trim_atomic n1 scheds1 ntrims c01 = Ok c1 /\
    cuckoo_ctx_new n2 = Ok c02 /\ trim_atomic n2 scheds2 ntrims c02 = Ok c2 /\
    cuckoo_ctx_new 1 = Ok c0 /\ trim 1 ntrims c0 = Ok c /\
    (forall n, 0 <= n < HALFSIZE ->
       test (alive c1) n = test (alive c2) n /\
       test (alive c1) n = test (alive c) n) /\
    count (alive c1) = count (alive c2) /\
    count (alive c1) = count (alive c) /\
    after_trim (alive c1) = after_trim (alive c2) /\
    after_trim (alive c1) = after_trim (alive c).
Proof.
  intros H1 H2.
  destruct (trim_atomic_fresh n1 scheds1 ntrims H1)
    as (c0 & c & c01 & c1 & Hn0 & Ht0 & Hn1 & Ht1 & Hw0 & Hw1 & S1 & Hc0 & Hc1).
  destruct (trim_atomic_fresh n2 scheds2 ntrims H2)
    as (c0' & c' & c02 & c2 & Hn0' & Ht0' & Hn2 & Ht2 & _ & Hw2 & S2 & _ & Hc2).
  rewrite Hn0 in Hn0'. injection Hn0' as <-.
  rewrite Ht0 in Ht0'. injection Ht0' as <-.
  exists c01, c1, c02, c2, c0, c.
  split; [exact Hn1|]. split; [exact Ht1|]. split; [exact Hn2|].
  split; [exact Ht2|]. split; [exact Hn0|]. split; [exact Ht0|].
  assert (E2 : count (alive c1) = count (alive c2)).
  { rewrite Hc1, Hc2, <- (same_alive_count _ _ S1). apply same_alive_count, S2. }
  assert (E0 : count (alive c1) = count (alive c)).
  { rewrite Hc1, Hc0. symmetry. apply same_alive_count, S1. }
  split; [|split; [exact E2|split; [exact E0|]]].
  - intros n Hn. rewrite (test_is_alive n1 _ n (proj1 Hw1) Hn).
    rewrite (test_is_alive n2 _ n (proj1 Hw2) Hn).
    rewrite (test_is_alive 1 _ n (proj1 Hw0) Hn).
    rewrite <- (S1 n Hn), <- (S2 n Hn). split; reflexivity.
  - unfold after_trim, final_load. rewrite <- E2, <- E0. split; reflexivity.
Qed.

(** ** The CUDA miner trims like the pthread miner *)

Lemma gpu_word (b : list Z) (id : Z) :
  gpu_bits_wf b -> 0 <= id < HALFSIZE / 32 ->
  gpu_block b (id * 32) = Ok (gpu_block_word b (id * 32)) /\
  0 <= gpu_block_word b (id * 32) < 2 ^ 32 /\
  forall m, In m (block_nonces (id * 32) (gpu_block_word b (id * 32))) <->
            id * 32 <= m < id * 32 + 32 /\ gpu_is_alive b m = true.
Proof.
  clear siphash24. intros Hb Hid. pose proof HALFSIZE_bound as Hbd.
  pose proof HALFSIZE_words as [Hw1 Hw2].
  assert (Hq : id * 32 / 32 = id) by (apply Z.div_mul; lia).
  destruct (vec_get_in_range b id) as [w Hw]; [destruct Hb as [-> _]; lia|].
  set (x := u32 (Z.lnot w)).
  assert (Hx : gpu_block b (id * 32) = Ok x)
    by (unfold gpu_block; rewrite Hq, Hw; reflexivity).
  assert (Hxr : 0 <= x < 2 ^ 32) by (apply wrap_range; lia).
  unfold gpu_block_word. rewrite Hx. split; [reflexivity|]. split; [exact Hxr|].
  intros m. unfold block_nonces. rewrite in_map_iff. split.
  - intros (j & <- & Hj). pose proof (word_bits_lt_32 x j Hxr Hj) as Hj32.
    apply word_bits_spec in Hj as [_ Hbit]; [|lia]. split; [lia|].
    pose proof (gpu_block_test b (id * 32) x j Hx Hj32) as Ht.
    rewrite Hq in Ht. replace (32 * id + j) with (id * 32 + j) in Ht by lia.
    unfold gpu_is_alive. rewrite Ht. exact Hbit.
  - intros [Hm Ha]. exists (m - id * 32). split; [lia|].
    apply word_bits_spec; [lia|]. split; [lia|].
    pose proof (gpu_block_test b (id * 32) x (m - id * 32) Hx ltac:(lia)) as Ht.
    rewrite Hq in Ht. replace (32 * id + (m - id * 32)) with m in Ht by lia.
    unfold gpu_is_alive in Ha. rewrite Ht in Ha. exact Ha.
Qed.

Lemma gpu_count_node_deg_step (id uorv part : Z) (b nl : list Z) :
  gpu_bits_wf b -> 0 <= id < HALFSIZE / 32 -> 0 <= uorv <= 1 ->
  gpu_count_node_deg id uorv part b nl
  = foldM (count_step uorv part)
          (block_nonces (id * 32) (gpu_block_word b (id * 32))) nl.
Proof.
  intros Hb Hid Hu. pose proof HALFSIZE_bound as Hbd.
  pose proof HALFSIZE_words as [Hw1 Hw2].
  assert (Hblk : 0 <= id * 32 /\ id * 32 + 32 <= HALFSIZE)
    by (Z.div_mod_to_equations; lia).
  destruct (gpu_word b id Hb Hid) as (Hx & Hxr & HL).
  unfold gpu_count_node_deg. rewrite nonce_t_small by lia.
  rewrite Hx. cbn [bind]. rewrite gpu_sweep_block by lia.
  apply foldM_ext_in. intros n a Hn. apply HL in Hn as [Hn _].
  rewrite dipnode_sipnode by lia. unfold count_step, in_part.
  destruct (Z.land (_sipnode n uorv) PART_MASK =? part); [|reflexivity].
  apply gpu_twice_set_set_eq. apply part_node_range.
Qed.

Lemma NoDup_map_inj {A B : Type} (f : A -> B) (l : list A) :
  (forall x y, f x = f y -> x = y) -> List.NoDup l -> List.NoDup (map f l).
Proof.
  intros Hinj. induction 1 as [|x l Hx _ IH]; simpl; constructor; [|exact IH].
  intros Hin. apply in_map_iff in Hin as (y & E & Hy).
  apply Hinj in E. subst. contradiction.
Qed.

Lemma gpu_thread_ids_NoDup (nblocks tpb : Z) :
  0 < tpb -> List.NoDup (gpu_thread_ids nblocks tpb).
Proof.
  clear. intros Ht. unfold gpu_thread_ids. apply NoDup_flat_map.
  - apply NoDup_ListNoDup, NoDup_seqZ.
  - intros bx _. apply NoDup_map_inj.
    + intros x y. lia.
    + apply NoDup_ListNoDup, NoDup_seqZ.
  - intros bx bx' id _ _ H1 H2.
    apply in_map_iff in H1 as (tx & <- & H1).
    apply in_map_iff in H2 as (ty & E & H2).
    apply list_elem_of_In, elem_of_seqZ in H1.
    apply list_elem_of_In, elem_of_seqZ in H2. nia.
Qed.

Lemma gpu_launch_ids (tpb id : Z) :
  0 < tpb -> (HALFSIZE / 32) mod tpb = 0 ->
  (In id (gpu_thread_ids ((HALFSIZE / 32) / tpb) tpb) <->
   0 <= id < HALFSIZE / 32).
Proof.
  clear siphash24. intros Ht Hd. rewrite launch_ids_In by exact Ht.
  replace ((HALFSIZE / 32) / tpb * tpb) with (HALFSIZE / 32); [reflexivity|].
  pose proof (Z.div_mod (HALFSIZE / 32) tpb ltac:(lia)). lia.
Qed.

Lemma gpu_phase_nonces_perm (tpb : Z) (b : list Z) :
  0 < tpb -> (HALFSIZE / 32) mod tpb = 0 -> gpu_bits_wf b ->
  Permutation (gpu_phase_nonces tpb b) (List.filter (gpu_is_alive b) nonces).
Proof.
  clear siphash24. intros Ht Hd Hb. pose proof HALFSIZE_words as [Hw1 Hw2].
  apply Permutation.NoDup_Permutation.
  - unfold gpu_phase_nonces. apply NoDup_flat_map.
    + apply gpu_thread_ids_NoDup. exact Ht.
    + intros id _. apply block_nonces_NoDup.
    + intros i1 i2 m H1 H2 Hm1 Hm2.
      apply gpu_launch_ids in H1; [|assumption..].
      apply gpu_launch_ids in H2; [|assumption..].
      apply (gpu_word b i1 Hb H1) in Hm1. apply (gpu_word b i2 Hb H2) in Hm2. lia.
  - apply List.NoDup_filter, nonces_NoDup.
  - intros m. rewrite filter_In, nonces_In. unfold gpu_phase_nonces.
    rewrite in_flat_map. split.
    + intros (id & Hid & Hm). apply gpu_launch_ids in Hid; [|assumption..].
      apply (gpu_word b id Hb Hid) in Hm.
      split; [Z.div_mod_to_equations; lia | tauto].
    + intros [Hm Ha]. exists (m / 32).
      assert (Hid : 0 <= m / 32 < HALFSIZE / 32)
        by (Z.div_mod_to_equations; lia).
      split; [apply gpu_launch_ids; assumption|].
      apply (gpu_word b _ Hb Hid).
      split; [Z.div_mod_to_equations; lia | exact Ha].
Qed.

Lemma gpu_count_phase_step (tpb : Z) (b : list Z) (uorv part : Z) (nl : list Z) :
  0 < tpb -> (HALFSIZE / 32) mod tpb = 0 -> gpu_bits_wf b -> 0 <= uorv <= 1 ->
  gpu_count_phase tpb b uorv part nl
  = foldM (count_step uorv part) (gpu_phase_nonces tpb b) nl.
Proof.
  intros Ht Hd Hb Hu. unfold gpu_count_phase, gpu_phase_nonces.
  rewrite <- foldM_flat_map. apply foldM_ext_in. intros id a Hin.
  apply gpu_launch_ids in Hin; [|assumption..].
  apply gpu_count_node_deg_step; assumption.
Qed.

Lemma gpu_count_phase_state (tpb : Z) (b : list Z) (s : shrinkingset)
    (uorv part : Z) (nl : list Z) :
  0 < tpb -> (HALFSIZE / 32) mod tpb = 0 -> gpu_bits_wf b -> 0 <= uorv <= 1 ->
  Z.of_nat (length nl) = TWICE_WORDS -> agree b s ->
  exists nl',
    gpu_count_phase tpb b uorv part (twice_set_reset nl) = Ok nl' /\
    Z.of_nat (length nl') = TWICE_WORDS /\
    forall u, 0 <= u < ONCE_BITS ->
      twice_set_state nl' u = Ok (Nat.iter (degree s uorv part u) bump 0).
Proof.
  intros Ht Hd Hb Hu Hlen Hag.
  rewrite gpu_count_phase_step by assumption. unfold count_step.
  rewrite (foldM_filter (fun tw n => twice_set_set tw (part_node uorv n))
             (in_part uorv part)).
  rewrite <- (foldM_map twice_set_set (part_node uorv)).
  rewrite twice_set_reset_zero by assumption.
  set (calls := map (part_node uorv)
                  (List.filter (in_part uorv part) (gpu_phase_nonces tpb b))).
  assert (Hcalls : Forall (fun x => 0 <= x < ONCE_BITS) calls).
  { apply List.Forall_forall. intros x Hx.
    apply in_map_iff in Hx as (n & <- & _). apply part_node_range. }
  assert (Hz : Z.of_nat (length (replicate (Z.to_nat TWICE_WORDS) 0)) = TWICE_WORDS).
  { rewrite length_replicate. pose proof TWICE_WORDS_eq. lia. }
  destruct (twice_set_fold_state calls 0 (replicate (Z.to_nat TWICE_WORDS) 0) 0
              Hz Hcalls ltac:(lia))
    as (nl' & Hf & Hlen' & _).
  { apply twice_set_zero_state. pose proof TWICE_WORDS_eq. lia. }
  exists nl'. split; [exact Hf|]. split; [exact Hlen'|]. intros u Hur.
  destruct (twice_set_fold_state calls u (replicate (Z.to_nat TWICE_WORDS) 0) 0
              Hz Hcalls ltac:(lia) (twice_set_zero_state u Hur))
    as (nl2 & Hf2 & _ & Hst).
  rewrite Hf in Hf2. injection Hf2 as <-. rewrite Hst. f_equal. f_equal.
  unfold calls. rewrite count_occ_filter_length. unfold degree.
  rewrite filter_filter_andb.
  transitivity (length (List.filter
                          (fun n => gpu_is_alive b n && in_part uorv part n
                                    && (part_node uorv n =? u)) nonces)).
  - apply Permutation_length.
    rewrite <- filter_filter_andb,
      <- (filter_filter_andb _ (fun n => gpu_is_alive b n && in_part uorv part n)).
    apply Permutation_filter.
    rewrite <- filter_filter_andb. apply Permutation_filter.
    apply gpu_phase_nonces_perm; assumption.
  - f_equal. apply filter_ext_in. intros n Hn. apply nonces_In in Hn.
    rewrite (Hag n Hn). reflexivity.
Qed.

Lemma gpu_trim_pass_alive (tpb : Z) (g : gpu_ctx) (s : shrinkingset)
    (uorv part : Z) :
  0 < tpb -> (HALFSIZE / 32) mod tpb = 0 -> 0 <= uorv <= 1 ->
  gpu_bits_wf (gpu_alive g) -> Z.of_nat (length (gpu_nonleaf g)) = TWICE_WORDS ->
  agree (gpu_alive g) s ->
  exists g',
    gpu_trim_pass tpb g (uorv, part) = Ok g' /\
    gpu_bits_wf (gpu_alive g') /\
    Z.of_nat (length (gpu_nonleaf g')) = TWICE_WORDS /\
    forall m, 0 <= m < HALFSIZE ->
      gpu_is_alive (gpu_alive g') m
      = is_alive s m
        && negb (in_part uorv part m
                 && (degree s uorv part (part_node uorv m) <? 2)%nat).
Proof.
  intros Ht Hd Hu Hb Hnl Hag.
  destruct (gpu_count_phase_state tpb (gpu_alive g) s uorv part (gpu_nonleaf g)
              Ht Hd Hb Hu Hnl Hag) as (nl' & Hcp & Hlen' & Hst).
  destruct (gpu_kill_phase_spec tpb nl' uorv part (gpu_alive g) Ht Hd Hb Hlen')
    as (b' & Hk & Hb' & Hal).
  exists (mk_gpu_ctx b' nl'). cbn [gpu_trim_pass]. rewrite Hcp. cbn [bind].
  rewrite Hk. cbn [bind gpu_alive gpu_nonleaf].
  split; [reflexivity|]. split; [exact Hb'|]. split; [exact Hlen'|].
  intros m Hm. rewrite (Hal m Hm), andb_true_r, (Hag m Hm). f_equal. f_equal.
  unfold gpu_leaf_edge. rewrite dipnode_sipnode by lia.
  fold (part_node uorv m). fold (in_part uorv part m). f_equal.
  destruct (test_degree nl' _ _ (Hst _ (part_node_range uorv m))) as (t & -> & E).
  exact E.
Qed.

Lemma gpu_trim_passes_agree (tpb nthreads : Z) :
  0 < tpb -> (HALFSIZE / 32) mod tpb = 0 -> 0 < nthreads <= 2 ^ 25 ->
  forall (l : list (Z * Z)) (g : gpu_ctx) (c : cuckoo_ctx),
    List.Forall (fun pass => 0 <= pass.1 <= 1) l ->
    gpu_bits_wf (gpu_alive g) ->
    Z.of_nat (length (gpu_nonleaf g)) = TWICE_WORDS ->
    ctx_wf nthreads c -> agree (gpu_alive g) (alive c) ->
    exists g' c',
      foldM (gpu_trim_pass tpb) l g = Ok g' /\
      foldM (trim_pass nthreads) l c = Ok c' /\
      gpu_bits_wf (gpu_alive g') /\
      Z.of_nat (length (gpu_nonleaf g')) = TWICE_WORDS /\
      ctx_wf nthreads c' /\ agree (gpu_alive g') (alive c').
Proof.
  intros Ht Hd Hn. induction l as [|[uorv part] l IH];
    intros g c Hl Hb Hnl Hwf Hag.
  - exists g, c. auto 10.
  - inversion Hl as [|? ? Hu Hl']; subst. cbn [fst] in Hu.
    destruct (gpu_trim_pass_alive tpb g (alive c) uorv part Ht Hd Hu Hb Hnl Hag)
      as (g1 & Hg1 & Hb1 & Hnl1 & Ha1).
    destruct (trim_pass_alive nthreads c uorv part Hn Hwf)
      as (c1 & Hc1 & Htr & Hal1).
    cbn [foldM]. rewrite Hg1, Hc1. cbn [bind].
    apply IH; try assumption; [exact (proj1 Htr)|].
    intros m Hm. rewrite (Ha1 m Hm), (Hal1 m Hm). reflexivity.
Qed.

Lemma gpu_trim_agree (tpb nthreads : Z) (ntrims : nat) (g : gpu_ctx)
    (c : cuckoo_ctx) :
  0 < tpb -> (HALFSIZE / 32) mod tpb = 0 -> 0 < nthreads <= 2 ^ 25 ->
  gpu_bits_wf (gpu_alive g) ->
  Z.of_nat (length (gpu_nonleaf g)) = TWICE_WORDS ->
  ctx_wf nthreads c -> agree (gpu_alive g) (alive c) ->
  exists g' c',
    gpu_trim tpb ntrims g = Ok g' /\ trim nthreads ntrims c = Ok c' /\
    gpu_bits_wf (gpu_alive g') /\
    Z.of_nat (length (gpu_nonleaf g')) = TWICE_WORDS /\
    ctx_wf nthreads c' /\ agree (gpu_alive g') (alive c').
Proof.
  intros Ht Hd Hn Hb Hnl Hwf Hag. induction ntrims as [|k IH].
  - exists g, c. auto 10.
  - destruct IH as (g1 & c1 & Hg1 & Hc1 & Hb1 & Hnl1 & Hwf1 & Hag1).
    cbn [gpu_trim trim]. rewrite Hg1, Hc1. cbn [bind].
    unfold gpu_trim_round, trim_round.
    apply gpu_trim_passes_agree; try assumption.
    apply List.Forall_forall. intros pass. apply passes_side.
Qed.

Lemma gpu_ctx_new_wf (nl0 : list Z) :
  gpu_bits_wf (gpu_alive (gpu_ctx_new nl0)) /\
  forall m, 0 <= m < HALFSIZE -> gpu_is_alive (gpu_alive (gpu_ctx_new nl0)) m = true.
Proof.
  clear siphash24. pose proof HALFSIZE_words as [Hw1 Hw2].
  cbn [gpu_ctx_new gpu_alive].
  assert (Hwf : gpu_bits_wf (replicate (Z.to_nat (HALFSIZE / 32)) 0)).
  { split.
    - rewrite length_replicate. Z.div_mod_to_equations. lia.
    - apply List.Forall_forall. intros w Hw.
      apply list_elem_of_In, elem_of_replicate in Hw as [-> _]. lia. }
  split; [exact Hwf|]. intros m Hm. unfold gpu_is_alive, gpu_test.
  assert (Hi : 0 <= m / 32 < HALFSIZE / 32) by (Z.div_mod_to_equations; lia).
  destruct (vec_get_in_range (replicate (Z.to_nat (HALFSIZE / 32)) 0) (m / 32))
    as [w Hw]; [rewrite length_replicate; lia|].
  rewrite Hw. cbn [bind]. apply vec_get_Ok in Hw as [_ Hw].
  apply lookup_replicate in Hw as [-> _].
  rewrite Z.shiftr_0_l. reflexivity.
Qed.

(** What the two miners have in common after trimming. *)
Lemma gpu_agree_results (nthreads : Z) (g : gpu_ctx) (c : cuckoo_ctx) :
  gpu_bits_wf (gpu_alive g) -> ctx_wf nthreads c ->
  agree (gpu_alive g) (alive c) ->
  count (alive c) = alive_count (alive c) ->
  (forall n, 0 <= n < HALFSIZE ->
     gpu_test (gpu_alive g) n = test (alive c) n) /\
  gpu_count (gpu_alive g) = Ok (count (alive c)) /\
  (0 <= IDXSHIFT <= 26 -> IDXSHIFT <= SIZESHIFT ->
   gpu_after_trim (gpu_alive g) = Ok (after_trim (alive c))).
Proof.
  intros Hb Hwf' Hag Hcc.
  assert (Hcount : gpu_alive_count (gpu_alive g) = count (alive c)).
  { rewrite Hcc. unfold gpu_alive_count, alive_count. f_equal. f_equal.
    apply filter_ext_in. intros m Hm. apply Hag. apply nonces_In. exact Hm. }
  split; [|split].
  - intros n Hr. rewrite (gpu_test_is_alive _ n Hb Hr).
    rewrite (test_is_alive nthreads _ n (proj1 Hwf') Hr), (Hag n Hr). reflexivity.
  - rewrite gpu_count_spec by exact Hb. rewrite Hcount. reflexivity.
  - intros Hi1 Hi2. unfold gpu_after_trim, gpu_final_load, after_trim, final_load.
    rewrite gpu_count_spec by exact Hb. rewrite Hcount. cbn [bind].
    pose proof (gpu_alive_count_range (gpu_alive g)) as Hr. rewrite Hcount in Hr.
    pose proof HALFSIZE_bound as Hbd.
    assert (Hcs : CUCKOO_SIZE = 2 ^ (SIZESHIFT - IDXSHIFT))
      by (apply CUCKOO_SIZE_pow; lia).
    assert (Hpos : 0 < CUCKOO_SIZE) by (rewrite Hcs; apply Z.pow_pos_nonneg; lia).
    assert (Hsz : 2 * HALFSIZE = CUCKOO_SIZE * 2 ^ IDXSHIFT).
    { rewrite Hcs, <- Z.pow_add_r, HALFSIZE_pow by lia.
      replace (SIZESHIFT - IDXSHIFT + IDXSHIFT) with (Z.succ (SIZESHIFT - 1)) by lia.
      rewrite Z.pow_succ_r by lia. reflexivity. }
    assert (Hp26 : 2 ^ IDXSHIFT <= 2 ^ 26) by (apply Z.pow_le_mono_r; lia).
    set (ac := count (alive c)) in *.
    assert (Hq : 0 <= 100 * ac / CUCKOO_SIZE < 2 ^ 32).
    { split; [apply Z.div_pos; lia|].
      apply Z.div_lt_upper_bound; [lia|]. nia. }
    unfold u64, u32. rewrite (wrap_small 64 (100 * ac)) by lia.
    rewrite (wrap_small 64) by lia. rewrite (wrap_small 32) by lia. reflexivity.
Qed.

(** X5. The CUDA miner and the pthread miner trim to the same edges.  With
    [tpb] threads per block, [tpb] dividing HALFSIZE/32, and whatever the
    device memory of [nonleaf] held, [ntrims] rounds of the two kernels
    leave exactly the nonces alive that [ntrims] rounds of the pthread miner
    leave alive, on its ATOMIC build with 1 to 2^25 threads and any order of
    the atomic steps of the count phases, and without ATOMIC with one
    thread; both miners then count the same number of alive nonces, and with
    IDXSHIFT <= 26 take the same decision in the load test. *)
Theorem gpu_trimming_agrees (tpb nthreads : Z)
    (scheds : nat -> Z * Z -> list Z) (ntrims : nat) (nl0 : list Z) :
  0 < tpb -> (HALFSIZE / 32) mod tpb = 0 -> 0 < nthreads <= 2 ^ 25 ->
  Z.of_nat (length nl0) = TWICE_WORDS ->
  exists g c0 c,
    gpu_trim tpb ntrims (gpu_ctx_new nl0) = Ok g /\
    cuckoo_ctx_new nthreads = Ok c0 /\
    trim_atomic nthreads scheds ntrims c0 = Ok c /\
    (forall n, 0 <= n < HALFSIZE ->
       gpu_test (gpu_alive g) n = test (alive c) n) /\
    gpu_count (gpu_alive g) = Ok (count (alive c)) /\
    (0 <= IDXSHIFT <= 26 -> IDXSHIFT <= SIZESHIFT ->
     gpu_after_trim (gpu_alive g) = Ok (after_trim (alive c))) /\
    (nthreads = 1 ->
     exists c',
       trim nthreads ntrims c0 = Ok c' /\
       (forall n, 0 <= n < HALFSIZE ->
          gpu_test (gpu_alive g) n = test (alive c') n) /\
       gpu_count (gpu_alive g) = Ok (count (alive c')) /\
       (0 <= IDXSHIFT <= 26 -> IDXSHIFT <= SIZESHIFT ->
        gpu_after_trim (gpu_alive g) = Ok (after_trim (alive c')))).
Proof.
  intros Ht Hd Hn Hnl.
  destruct (trim_atomic_fresh nthreads scheds ntrims Hn)
    as (c01 & c1 & c0 & c & Hn1 & Ht1 & Hn0 & Ht0 & Hw1 & Hw & S & Hc1 & Hc).
  destruct (cuckoo_ctx_new_spec 1 ltac:(lia)) as (c01' & Hnew & Hwf & _).
  rewrite Hn1 in Hnew. injection Hnew as <-.
  destruct (gpu_ctx_new_wf nl0) as [Hb0 Hal0].
  destruct (gpu_trim_agree tpb 1 ntrims (gpu_ctx_new nl0) c01 Ht Hd ltac:(lia)
              Hb0 Hnl Hwf) as (g & c1' & Hg & Hc1' & Hb & _ & _ & Hag).
  { intros m Hm. rewrite (Hal0 m Hm), (fresh_alive 1 c01) by (assumption || lia).
    reflexivity. }
  rewrite Ht1 in Hc1'. injection Hc1' as <-.
  exists g, c0, c. split; [exact Hg|]. split; [exact Hn0|]. split; [exact Ht0|].
  assert (Hag' : agree (gpu_alive g) (alive c)).
  { intros m Hm. rewrite (Hag m Hm). apply S. exact Hm. }
  destruct (gpu_agree_results nthreads g c Hb Hw Hag' Hc) as (R1 & R2 & R3).
  split; [exact R1|]. split; [exact R2|]. split; [exact R3|].
  intros ->. rewrite Hn1 in Hn0. injection Hn0 as <-.
  exists c1. split; [exact Ht1|].
  exact (gpu_agree_results 1 g c1 Hb Hw1 Hag Hc1).
Qed.

(** ** The launches of the CUDA miner *)

Lemma int32_small (x : Z) : 0 <= x < 2 ^ 31 -> int32 x = x.
Proof.
  clear. intros Hx. unfold int32. rewrite Z.mod_small by lia.
  destruct (Z.ltb_spec x (2 ^ 31)); lia.
Qed.

Lemma tpb_loop_spec (nthreads : Z) :
  nthreads <= 2 ^ 30 ->
  forall (fuel : nat) (k : Z),
    0 <= k <= 15 -> 16 <= k + Z.of_nat fuel ->
    (0 < k -> 2 ^ (k - 1) * 2 ^ (k - 1) < nthreads) ->
    exists k', k <= k' <= 15 /\
      tpb_loop fuel nthreads (2 ^ k) = Ok (2 ^ k') /\
      nthreads <= 2 ^ k' * 2 ^ k' /\
      (0 < k' -> 2 ^ (k' - 1) * 2 ^ (k' - 1) < nthreads).
Proof.
  clear. intros Hn. induction fuel as [|fuel IH]; intros k Hk Hf Hprev; [lia|].
  cbn [tpb_loop].
  assert (Hsq : 2 ^ k * 2 ^ k = 2 ^ (2 * k))
    by (rewrite <- Z.pow_add_r by lia; f_equal; lia).
  assert (Hle : 2 ^ (2 * k) <= 2 ^ 30) by (apply Z.pow_le_mono_r; lia).
  assert (Hpos : 0 < 2 ^ (2 * k)) by (apply Z.pow_pos_nonneg; lia).
  rewrite int32_small by lia.
  destruct (Z.ltb_spec (2 ^ k * 2 ^ k) nthreads) as [Hlt|Hge].
  - assert (Hk15 : k < 15).
    { destruct (Z.eq_dec k 15) as [->|]; [|lia]. change (2 * 15) with 30 in *. lia. }
    assert (H2 : 2 ^ k * 2 = 2 ^ (k + 1)) by (rewrite Z.pow_add_r by lia; lia).
    assert (2 ^ (k + 1) <= 2 ^ 15) by (apply Z.pow_le_mono_r; lia).
    assert (0 < 2 ^ (k + 1)) by (apply Z.pow_pos_nonneg; lia).
    rewrite H2, int32_small by lia.
    destruct (IH (k + 1) ltac:(lia) ltac:(lia)) as (k' & Hk' & Hr & Hup & Hlo).
    + intros _. replace (k + 1 - 1) with k by lia. exact Hlt.
    + exists k'. split; [lia|]. auto.
  - exists k. split; [lia|]. split; [reflexivity|]. split; [lia | exact Hprev].
Qed.

(** X6. The default number of threads per block.  For [nthreads <= 2^30]
    the loop of [main] stops and leaves in [tpb] the least power of two whose
    square is at least [nthreads] (1 when [nthreads <= 1]); when moreover
    [nthreads <= (HALFSIZE/32)^2], this [tpb] divides HALFSIZE/32, so the
    launches [<<<(HALFSIZE/32)/tpb, tpb>>>] of the trimming kernels have one
    thread for every word of the bitmap. *)
Theorem main_tpb_default (nthreads : Z) :
  nthreads <= 2 ^ 30 ->
  exists k, 0 <= k <= 15 /\
    main_tpb nthreads 0 = Ok (2 ^ k) /\
    nthreads <= 2 ^ k * 2 ^ k /\
    (0 < k -> 2 ^ (k - 1) * 2 ^ (k - 1) < nthreads) /\
    (nthreads <= (HALFSIZE / 32) * (HALFSIZE / 32) ->
     (HALFSIZE / 32) mod 2 ^ k = 0 /\
     forall id, In id (gpu_thread_ids ((HALFSIZE / 32) / 2 ^ k) (2 ^ k)) <->
                0 <= id < HALFSIZE / 32).
Proof.
  clear siphash24. intros Hn.
  destruct (tpb_loop_spec nthreads Hn 32 0 ltac:(lia) ltac:(lia) ltac:(lia))
    as (k & Hk & Hr & Hup & Hlo).
  exists k. split; [lia|]. split; [exact Hr|]. split; [exact Hup|].
  split; [exact Hlo|]. intros Hw.
  assert (Hh : HALFSIZE / 32 = 2 ^ (SIZESHIFT - 6)).
  { rewrite HALFSIZE_pow. change 32 with (2 ^ 5).
    rewrite <- Z.pow_sub_r by lia. f_equal. lia. }
  assert (Hks : k <= SIZESHIFT - 6).
  { destruct (Z.eq_dec k 0) as [->|Hk0]; [lia|].
    destruct (Z.le_gt_cases k (SIZESHIFT - 6)) as [|Hgt]; [assumption|].
    exfalso. specialize (Hlo ltac:(lia)). rewrite Hh in Hw.
    assert (2 ^ (SIZESHIFT - 6) <= 2 ^ (k - 1)) by (apply Z.pow_le_mono_r; lia).
    assert (0 < 2 ^ (SIZESHIFT - 6)) by (apply Z.pow_pos_nonneg; lia).
    nia. }
  assert (Hdiv : (HALFSIZE / 32) mod 2 ^ k = 0).
  { rewrite Hh. replace (SIZESHIFT - 6) with ((SIZESHIFT - 6 - k) + k) by lia.
    rewrite Z.pow_add_r by lia. apply Z.mod_mul.
    apply Z.pow_nonzero; lia. }
  split; [exact Hdiv|]. intros id. apply gpu_launch_ids; [|exact Hdiv].
  apply Z.pow_pos_nonneg; lia.
Qed.

Lemma find_cycles_thread {A : Type} (sweep : Z -> Z -> A -> res A)
    (nthreads id : Z) (a : A) :
  0 < nthreads < 2 ^ 25 -> 0 <= id < nthreads ->
  block_loop block_fuel (u32 (int32 (nthreads * 64))) (sweep id)
    (nonce_t (int32 (id * 64))) a
  = foldM (fun a ib => sweep ib.1 ib.2 a)
          (map (fun blk => (id, blk)) (thread_blocks id nthreads)) a.
Proof.
  clear siphash24. intros Hn Hid. pose proof HALFSIZE_bound as Hb.
  rewrite !int32_small by lia.
  assert (E1 : u32 (nthreads * 64) = nthreads * 64) by (apply wrap_small; lia).
  rewrite E1, nonce_t_small by lia. unfold block_fuel.
  rewrite block_loop_blocks by (pose proof block_fuel_enough; lia).
  rewrite foldM_map. reflexivity.
Qed.

(** X7. What a launch of [find_cycles] sweeps.  With [nthreads] from 1 to
    2^25 - 1 in the context, the launch [<<<nthreads / tpb, tpb>>>] sweeps the
    block of 64 nonces at [blk] exactly when the thread
    [(blk / 64) mod nthreads] is in the launch, that is when this number is
    below [nthreads / tpb * tpb], and then once: when [tpb] does not divide
    [nthreads], the blocks of the last [nthreads mod tpb] threads are never
    searched. *)
Theorem find_cycles_coverage {A : Type} (sweep : Z -> Z -> A -> res A)
    (nthreads tpb : Z) (a : A) :
  0 < tpb -> 0 < nthreads < 2 ^ 25 ->
  find_cycles_launch sweep nthreads tpb a
  = foldM (fun a ib => sweep ib.1 ib.2 a) (find_cycles_blocks nthreads tpb) a /\
  List.NoDup (find_cycles_blocks nthreads tpb) /\
  forall id blk,
    In (id, blk) (find_cycles_blocks nthreads tpb) <->
    0 <= blk < HALFSIZE /\ blk mod 64 = 0 /\
    id = (blk / 64) mod nthreads /\ id < nthreads / tpb * tpb.
Proof.
  clear siphash24. intros Ht Hn.
  assert (Hlaunch : forall id, In id (gpu_thread_ids (nthreads / tpb) tpb) ->
                               0 <= id < nthreads / tpb * tpb /\ id < nthreads).
  { intros id Hid. apply launch_ids_In in Hid; [|exact Ht].
    pose proof (Z.mul_div_le nthreads tpb Ht). lia. }
  split; [|split].
  - unfold find_cycles_launch, find_cycles_blocks. rewrite <- foldM_flat_map.
    apply foldM_ext_in. intros id a' Hid. apply Hlaunch in Hid.
    apply find_cycles_thread; lia.
  - unfold find_cycles_blocks. apply NoDup_flat_map.
    + apply gpu_thread_ids_NoDup. exact Ht.
    + intros id _. apply NoDup_map_inj; [intros x y [= ->]; reflexivity|].
      apply blocks_from_NoDup. lia.
    + intros i1 i2 ib _ _ H1 H2.
      apply in_map_iff in H1 as (b1 & <- & _).
      apply in_map_iff in H2 as (b2 & [= -> _] & _). reflexivity.
  - intros id blk. unfold find_cycles_blocks. rewrite in_flat_map. split.
    + intros (id' & Hid & Hin). apply in_map_iff in Hin as (b & [= -> ->] & Hb).
      apply Hlaunch in Hid.
      destruct (thread_blocks_range id nthreads blk ltac:(lia) ltac:(lia) Hb)
        as [Hr Hal].
      rewrite (thread_blocks_id id nthreads blk ltac:(lia) Hb). tauto.
    + intros (Hr & Hal & -> & Hlt). exists ((blk / 64) mod nthreads). split.
      * apply launch_ids_In; [exact Ht|].
        pose proof (Z.mod_pos_bound (blk / 64) nthreads ltac:(lia)). lia.
      * apply in_map_iff. exists blk. split; [reflexivity|].
        pose proof (thread_blocks_hit nthreads blk ltac:(lia) Hr) as Hc.
        replace (64 * (blk / 64)) with blk in Hc
          by (Z.div_mod_to_equations; lia).
        exact Hc.
Qed.

(** ** find_nonces *)

Lemma foldM_index_map {A : Type} (P : A -> Prop) (g : A -> A)
    (step : list A -> Z -> res (list A)) :
  (forall l j x, vec_get l j = Ok x -> P x ->
     step l j = Ok (<[Z.to_nat j := g x]> l)) ->
  forall (k : nat) (l : list A),
    (k <= length l)%nat -> Forall P l ->
    foldM step (seqZ 0 (Z.of_nat k)) l = Ok (map g (take k l) ++ drop k l).
Proof.
  clear. intros Hstep. induction k as [|k IH]; intros l Hk HP.
  - cbn. rewrite drop_0. reflexivity.
  - rewrite seqZ_S, foldM_app, IH by (assumption || lia). cbn [bind foldM].
    destruct (lookup_lt_is_Some_2 l k ltac:(lia)) as [x Hx].
    assert (Hlen : length (map g (take k l)) = k)
      by (rewrite length_map, length_take; lia).
    rewrite (Hstep _ _ x).
    + cbn [bind]. f_equal. rewrite Z.add_0_l, Nat2Z.id.
      rewrite (take_S_r l k x Hx), map_app. cbn [map].
      rewrite (drop_S l x k Hx), <- app_assoc. cbn [app].
      replace k with (length (map g (take k l)) + 0)%nat at 1 by lia.
      rewrite insert_app_r. reflexivity.
    + apply vec_get_Ok. split; [lia|]. rewrite Z.add_0_l, Nat2Z.id.
      rewrite lookup_app_r by lia. rewrite Hlen, Nat.sub_diag.
      rewrite (drop_S l x k Hx). reflexivity.
    + exact (proj1 (Forall_lookup _ _) HP _ _ Hx).
Qed.

Lemma match_row_map (e : Z * Z) (nce : Z) (sol : list noncedge_t) :
  Z.of_nat (length sol) = PROOFSIZE ->
  match_row e nce sol
  = Ok (map (fun ne => if decide (edge ne = e)
                       then mk_noncedge nce (edge ne) else ne) sol).
Proof.
  clear. intros Hlen. unfold match_row. rewrite <- Hlen.
  rewrite (foldM_index_map (fun _ => True)
             (fun ne => if decide (edge ne = e)
                        then mk_noncedge nce (edge ne) else ne)).
  - rewrite firstn_all, drop_all, app_nil_r. reflexivity.
  - intros l j x Hx _. rewrite Hx. cbn [bind].
    destruct (decide (edge x = e)).
    + apply vec_set_in_range. apply (vec_get_lt _ _ _ Hx).
    + f_equal. symmetry. apply list_insert_id.
      apply vec_get_Ok in Hx. tauto.
  - lia.
  - apply Forall_forall. auto.
Qed.

Lemma find_nonces_step_map (nsols : nat) (nce : Z)
    (sols : list (list noncedge_t)) :
  (nsols <= length sols)%nat ->
  Forall (fun sol => Z.of_nat (length sol) = PROOFSIZE) sols ->
  find_nonces_step (Z.of_nat nsols) nce sols
  = Ok (map (map (match_cell nce)) (take nsols sols) ++ drop nsols sols).
Proof.
  intros Hk Hrows. unfold find_nonces_step.
  apply (foldM_index_map (fun sol => Z.of_nat (length sol) = PROOFSIZE));
    [|exact Hk|exact Hrows].
  intros l j sol Hsol Hlen. rewrite Hsol. cbn [bind].
  rewrite match_row_map by exact Hlen. cbn [bind].
  apply vec_set_in_range. apply (vec_get_lt _ _ _ Hsol).
Qed.

Lemma find_nonces_fold (nsols : nat) (L : list Z) :
  forall sols : list (list noncedge_t),
    (nsols <= length sols)%nat ->
    Forall (fun sol => Z.of_nat (length sol) = PROOFSIZE) sols ->
    foldM (fun sols n => find_nonces_step (Z.of_nat nsols) n sols) L sols
    = Ok (map (map (fun ne => fold_left (fun ne n => match_cell n ne) L ne))
              (take nsols sols) ++ drop nsols sols).
Proof.
  induction L as [|n L IH]; intros sols Hk Hrows.
  - cbn [foldM fold_left]. f_equal.
    rewrite (map_ext _ id) by (intros; apply map_id).
    rewrite map_id. symmetry. apply take_drop.
  - cbn [foldM fold_left]. rewrite find_nonces_step_map by assumption.
    cbn [bind].
    assert (Hlen : length (map (map (match_cell n)) (take nsols sols)) = nsols)
      by (rewrite length_map, length_take; lia).
    rewrite IH.
    + f_equal. rewrite take_app_length' by (symmetry; exact Hlen).
      rewrite drop_app_length' by (symmetry; exact Hlen).
      rewrite map_map. f_equal. apply map_ext. intros row.
      apply map_map.
    + rewrite length_app, Hlen, length_drop. lia.
    + apply Forall_app. split.
      * apply Forall_forall. intros row Hrow.
        apply list_elem_of_In, in_map_iff in Hrow as (row0 & <- & Hin).
        rewrite length_map.
        apply list_elem_of_In, elem_of_take in Hin as (i & Hi & _).
        exact (proj1 (Forall_lookup _ _) Hrows _ _ Hi).
      * apply Forall_drop. exact Hrows.
Qed.

Lemma match_cell_fold (L : list Z) (ne : noncedge_t) :
  let ne' := fold_left (fun ne n => match_cell n ne) L ne in
  edge ne' = edge ne /\
  ((exists n, In n L /\ gpu_edge n = edge ne) ->
   In (nonce ne') L /\ gpu_edge (nonce ne') = edge ne) /\
  ((forall n, In n L -> gpu_edge n <> edge ne) -> ne' = ne).
Proof.
  clear. induction L as [|n L IH] using rev_ind; cbn zeta.
  - cbn. split; [reflexivity|]. split; [intros (n & [] & _) | reflexivity].
  - rewrite fold_left_app. cbn [fold_left].
    cbn zeta in IH. destruct IH as (He & Hsome & Hnone).
    set (ne1 := fold_left (fun ne n => match_cell n ne) L ne) in *.
    unfold match_cell. destruct (decide (edge ne1 = gpu_edge n)) as [E|E].
    + cbn [edge nonce]. split; [exact He|]. split.
      * intros _. split; [apply in_or_app; right; left; reflexivity|].
        congruence.
      * intros Hno. exfalso. apply (Hno n); [|congruence].
        apply in_or_app. right. left. reflexivity.
    + split; [exact He|]. split.
      * intros (k & Hk & Ek). apply in_app_or in Hk as [Hk|[<-|[]]].
        -- destruct (Hsome (ex_intro _ k (conj Hk Ek))) as [Hin Hedge].
           split; [apply in_or_app; left; exact Hin | exact Hedge].
        -- congruence.
      * intros Hno. apply Hnone. intros k Hk. apply Hno.
        apply in_or_app. left. exact Hk.
Qed.

Lemma gpu_wide (b : list Z) (id : Z) :
  gpu_bits_wf b -> 0 <= id < HALFSIZE / 64 ->
  gpu_wideblock b (id * 64) = Ok (gpu_wide_word b (id * 64)) /\
  0 <= gpu_wide_word b (id * 64) < 2 ^ 64 /\
  forall m, In m (block_nonces (id * 64) (gpu_wide_word b (id * 64))) <->
            id * 64 <= m < id * 64 + 64 /\ gpu_is_alive b m = true.
Proof.
  clear siphash24. intros Hb Hid. pose proof HALFSIZE_bound as Hbd.
  pose proof HALFSIZE_words as [Hw1 Hw2].
  assert (Hq : id * 64 / 64 = id) by (apply Z.div_mul; lia).
  assert (Hl32 : HALFSIZE / 32 = 2 * (HALFSIZE / 64))
    by (Z.div_mod_to_equations; lia).
  destruct (vec_get_in_range b (2 * id)) as [lo Hlo];
    [destruct Hb as [-> _]; lia|].
  destruct (vec_get_in_range b (2 * id + 1)) as [hi Hhi];
    [destruct Hb as [-> _]; lia|].
  set (x := u64 (Z.lnot (Z.lor lo (Z.shiftl hi 32)))).
  assert (Hx : gpu_wideblock b (id * 64) = Ok x)
    by (unfold gpu_wideblock; rewrite Hq, Hlo, Hhi; reflexivity).
  assert (Hxr : 0 <= x < 2 ^ 64) by (apply wrap_range; lia).
  unfold gpu_wide_word. rewrite Hx. split; [reflexivity|]. split; [exact Hxr|].
  intros m. unfold block_nonces. rewrite in_map_iff. split.
  - intros (j & <- & Hj). pose proof (word_bits_lt x j Hxr Hj) as Hj64.
    apply word_bits_spec in Hj as [_ Hbit]; [|lia]. split; [lia|].
    pose proof (gpu_wideblock_test b (id * 64) x j (proj2 Hb) Hx ltac:(lia) Hj64)
      as Ht.
    rewrite Hq in Ht. replace (64 * id + j) with (id * 64 + j) in Ht by lia.
    unfold gpu_is_alive. rewrite Ht. exact Hbit.
  - intros [Hm Ha]. exists (m - id * 64). split; [lia|].
    apply word_bits_spec; [lia|]. split; [lia|].
    pose proof (gpu_wideblock_test b (id * 64) x (m - id * 64) (proj2 Hb) Hx
                  ltac:(lia) ltac:(lia)) as Ht.
    rewrite Hq in Ht. replace (64 * id + (m - id * 64)) with m in Ht by lia.
    unfold gpu_is_alive in Ha. rewrite Ht in Ha. exact Ha.
Qed.

Lemma gpu_sweep_wide {A : Type} (body : Z -> A -> res A) (blk x : Z) (a : A) :
  0 <= blk -> blk + 64 <= 2 ^ 32 -> 0 <= x < 2 ^ 64 ->
  gpu_sweep 65 body (nonce_t (blk - 1)) x a
  = foldM (fun a n => body n a) (block_nonces blk x) a.
Proof.
  clear siphash24.
  intros Hblk Hlt Hx. rewrite gpu_sweep_spec by (simpl; lia).
  unfold block_nonces. rewrite foldM_map. apply foldM_ext_in.
  intros j a' Hj. apply word_bits_lt in Hj; [|assumption].
  rewrite <- Z.add_assoc, nonce_t_add_l. f_equal. rewrite nonce_t_small by lia.
  lia.
Qed.

Lemma find_nonces_launch_fold (tpb : Z) (b : list Z) (nsols : Z)
    (sols : list (list noncedge_t)) :
  0 < tpb -> gpu_bits_wf b ->
  find_nonces_launch tpb b nsols sols
  = foldM (fun sols n => find_nonces_step nsols n sols)
          (find_nonces_nonces tpb b) sols.
Proof.
  intros Ht Hb. pose proof HALFSIZE_bound as Hbd.
  pose proof HALFSIZE_words as [Hw1 Hw2].
  unfold find_nonces_launch, find_nonces_nonces. rewrite <- foldM_flat_map.
  apply foldM_ext_in. intros id a Hid.
  apply launch_ids_In in Hid; [|exact Ht].
  assert (Hr : 0 <= id < HALFSIZE / 64).
  { pose proof (Z.mul_div_le (HALFSIZE / 64) tpb Ht). lia. }
  destruct (gpu_wide b id Hb Hr) as (Hx & Hxr & _).
  unfold find_nonces. rewrite nonce_t_small by lia. rewrite Hx. cbn [bind].
  apply gpu_sweep_wide; lia.
Qed.

Lemma find_nonces_nonces_In (tpb : Z) (b : list Z) (m : Z) :
  0 < tpb -> (HALFSIZE / 64) mod tpb = 0 -> gpu_bits_wf b ->
  (In m (find_nonces_nonces tpb b) <->
   0 <= m < HALFSIZE /\ gpu_is_alive b m = true).
Proof.
  clear siphash24. intros Ht Hd Hb. pose proof HALFSIZE_words as [Hw1 Hw2].
  assert (Hids : forall id, In id (gpu_thread_ids ((HALFSIZE / 64) / tpb) tpb)
                            <-> 0 <= id < HALFSIZE / 64).
  { intros id. rewrite launch_ids_In by exact Ht.
    replace ((HALFSIZE / 64) / tpb * tpb) with (HALFSIZE / 64); [reflexivity|].
    pose proof (Z.div_mod (HALFSIZE / 64) tpb ltac:(lia)). lia. }
  unfold find_nonces_nonces. rewrite in_flat_map. split.
  - intros (id & Hid & Hm). apply Hids in Hid.
    apply (gpu_wide b id Hb Hid) in Hm. split; [lia | tauto].
  - intros [Hm Ha]. exists (m / 64).
    assert (Hid : 0 <= m / 64 < HALFSIZE / 64)
      by (Z.div_mod_to_equations; lia).
    split; [apply Hids; exact Hid|].
    apply (gpu_wide b _ Hb Hid).
    split; [Z.div_mod_to_equations; lia | exact Ha].
Qed.

(** X8. [find_nonces] gives every solution its nonces.  With [tpb]
    dividing HALFSIZE/64 and [nsols] rows of PROOFSIZE entries each, the
    launch returns; every entry of the first [nsols] rows keeps its edge; an
    entry whose edge is the edge of an alive nonce then holds an alive nonce
    with that edge, and an entry whose edge no alive nonce has keeps the
    nonce it had; the rows after the first [nsols] are not touched. *)
Theorem find_nonces_fills (tpb : Z) (b : list Z) (nsols : nat)
    (sols : list (list noncedge_t)) :
  0 < tpb -> (HALFSIZE / 64) mod tpb = 0 -> gpu_bits_wf b ->
  (nsols <= length sols)%nat ->
  Forall (fun sol => Z.of_nat (length sol) = PROOFSIZE) sols ->
  exists sols',
    find_nonces_launch tpb b (Z.of_nat nsols) sols = Ok sols' /\
    length sols' = length sols /\
    drop nsols sols' = drop nsols sols /\
    forall (i j : nat) (row : list noncedge_t) (ne : noncedge_t),
      (i < nsols)%nat -> sols !! i = Some row -> row !! j = Some ne ->
      exists row' ne',
        sols' !! i = Some row' /\ row' !! j = Some ne' /\
        edge ne' = edge ne /\
        ((exists n, 0 <= n < HALFSIZE /\ gpu_test b n = Ok true /\
                    gpu_edge n = edge ne) ->
         0 <= nonce ne' < HALFSIZE /\ gpu_test b (nonce ne') = Ok true /\
         gpu_edge (nonce ne') = edge ne) /\
        ((forall n, 0 <= n < HALFSIZE -> gpu_test b n = Ok true ->
                    gpu_edge n <> edge ne) ->
         nonce ne' = nonce ne).
Proof.
  intros Ht Hd Hb Hk Hrows.
  rewrite find_nonces_launch_fold by assumption.
  rewrite find_nonces_fold by assumption.
  set (L := find_nonces_nonces tpb b).
  set (cell := fun ne => fold_left (fun ne n => match_cell n ne) L ne).
  assert (Hlen : length (map (map cell) (take nsols sols)) = nsols)
    by (rewrite length_map, length_take; lia).
  assert (HL : forall n, In n L <-> 0 <= n < HALFSIZE /\ gpu_test b n = Ok true).
  { intros n. unfold L. rewrite find_nonces_nonces_In by assumption.
    split; intros [Hn Ha]; (split; [exact Hn|]).
    - rewrite (gpu_test_is_alive b n Hb Hn), Ha. reflexivity.
    - rewrite (gpu_test_is_alive b n Hb Hn) in Ha. congruence. }
  eexists. split; [reflexivity|]. split; [|split].
  - rewrite length_app, Hlen, length_drop. lia.
  - apply drop_app_length'. symmetry. exact Hlen.
  - intros i j row ne Hi Hrow Hne. exists (map cell row), (cell ne).
    split; [|split].
    + rewrite lookup_app_l by lia. rewrite list_lookup_fmap.
      rewrite lookup_take_lt by lia. rewrite Hrow. reflexivity.
    + rewrite list_lookup_fmap, Hne. reflexivity.
    + destruct (match_cell_fold L ne) as (He & Hsome & Hnone).
      cbn zeta in He, Hsome, Hnone. unfold cell. split; [exact He|]. split.
      * intros (n & Hn & Ha & E).
        destruct Hsome as [Hin Hedge];
          [exists n; split; [apply HL; auto | exact E]|].
        apply HL in Hin. tauto.
      * intros Hno. rewrite Hnone; [reflexivity|].
        intros n Hn. apply HL in Hn as [Hn Ha]. apply Hno; assumption.
Qed.

(** ** The solutions of the CUDA miner *)

Lemma set_edge_spec (row : list noncedge_t) (k : nat) (e : Z * Z) :
  (k < length row)%nat ->
  exists row',
    set_edge row (Z.of_nat k) e = Ok row' /\ length row' = length row /\
    map nonce row' = map nonce row /\
    take (S k) (map edge row') = take k (map edge row) ++ [e].
Proof.
  clear. intros Hk. unfold set_edge.
  destruct (lookup_lt_is_Some_2 row k Hk) as [ne Hne].
  assert (Hget : vec_get row (Z.of_nat k) = Ok ne)
    by (apply vec_get_Ok; rewrite Nat2Z.id; split; [lia | exact Hne]).
  rewrite Hget. cbn [bind]. rewrite vec_set_in_range by lia. rewrite Nat2Z.id.
  eexists. split; [reflexivity|]. split; [apply length_insert|]. split.
  - apply list_eq. intros i. rewrite !list_lookup_fmap.
    destruct (decide (i = k)) as [->|Hik].
    + rewrite list_lookup_insert_eq by exact Hk. rewrite Hne. reflexivity.
    + rewrite list_lookup_insert_ne by congruence. reflexivity.
  - rewrite (take_S_r _ _ e).
    + f_equal. apply list_eq. intros i. rewrite !lookup_take.
      destruct (decide (i < k)%nat) as [Hi|Hi]; [|reflexivity].
      rewrite !list_lookup_fmap, list_lookup_insert_ne by lia. reflexivity.
    + rewrite list_lookup_fmap, list_lookup_insert_eq by exact Hk. reflexivity.
Qed.

Lemma snoc_to_set (l : list (Z * Z)) (e : Z * Z) :
  list_to_set (l ++ [e]) = ({[ e ]} ∪ list_to_set l : gset (Z * Z)).
Proof.
  clear. rewrite list_to_set_app_L. cbn [list_to_set].
  rewrite union_empty_r_L. apply union_comm_L.
Qed.

Lemma record_us_spec (us : list Z) :
  forall (nu : nat) (row : list noncedge_t) (k : nat) (cyc cyc' : gset (Z * Z)),
    cycle_us us nu cyc = Ok cyc' -> (k + nu <= length row)%nat ->
    list_to_set (take k (map edge row)) = cyc ->
    exists row',
      record_us us nu row (Z.of_nat k) = Ok (row', Z.of_nat (k + nu)) /\
      length row' = length row /\ map nonce row' = map nonce row /\
      list_to_set (take (k + nu) (map edge row')) = cyc'.
Proof.
  clear. induction nu as [|n IH]; intros row k cyc cyc' Hc Hk Hset.
  - injection Hc as <-. exists row. rewrite Nat.add_0_r. auto.
  - cbn [cycle_us record_us] in *. bind_as Hc a Ha. bind_as Hc b Hb.
    rewrite Ha, Hb. cbn [bind].
    destruct (set_edge_spec row k (a, b) ltac:(lia)) as (row1 & -> & Hl1 & Hn1 & Ht1).
    cbn [bind].
    destruct (IH row1 (S k) _ cyc' Hc ltac:(lia)) as (row' & Hr & Hl & Hn & Hs).
    + rewrite Ht1, snoc_to_set, Hset. reflexivity.
    + exists row'. replace (Z.of_nat k + 1) with (Z.of_nat (S k)) by lia.
      replace (k + S n)%nat with (S k + n)%nat by lia.
      split; [exact Hr|]. split; [congruence|]. split; [congruence | exact Hs].
Qed.

Lemma record_vs_spec (vs : list Z) :
  forall (nv : nat) (row : list noncedge_t) (k : nat) (cyc cyc' : gset (Z * Z)),
    cycle_vs vs nv cyc = Ok cyc' -> (k + nv <= length row)%nat ->
    list_to_set (take k (map edge row)) = cyc ->
    exists row',
      record_vs vs nv row (Z.of_nat k) = Ok (row', Z.of_nat (k + nv)) /\
      length row' = length row /\ map nonce row' = map nonce row /\
      list_to_set (take (k + nv) (map edge row')) = cyc'.
Proof.
  clear. induction nv as [|n IH]; intros row k cyc cyc' Hc Hk Hset.
  - injection Hc as <-. exists row. rewrite Nat.add_0_r. auto.
  - cbn [cycle_vs record_vs] in *. bind_as Hc a Ha. bind_as Hc b Hb.
    rewrite Ha, Hb. cbn [bind].
    destruct (set_edge_spec row k (a, b) ltac:(lia)) as (row1 & -> & Hl1 & Hn1 & Ht1).
    cbn [bind].
    destruct (IH row1 (S k) _ cyc' Hc ltac:(lia)) as (row' & Hr & Hl & Hn & Hs).
    + rewrite Ht1, snoc_to_set, Hset. reflexivity.
    + exists row'. replace (Z.of_nat k + 1) with (Z.of_nat (S k)) by lia.
      replace (k + S n)%nat with (S k + n)%nat by lia.
      split; [exact Hr|]. split; [congruence|]. split; [congruence | exact Hs].
Qed.

Lemma gpu_record_spec (row : list noncedge_t) (us : list Z) (nu : nat)
    (vs : list Z) (nv : nat) (cycle0 : gset (Z * Z)) :
  cycle_edges us nu vs nv = Ok cycle0 -> length row = (1 + nu + nv)%nat ->
  exists row',
    gpu_record row us nu vs nv = Ok row' /\ length row' = length row /\
    map nonce row' = map nonce row /\
    list_to_set (map edge row') = cycle0.
Proof.
  clear. intros Hc Hlen. unfold cycle_edges in Hc.
  bind_as Hc u0 Hu0. bind_as Hc v0 Hv0. bind_as Hc cycle1 Hc1.
  unfold gpu_record. rewrite Hu0, Hv0. cbn [bind].
  destruct (set_edge_spec row 0 (u0, v0) ltac:(lia)) as (row0 & Hr0 & Hl0 & Hn0 & Ht0).
  change (Z.of_nat 0) with 0 in Hr0. rewrite Hr0. cbn [bind].
  destruct (record_us_spec us nu row0 1 _ cycle1 Hc1 ltac:(lia))
    as (row1 & Hr1 & Hl1 & Hn1 & Hs1).
  { rewrite Ht0. cbn [take app list_to_set]. apply union_empty_r_L. }
  change (Z.of_nat 1) with 1 in Hr1. rewrite Hr1. cbn [bind fst snd].
  destruct (record_vs_spec vs nv row1 (1 + nu) _ cycle0 Hc ltac:(lia) Hs1)
    as (row2 & Hr2 & Hl2 & Hn2 & Hs2).
  rewrite Hr2. cbn [bind fst]. exists row2.
  split; [reflexivity|]. split; [congruence|]. split; [congruence|].
  rewrite take_ge in Hs2 by (rewrite length_map; lia). exact Hs2.
Qed.

(** X9. A cycle the CUDA miner stores.  When [nsols] is below MAXSOLS (and
    the rows are there), a cycle whose [1 + nu + nv] edges fill a row is
    written to the row at [nsols]: the edges of the row are then exactly the
    edges the pthread miner puts in its set for the same paths, the nonces
    of the row and the other rows are not touched, and [nsols] goes up by
    one. *)
Theorem gpu_solution_records (maxsols : Z) (ctx : gpu_solutions) (us : list Z)
    (nu : nat) (vs : list Z) (nv : nat) (row : list noncedge_t)
    (cycle0 : gset (Z * Z)) :
  0 <= gnsols ctx < maxsols -> maxsols <= MAXINT ->
  gsols ctx !! Z.to_nat (gnsols ctx) = Some row ->
  length row = (1 + nu + nv)%nat ->
  cycle_edges us nu vs nv = Ok cycle0 ->
  exists row',
    gpu_solution maxsols ctx us nu vs nv
    = Ok (mk_gpu_solutions (<[Z.to_nat (gnsols ctx) := row']> (gsols ctx))
            (gnsols ctx + 1)) /\
    length row' = length row /\ map nonce row' = map nonce row /\
    list_to_set (map edge row') = cycle0.
Proof.
  clear. intros Hslot Hmax Hrow Hlen Hc.
  destruct (gpu_record_spec row us nu vs nv cycle0 Hc Hlen)
    as (row' & Hr & Hl & Hn & Hs).
  exists row'. split; [|auto]. unfold gpu_solution.
  replace (gnsols ctx <? maxsols) with true by (symmetry; apply Z.ltb_lt; lia).
  assert (Hget : vec_get (gsols ctx) (gnsols ctx) = Ok row)
    by (apply vec_get_Ok; split; [lia | exact Hrow]).
  rewrite Hget. cbn [bind]. rewrite Hr. cbn [bind].
  rewrite vec_set_in_range by (apply (vec_get_lt _ _ _ Hget)). cbn [bind].
  f_equal. f_equal. unfold atomicInc.
  assert (HM : MAXINT = 2 ^ 30) by reflexivity.
  destruct (Z.leb_spec MAXINT (gnsols ctx)); [lia|].
  apply wrap_small. lia.
Qed.

Lemma find_nonces_step_overrun (nsols : Z) (nce : Z)
    (sols : list (list noncedge_t)) :
  Z.of_nat (length sols) < nsols ->
  Forall (fun sol => Z.of_nat (length sol) = PROOFSIZE) sols ->
  find_nonces_step nsols nce sols = Err OutOfBounds.
Proof.
  intros Hn Hrows. unfold find_nonces_step.
  replace nsols with (Z.of_nat (length sols) + (nsols - Z.of_nat (length sols)))
    by lia.
  rewrite seqZ_app by lia. rewrite foldM_app.
  rewrite (foldM_index_map (fun sol => Z.of_nat (length sol) = PROOFSIZE)
             (map (match_cell nce))); [| |lia|exact Hrows].
  - cbn [bind]. rewrite firstn_all, drop_all, app_nil_r, Z.add_0_l.
    replace (nsols - Z.of_nat (length sols))
      with (Z.succ (Z.pred (nsols - Z.of_nat (length sols)))) by lia.
    rewrite seqZ_cons by lia. cbn [foldM].
    unfold vec_get. destruct (Z.leb_spec 0 (Z.of_nat (length sols))); [|lia].
    rewrite Nat2Z.id, lookup_ge_None_2 by (rewrite length_map; lia).
    reflexivity.
  - intros l j sol Hsol Hlen. rewrite Hsol. cbn [bind].
    rewrite match_row_map by exact Hlen. cbn [bind].
    apply vec_set_in_range. apply (vec_get_lt _ _ _ Hsol).
Qed.

(** X10. More cycles than rows.  Once [nsols] has reached MAXSOLS, a further
    cycle of length PROOFSIZE is counted but not stored ([nsols] goes up, the
    rows stay as they are); [find_nonces] then runs its loop over [nsols]
    rows, and with a single alive nonce in the bitmap it reads past the
    last row. *)
Theorem gpu_solutions_overrun (maxsols tpb : Z) (ctx : gpu_solutions)
    (us : list Z) (nu : nat) (vs : list Z) (nv : nat) (b : list Z) (n : Z) :
  Z.of_nat (length (gsols ctx)) = maxsols -> maxsols <= gnsols ctx < MAXINT ->
  Forall (fun sol => Z.of_nat (length sol) = PROOFSIZE) (gsols ctx) ->
  0 < tpb -> (HALFSIZE / 64) mod tpb = 0 -> gpu_bits_wf b ->
  0 <= n < HALFSIZE -> gpu_test b n = Ok true ->
  gpu_solution maxsols ctx us nu vs nv
  = Ok (mk_gpu_solutions (gsols ctx) (gnsols ctx + 1)) /\
  find_nonces_launch tpb b (gnsols ctx + 1) (gsols ctx) = Err OutOfBounds.
Proof.
  intros Hrows Hslot Hlen Ht Hd Hb Hn Halive. split.
  - unfold gpu_solution.
    replace (gnsols ctx <? maxsols) with false by (symmetry; apply Z.ltb_ge; lia).
    f_equal. f_equal. unfold atomicInc.
    assert (HM : MAXINT = 2 ^ 30) by reflexivity.
    destruct (Z.leb_spec MAXINT (gnsols ctx)); [lia|].
    apply wrap_small. lia.
  - rewrite find_nonces_launch_fold by assumption.
    assert (Hin : In n (find_nonces_nonces tpb b)).
    { apply find_nonces_nonces_In; try assumption. split; [exact Hn|].
      rewrite (gpu_test_is_alive b n Hb Hn) in Halive. congruence. }
    destruct (find_nonces_nonces tpb b) as [|x L]; [destruct Hin|].
    cbn [foldM]. rewrite find_nonces_step_overrun by (assumption || lia).
    reflexivity.
Qed.

(** ** solution *)

Lemma sorted_snoc (l : list Z) (x : Z) :
  StronglySorted Z.lt l -> List.Forall (fun y => y < x) l ->
  StronglySorted Z.lt (l ++ [x]).
Proof.
  intros Hs Hall. induction Hs as [|y l Hs IH Hy]; simpl.
  - repeat constructor.
  - inversion Hall as [|? ? Hyx Hall']; subst. constructor; [apply IH; exact Hall'|].
    apply List.Forall_app. split; [exact Hy|]. repeat constructor. exact Hyx.
Qed.

Lemma sweep_inv_mono (alive0 : shrinkingset) (cycle0 : gset (Z * Z)) (len0 : nat)
    (b b' : Z) (st : gset (Z * Z) * list Z * Z) :
  b <= b' -> sweep_inv alive0 cycle0 len0 b st -> sweep_inv alive0 cycle0 len0 b' st.
Proof.
  destruct st as [[cyc row] n]. intros Hb (Hn & Hlen & Hstrong).
  split; [exact Hn|]. split; [exact Hlen|]. intros Hl.
  destruct (Hstrong Hl) as (Hc & Hle & Hs & Hall).
  repeat split; try assumption.
  eapply List.Forall_impl; [|exact Hall]. intros x [Hx Hf]. split; [lia | exact Hf].
Qed.

Lemma solution_step_inv (alive0 : shrinkingset) (cycle0 : gset (Z * Z))
    (len0 : nat) (bound nonce : Z) (st st' : gset (Z * Z) * list Z * Z) :
  bound <= nonce -> 0 <= nonce < HALFSIZE -> test alive0 nonce = Ok true ->
  sweep_inv alive0 cycle0 len0 bound st ->
  solution_step nonce st = Ok st' ->
  sweep_inv alive0 cycle0 len0 (nonce + 1) st'.
Proof.
  intros Hb Hr Ht Hinv Hstep. destruct st as [[cyc row] n].
  unfold solution_step in Hstep.
  destruct (decide ((sipnode nonce 0, sipnode nonce 1) ∈ cyc)) as [Hin|Hout].
  - bind_inv Hstep. injection Hstep as <-.
    apply vec_set_Ok in Hx as [Hn ->].
    destruct Hinv as (Hn32 & Hlen & Hstrong).
    split; [apply wrap_range; lia|]. split; [rewrite length_insert; exact Hlen|].
    intros Hl. destruct (Hstrong Hl) as (Hc & Hle & Hs & Hall).
    assert (Hw : u32 (n + 1) = n + 1) by (apply wrap_small; lia).
    rewrite Hw.
    assert (Htake : take (Z.to_nat (n + 1)) (<[Z.to_nat n := nonce]> row)
                    = take (Z.to_nat n) row ++ [nonce]).
    { replace (Z.to_nat (n + 1)) with (S (Z.to_nat n)) by lia.
      rewrite (take_S_r _ _ nonce) by (apply list_lookup_insert_eq; lia).
      rewrite take_insert_ge by lia. reflexivity. }
    rewrite Htake. split; [|split; [lia|split]].
    + destruct (2 <? PROOFSIZE); [|exact Hc].
      intros y Hy. apply Hc. apply elem_of_difference in Hy. tauto.
    + apply sorted_snoc; [exact Hs|].
      eapply List.Forall_impl; [|exact Hall]. intros x [Hx _]. lia.
    + apply List.Forall_app. split.
      * eapply List.Forall_impl; [|exact Hall]. intros x [Hx Hf]. split; [lia|exact Hf].
      * repeat constructor; [lia | exact (proj1 Hr) | exact (proj2 Hr) | exact Ht|].
        apply Hc. exact Hin.
  - injection Hstep as <-. apply (sweep_inv_mono _ _ _ bound); [lia | exact Hinv].
Qed.

Lemma solution_sweep_inv (alive0 : shrinkingset) (cycle0 : gset (Z * Z))
    (len0 : nat) (L : list Z) :
  forall (st st' : gset (Z * Z) * list Z * Z) (bound : Z),
    StronglySorted Z.lt L ->
    (forall x, In x L ->
       bound <= x /\ 0 <= x < HALFSIZE /\ test alive0 x = Ok true) ->
    sweep_inv alive0 cycle0 len0 bound st ->
    foldM (fun st n => solution_step n st) L st = Ok st' ->
    forall ub, bound <= ub -> (forall x, In x L -> x < ub) ->
               sweep_inv alive0 cycle0 len0 ub st'.
Proof.
  induction L as [|x L IH]; intros st st' bound Hs HL Hinv Hf ub Hub Hlt.
  - injection Hf as <-. apply (sweep_inv_mono _ _ _ bound); assumption.
  - cbn [foldM] in Hf. bind_inv Hf. rename x0 into st1.
    destruct (HL x (or_introl eq_refl)) as (Hbx & Hxr & Hxt).
    pose proof (solution_step_inv _ _ _ _ _ _ _ Hbx Hxr Hxt Hinv Hx0) as Hinv1.
    inversion Hs as [|? ? Hs' Hall]; subst.
    apply (IH st1 st' (x + 1) Hs'); try assumption.
    + intros y Hy. destruct (HL y (or_intror Hy)) as (_ & Hyr & Hyt).
      rewrite List.Forall_forall in Hall. specialize (Hall y Hy).
      split; [lia|]. split; assumption.
    + specialize (Hlt x (or_introl eq_refl)). lia.
    + intros y Hy. apply Hlt. right. exact Hy.
Qed.

Lemma solution_blocks_inv (nthreads : Z) (alive0 : shrinkingset)
    (cycle0 : gset (Z * Z)) (len0 : nat) :
  shrinkingset_wf nthreads alive0 ->
  forall (fuel : nat) (blk : Z) (st st' : gset (Z * Z) * list Z * Z),
    0 <= blk -> blk mod 64 = 0 ->
    sweep_inv alive0 cycle0 len0 blk st ->
    foldM (fun st b =>
             do alive64 <- block alive0 b ;
             ffs_sweep 65 solution_step (nonce_t (b - 1)) alive64 st)
          (blocks_from fuel 64 blk) st = Ok st' ->
    exists ub, sweep_inv alive0 cycle0 len0 ub st'.
Proof.
  intros Hwf. pose proof HALFSIZE_bound as Hb. pose proof HALFSIZE_words as [Hw1 Hw2].
  induction fuel as [|fuel IH]; intros blk st st' Hblk Hal Hinv Hf.
  - injection Hf as <-. eauto.
  - change (blocks_from (S fuel) 64 blk)
      with (if blk <? HALFSIZE then blk :: blocks_from fuel 64 (blk + 64) else [])
      in Hf.
    destruct (Z.ltb_spec blk HALFSIZE) as [Hlt|Hge].
    + cbn [foldM] in Hf. bind_inv Hf. rename x into st1.
      bind_inv Hx. rename x into w.
      assert (Hend : blk + 64 <= HALFSIZE) by (Z.div_mod_to_equations; lia).
      destruct (block_test alive0 blk w 0 Hx0 ltac:(lia)) as [Hwr _].
      rewrite sweep_block in Hx by lia.
      apply (IH (blk + 64) st1 st'); try lia.
      * rewrite <- Zplus_mod_idemp_l, Hal. reflexivity.
      * apply (solution_sweep_inv alive0 cycle0 len0 (block_nonces blk w)
                 st st1 blk); try assumption; try lia.
        -- apply block_nonces_sorted.
        -- intros x Hin. apply (block_nonces_spec alive0 blk w x Hx0) in Hin;
             [|lia|exact Hal]. destruct Hin as [Hr Ht]. repeat split; try lia.
           exact Ht.
        -- intros x Hin. apply (block_nonces_spec alive0 blk w x Hx0) in Hin;
             [|lia|exact Hal]. lia.
      * exact Hf.
    + injection Hf as <-. eauto.
Qed.

(** The loops of [solution] end: the model never runs out of rounds. *)
Lemma bind_no_spin {A B : Type} (m : res A) (k : A -> res B) :
  m <> Err Spins -> (forall a, m = Ok a -> k a <> Err Spins) ->
  bind m k <> Err Spins.
Proof.
  destruct m as [a|f]; simpl; intros Hm Hk; [apply Hk; reflexivity|].
  intros [= ->]. apply Hm. reflexivity.
Qed.

Lemma foldM_no_spin {A B : Type} (f : A -> B -> res A) (l : list B) :
  (forall a b, f a b <> Err Spins) -> forall a, foldM f l a <> Err Spins.
Proof.
  intros Hf. induction l as [|b l IH]; intros a; simpl; [discriminate|].
  apply bind_no_spin; [apply Hf | intros a' _; apply IH].
Qed.

Lemma vec_get_no_spin {A : Type} (v : list A) (i : Z) : vec_get v i <> Err Spins.
Proof.
  unfold vec_get. destruct (0 <=? i); [destruct (v !! Z.to_nat i)|]; discriminate.
Qed.

Lemma vec_set_no_spin {A : Type} (v : list A) (i : Z) (x : A) :
  vec_set v i x <> Err Spins.
Proof.
  unfold vec_set. destruct ((0 <=? i) && (i <? Z.of_nat (length v))); discriminate.
Qed.

Lemma cycle_us_no_spin (us : list Z) (nu : nat) :
  forall cycle, cycle_us us nu cycle <> Err Spins.
Proof.
  induction nu as [|n IH]; intros cycle; simpl; [discriminate|].
  apply bind_no_spin; [apply vec_get_no_spin|]. intros a _.
  apply bind_no_spin; [apply vec_get_no_spin|]. intros b _. apply IH.
Qed.

Lemma cycle_vs_no_spin (vs : list Z) (nv : nat) :
  forall cycle, cycle_vs vs nv cycle <> Err Spins.
Proof.
  induction nv as [|n IH]; intros cycle; simpl; [discriminate|].
  apply bind_no_spin; [apply vec_get_no_spin|]. intros a _.
  apply bind_no_spin; [apply vec_get_no_spin|]. intros b _. apply IH.
Qed.

Lemma solution_step_no_spin (nonce : Z) (st : gset (Z * Z) * list Z * Z) :
  solution_step nonce st <> Err Spins.
Proof.
  destruct st as [[cyc row] n]. unfold solution_step.
  destruct (decide ((sipnode nonce 0, sipnode nonce 1) ∈ cyc)); [|discriminate].
  apply bind_no_spin; [apply vec_set_no_spin|]. discriminate.
Qed.

Lemma solution_no_spin (alive0 : shrinkingset) (ctx : solutions)
    (us : list Z) (nu : nat) (vs : list Z) (nv : nat) :
  solution alive0 ctx us nu vs nv <> Err Spins.
Proof.
  pose proof HALFSIZE_bound as Hb. unfold solution.
  apply bind_no_spin; [apply vec_get_no_spin|]. intros u0 _.
  apply bind_no_spin; [apply vec_get_no_spin|]. intros v0 _.
  apply bind_no_spin; [apply cycle_us_no_spin|]. intros cycle1 _.
  apply bind_no_spin; [apply cycle_vs_no_spin|]. intros cycle0 _.
  apply bind_no_spin; [apply vec_get_no_spin|]. intros row0 _.
  apply bind_no_spin.
  - unfold block_fuel.
    rewrite block_loop_blocks by (pose proof block_fuel_enough; lia).
    apply foldM_no_spin. intros st blk.
    apply bind_no_spin.
    + unfold block. apply bind_no_spin; [apply vec_get_no_spin|]. discriminate.
    + intros w Hw. destruct (block_test alive0 blk w 0 Hw ltac:(lia)) as [Hwr _].
      rewrite ffs_sweep_spec by (simpl; lia).
      apply foldM_no_spin. intros st1 j. apply solution_step_no_spin.
  - intros [[cyc row] n] _.
    destruct (n =? PROOFSIZE); [|discriminate].
    apply bind_no_spin; [apply vec_set_no_spin|]. discriminate.
Qed.

(** The row printed by the CUDA miner. *)
Lemma qsort_insert_perm {A : Type} (cmp : A -> A -> Z) (x : A) (l : list A) :
  Permutation (qsort_insert cmp x l) (x :: l).
Proof.
  induction l as [|y l IH]; simpl; [reflexivity|].
  destruct (cmp x y <=? 0); [reflexivity|].
  rewrite IH. apply perm_swap.
Qed.

Lemma qsort_perm {A : Type} (cmp : A -> A -> Z) (l : list A) :
  Permutation (qsort cmp l) l.
Proof.
  induction l as [|x l IH]; simpl; [reflexivity|].
  unfold qsort in *. rewrite qsort_insert_perm, IH. reflexivity.
Qed.

Lemma noncedge_cmp_le (a b : noncedge_t) :
  0 <= nonce a < HALFSIZE -> 0 <= nonce b < HALFSIZE ->
  (noncedge_cmp a b <=? 0) = (nonce a <=? nonce b).
Proof.
  intros Ha Hb. pose proof HALFSIZE_bound as Hh.
  unfold noncedge_cmp, int32, nonce_t, wrap. rewrite NONCE_BITS_32.
  rewrite Z.mod_mod by lia.
  destruct (Z.leb_spec (nonce a) (nonce b)) as [Hle|Hgt].
  - destruct (Z.eq_dec (nonce a) (nonce b)) as [->|Hne].
    + rewrite Z.sub_diag. reflexivity.
    + replace ((nonce a - nonce b) mod 2 ^ 32) with (nonce a - nonce b + 2 ^ 32)
        by (apply Z.mod_unique with (-1); lia).
      destruct (Z.ltb_spec (nonce a - nonce b + 2 ^ 32) (2 ^ 31)); [lia|].
      apply Z.leb_le. lia.
  - rewrite Z.mod_small by lia.
    destruct (Z.ltb_spec (nonce a - nonce b) (2 ^ 31)); [|lia].
    apply Z.leb_gt. lia.
Qed.

Lemma qsort_insert_sorted (x : noncedge_t) (l : list noncedge_t) :
  0 <= nonce x < HALFSIZE ->
  List.Forall (fun ne => 0 <= nonce ne < HALFSIZE) l ->
  StronglySorted Z.le (map nonce l) ->
  StronglySorted Z.le (map nonce (qsort_insert noncedge_cmp x l)).
Proof.
  intros Hx Hl Hs. induction l as [|y l IH]; simpl.
  - repeat constructor.
  - inversion Hl as [|? ? Hy Hl']; subst.
    simpl in Hs. inversion Hs as [|? ? Hs' Hall]; subst.
    rewrite (noncedge_cmp_le x y Hx Hy).
    destruct (Z.leb_spec (nonce x) (nonce y)) as [Hle|Hgt]; simpl.
    + constructor; [exact Hs|]. constructor; [exact Hle|].
      eapply List.Forall_impl; [|exact Hall]. intros z Hz. lia.
    + constructor; [apply IH; assumption|].
      apply List.Forall_forall. intros z Hz.
      apply in_map_iff in Hz as (ne & <- & Hne).
      apply (Permutation_in _ (qsort_insert_perm noncedge_cmp x l)) in Hne.
      destruct Hne as [<-|Hne]; [lia|].
      rewrite List.Forall_forall in Hall. apply Hall.
      apply in_map. exact Hne.
Qed.

Lemma gpu_print_solution_sorted (row : list noncedge_t) :
  List.Forall (fun ne => 0 <= nonce ne < HALFSIZE) row ->
  StronglySorted Z.le (gpu_print_solution row).
Proof.
  unfold gpu_print_solution. induction row as [|x row IH]; intros Hr; simpl.
  - constructor.
  - inversion Hr as [|? ? Hx Hr']; subst.
    apply qsort_insert_sorted; [exact Hx| |apply IH; exact Hr'].
    apply List.Forall_forall. intros ne Hne.
    apply (Permutation_in _ (qsort_perm noncedge_cmp row)) in Hne.
    rewrite List.Forall_forall in Hr'. apply Hr'. exact Hne.
Qed.

Lemma solution_row (nthreads : Z) (alive0 : shrinkingset)
    (ctx ctx' : solutions) (us : list Z) (nu : nat) (vs : list Z) (nv : nat) :
  shrinkingset_wf nthreads alive0 -> solutions_wf ctx ->
  solution alive0 ctx us nu vs nv = Ok ctx' ->
  exists row cycle0,
    cycle_edges us nu vs nv = Ok cycle0 /\
    0 <= nsols ctx < Z.of_nat (length (sols ctx)) /\
    sols ctx' = <[Z.to_nat (nsols ctx) := row]> (sols ctx) /\
    Z.of_nat (length row) = PROOFSIZE /\
    StronglySorted Z.lt row /\
    List.Forall (found alive0 cycle0) row /\
    nsols ctx' = u32 (nsols ctx + 1).
Proof.
  intros Hwf Hsols H. pose proof HALFSIZE_bound as Hb.
  unfold solution in H.
  bind_as H u0 Hu0. bind_as H v0 Hv0. bind_as H cycle1 Hc1.
  bind_as H cycle0 Hc0. bind_as H row0 Hrow. bind_as H st Hst.
  destruct st as [[cyc row] n].
  destruct (Z.eqb_spec n PROOFSIZE) as [Hn|]; [|discriminate].
  bind_as H sols1 Hset. injection H as <-. cbn [sols nsols].
  apply vec_set_Ok in Hset as [Hsoli ->].
  assert (Hrow0 : Z.of_nat (length row0) = PROOFSIZE).
  { apply vec_get_Ok in Hrow as [_ Hl].
    exact (proj1 (Forall_lookup _ _) Hsols _ _ Hl). }
  unfold block_fuel in Hst.
  rewrite block_loop_blocks in Hst by (pose proof block_fuel_enough; lia).
  destruct (solution_blocks_inv nthreads alive0 cycle0 (length row0) Hwf
              (S (Z.to_nat (HALFSIZE / 64))) 0 (cycle0, row0, 0) (cyc, row, n))
    as (ub & Hinv); try lia.
  - reflexivity.
  - split; [lia|]. split; [reflexivity|]. intros _.
    split; [reflexivity|]. split; [lia|]. split; constructor.
  - exact Hst.
  - destruct Hinv as (Hn32 & Hlen & Hstrong).
    destruct (Hstrong ltac:(lia)) as (_ & _ & Hs & Hall).
    rewrite take_ge in Hs, Hall by lia.
    exists row, cycle0. split.
    { unfold cycle_edges. rewrite Hu0, Hv0. cbn [bind]. rewrite Hc1. exact Hc0. }
    split; [exact Hsoli|]. split; [reflexivity|].
    split; [lia|]. split; [exact Hs|]. split; [|reflexivity].
    eapply List.Forall_impl; [|exact Hall]. intros x [_ Hf]. exact Hf.
Qed.

(** X17. The recovery sweep of [solution] in the pthread miner always comes
    to its assert.  When [solution] returns (the assert held), the row it
    filled holds exactly PROOFSIZE nonces, in strictly increasing order, each
    of them an alive nonce below HALFSIZE whose edge is one of the edges of
    the cycle, and the number of solutions went up by one. *)
Theorem solution_sorted (nthreads : Z) (alive0 : shrinkingset)
    (ctx : solutions) (us : list Z) (nu : nat) (vs : list Z) (nv : nat) :
  shrinkingset_wf nthreads alive0 -> solutions_wf ctx ->
  solution alive0 ctx us nu vs nv <> Err Spins /\
  (forall ctx' : solutions,
     solution alive0 ctx us nu vs nv = Ok ctx' ->
     exists row cycle0,
       cycle_edges us nu vs nv = Ok cycle0 /\
       vec_get (sols ctx') (nsols ctx) = Ok row /\
       Z.of_nat (length row) = PROOFSIZE /\
       StronglySorted Z.lt row /\
       List.Forall (found alive0 cycle0) row /\
       nsols ctx' = u32 (nsols ctx + 1)).
Proof.
  intros Hwf Hsols. split; [apply solution_no_spin|].
  intros ctx' H.
  destruct (solution_row nthreads alive0 ctx ctx' us nu vs nv Hwf Hsols H)
    as (row & cycle0 & Hc & Hsoli & Hs & Hl & Hsorted & Hall & Hn).
  exists row, cycle0. split; [exact Hc|]. split.
  { rewrite Hs. apply vec_get_set_eq. exact Hsoli. }
  auto.
Qed.


(** ** solution finds every edge that has an alive nonce *)

Lemma solution_fold_complete (cycle0 : gset (Z * Z)) (L : list Z) :
  2 < PROOFSIZE -> PROOFSIZE < 2 ^ 32 ->
  Z.of_nat (size cycle0) = PROOFSIZE ->
  forall (cyc : gset (Z * Z)) (row : list Z) (n : Z),
    cyc ⊆ cycle0 -> n = Z.of_nat (size cycle0) - Z.of_nat (size cyc) ->
    Z.of_nat (length row) = PROOFSIZE ->
    exists cyc' row' n',
      foldM (fun st x => solution_step x st) L (cyc, row, n)
      = Ok (cyc', row', n') /\
      cyc' ⊆ cyc /\
      n' = Z.of_nat (size cycle0) - Z.of_nat (size cyc') /\
      Z.of_nat (length row') = PROOFSIZE /\
      forall x, In x L -> (sipnode x 0, sipnode x 1) ∉ cyc'.
Proof.
  intros Hp Hp32 Hsz. induction L as [|x L IH]; intros cyc row n Hsub Hn Hrow.
  - exists cyc, row, n. split; [reflexivity|]. split; [reflexivity|].
    split; [exact Hn|]. split; [exact Hrow|]. intros x [].
  - cbn [foldM]. unfold solution_step at 1.
    pose proof (subseteq_size cyc cycle0 Hsub) as Hle.
    destruct (decide ((sipnode x 0, sipnode x 1) ∈ cyc)) as [Hin|Hout].
    + assert (Hpos : (0 < size cyc)%nat).
      { destruct (size cyc) eqn:E; [|lia].
        apply size_empty_iff in E. rewrite E in Hin.
        destruct (not_elem_of_empty _ Hin). }
      rewrite vec_set_in_range by lia. cbn [bind].
      replace (2 <? PROOFSIZE) with true by (symmetry; apply Z.ltb_lt; lia).
      assert (Hs' : size (cyc ∖ {[(sipnode x 0, sipnode x 1)]}) = (size cyc - 1)%nat).
      { rewrite size_difference by (apply singleton_subseteq_l; exact Hin).
        rewrite size_singleton. reflexivity. }
      destruct (IH (cyc ∖ {[(sipnode x 0, sipnode x 1)]})
                  (<[Z.to_nat n := x]> row) (u32 (n + 1)))
        as (cyc' & row' & n' & Hf & Hsub' & Hn' & Hrow' & Hall).
      * intros y Hy. apply Hsub. apply elem_of_difference in Hy. tauto.
      * unfold u32. rewrite wrap_small by lia. lia.
      * rewrite length_insert. exact Hrow.
      * exists cyc', row', n'. split; [exact Hf|]. split.
        { intros y Hy. apply Hsub' in Hy. apply elem_of_difference in Hy. tauto. }
        split; [exact Hn'|]. split; [exact Hrow'|].
        intros y [<-|Hy]; [|apply Hall; exact Hy].
        intros He. apply Hsub', elem_of_difference in He as [_ Hne].
        apply Hne. apply elem_of_singleton. reflexivity.
    + cbn [bind].
      destruct (IH cyc row n Hsub Hn Hrow)
        as (cyc' & row' & n' & Hf & Hsub' & Hn' & Hrow' & Hall).
      exists cyc', row', n'. split; [exact Hf|]. split; [exact Hsub'|].
      split; [exact Hn'|]. split; [exact Hrow'|].
      intros y [<-|Hy]; [|apply Hall; exact Hy].
      intros He. apply Hout, Hsub', He.
Qed.

Lemma solution_sweep_all (nthreads : Z) (alive0 : shrinkingset)
    (st : gset (Z * Z) * list Z * Z) :
  shrinkingset_wf nthreads alive0 ->
  exists L,
    block_loop block_fuel 64
      (fun blk st =>
         do alive64 <- block alive0 blk ;
         ffs_sweep 65 solution_step (nonce_t (blk - 1)) alive64 st)
      0 st
    = foldM (fun st x => solution_step x st) L st /\
    forall x, 0 <= x < HALFSIZE -> test alive0 x = Ok true -> In x L.
Proof.
  intros Hwf. pose proof HALFSIZE_bound as Hb.
  pose proof HALFSIZE_words as [Hw1 Hw2].
  set (s1 := mk_shrinkingset (bits alive0) [0]).
  assert (Hwf1 : shrinkingset_wf 1 s1) by (split; [exact (proj1 Hwf) | reflexivity]).
  exists (phase_nonces 1 s1). split.
  - unfold block_fuel.
    rewrite block_loop_blocks by (pose proof block_fuel_enough; lia).
    unfold phase_nonces, thread_ids. change (seqZ 0 1) with [0].
    cbn [flat_map]. rewrite app_nil_r. unfold thread_nonces.
    rewrite <- foldM_flat_map. unfold thread_blocks, block_fuel.
    change (1 * 64) with 64. change (0 * 64) with 0.
    apply foldM_ext_in. intros blk a Hin.
    destruct (thread_blocks_range 0 1 blk ltac:(lia) ltac:(lia) Hin) as [Hr Hal].
    destruct (block_word_block 1 s1 blk Hwf1 Hr) as [Hx Hxr].
    change (block alive0 blk) with (block s1 blk). rewrite Hx. cbn [bind].
    assert (Hend : blk + 64 <= HALFSIZE) by (Z.div_mod_to_equations; lia).
    apply sweep_block; lia.
  - intros x Hx Ht. apply (phase_nonces_In 1 s1 x ltac:(lia) Hwf1).
    split; [exact Hx|]. unfold is_alive.
    change (test s1 x) with (test alive0 x). rewrite Ht. reflexivity.
Qed.

(** X11. [solution] finds the nonces of a cycle whenever they are there.
    For 2 < PROOFSIZE < 2^32, a free row in [sols], and a cycle of PROOFSIZE
    different edges each of which is the edge of some alive nonce, the
    assert [n == PROOFSIZE] holds and [solution] returns. *)
Theorem solution_complete (nthreads : Z) (alive0 : shrinkingset)
    (ctx : solutions) (us : list Z) (nu : nat) (vs : list Z) (nv : nat)
    (cycle0 : gset (Z * Z)) :
  shrinkingset_wf nthreads alive0 -> solutions_wf ctx ->
  0 <= nsols ctx < Z.of_nat (length (sols ctx)) ->
  2 < PROOFSIZE -> PROOFSIZE < 2 ^ 32 ->
  cycle_edges us nu vs nv = Ok cycle0 ->
  Z.of_nat (size cycle0) = PROOFSIZE ->
  (forall e, e ∈ cycle0 ->
     exists x, 0 <= x < HALFSIZE /\ test alive0 x = Ok true /\
               (sipnode x 0, sipnode x 1) = e) ->
  exists ctx', solution alive0 ctx us nu vs nv = Ok ctx' /\
               nsols ctx' = u32 (nsols ctx + 1).
Proof.
  intros Hwf Hsols Hsoli Hp Hp32 Hcyc Hsz Hedges.
  unfold cycle_edges in Hcyc.
  bind_as Hcyc u0 Hu0. bind_as Hcyc v0 Hv0. bind_as Hcyc cycle1 Hc1.
  destruct (vec_get_in_range (sols ctx) (nsols ctx) Hsoli) as [row0 Hrow0].
  assert (Hlen0 : Z.of_nat (length row0) = PROOFSIZE).
  { apply vec_get_Ok in Hrow0 as [_ Hl].
    exact (proj1 (Forall_lookup _ _) Hsols _ _ Hl). }
  unfold solution. rewrite Hu0, Hv0. cbn [bind]. rewrite Hc1. cbn [bind].
  rewrite Hcyc. cbn [bind]. rewrite Hrow0. cbn [bind].
  destruct (solution_sweep_all nthreads alive0 (cycle0, row0, 0) Hwf)
    as (L & -> & HL).
  destruct (solution_fold_complete cycle0 L Hp Hp32 Hsz cycle0 row0 0)
    as (cyc' & row' & n' & -> & Hsub & Hn' & Hrow' & Hall);
    [reflexivity | lia | exact Hlen0 |].
  cbn [bind].
  assert (Hempty : cyc' = ∅).
  { apply leibniz_equiv. apply elem_of_equiv_empty. intros e He.
    destruct (Hedges e (Hsub e He)) as (x & Hx & Ht & <-).
    exact (Hall x (HL x Hx Ht) He). }
  rewrite Hempty, size_empty in Hn'.
  replace (n' =? PROOFSIZE) with true by (symmetry; apply Z.eqb_eq; lia).
  rewrite vec_set_in_range by exact Hsoli. cbn [bind].
  eexists. split; reflexivity.
Qed.


(** ** A solution of the CUDA miner, from [find_cycles] to the line printed *)

(** X18. A cycle of the CUDA miner that gets a row.  When [nsols] is below
    MAXSOLS, [tpb] divides HALFSIZE/64, the cycle has PROOFSIZE edges
    ([1 + nu + nv] of them) and each of its edges is the edge of an alive
    nonce, then, whatever the row held before: [find_cycles] stores the
    cycle in the row at [nsols], [find_nonces] gives every entry of the row
    an alive nonce with the edge of the entry, and [main] prints PROOFSIZE
    nonces in ascending order, each alive and below HALFSIZE, whose edges
    are exactly the edges of the cycle. *)
Theorem gpu_solution_printed (tpb maxsols : Z) (b : list Z)
    (ctx : gpu_solutions) (us : list Z) (nu : nat) (vs : list Z) (nv : nat)
    (cycle0 : gset (Z * Z)) :
  0 < tpb -> (HALFSIZE / 64) mod tpb = 0 -> gpu_bits_wf b ->
  0 <= gnsols ctx < maxsols -> maxsols <= MAXINT ->
  Z.of_nat (length (gsols ctx)) = maxsols ->
  Forall (fun sol => Z.of_nat (length sol) = PROOFSIZE) (gsols ctx) ->
  Z.of_nat (1 + nu + nv) = PROOFSIZE ->
  cycle_edges us nu vs nv = Ok cycle0 ->
  (forall e, e ∈ cycle0 ->
     exists n, 0 <= n < HALFSIZE /\ gpu_test b n = Ok true /\ gpu_edge n = e) ->
  exists ctx' rows row,
    gpu_solution maxsols ctx us nu vs nv = Ok ctx' /\
    gnsols ctx' = gnsols ctx + 1 /\
    find_nonces_launch tpb b (gnsols ctx') (gsols ctx') = Ok rows /\
    rows !! Z.to_nat (gnsols ctx) = Some row /\
    Z.of_nat (length (gpu_print_solution row)) = PROOFSIZE /\
    StronglySorted Z.le (gpu_print_solution row) /\
    List.Forall (fun n => 0 <= n < HALFSIZE /\ gpu_test b n = Ok true /\
                          gpu_edge n ∈ cycle0)
      (gpu_print_solution row) /\
    list_to_set (map gpu_edge (gpu_print_solution row)) = cycle0.
Proof.
  intros Ht Hd Hb Hslot Hmax Hrows Hlens Hlen Hc Halive.
  set (slot := Z.to_nat (gnsols ctx)).
  destruct (lookup_lt_is_Some_2 (gsols ctx) slot) as [row0 Hrow0];
    [unfold slot; lia|].
  assert (Hl0 : Z.of_nat (length row0) = PROOFSIZE)
    by exact (proj1 (Forall_lookup _ _) Hlens _ _ Hrow0).
  destruct (gpu_record_spec row0 us nu vs nv cycle0 Hc ltac:(lia))
    as (row1 & Hr & Hl1 & _ & Hs).
  assert (Hget : vec_get (gsols ctx) (gnsols ctx) = Ok row0)
    by (apply vec_get_Ok; split; [lia | exact Hrow0]).
  set (sols1 := <[slot := row1]> (gsols ctx)).
  assert (Hsol : gpu_solution maxsols ctx us nu vs nv
                 = Ok (mk_gpu_solutions sols1 (gnsols ctx + 1))).
  { unfold gpu_solution.
    replace (gnsols ctx <? maxsols) with true by (symmetry; apply Z.ltb_lt; lia).
    rewrite Hget. cbn [bind]. rewrite Hr. cbn [bind].
    rewrite vec_set_in_range by (apply (vec_get_lt _ _ _ Hget)). cbn [bind].
    f_equal. f_equal. unfold atomicInc.
    assert (HM : MAXINT = 2 ^ 30) by reflexivity.
    destruct (Z.leb_spec MAXINT (gnsols ctx)); [lia|].
    apply wrap_small. lia. }
  set (L := find_nonces_nonces tpb b).
  set (cell := fun ne => fold_left (fun ne n => match_cell n ne) L ne).
  assert (HL : forall n, In n L <-> 0 <= n < HALFSIZE /\ gpu_test b n = Ok true).
  { intros n. unfold L. rewrite find_nonces_nonces_In by assumption.
    split; intros [Hn Ha]; (split; [exact Hn|]).
    - rewrite (gpu_test_is_alive b n Hb Hn), Ha. reflexivity.
    - rewrite (gpu_test_is_alive b n Hb Hn) in Ha. congruence. }
  assert (Hlens1 : Forall (fun sol => Z.of_nat (length sol) = PROOFSIZE) sols1).
  { unfold sols1. apply Forall_insert; [exact Hlens | lia]. }
  assert (Hfn : find_nonces_launch tpb b (gnsols ctx + 1) sols1
                = Ok (map (map cell) (take (S slot) sols1)
                        ++ drop (S slot) sols1)).
  { rewrite find_nonces_launch_fold by assumption.
    replace (gnsols ctx + 1) with (Z.of_nat (S slot)) by (unfold slot; lia).
    apply find_nonces_fold; [|exact Hlens1].
    unfold sols1. rewrite length_insert. unfold slot. lia. }
  assert (Hcell : forall ne, In ne row1 ->
            edge (cell ne) = edge ne /\
            (0 <= nonce (cell ne) < HALFSIZE /\
             gpu_test b (nonce (cell ne)) = Ok true) /\
            gpu_edge (nonce (cell ne)) = edge ne).
  { intros ne Hne. destruct (match_cell_fold L ne) as (He & Hsome & _).
    fold (cell ne) in He, Hsome. split; [exact He|].
    destruct (Halive (edge ne)) as (n & Hn & Ha & Hedge).
    { rewrite <- Hs. apply elem_of_list_to_set, list_elem_of_In, in_map. exact Hne. }
    destruct Hsome as [Hin Hed].
    { exists n. split; [apply HL; auto | exact Hedge]. }
    split; [apply HL; exact Hin | exact Hed]. }
  exists (mk_gpu_solutions sols1 (gnsols ctx + 1)),
    (map (map cell) (take (S slot) sols1) ++ drop (S slot) sols1),
    (map cell row1).
  split; [exact Hsol|]. cbn [gnsols gsols]. split; [reflexivity|].
  split; [exact Hfn|].
  assert (Hperm : Permutation (gpu_print_solution (map cell row1))
                    (map nonce (map cell row1))).
  { unfold gpu_print_solution. apply Permutation_map, qsort_perm. }
  split; [|split; [|split; [|split]]].
  - fold slot. rewrite lookup_app_l
      by (rewrite length_map, length_take; unfold sols1;
          rewrite length_insert; unfold slot; lia).
    rewrite list_lookup_fmap, lookup_take_lt by lia. unfold sols1.
    rewrite list_lookup_insert_eq by (unfold slot; lia). reflexivity.
  - rewrite (Permutation_length Hperm), !length_map. lia.
  - apply gpu_print_solution_sorted. apply List.Forall_forall. intros x Hx.
    apply in_map_iff in Hx as (ne & <- & Hne).
    exact (proj1 (proj1 (proj2 (Hcell ne Hne)))).
  - apply List.Forall_forall. intros n Hn.
    apply (Permutation_in _ Hperm) in Hn.
    apply in_map_iff in Hn as (x & <- & Hx).
    apply in_map_iff in Hx as (ne & <- & Hne).
    destruct (Hcell ne Hne) as (_ & [Hr1 Hr2] & He).
    split; [exact Hr1|]. split; [exact Hr2|]. rewrite He, <- Hs.
    apply elem_of_list_to_set, list_elem_of_In, in_map. exact Hne.
  - rewrite (Permutation_map gpu_edge Hperm), <- Hs. f_equal.
    rewrite !map_map. apply map_ext_in. intros ne Hne.
    exact (proj2 (proj2 (Hcell ne Hne))).
Qed.

(** ** The solutions the search of the pthread miner reports *)






(** ** cuckoo_hash *)

Hypothesis IDXSHIFT_lo : 0 <= IDXSHIFT.
Hypothesis IDXSHIFT_hi : IDXSHIFT <= SIZESHIFT.

Lemma SIZE_pos : 0 < SIZE <= 2 ^ 32.
Proof.
  unfold SIZE. split; [apply Z.pow_pos_nonneg; lia|].
  apply Z.pow_le_mono_r; lia.
Qed.

Lemma CUCKOO_SIZE_range : 0 < CUCKOO_SIZE <= 2 ^ 32.
Proof.
  rewrite CUCKOO_SIZE_pow by lia. split; [apply Z.pow_pos_nonneg; lia|].
  apply Z.pow_le_mono_r; lia.
Qed.

Lemma set_probe_probe (fuel : nat) (c : list Z) (u niew ui : Z) :
  set_probe fuel c u niew ui
  = do r <- probe fuel c u ui ; vec_set c r.1 niew.
Proof.
  revert ui. induction fuel as [|fuel IH]; intros ui; [reflexivity|].
  cbn [set_probe probe]. destruct (vec_get c ui) as [cu|e]; [|reflexivity].
  cbn [bind]. destruct (cu =? 0); [reflexivity|]. cbn [orb].
  destruct (Z.shiftr cu SIZESHIFT =? Z.land u KEYMASK); [reflexivity|]. apply IH.
Qed.

Lemma get_probe_probe (fuel : nat) (c : list Z) (u ui : Z) :
  get_probe fuel c u ui
  = do r <- probe fuel c u ui ;
    if r.2 then
      do cu <- vec_get c r.1 ;
      if Z.land (node_t (r.1 - Z.shiftr u IDXSHIFT)) CUCKOO_MASK <? MAXDRIFT
      then Ok (node_t (Z.land cu (SIZE - 1)))
      else Err AssertFailed
    else Ok 0.
Proof.
  revert ui. induction fuel as [|fuel IH]; intros ui; [reflexivity|].
  cbn [get_probe probe]. destruct (vec_get c ui) as [cu|e] eqn:Hcu; [|reflexivity].
  cbn [bind]. destruct (cu =? 0); [reflexivity|].
  destruct (Z.shiftr cu SIZESHIFT =? Z.land u KEYMASK); [|apply IH].
  cbn [bind fst snd]. rewrite Hcu. reflexivity.
Qed.

Lemma probe_Ok (fuel : nat) (c : list Z) (u : Z) :
  forall ui j b,
    probe fuel c u ui = Ok (j, b) ->
    exists e, vec_get c j = Ok e /\
              (if b then e <> 0 /\ Z.shiftr e SIZESHIFT = Z.land u KEYMASK
               else e = 0).
Proof.
  induction fuel as [|fuel IH]; intros ui j b H; [discriminate|].
  cbn [probe] in H. bind_as H cu Hcu.
  destruct (Z.eqb_spec cu 0) as [->|Hnz].
  - injection H as <- <-. eauto.
  - destruct (Z.eqb_spec (Z.shiftr cu SIZESHIFT) (Z.land u KEYMASK)) as [Hk|Hk].
    + injection H as <- <-. eauto.
    + apply (IH _ _ _ H).
Qed.

Lemma next_slot (ui : Z) :
  0 <= ui < CUCKOO_SIZE ->
  Z.land (node_t (ui + 1)) CUCKOO_MASK = (ui + 1) mod CUCKOO_SIZE.
Proof.
  intros Hui. unfold CUCKOO_MASK, node_t, wrap.
  rewrite NONCE_BITS_32, CUCKOO_SIZE_pow by lia.
  rewrite Z.sub_1_r, <- Z.ones_equiv, Z.land_ones by lia.
  replace 32 with ((SIZESHIFT - IDXSHIFT) + (32 - (SIZESHIFT - IDXSHIFT))) by lia.
  rewrite Z.pow_add_r by lia.
  rewrite Z.rem_mul_r by (apply Z.pow_nonzero || apply Z.pow_pos_nonneg; lia).
  rewrite Z.mul_comm, Z.mod_add by (apply Z.pow_nonzero; lia).
  apply Z.mod_mod. apply Z.pow_nonzero; lia.
Qed.

(** A probe ends when a slot on its way is empty. *)
Lemma probe_reaches (c : list Z) (u : Z) :
  Z.of_nat (length c) = CUCKOO_SIZE ->
  forall (d fuel : nat) (ui : Z),
    (d < fuel)%nat -> 0 <= ui < CUCKOO_SIZE ->
    vec_get c ((ui + Z.of_nat d) mod CUCKOO_SIZE) = Ok 0 ->
    exists r, probe fuel c u ui = Ok r.
Proof.
  intros Hlen. pose proof CUCKOO_SIZE_range as Hcs.
  induction d as [|d IH]; intros fuel ui Hd Hui Hz;
    (destruct fuel as [|fuel]; [lia|]); cbn [probe].
  - rewrite Z.add_0_r, Z.mod_small in Hz by lia. rewrite Hz. cbn [bind].
    rewrite Z.eqb_refl. eauto.
  - destruct (vec_get_in_range c ui) as [cu Hcu]; [lia|]. rewrite Hcu. cbn [bind].
    destruct (cu =? 0); [eauto|].
    destruct (Z.shiftr cu SIZESHIFT =? Z.land u KEYMASK); [eauto|].
    rewrite next_slot by assumption. apply IH.
    + lia.
    + apply Z.mod_pos_bound. lia.
    + rewrite Zplus_mod_idemp_l.
      replace (ui + 1 + Z.of_nat d) with (ui + Z.of_nat (S d)) by lia. exact Hz.
Qed.

Lemma occupied_lt_empty (c : list Z) :
  (occupied c < length c)%nat -> exists j, c !! j = Some 0.
Proof.
  unfold occupied. induction c as [|e c IH]; simpl; [lia|].
  destruct (Z.eqb_spec e 0) as [->|Hne]; simpl.
  - intros _. exists 0%nat. reflexivity.
  - intros H. destruct IH as [j Hj]; [lia|]. exists (S j). exact Hj.
Qed.

Lemma probe_terminates (c : list Z) (u ui : Z) :
  Z.of_nat (length c) = CUCKOO_SIZE -> (occupied c < length c)%nat ->
  0 <= ui < CUCKOO_SIZE ->
  exists r, probe (Z.to_nat CUCKOO_SIZE) c u ui = Ok r.
Proof.
  intros Hlen Hocc Hui. pose proof CUCKOO_SIZE_range as Hcs.
  destruct (occupied_lt_empty c Hocc) as [j Hj].
  pose proof (lookup_lt_Some _ _ _ Hj) as Hjl.
  apply (probe_reaches c u Hlen (Z.to_nat ((Z.of_nat j - ui) mod CUCKOO_SIZE))).
  - pose proof (Z.mod_pos_bound (Z.of_nat j - ui) CUCKOO_SIZE ltac:(lia)). lia.
  - exact Hui.
  - rewrite Z2Nat.id by (apply Z.mod_pos_bound; lia).
    rewrite Zplus_mod_idemp_r.
    replace (ui + (Z.of_nat j - ui)) with (Z.of_nat j) by lia.
    rewrite Z.mod_small by lia. apply vec_get_Ok. split; [lia|].
    rewrite Nat2Z.id. exact Hj.
Qed.

Lemma occupied_insert (c : list Z) (j : nat) (old e : Z) :
  c !! j = Some old ->
  (occupied (<[j := e]> c) + (if (old =? 0)%Z then 0 else 1)
   = occupied c + (if (e =? 0)%Z then 0 else 1))%nat.
Proof.
  unfold occupied. revert j. induction c as [|x c IH]; intros j Hj; [discriminate|].
  destruct j as [|j]; simpl in *.
  - injection Hj as ->. destruct (old =? 0), (e =? 0); simpl; lia.
  - specialize (IH j Hj). destruct (x =? 0); simpl; lia.
Qed.

(** Packed entries. *)
Lemma entry_fields (u v : Z) :
  0 <= u < SIZE -> 0 <= v < SIZE ->
  Z.shiftr (entry u v) SIZESHIFT = u /\
  Z.land (entry u v) (SIZE - 1) = v /\
  Z.land u KEYMASK = u.
Proof.
  intros Hu Hv. pose proof SIZE_pos as Hs. unfold SIZE in *.
  assert (Hw : u64 (Z.shiftl u SIZESHIFT) = Z.shiftl u SIZESHIFT).
  { apply wrap_small. rewrite Z.shiftl_mul_pow2 by lia. split; [nia|].
    change (2 ^ 64) with (2 ^ 32 * 2 ^ 32).
    assert (2 ^ SIZESHIFT <= 2 ^ 32) by (apply Z.pow_le_mono_r; lia). nia. }
  unfold entry. rewrite Hw. split; [|split].
  - rewrite Z.shiftr_lor, Z.shiftr_shiftl_l, Z.sub_diag, Z.shiftl_0_r by lia.
    rewrite (Z.shiftr_div_pow2 v), Z.div_small, Z.lor_0_r by lia. reflexivity.
  - rewrite Z.sub_1_r, <- Z.ones_equiv, Z.land_lor_distr_l, !Z.land_ones by lia.
    rewrite Z.shiftl_mul_pow2, Z.mod_mul, Z.mod_small by lia. reflexivity.
  - unfold KEYMASK, KEYBITS. rewrite Z.shiftl_1_l, Z.sub_1_r, <- Z.ones_equiv.
    rewrite Z.land_ones by lia. apply Z.mod_small. split; [lia|].
    apply Z.lt_le_trans with (2 ^ SIZESHIFT); [lia|].
    apply Z.pow_le_mono_r; lia.
Qed.

Lemma entry_nonzero (u v : Z) :
  0 <= u < SIZE /\ (u <> 0 \/ v <> 0) -> 0 <= v < SIZE -> entry u v <> 0.
Proof.
  intros Hu Hv E. destruct (entry_fields u v ltac:(lia) Hv) as (Hk & Hl & _).
  rewrite E, Z.shiftr_0_l in Hk. rewrite E, Z.land_0_l in Hl. lia.
Qed.

Lemma home_range (u : Z) : 0 <= u < SIZE -> 0 <= home u < CUCKOO_SIZE.
Proof.
  intros Hu. unfold home. rewrite CUCKOO_SIZE_pow, Z.shiftr_div_pow2 by lia.
  pose proof (Z.pow_pos_nonneg 2 IDXSHIFT ltac:(lia) ltac:(lia)).
  split; [apply Z.div_pos; lia|].
  apply Z.div_lt_upper_bound; [lia|].
  rewrite <- Z.pow_add_r by lia.
  replace (IDXSHIFT + (SIZESHIFT - IDXSHIFT)) with SIZESHIFT by lia.
  exact (proj2 Hu).
Qed.


(** The bound on the probe loops loses nothing: a probe that is still going
    after [CUCKOO_SIZE] slots has seen every slot of the table, each taken by
    another key, and goes round for ever. *)
Lemma probe_spins_slots (c : list Z) (u : Z) :
  forall (fuel : nat) (ui : Z),
    0 <= ui < CUCKOO_SIZE -> probe fuel c u ui = Err Spins ->
    forall d : nat, (d < fuel)%nat ->
      exists e, vec_get c ((ui + Z.of_nat d) mod CUCKOO_SIZE) = Ok e /\
                e <> 0 /\ Z.shiftr e SIZESHIFT <> Z.land u KEYMASK.
Proof.
  pose proof CUCKOO_SIZE_range as Hcs.
  induction fuel as [|fuel IH]; intros ui Hui H d Hd; [lia|].
  cbn [probe] in H. destruct (vec_get c ui) as [cu|f] eqn:Hcu; cbn [bind] in H;
    [|injection H as ->; exfalso; exact (vec_get_no_spin c ui Hcu)].
  destruct (Z.eqb_spec cu 0) as [|Hnz]; [discriminate|].
  destruct (Z.eqb_spec (Z.shiftr cu SIZESHIFT) (Z.land u KEYMASK)) as [|Hk];
    [discriminate|].
  destruct d as [|d].
  - rewrite Z.add_0_r, Z.mod_small by lia. eauto.
  - rewrite next_slot in H by assumption.
    destruct (IH _ (Z.mod_pos_bound (ui + 1) CUCKOO_SIZE ltac:(lia)) H d ltac:(lia))
      as (e & He & Hne & Hke).
    exists e. split; [|auto].
    rewrite Zplus_mod_idemp_l in He.
    replace (ui + Z.of_nat (S d)) with (ui + 1 + Z.of_nat d) by lia. exact He.
Qed.

Lemma probe_spins (c : list Z) (u ui : Z) :
  0 <= ui < CUCKOO_SIZE ->
  probe (Z.to_nat CUCKOO_SIZE) c u ui = Err Spins ->
  forall fuel : nat, probe fuel c u ui = Err Spins.
Proof.
  intros Hui H fuel. pose proof CUCKOO_SIZE_range as Hcs.
  assert (Hall : forall j, 0 <= j < CUCKOO_SIZE ->
            exists e, vec_get c j = Ok e /\
                      e <> 0 /\ Z.shiftr e SIZESHIFT <> Z.land u KEYMASK).
  { intros j Hj.
    pose proof (Z.mod_pos_bound (j - ui) CUCKOO_SIZE ltac:(lia)) as Hd.
    destruct (probe_spins_slots c u _ ui Hui H
                (Z.to_nat ((j - ui) mod CUCKOO_SIZE)) ltac:(lia)) as (e & He & Hr).
    exists e. split; [|exact Hr].
    rewrite Z2Nat.id, Zplus_mod_idemp_r in He by lia.
    replace (ui + (j - ui)) with j in He by lia.
    rewrite Z.mod_small in He by lia. exact He. }
  clear H. revert ui Hui. induction fuel as [|fuel IH]; intros ui Hui;
    [reflexivity|].
  cbn [probe]. destruct (Hall ui Hui) as (e & -> & Hne & Hk). cbn [bind].
  destruct (Z.eqb_spec e 0); [contradiction|].
  destruct (Z.eqb_spec (Z.shiftr e SIZESHIFT) (Z.land u KEYMASK)); [contradiction|].
  rewrite next_slot by assumption. apply IH. apply Z.mod_pos_bound. lia.
Qed.

Lemma cuckoo_get_spins (c : list Z) (u : Z) :
  0 <= u < SIZE -> cuckoo_get c u = Err Spins ->
  forall fuel : nat, get_probe fuel c u (Z.shiftr u IDXSHIFT) = Err Spins.
Proof.
  intros Hu H fuel. unfold cuckoo_get in H. rewrite get_probe_probe in *.
  fold (home u) in *.
  destruct (probe (Z.to_nat CUCKOO_SIZE) c u (home u)) as [r|f] eqn:Hp.
  - exfalso. cbn [bind] in H. destruct r.2; [|discriminate].
    destruct (vec_get c r.1) as [cu|f] eqn:Hcu; cbn [bind] in H;
      [|injection H as ->; exact (vec_get_no_spin c r.1 Hcu)].
    destruct (Z.land (node_t (r.1 - home u)) CUCKOO_MASK <? MAXDRIFT);
      discriminate.
  - cbn [bind] in H. injection H as ->.
    rewrite (probe_spins c u (home u) (home_range u Hu) Hp fuel). reflexivity.
Qed.

Lemma cuckoo_set_spins (c : list Z) (u v : Z) :
  0 <= u < SIZE -> cuckoo_set c u v = Err Spins ->
  forall fuel : nat,
    set_probe fuel c u (Z.lor (u64 (Z.shiftl u SIZESHIFT)) v) (Z.shiftr u IDXSHIFT)
    = Err Spins.
Proof.
  intros Hu H fuel. unfold cuckoo_set in H. rewrite set_probe_probe in *.
  fold (home u) in *.
  destruct (probe (Z.to_nat CUCKOO_SIZE) c u (home u)) as [r|f] eqn:Hp.
  - exfalso. cbn [bind] in H. eapply vec_set_no_spin. exact H.
  - cbn [bind] in H. injection H as ->.
    rewrite (probe_spins c u (home u) (home_range u Hu) Hp fuel). reflexivity.
Qed.

Lemma vec_get_insert_ne (v : list Z) (i j x : Z) :
  0 <= j -> i <> j -> vec_get (<[Z.to_nat j := x]> v) i = vec_get v i.
Proof.
  intros Hj Hne. unfold vec_get. destruct (Z.leb_spec 0 i); [|reflexivity].
  rewrite list_lookup_insert_ne by lia. reflexivity.
Qed.

(** Filling an empty slot does not disturb the probes that found their key. *)
Lemma probe_insert_other (c : list Z) (j e k : Z) :
  vec_get c j = Ok 0 ->
  forall (fuel : nat) (ui j' : Z),
    probe fuel c k ui = Ok (j', true) ->
    probe fuel (<[Z.to_nat j := e]> c) k ui = Ok (j', true).
Proof.
  intros Hj. pose proof (vec_get_lt _ _ _ Hj) as Hjr.
  induction fuel as [|fuel IH]; intros ui j' H; [discriminate|].
  cbn [probe] in *. bind_as H cu Hcu.
  assert (Hne : ui <> j).
  { intros ->. rewrite Hj in Hcu. injection Hcu as <-. discriminate. }
  rewrite vec_get_insert_ne, Hcu by lia. cbn [bind].
  destruct (cu =? 0); [exact H|].
  destruct (Z.shiftr cu SIZESHIFT =? Z.land k KEYMASK); [exact H|].
  apply IH. exact H.
Qed.

(** The probe that ended at an empty slot finds its key there once the slot
    holds it. *)
Lemma probe_insert_new (c : list Z) (u e : Z) :
  e <> 0 -> Z.shiftr e SIZESHIFT = Z.land u KEYMASK ->
  forall (fuel : nat) (ui j : Z),
    probe fuel c u ui = Ok (j, false) ->
    probe fuel (<[Z.to_nat j := e]> c) u ui = Ok (j, true).
Proof.
  intros He Hk. induction fuel as [|fuel IH]; intros ui j H; [discriminate|].
  cbn [probe] in *. bind_as H cu Hcu.
  pose proof (vec_get_lt _ _ _ Hcu) as Hur.
  destruct (Z.eqb_spec cu 0) as [->|Hnz].
  - injection H as <-. rewrite vec_get_set_eq by lia. cbn [bind].
    destruct (Z.eqb_spec e 0); [contradiction|].
    rewrite Hk, Z.eqb_refl. reflexivity.
  - destruct (Z.shiftr cu SIZESHIFT =? Z.land u KEYMASK) eqn:Hm; [discriminate|].
    destruct (probe_Ok _ _ _ _ _ _ H) as (e0 & He0 & ->).
    assert (Hne : ui <> j) by (intros ->; congruence).
    pose proof (vec_get_lt _ _ _ He0).
    rewrite vec_get_insert_ne, Hcu by lia. cbn [bind].
    destruct (Z.eqb_spec cu 0); [contradiction|]. rewrite Hm. apply IH. exact H.
Qed.

(** Writing a new value under the key a slot already holds changes no probe. *)
Lemma probe_overwrite (c : list Z) (j old e k : Z) :
  vec_get c j = Ok old -> old <> 0 -> e <> 0 ->
  Z.shiftr e SIZESHIFT = Z.shiftr old SIZESHIFT ->
  forall (fuel : nat) (ui : Z),
    probe fuel (<[Z.to_nat j := e]> c) k ui = probe fuel c k ui.
Proof.
  intros Hj Hold He Hk. pose proof (vec_get_lt _ _ _ Hj) as Hjr.
  induction fuel as [|fuel IH]; intros ui; [reflexivity|].
  cbn [probe]. destruct (Z.eq_dec ui j) as [->|Hne].
  - rewrite vec_get_set_eq, Hj by lia. cbn [bind].
    destruct (Z.eqb_spec e 0), (Z.eqb_spec old 0); try contradiction.
    rewrite Hk. destruct (Z.shiftr old SIZESHIFT =? Z.land k KEYMASK);
      [reflexivity | apply IH].
  - rewrite vec_get_insert_ne by lia.
    destruct (vec_get c ui) as [cu|]; [|reflexivity]. cbn [bind].
    destruct (cu =? 0); [reflexivity|].
    destruct (Z.shiftr cu SIZESHIFT =? Z.land k KEYMASK); [reflexivity | apply IH].
Qed.

Lemma cuckoo_new_inv : cuckoo_inv cuckoo_new ∅.
Proof.
  pose proof CUCKOO_SIZE_range as Hcs. unfold cuckoo_new.
  split; [rewrite length_replicate; lia|]. split; [|split].
  - intros j e Hj Hne. apply vec_get_Ok in Hj as [_ Hj].
    apply lookup_replicate in Hj as [-> _]. contradiction.
  - intros k v Hk. rewrite lookup_empty in Hk. discriminate.
  - rewrite map_size_empty. unfold occupied.
    induction (Z.to_nat CUCKOO_SIZE) as [|n IH]; [reflexivity | exact IH].
Qed.

Lemma cuckoo_set_inv (c : list Z) (m : gmap Z Z) (u v : Z) :
  cuckoo_inv c m -> 0 <= u < SIZE /\ (u <> 0 \/ v <> 0) -> 0 <= v < SIZE ->
  Z.of_nat (size (<[u := v]> m)) <= CUCKOO_SIZE ->
  exists c', cuckoo_set c u v = Ok c' /\ cuckoo_inv c' (<[u := v]> m).
Proof.
  intros (Hlen & Hslots & Hkeys & Hocc) Hu Hv Hcap.
  pose proof CUCKOO_SIZE_range as Hcs.
  destruct (entry_fields u v ltac:(lia) Hv) as (Ekey & Eval & Emask).
  pose proof (entry_nonzero u v Hu Hv) as Enz.
  unfold cuckoo_set. fold (entry u v). fold (home u). rewrite set_probe_probe.
  destruct (m !! u) as [v0|] eqn:Hmu.
  - (* the key is in the table: its slot is overwritten *)
    destruct (Hkeys u v0 Hmu) as (Hu0 & Hv0 & j & Hp & Hj).
    pose proof (vec_get_lt _ _ _ Hj) as Hjr.
    destruct (entry_fields u v0 ltac:(lia) Hv0) as (Ekey0 & _ & _).
    pose proof (entry_nonzero u v0 Hu0 Hv0) as Enz0.
    assert (Hsame : forall fuel k ui,
              probe fuel (<[Z.to_nat j := entry u v]> c) k ui = probe fuel c k ui).
    { intros fuel k ui. apply (probe_overwrite c j (entry u v0)); try assumption.
      congruence. }
    rewrite Hp. cbn [bind fst]. rewrite vec_set_in_range by lia.
    eexists. split; [reflexivity|].
    split; [rewrite length_insert; exact Hlen|]. split; [|split].
    + intros j' e' Hj' Hne'. destruct (Z.eq_dec j' j) as [->|Hjj].
      * rewrite vec_get_set_eq in Hj' by lia. injection Hj' as <-.
        exists u, v. rewrite lookup_insert_eq, Hsame. auto.
      * rewrite vec_get_insert_ne in Hj' by lia.
        destruct (Hslots j' e' Hj' Hne') as (k & v' & -> & Hk & Hv' & Hmk & Hpk).
        assert (k <> u) by (intros ->; rewrite Hp in Hpk; congruence).
        exists k, v'. rewrite lookup_insert_ne, Hsame by congruence. auto.
    + intros k v' Hmk. destruct (Z.eq_dec k u) as [->|Hku].
      * rewrite lookup_insert_eq in Hmk. injection Hmk as <-.
        split; [lia|]. split; [lia|]. exists j. rewrite Hsame.
        split; [exact Hp | apply vec_get_set_eq; lia].
      * rewrite lookup_insert_ne in Hmk by congruence.
        destruct (Hkeys k v' Hmk) as (Hk & Hv' & j' & Hpk & Hj').
        split; [exact Hk|]. split; [exact Hv'|]. exists j'. rewrite Hsame.
        split; [exact Hpk|].
        assert (j' <> j).
        { intros ->. rewrite Hj in Hj'. injection Hj' as E.
          destruct (entry_fields k v' ltac:(lia) Hv') as (Ek & _ & _).
          apply Hku. rewrite <- Ek, <- E. exact Ekey0. }
        rewrite vec_get_insert_ne by lia. exact Hj'.
    + rewrite map_size_insert_Some by eauto.
      apply vec_get_Ok in Hj as [_ Hj].
      pose proof (occupied_insert c (Z.to_nat j) _ (entry u v) Hj) as Ho.
      destruct (Z.eqb_spec (entry u v0) 0), (Z.eqb_spec (entry u v) 0);
        try contradiction. lia.
  - (* a new key: the probe ends at an empty slot *)
    rewrite map_size_insert_None in Hcap by assumption.
    destruct (probe_terminates c u (home u) Hlen ltac:(lia) (home_range u ltac:(lia)))
      as [[j b] Hp].
    destruct (probe_Ok _ _ _ _ _ _ Hp) as (e & Hj & Hb).
    pose proof (vec_get_lt _ _ _ Hj) as Hjr.
    assert (b = false).
    { destruct b; [|reflexivity]. destruct Hb as [Hne Hk].
      destruct (Hslots j e Hj Hne) as (k & v' & -> & Hkr & Hv' & Hmk & _).
      destruct (entry_fields k v' ltac:(lia) Hv') as (Ek & _ & _).
      rewrite Ek, Emask in Hk. subst k. congruence. }
    subst b e.
    rewrite Hp. cbn [bind fst]. rewrite vec_set_in_range by lia.
    eexists. split; [reflexivity|].
    split; [rewrite length_insert; exact Hlen|]. split; [|split].
    + intros j' e' Hj' Hne'. destruct (Z.eq_dec j' j) as [->|Hjj].
      * rewrite vec_get_set_eq in Hj' by lia. injection Hj' as <-.
        exists u, v. rewrite lookup_insert_eq.
        repeat split; try lia.
        apply probe_insert_new; [exact Enz | congruence | exact Hp].
      * rewrite vec_get_insert_ne in Hj' by lia.
        destruct (Hslots j' e' Hj' Hne') as (k & v' & -> & Hk & Hv' & Hmk & Hpk).
        assert (k <> u) by congruence.
        exists k, v'. rewrite lookup_insert_ne by congruence.
        repeat split; try lia; try assumption.
        apply probe_insert_other; assumption.
    + intros k v' Hmk. destruct (Z.eq_dec k u) as [->|Hku].
      * rewrite lookup_insert_eq in Hmk. injection Hmk as <-.
        split; [lia|]. split; [lia|]. exists j. split.
        -- apply probe_insert_new; [exact Enz | congruence | exact Hp].
        -- apply vec_get_set_eq. lia.
      * rewrite lookup_insert_ne in Hmk by congruence.
        destruct (Hkeys k v' Hmk) as (Hk & Hv' & j' & Hpk & Hj').
        split; [exact Hk|]. split; [exact Hv'|]. exists j'.
        split; [apply probe_insert_other; assumption|].
        assert (j' <> j).
        { intros ->. rewrite Hj in Hj'. injection Hj' as E.
          exact (entry_nonzero k v' Hk Hv' (eq_sym E)). }
        rewrite vec_get_insert_ne by lia. exact Hj'.
    + rewrite map_size_insert_None by assumption.
      apply vec_get_Ok in Hj as [_ Hj].
      pose proof (occupied_insert c (Z.to_nat j) _ (entry u v) Hj) as Ho.
      destruct (Z.eqb_spec (entry u v) 0); [contradiction|].
      rewrite Z.eqb_refl in Ho. lia.
Qed.

Lemma cuckoo_get_inv (c : list Z) (m : gmap Z Z) (u : Z) :
  cuckoo_inv c m -> Z.of_nat (size m) < CUCKOO_SIZE -> 0 <= u < SIZE ->
  cuckoo_get c u = Ok (default 0 (m !! u)).
Proof.
  intros (Hlen & Hslots & Hkeys & Hocc) Hcap Hu.
  pose proof CUCKOO_SIZE_range as Hcs. pose proof SIZE_pos as Hsz.
  unfold cuckoo_get. fold (home u). rewrite get_probe_probe.
  destruct (probe_terminates c u (home u) Hlen ltac:(lia) (home_range u Hu))
    as [[j b] Hp].
  destruct (probe_Ok _ _ _ _ _ _ Hp) as (e & Hj & Hb).
  rewrite Hp. cbn [bind fst snd]. destruct b.
  - destruct Hb as [Hne Hk].
    destruct (Hslots j e Hj Hne) as (k & v & -> & Hkr & Hv & Hmk & _).
    destruct (entry_fields k v ltac:(lia) Hv) as (Ek & Ev & _).
    assert (Emask : Z.land u KEYMASK = u)
      by (apply (entry_fields u 0); lia).
    rewrite Ek, Emask in Hk. subst k. rewrite Hj, Hmk. cbn [bind default].
    assert (Hd : Z.land (node_t (j - Z.shiftr u IDXSHIFT)) CUCKOO_MASK < MAXDRIFT).
    { unfold CUCKOO_MASK, MAXDRIFT, KEYBITS.
      rewrite CUCKOO_SIZE_pow, Z.sub_1_r, <- Z.ones_equiv, Z.land_ones by lia.
      rewrite Z.shiftl_1_l.
      apply Z.lt_le_trans with (2 ^ (SIZESHIFT - IDXSHIFT)).
      - apply Z.mod_pos_bound. apply Z.pow_pos_nonneg; lia.
      - apply Z.pow_le_mono_r; lia. }
    apply Z.ltb_lt in Hd. rewrite Hd, Ev. f_equal.
    unfold node_t, id. rewrite NONCE_BITS_32. apply wrap_small. lia.
  - subst e. destruct (m !! u) as [v|] eqn:Hmu; [|reflexivity].
    destruct (Hkeys u v Hmu) as (_ & _ & j' & Hp' & _).
    rewrite Hp in Hp'. discriminate.
Qed.


Lemma model_size_mono (ops : list (Z * Z)) :
  forall m : gmap Z Z,
    (size m <= size (fold_left (fun m kv => <[kv.1 := kv.2]> m) ops m))%nat.
Proof.
  induction ops as [|[k v] ops IH]; intros m; simpl; [lia|].
  specialize (IH (<[k := v]> m)). rewrite map_size_insert in IH.
  destruct (m !! k); simpl in IH; lia.
Qed.

Lemma cuckoo_fold_inv (ops : list (Z * Z)) :
  forall (c : list Z) (m : gmap Z Z),
    cuckoo_inv c m ->
    List.Forall (fun kv => (0 <= kv.1 < SIZE /\ (kv.1 <> 0 \/ kv.2 <> 0)) /\
                           0 <= kv.2 < SIZE) ops ->
    Z.of_nat (size (fold_left (fun m kv => <[kv.1 := kv.2]> m) ops m))
      <= CUCKOO_SIZE ->
    exists c', foldM (fun c kv => cuckoo_set c kv.1 kv.2) ops c = Ok c' /\
               cuckoo_inv c' (fold_left (fun m kv => <[kv.1 := kv.2]> m) ops m).
Proof.
  induction ops as [|[k v] ops IH]; intros c m Hinv Hok Hcap.
  - exists c. split; [reflexivity | exact Hinv].
  - inversion Hok as [|? ? [Hk Hv] Hok']; subst. cbn [fst snd] in *.
    cbn [fold_left foldM fst snd] in *.
    pose proof (model_size_mono ops (<[k := v]> m)) as Hmono.
    destruct (cuckoo_set_inv c m k v Hinv Hk Hv ltac:(lia)) as (c1 & Hset & Hinv1).
    rewrite Hset. cbn [bind]. apply IH; assumption.
Qed.

Lemma last_set_model (ops : list (Z * Z)) (u : Z) :
  forall m : gmap Z Z,
    default 0 (fold_left (fun m kv => <[kv.1 := kv.2]> m) ops m !! u)
    = fold_left (fun acc kv => if kv.1 =? u then kv.2 else acc) ops
                (default 0 (m !! u)).
Proof.
  induction ops as [|[k v] ops IH]; intros m; [reflexivity|].
  cbn [fold_left fst snd]. rewrite IH. f_equal.
  destruct (Z.eqb_spec k u) as [->|Hne].
  - rewrite lookup_insert_eq. reflexivity.
  - rewrite lookup_insert_ne by assumption. reflexivity.
Qed.

(** C5 (amended). On a build with 7 <= SIZESHIFT <= 32 (the table keeps the
    whole key), after any run of set(u, v) calls on nodes below SIZE, none
    of them set(0, 0) (the entry of node 0 with value 0 is the empty mark of
    a slot), which set fewer distinct keys than the table has slots, every
    set has returned, and the lookup of any node u below SIZE returns the
    value of the most recent set for u, or 0 when u was never set; the
    table agrees with the map of the spec. *)
Theorem cuckoo_round_trip (ops : list (Z * Z)) (u : Z) :
  List.Forall (fun kv => 0 <= kv.1 < SIZE /\ 0 <= kv.2 < SIZE /\
                         (kv.1 <> 0 \/ kv.2 <> 0)) ops ->
  distinct_keys ops < CUCKOO_SIZE ->
  0 <= u < SIZE ->
  exists c, cuckoo_run ops = Ok c /\
            cuckoo_get c u = Ok (last_set ops u) /\
            model_lookup ops u = last_set ops u.
Proof.
  intros Hok Hcap Hu. unfold distinct_keys, cuckoo_model in Hcap.
  assert (Hok' : List.Forall
                   (fun kv => (0 <= kv.1 < SIZE /\ (kv.1 <> 0 \/ kv.2 <> 0)) /\
                              0 <= kv.2 < SIZE) ops).
  { eapply List.Forall_impl; [|exact Hok]. intros kv (H1 & H2 & H3).
    split; [split|]; assumption. }
  destruct (cuckoo_fold_inv ops cuckoo_new ∅ cuckoo_new_inv Hok' ltac:(lia))
    as (c & Hrun & Hinv).
  assert (Hls : model_lookup ops u = last_set ops u).
  { unfold model_lookup, cuckoo_model, last_set. rewrite last_set_model.
    rewrite lookup_empty. reflexivity. }
  exists c. split; [exact Hrun|]. split; [|exact Hls].
  rewrite <- Hls. apply cuckoo_get_inv; assumption.
Qed.

(** ** cuckoo_hash at its limits *)

Lemma drift_lt (x : Z) : Z.land x CUCKOO_MASK < MAXDRIFT.
Proof.
  clear siphash24. unfold CUCKOO_MASK, MAXDRIFT, KEYBITS.
  rewrite CUCKOO_SIZE_pow, Z.sub_1_r, <- Z.ones_equiv, Z.land_ones by lia.
  rewrite Z.shiftl_1_l.
  apply Z.lt_le_trans with (2 ^ (SIZESHIFT - IDXSHIFT)).
  - apply Z.mod_pos_bound. apply Z.pow_pos_nonneg; lia.
  - apply Z.pow_le_mono_r; lia.
Qed.

Lemma get_probe_no_assert (c : list Z) (u : Z) :
  forall (fuel : nat) (ui : Z), get_probe fuel c u ui <> Err AssertFailed.
Proof.
  induction fuel as [|fuel IH]; intros ui; cbn [get_probe]; [discriminate|].
  destruct (vec_get c ui) as [cu|f] eqn:Hcu; cbn [bind].
  - destruct (cu =? 0); [discriminate|].
    destruct (Z.shiftr cu SIZESHIFT =? Z.land u KEYMASK); [|apply IH].
    pose proof (drift_lt (node_t (ui - Z.shiftr u IDXSHIFT))) as Hd.
    apply Z.ltb_lt in Hd. rewrite Hd. discriminate.
  - intros [= ->]. unfold vec_get in Hcu.
    destruct (0 <=? ui); [|discriminate].
    destruct (c !! Z.to_nat ui); discriminate.
Qed.

(** X12. On a build with SIZESHIFT <= 32 the MAXDRIFT assert of [operator[]]
    never fails, whatever the table holds and whatever node is looked up: a
    probe is never further than CUCKOO_SIZE - 1 slots from its home, and
    CUCKOO_SIZE <= MAXDRIFT. *)
Theorem cuckoo_get_never_asserts (c : list Z) (u : Z) :
  cuckoo_get c u <> Err AssertFailed.
Proof. apply get_probe_no_assert. Qed.

Lemma occupied_full (c : list Z) :
  occupied c = length c -> forall j e, c !! j = Some e -> e <> 0.
Proof.
  clear. unfold occupied. induction c as [|x c IH]; intros H j e Hj; [discriminate|].
  pose proof (List.filter_length_le (fun e => negb (e =? 0)) c) as Hle.
  cbn [List.filter length] in H.
  destruct (Z.eqb_spec x 0) as [->|Hx]; cbn [negb length] in H; [lia|].
  destruct j as [|j]; cbn in Hj.
  - injection Hj as <-. exact Hx.
  - apply (IH ltac:(lia) j e Hj).
Qed.

Lemma probe_all_taken (c : list Z) (u : Z) :
  (forall j, 0 <= j < CUCKOO_SIZE ->
     exists e, vec_get c j = Ok e /\ e <> 0 /\
               Z.shiftr e SIZESHIFT <> Z.land u KEYMASK) ->
  forall (fuel : nat) (ui : Z),
    0 <= ui < CUCKOO_SIZE -> probe fuel c u ui = Err Spins.
Proof.
  intros Hall. pose proof CUCKOO_SIZE_range as Hcs.
  induction fuel as [|fuel IH]; intros ui Hui; [reflexivity|].
  cbn [probe]. destruct (Hall ui Hui) as (e & -> & Hne & Hk). cbn [bind].
  destruct (Z.eqb_spec e 0); [contradiction|].
  destruct (Z.eqb_spec (Z.shiftr e SIZESHIFT) (Z.land u KEYMASK)); [contradiction|].
  rewrite next_slot by assumption. apply IH. apply Z.mod_pos_bound. lia.
Qed.

Lemma full_table_taken (c : list Z) (m : gmap Z Z) (u : Z) :
  cuckoo_inv c m -> Z.of_nat (size m) = CUCKOO_SIZE -> 0 <= u < SIZE ->
  m !! u = None ->
  forall j, 0 <= j < CUCKOO_SIZE ->
    exists e, vec_get c j = Ok e /\ e <> 0 /\
              Z.shiftr e SIZESHIFT <> Z.land u KEYMASK.
Proof.
  intros (Hlen & Hslots & _ & Hocc) Hfull Hu Hnone j Hj.
  destruct (vec_get_in_range c j ltac:(lia)) as [e He].
  exists e. split; [exact He|].
  assert (Hne : e <> 0).
  { apply vec_get_Ok in He as [_ He].
    apply (occupied_full c ltac:(lia) _ _ He). }
  split; [exact Hne|].
  destruct (Hslots j e He Hne) as (k & v & -> & Hk & Hv & Hm & _).
  destruct (entry_fields k v ltac:(lia) Hv) as (-> & _ & _).
  destruct (entry_fields u 0 Hu ltac:(pose proof SIZE_pos; lia)) as (_ & _ & ->).
  intros ->. rewrite Hm in Hnone. discriminate.
Qed.

(** X13. A table filled to the last slot never answers for a key it does not
    hold: after sets (none of them set(0, 0), nodes below SIZE) with exactly
    CUCKOO_SIZE distinct keys, all of which return, the lookup of any other
    node goes round the table for ever, and so does a [set] for it. *)
Theorem cuckoo_full_table_spins (ops : list (Z * Z)) (u : Z) :
  List.Forall (fun kv => 0 <= kv.1 < SIZE /\ 0 <= kv.2 < SIZE /\
                         (kv.1 <> 0 \/ kv.2 <> 0)) ops ->
  distinct_keys ops = CUCKOO_SIZE ->
  0 <= u < SIZE -> cuckoo_model ops !! u = None ->
  exists c, cuckoo_run ops = Ok c /\
    (forall fuel : nat, get_probe fuel c u (Z.shiftr u IDXSHIFT) = Err Spins) /\
    (forall (v : Z) (fuel : nat),
       set_probe fuel c u (Z.lor (u64 (Z.shiftl u SIZESHIFT)) v)
         (Z.shiftr u IDXSHIFT) = Err Spins).
Proof.
  intros Hok Hfull Hu Hnone. unfold distinct_keys, cuckoo_model in *.
  assert (Hok' : List.Forall
                   (fun kv => (0 <= kv.1 < SIZE /\ (kv.1 <> 0 \/ kv.2 <> 0)) /\
                              0 <= kv.2 < SIZE) ops).
  { eapply List.Forall_impl; [|exact Hok]. intros kv (H1 & H2 & H3).
    split; [split|]; assumption. }
  destruct (cuckoo_fold_inv ops cuckoo_new ∅ cuckoo_new_inv Hok' ltac:(lia))
    as (c & Hrun & Hinv).
  exists c. split; [exact Hrun|].
  pose proof (probe_all_taken c u (full_table_taken c _ u Hinv Hfull Hu Hnone))
    as Hsp.
  split.
  - intros fuel. rewrite get_probe_probe. fold (home u).
    rewrite (Hsp fuel (home u) (home_range u Hu)). reflexivity.
  - intros v fuel. rewrite set_probe_probe. fold (home u).
    rewrite (Hsp fuel (home u) (home_range u Hu)). reflexivity.
Qed.

(** ** path: following the table to a root *)

Lemma MAXPATHLEN_range : 32 <= MAXPATHLEN <= 8192.
Proof.
  clear siphash24. unfold MAXPATHLEN.
  assert (H3 : 2 <= SIZESHIFT / 3 <= 10).
  { Z.div_mod_to_equations. lia. }
  rewrite Z.shiftl_mul_pow2 by lia.
  assert (2 ^ 2 <= 2 ^ (SIZESHIFT / 3)) by (apply Z.pow_le_mono_r; lia).
  assert (2 ^ (SIZESHIFT / 3) <= 2 ^ 10) by (apply Z.pow_le_mono_r; lia).
  lia.
Qed.

Lemma next_range (c : list Z) (m : gmap Z Z) (x : Z) :
  cuckoo_inv c m -> 0 <= next m x < SIZE.
Proof.
  intros (_ & _ & Hkeys & _). unfold next. pose proof SIZE_pos.
  destruct (m !! x) as [v|] eqn:Hx; cbn [default]; [|lia].
  apply (Hkeys x v Hx).
Qed.

Lemma walk_S (m : gmap Z Z) (u : Z) (k : nat) :
  walk m u (S k) = walk m (next m u) k.
Proof. unfold walk. apply Nat.iter_succ_r. Qed.

Lemma walk_range (c : list Z) (m : gmap Z Z) (u : Z) (k : nat) :
  cuckoo_inv c m -> 0 <= u < SIZE -> 0 <= walk m u k < SIZE.
Proof.
  intros Hinv Hu. destruct k as [|k]; [exact Hu|].
  unfold walk. cbn [Nat.iter]. apply (next_range c). exact Hinv.
Qed.

Lemma ends_after_S (m : gmap Z Z) (u : Z) (k : nat) :
  u <> 0 -> ends_after m (next m u) k -> ends_after m u (S k).
Proof.
  intros Hu [H0 Hne]. split; [rewrite walk_S; exact H0|].
  intros [|i] Hi; [exact Hu|]. rewrite walk_S. apply Hne. lia.
Qed.

Lemma path_spec (c : list Z) (m : gmap Z Z) :
  cuckoo_inv c m -> Z.of_nat (size m) < CUCKOO_SIZE ->
  forall (fuel : nat) (u : Z) (us : list Z) (nu : Z),
    0 <= u < SIZE -> Z.of_nat (length us) = MAXPATHLEN ->
    0 <= nu -> nu + Z.of_nat fuel = MAXPATHLEN -> (0 < fuel)%nat ->
    exists r, path fuel c u us nu = Ok r /\
      match r with
      | Some (nu', us') =>
        exists k : nat,
          nu' = nu + Z.of_nat k /\ nu' < MAXPATHLEN /\
          Z.of_nat (length us') = MAXPATHLEN /\
          ends_after m u k /\
          (forall i : nat, (i < k)%nat ->
             vec_get us' (nu + 1 + Z.of_nat i) = Ok (walk m u i)) /\
          (forall j, j <= nu \/ nu' < j -> vec_get us' j = vec_get us j)
      | None => forall i : nat, nu + Z.of_nat i < MAXPATHLEN -> walk m u i <> 0
      end.
Proof.
  intros Hinv Hcap. pose proof MAXPATHLEN_range as Hmp.
  induction fuel as [|fuel IH]; intros u us nu Hu Hlen Hnu Hf Hpos; [lia|].
  cbn [path]. destruct (Z.eqb_spec u 0) as [->|Hne].
  - exists (Some (nu, us)). split; [reflexivity|]. exists 0%nat.
    split; [lia|]. split; [lia|]. split; [exact Hlen|].
    split; [split; [reflexivity | intros i Hi; lia]|].
    split; [intros i Hi; lia | reflexivity].
  - assert (E : u32 (nu + 1) = nu + 1) by (apply wrap_small; lia).
    rewrite E. destruct (Z.leb_spec MAXPATHLEN (nu + 1)) as [Hge|Hlt].
    + exists None. split; [reflexivity|]. intros i Hi.
      assert (i = 0%nat) as -> by lia. exact Hne.
    + rewrite vec_set_in_range by lia. cbn [bind].
      rewrite (cuckoo_get_inv c m u Hinv Hcap Hu). fold (next m u). cbn [bind].
      destruct (IH (next m u) (<[Z.to_nat (nu + 1) := u]> us) (nu + 1))
        as (r & Hr & Hspec).
      * apply (next_range c). exact Hinv.
      * rewrite length_insert. exact Hlen.
      * lia.
      * lia.
      * lia.
      * exists r. split; [exact Hr|]. destruct r as [[nu' us']|].
        -- destruct Hspec as (k & Hk & Hlt' & Hlen' & Hend & Hst & Hsame).
           exists (S k). split; [lia|]. split; [exact Hlt'|].
           split; [exact Hlen'|]. split; [apply ends_after_S; assumption|].
           split.
           ++ intros [|i] Hi.
              ** rewrite Z.add_0_r, Hsame by lia.
                 apply vec_get_set_eq. lia.
              ** rewrite walk_S.
                 replace (nu + 1 + Z.of_nat (S i)) with (nu + 1 + 1 + Z.of_nat i)
                   by lia.
                 apply Hst. lia.
           ++ intros j Hj. rewrite Hsame by lia.
              destruct (Z.le_gt_cases 0 j) as [Hj0|Hj0].
              ** apply vec_get_set_ne; lia.
              ** unfold vec_get. destruct (Z.leb_spec 0 j); [lia | reflexivity].
        -- intros [|i] Hi; [exact Hne|]. rewrite walk_S. apply Hspec. lia.
Qed.

(** X14. [path] on a table that holds the map [m] and has a free slot, with an
    array of MAXPATHLEN nodes: the call returns; when it comes back with
    [nu], the nodes [u], [m[u]], [m[m[u]]], ... stand in [us[1..nu]], none of
    them is 0, the table gives 0 for the last one, [nu < MAXPATHLEN], and the
    rest of the array is as before; the thread exits instead exactly when
    the first MAXPATHLEN nodes on the way are all different from 0. *)
Theorem path_follows_table (c : list Z) (m : gmap Z Z) (u : Z) (us : list Z) :
  cuckoo_inv c m -> Z.of_nat (size m) < CUCKOO_SIZE ->
  0 <= u < SIZE -> Z.of_nat (length us) = MAXPATHLEN ->
  exists r, path path_fuel c u us 0 = Ok r /\
    match r with
    | Some (nu, us') =>
      0 <= nu < MAXPATHLEN /\ Z.of_nat (length us') = MAXPATHLEN /\
      walk m u (Z.to_nat nu) = 0 /\
      (forall i, 0 <= i < nu ->
         walk m u (Z.to_nat i) <> 0 /\
         vec_get us' (i + 1) = Ok (walk m u (Z.to_nat i))) /\
      (forall j, j <= 0 \/ nu < j -> vec_get us' j = vec_get us j)
    | None =>
      forall i, 0 <= i < MAXPATHLEN -> walk m u (Z.to_nat i) <> 0
    end.
Proof.
  intros Hinv Hcap Hu Hlen. pose proof MAXPATHLEN_range as Hmp.
  destruct (path_spec c m Hinv Hcap path_fuel u us 0 Hu Hlen)
    as (r & Hr & Hspec); try (unfold path_fuel; lia).
  exists r. split; [exact Hr|]. destruct r as [[nu us']|].
  - destruct Hspec as (k & -> & Hlt & Hlen' & [H0 Hnz] & Hst & Hsame).
    split; [lia|]. split; [exact Hlen'|].
    rewrite Z.add_0_l, Nat2Z.id. split; [exact H0|]. split.
    + intros i Hi. split; [apply Hnz; lia|].
      rewrite <- (Z2Nat.id i) at 1 by lia.
      rewrite (Z.add_comm _ 1). apply (Hst (Z.to_nat i)). lia.
    + intros j Hj. apply Hsame. lia.
  - intros i Hi. apply Hspec. lia.
Qed.

(** ** The search: adding an edge to the forest *)

Lemma sipnode_node (n uorv : Z) :
  0 <= uorv <= 1 ->
  sipnode n uorv = 2 * _sipnode n uorv + uorv /\ 0 <= sipnode n uorv < SIZE.
Proof.
  intros Hu. pose proof (sipnode_range n uorv) as Hr.
  pose proof HALFSIZE_pow as Hh. pose proof SIZE_pos as Hs.
  assert (E2 : SIZE = 2 * HALFSIZE).
  { rewrite Hh. unfold SIZE.
    replace SIZESHIFT with (1 + (SIZESHIFT - 1)) at 1 by lia.
    rewrite Z.pow_add_r by lia. reflexivity. }
  assert (E : sipnode n uorv = 2 * _sipnode n uorv + uorv).
  { unfold sipnode. rewrite Z.shiftl_mul_pow2 by lia.
    rewrite nonce_t_small by lia. change (2 ^ 1) with 2.
    pose proof (Z.add_lor_land (_sipnode n uorv * 2) uorv) as Ha.
    assert (Z.land (_sipnode n uorv * 2) uorv = 0).
    { assert (uorv = 0 \/ uorv = 1) as [->| ->] by lia.
      - apply Z.land_0_r.
      - change 1 with (Z.ones 1). rewrite Z.land_ones by lia.
        change (2 ^ 1) with 2. apply Z.mod_mul. lia. }
    lia. }
  split; [exact E | lia].
Qed.

Lemma walk_add (m : gmap Z Z) (x : Z) (a b : nat) :
  walk m x (a + b) = walk m (walk m x a) b.
Proof.
  revert x. induction a as [|a IH]; intros x; [reflexivity|].
  cbn [Nat.add]. rewrite !walk_S. apply IH.
Qed.

Lemma walk_distinct (m : gmap Z Z) (x : Z) (n : nat) :
  (forall i, (i <= n)%nat -> walk m x i <> 0) -> walk m x (S n) = 0 ->
  forall i j, (i < j <= n)%nat -> walk m x i <> walk m x j.
Proof.
  intros Hnz H0 i j Hij E.
  apply (Hnz (i + (S n - j))%nat ltac:(lia)).
  rewrite walk_add, E, <- walk_add.
  replace (j + (S n - j))%nat with (S n) by lia. exact H0.
Qed.

Lemma walk_lookup (m : gmap Z Z) (x : Z) (i : nat) :
  walk m x (S i) <> 0 -> m !! walk m x i = Some (walk m x (S i)).
Proof.
  change (walk m x (S i)) with (next m (walk m x i)).
  generalize (walk m x i). intros y. unfold next.
  destruct (m !! y); cbn [default]; intros H; [reflexivity | contradiction].
Qed.

Lemma ends_after_unique (m : gmap Z Z) (u : Z) (k k' : nat) :
  ends_after m u k -> ends_after m u k' -> k = k'.
Proof.
  intros [H0 Hnz] [H0' Hnz'].
  destruct (Nat.lt_trichotomy k k') as [H|[H|H]]; [|exact H|].
  - exfalso. apply (Hnz' k H H0).
  - exfalso. apply (Hnz k' H H0').
Qed.

Lemma ends_after_next (m : gmap Z Z) (u : Z) (k : nat) :
  ends_after m u (S k) -> ends_after m (next m u) k.
Proof.
  intros [H0 Hnz]. split; [rewrite <- walk_S; exact H0|].
  intros i Hi. rewrite <- walk_S. apply Hnz. lia.
Qed.

Lemma relink_map_other (f : nat -> Z) (k : Z) :
  forall (n : nat) (m : gmap Z Z),
    (forall i, (1 <= i <= n)%nat -> f i <> k) -> relink_map f n m !! k = m !! k.
Proof.
  induction n as [|n IH]; intros m Hk; [reflexivity|].
  cbn [relink_map]. rewrite IH by (intros i Hi; apply Hk; lia).
  apply lookup_insert_ne. apply Hk. lia.
Qed.

Lemma relink_map_path (f : nat -> Z) :
  forall (n : nat) (m : gmap Z Z),
    (forall i j, (1 <= i < j)%nat -> (j <= n)%nat -> f i <> f j) ->
    forall i, (1 <= i <= n)%nat -> relink_map f n m !! f i = Some (f (i - 1)%nat).
Proof.
  induction n as [|n IH]; intros m Hd i Hi; [lia|].
  cbn [relink_map]. destruct (decide (i = S n)) as [->|Hne].
  - rewrite relink_map_other by (intros j Hj; apply Hd; lia).
    rewrite lookup_insert_eq. do 2 f_equal. lia.
  - apply IH; [|lia]. intros a b Hab Hb. apply Hd; lia.
Qed.

Lemma relink_map_keys (f : nat -> Z) (k : Z) :
  forall (n : nat) (m : gmap Z Z),
    is_Some (m !! k) -> is_Some (relink_map f n m !! k).
Proof.
  induction n as [|n IH]; intros m Hk; [exact Hk|].
  cbn [relink_map]. apply IH.
  destruct (decide (f (S n) = k)) as [->|Hne].
  - rewrite lookup_insert_eq. eauto.
  - rewrite lookup_insert_ne by assumption. exact Hk.
Qed.

Lemma relink_inv_keys (us : list Z) (f : nat -> Z) :
  forall (n : nat) (c : list Z) (m : gmap Z Z),
    cuckoo_inv c m -> Z.of_nat n < MAXPATHLEN ->
    (forall i, (i <= n)%nat ->
       vec_get us (Z.of_nat i) = Ok (f i) /\ 0 < f i < SIZE) ->
    (forall i, (1 <= i <= n)%nat -> is_Some (m !! f i)) ->
    Z.of_nat (size m) <= CUCKOO_SIZE ->
    exists c', relink n us c = Ok c' /\ cuckoo_inv c' (relink_map f n m) /\
               size (relink_map f n m) = size m.
Proof.
  pose proof MAXPATHLEN_range as Hmp.
  induction n as [|n IH]; intros c m Hinv Hn Hus Hkeys Hcap.
  - exists c. split; [reflexivity|]. split; [exact Hinv | reflexivity].
  - cbn [relink relink_map].
    assert (E : u32 (Z.of_nat n + 1) = Z.of_nat (S n))
      by (rewrite Nat2Z.inj_succ; apply wrap_small; lia).
    rewrite E. destruct (Hus (S n) ltac:(lia)) as [-> Hr1].
    destruct (Hus n ltac:(lia)) as [-> Hr0]. cbn [bind].
    assert (Hsz : size (<[f (S n) := f n]> m) = size m).
    { rewrite map_size_insert.
      destruct (Hkeys (S n) ltac:(lia)) as [v ->]. reflexivity. }
    destruct (cuckoo_set_inv c m (f (S n)) (f n) Hinv ltac:(lia) ltac:(lia)
                ltac:(lia)) as (c1 & -> & Hinv1).
    cbn [bind].
    destruct (IH c1 (<[f (S n) := f n]> m) Hinv1 ltac:(lia)) as (c' & Hc' & Hinv' & Hs').
    + intros i Hi. apply Hus. lia.
    + intros i Hi. destruct (decide (f (S n) = f i)) as [E'|Hne].
      * rewrite E', lookup_insert_eq. eauto.
      * rewrite lookup_insert_ne by assumption. apply Hkeys. lia.
    + lia.
    + exists c'. split; [exact Hc'|]. split; [exact Hinv' | lia].
Qed.

Lemma relink_inv_top (us : list Z) (f : nat -> Z) (n : nat) (c : list Z)
    (m : gmap Z Z) :
  cuckoo_inv c m -> Z.of_nat n < MAXPATHLEN ->
  (forall i, (i <= n)%nat ->
     vec_get us (Z.of_nat i) = Ok (f i) /\ 0 < f i < SIZE) ->
  (forall i, (1 <= i < n)%nat -> is_Some (m !! f i)) ->
  Z.of_nat (size m) < CUCKOO_SIZE ->
  exists c', relink n us c = Ok c' /\ cuckoo_inv c' (relink_map f n m) /\
             (size (relink_map f n m) <= size m + 1)%nat /\
             ((1 <= n)%nat -> Z.of_nat (size (relink_map f n m)) <= CUCKOO_SIZE).
Proof.
  pose proof MAXPATHLEN_range as Hmp.
  intros Hinv Hn Hus Hkeys Hcap. destruct n as [|n].
  - exists c. split; [reflexivity|]. split; [exact Hinv|]. cbn [relink_map].
    split; lia.
  - cbn [relink relink_map].
    assert (E : u32 (Z.of_nat n + 1) = Z.of_nat (S n))
      by (rewrite Nat2Z.inj_succ; apply wrap_small; lia).
    rewrite E. destruct (Hus (S n) ltac:(lia)) as [-> Hr1].
    destruct (Hus n ltac:(lia)) as [-> Hr0]. cbn [bind].
    assert (Hsz : (size (<[f (S n) := f n]> m) <= size m + 1)%nat).
    { rewrite map_size_insert. destruct (m !! f (S n)); simpl; lia. }
    destruct (cuckoo_set_inv c m (f (S n)) (f n) Hinv ltac:(lia) ltac:(lia)
                ltac:(lia)) as (c1 & -> & Hinv1).
    cbn [bind].
    destruct (relink_inv_keys us f n c1 (<[f (S n) := f n]> m) Hinv1 ltac:(lia))
      as (c' & Hc' & Hinv' & Hs').
    + intros i Hi. apply Hus. lia.
    + intros i Hi. destruct (decide (f (S n) = f i)) as [E'|Hne].
      * rewrite E', lookup_insert_eq. eauto.
      * rewrite lookup_insert_ne by assumption. apply Hkeys. lia.
    + lia.
    + exists c'. split; [exact Hc'|]. split; [exact Hinv'|]. split; lia.
Qed.

(** Reversing the way from [x0] to its root and hanging [x0] under [y0]. *)
Lemma add_edge_spec (c : list Z) (m : gmap Z Z) (us : list Z) (x0 y0 : Z)
    (n : nat) :
  cuckoo_inv c m -> Z.of_nat (size m) < CUCKOO_SIZE ->
  0 <= x0 < SIZE -> 0 < y0 < SIZE -> Z.of_nat n < MAXPATHLEN ->
  (forall i, (i <= n)%nat -> vec_get us (Z.of_nat i) = Ok (walk m x0 i)) ->
  ends_after m x0 (S n) ->
  exists c1 c2 m',
    relink n us c = Ok c1 /\ cuckoo_set c1 x0 y0 = Ok c2 /\
    cuckoo_inv c2 m' /\ (size m' <= size m + 1)%nat /\
    (forall a b, linked m' a b <->
                 linked m a b \/ (a = x0 /\ b = y0) \/ (a = y0 /\ b = x0)).
Proof.
  intros Hinv Hcap Hx Hy Hn Hus [H0 Hnz].
  set (f := walk m x0).
  assert (Hfr : forall i, (i <= n)%nat -> 0 < f i < SIZE).
  { intros i Hi. pose proof (walk_range c m x0 i Hinv Hx).
    pose proof (Hnz i ltac:(lia)). unfold f. lia. }
  assert (Hnext : forall i, (i < n)%nat -> m !! f i = Some (f (S i))).
  { intros i Hi. apply walk_lookup. apply Hnz. lia. }
  assert (Hdist : forall i j, (i < j <= n)%nat -> f i <> f j)
    by (apply walk_distinct; [intros i Hi; apply Hnz; lia | exact H0]).
  assert (Hroot : next m (f n) = 0) by exact H0.
  destruct (relink_inv_top us f n c m Hinv Hn) as (c1 & Hc1 & Hinv1 & Hs1 & Hs1').
  { intros i Hi. split; [apply Hus; exact Hi | apply Hfr; exact Hi]. }
  { intros i Hi. rewrite (Hnext i) by lia. eauto. }
  { exact Hcap. }
  set (m1 := relink_map f n m) in *.
  assert (Hs2 : (size (<[x0 := y0]> m1) <= size m + 1)%nat /\
                Z.of_nat (size (<[x0 := y0]> m1)) <= CUCKOO_SIZE).
  { rewrite map_size_insert. destruct n as [|n'].
    - cbn [relink_map] in m1. subst m1. destruct (m !! x0); simpl; lia.
    - assert (Hk : is_Some (m1 !! x0)).
      { apply relink_map_keys. change x0 with (f 0%nat).
        rewrite (Hnext 0%nat) by lia. eauto. }
      destruct Hk as [v ->]. simpl. split; [lia|]. apply Hs1'. lia. }
  destruct (cuckoo_set_inv c1 m1 x0 y0 Hinv1 ltac:(lia) ltac:(lia) (proj2 Hs2))
    as (c2 & Hc2 & Hinv2).
  exists c1, c2, (<[x0 := y0]> m1).
  split; [exact Hc1|]. split; [exact Hc2|]. split; [exact Hinv2|].
  split; [exact (proj1 Hs2)|].
  (* the entries of the new table *)
  assert (L1 : <[x0 := y0]> m1 !! x0 = Some y0) by apply lookup_insert_eq.
  assert (L2 : forall i, (i < n)%nat ->
                 <[x0 := y0]> m1 !! f (S i) = Some (f i)).
  { intros i Hi. rewrite lookup_insert_ne.
    - unfold m1. rewrite (relink_map_path f n m) by (intros; try apply Hdist; lia).
      do 2 f_equal. lia.
    - change x0 with (f 0%nat). apply Hdist. lia. }
  assert (L3 : forall k, (forall i, (i <= n)%nat -> f i <> k) ->
                 <[x0 := y0]> m1 !! k = m !! k).
  { intros k Hk. rewrite lookup_insert_ne by (apply (Hk 0%nat); lia).
    apply relink_map_other. intros i Hi. apply Hk. lia. }
  assert (Hcase : forall k, (exists i, (i <= n)%nat /\ f i = k) \/
                            (forall i, (i <= n)%nat -> f i <> k)).
  { intros k. destruct (in_dec Z.eq_dec k (map f (seq 0 (S n)))) as [Hin|Hin].
    - left. apply in_map_iff in Hin as (i & Hi & Hseq).
      apply in_seq in Hseq. exists i. split; [lia | exact Hi].
    - right. intros i Hi E. apply Hin. apply in_map_iff. exists i.
      split; [exact E | apply in_seq; lia]. }
  assert (Hold : forall a b, a <> 0 -> b <> 0 ->
            <[x0 := y0]> m1 !! a = Some b ->
            (m !! a = Some b \/ m !! b = Some a) \/ (a = x0 /\ b = y0)).
  { intros a b Ha Hb Hab. destruct (Hcase a) as [(i & Hi & <-)|Hout].
    - destruct i as [|i].
      + right. change (f 0%nat) with x0 in *. rewrite L1 in Hab.
        split; congruence.
      + left. right. rewrite L2 in Hab by lia. injection Hab as <-.
        apply Hnext. lia.
    - left. left. rewrite L3 in Hab by exact Hout. exact Hab. }
  assert (Hnew : forall a b, b <> 0 -> m !! a = Some b ->
            <[x0 := y0]> m1 !! a = Some b \/ <[x0 := y0]> m1 !! b = Some a).
  { intros a b Hb Hab. destruct (Hcase a) as [(i & Hi & <-)|Hout].
    - destruct (decide (i = n)) as [->|Hne].
      + exfalso. unfold next in Hroot. rewrite Hab in Hroot. cbn in Hroot.
        contradiction.
      + right. rewrite (Hnext i) in Hab by lia. injection Hab as <-.
        apply L2. lia.
    - left. rewrite L3 by exact Hout. exact Hab. }
  intros a b. split.
  - intros (Ha & Hb & [Hab|Hba]).
    + destruct (Hold a b Ha Hb Hab) as [H|H]; [left; split; [|split]; auto|].
      right. left. exact H.
    + destruct (Hold b a Hb Ha Hba) as [H|H].
      * left. split; [|split]; auto. tauto.
      * right. right. tauto.
  - intros [(Ha & Hb & [Hab|Hba])|[[-> ->]|[-> ->]]].
    + split; [|split]; auto.
    + split; [|split]; auto.
      destruct (Hnew b a Ha Hba); auto.
    + split; [|split]; [apply (Hnz 0%nat); lia | lia | left; exact L1].
    + split; [|split]; [lia | apply (Hnz 0%nat); lia | right; exact L1].
Qed.

Lemma path_known (c : list Z) (m : gmap Z Z) (x0 : Z) (us : list Z) (n : nat) :
  cuckoo_inv c m -> Z.of_nat (size m) < CUCKOO_SIZE ->
  0 <= x0 < SIZE -> Z.of_nat (length us) = MAXPATHLEN ->
  vec_get us 0 = Ok x0 ->
  ends_after m x0 (S n) -> Z.of_nat n < MAXPATHLEN ->
  exists us1,
    path path_fuel c (next m x0) us 0 = Ok (Some (Z.of_nat n, us1)) /\
    Z.of_nat (length us1) = MAXPATHLEN /\
    forall i, (i <= n)%nat -> vec_get us1 (Z.of_nat i) = Ok (walk m x0 i).
Proof.
  intros Hinv Hcap Hx Hlen Hx0 Hend Hn. pose proof MAXPATHLEN_range as Hmp.
  destruct (path_spec c m Hinv Hcap path_fuel (next m x0) us 0
              (next_range c m x0 Hinv) Hlen)
    as (r & Hr & Hspec); try (unfold path_fuel; lia).
  pose proof (ends_after_next m x0 n Hend) as Hend'.
  destruct r as [[nu' us1]|].
  - destruct Hspec as (k & -> & _ & Hlen1 & Hk & Hst & Hsame).
    rewrite <- (ends_after_unique m (next m x0) k n Hk Hend') in *.
    exists us1. split; [exact Hr|]. split; [exact Hlen1|].
    intros [|i] Hi.
    + rewrite Hsame by lia. exact Hx0.
    + rewrite walk_S, Nat2Z.inj_succ.
      replace (Z.succ (Z.of_nat i)) with (0 + 1 + Z.of_nat i) by lia.
      apply Hst. lia.
  - exfalso. apply (Hspec n ltac:(lia)). exact (proj1 Hend').
Qed.

(** X15. An edge between two trees is added to the forest.  On a table that
    holds the map [m] and has a free slot, when the ways from the two ends
    [u0 <> 0] and [v0] of the edge of [nonce] end, after fewer than
    MAXPATHLEN nodes each, in different roots, the body of the search loop
    comes to its last statement, leaves the solutions alone, and the table
    then holds a map with at most one more key whose links are those of [m]
    and the new edge: the shorter way is turned round and its end hung under
    the other end of the edge. *)
Theorem search_adds_edge (alive0 : shrinkingset) (maxsols nonce : Z)
    (st : search_state) (m : gmap Z Z) (nu nv : nat) :
  cuckoo_inv (st_cuckoo st) m -> Z.of_nat (size m) < CUCKOO_SIZE ->
  Z.of_nat (length (st_us st)) = MAXPATHLEN ->
  Z.of_nat (length (st_vs st)) = MAXPATHLEN ->
  sipnode nonce 0 <> 0 ->
  ends_after m (sipnode nonce 0) (S nu) -> Z.of_nat nu < MAXPATHLEN ->
  ends_after m (sipnode nonce 1) (S nv) -> Z.of_nat nv < MAXPATHLEN ->
  walk m (sipnode nonce 0) nu <> walk m (sipnode nonce 1) nv ->
  exists st',
    search_step alive0 maxsols nonce st = Ok (st', Next) /\
    st_sols st' = st_sols st /\
    exists m',
      cuckoo_inv (st_cuckoo st') m' /\ (size m' <= size m + 1)%nat /\
      forall a b,
        linked m' a b <->
        linked m a b \/
        (a = sipnode nonce 0 /\ b = sipnode nonce 1) \/
        (a = sipnode nonce 1 /\ b = sipnode nonce 0).
Proof.
  intros Hinv Hcap Hlu Hlv Hu0 Hendu Hnu Hendv Hnv Hroots.
  pose proof MAXPATHLEN_range as Hmp.
  destruct (sipnode_node nonce 0 ltac:(lia)) as [_ Hur].
  destruct (sipnode_node nonce 1 ltac:(lia)) as [Ev Hvr].
  assert (Hv0 : sipnode nonce 1 <> 0)
    by (pose proof (sipnode_range nonce 1); lia).
  unfold search_step.
  set (u0 := sipnode nonce 0) in *. set (v0 := sipnode nonce 1) in *.
  destruct (Z.eqb_spec u0 0) as [|_]; [contradiction|].
  rewrite (vec_set_in_range (st_us st) 0 u0) by lia. cbn [bind].
  rewrite (cuckoo_get_inv _ m u0 Hinv Hcap Hur). fold (next m u0). cbn [bind].
  rewrite (vec_set_in_range (st_vs st) 0 v0) by lia. cbn [bind].
  rewrite (cuckoo_get_inv _ m v0 Hinv Hcap Hvr). fold (next m v0). cbn [bind].
  destruct (path_known (st_cuckoo st) m u0 (<[Z.to_nat 0 := u0]> (st_us st)) nu
              Hinv Hcap Hur) as (us1 & -> & Hlu1 & Hus1); try assumption.
  { rewrite length_insert. exact Hlu. }
  { apply vec_get_set_eq. lia. }
  cbn [bind].
  destruct (path_known (st_cuckoo st) m v0 (<[Z.to_nat 0 := v0]> (st_vs st)) nv
              Hinv Hcap Hvr) as (vs1 & -> & Hlv1 & Hvs1); try assumption.
  { rewrite length_insert. exact Hlv. }
  { apply vec_get_set_eq. lia. }
  cbn [bind].
  rewrite (Hus1 nu ltac:(lia)), (Hvs1 nv ltac:(lia)). cbn [bind].
  destruct (Z.eqb_spec (walk m u0 nu) (walk m v0 nv)) as [|_]; [contradiction|].
  rewrite !Nat2Z.id.
  destruct (Z.of_nat nu <? Z.of_nat nv).
  - destruct (add_edge_spec (st_cuckoo st) m us1 u0 v0 nu Hinv Hcap Hur
                ltac:(lia) Hnu Hus1 Hendu)
      as (c1 & c2 & m' & -> & Hc2 & Hinv' & Hsz & Hl).
    cbn [bind]. rewrite Hc2. cbn [bind]. eexists. split; [reflexivity|].
    split; [reflexivity|]. exists m'. cbn [st_cuckoo].
    split; [exact Hinv'|]. split; [exact Hsz | exact Hl].
  - destruct (add_edge_spec (st_cuckoo st) m vs1 v0 u0 nv Hinv Hcap Hvr
                ltac:(lia) Hnv Hvs1 Hendv)
      as (c1 & c2 & m' & -> & Hc2 & Hinv' & Hsz & Hl).
    cbn [bind]. rewrite Hc2. cbn [bind]. eexists. split; [reflexivity|].
    split; [reflexivity|]. exists m'. cbn [st_cuckoo].
    split; [exact Hinv'|]. split; [exact Hsz|].
    intros a b. rewrite Hl. tauto.
Qed.

(** ** The search: an edge that closes a cycle *)

Lemma meet_first (us vs : list Z) (fu fv : nat -> Z) (du dv : nat) :
  forall (t s : nat) (fuel : nat),
    (t < fuel)%nat -> Z.of_nat (du + s + t) < 2 ^ 32 ->
    Z.of_nat (dv + s + t) < 2 ^ 32 ->
    (forall i, (i <= du + s + t)%nat -> vec_get us (Z.of_nat i) = Ok (fu i)) ->
    (forall i, (i <= dv + s + t)%nat -> vec_get vs (Z.of_nat i) = Ok (fv i)) ->
    fu (du + s + t)%nat = fv (dv + s + t)%nat ->
    (forall k, (k < t)%nat -> fu (du + s + k)%nat <> fv (dv + s + k)%nat) ->
    meet fuel us vs (Z.of_nat (du + s)) (Z.of_nat (dv + s))
    = Ok (Z.of_nat (du + s + t), Z.of_nat (dv + s + t)).
Proof.
  clear. induction t as [|t IH]; intros s fuel Hf Hbu Hbv Hus Hvs Heq Hne;
    (destruct fuel as [|fuel]; [lia|]); cbn [meet].
  - rewrite !Nat.add_0_r in *. rewrite Hus, Hvs by lia. cbn [bind].
    rewrite Heq, Z.eqb_refl. reflexivity.
  - rewrite Hus, Hvs by lia. cbn [bind].
    pose proof (Hne 0%nat ltac:(lia)) as H0. rewrite !Nat.add_0_r in H0.
    destruct (Z.eqb_spec (fu (du + s)%nat) (fv (dv + s)%nat)) as [|_];
      [contradiction|].
    assert (Eu : u32 (Z.of_nat (du + s) + 1) = Z.of_nat (du + S s))
      by (unfold u32; rewrite wrap_small by lia; lia).
    assert (Ev : u32 (Z.of_nat (dv + s) + 1) = Z.of_nat (dv + S s))
      by (unfold u32; rewrite wrap_small by lia; lia).
    rewrite Eu, Ev.
    replace (du + s + S t)%nat with (du + S s + t)%nat in * by lia.
    replace (dv + s + S t)%nat with (dv + S s + t)%nat in * by lia.
    apply IH; try assumption; try lia.
    intros k Hk. specialize (Hne (S k) ltac:(lia)).
    replace (du + s + S k)%nat with (du + S s + k)%nat in Hne by lia.
    replace (dv + s + S k)%nat with (dv + S s + k)%nat in Hne by lia.
    exact Hne.
Qed.

Lemma search_cycle_eval (alive0 : shrinkingset) (maxsols nonce : Z)
    (st : search_state) (m : gmap Z Z) (nu nv a b : nat) :
  cuckoo_inv (st_cuckoo st) m -> Z.of_nat (size m) < CUCKOO_SIZE ->
  Z.of_nat (length (st_us st)) = MAXPATHLEN ->
  Z.of_nat (length (st_vs st)) = MAXPATHLEN ->
  sipnode nonce 0 <> 0 ->
  ends_after m (sipnode nonce 0) (S nu) -> Z.of_nat nu < MAXPATHLEN ->
  ends_after m (sipnode nonce 1) (S nv) -> Z.of_nat nv < MAXPATHLEN ->
  walk m (sipnode nonce 0) nu = walk m (sipnode nonce 1) nv ->
  (a <= nu)%nat -> (b <= nv)%nat -> (nu - a = nv - b)%nat ->
  walk m (sipnode nonce 0) a = walk m (sipnode nonce 1) b ->
  (forall i j, (i < a)%nat -> (j < b)%nat -> (nu - i = nv - j)%nat ->
     walk m (sipnode nonce 0) i <> walk m (sipnode nonce 1) j) ->
  exists us1 vs1,
    search_step alive0 maxsols nonce st
    = (if (Z.of_nat (a + b + 1) =? PROOFSIZE) && (nsols (st_sols st) <? maxsols)
       then
         do sols' <- solution alive0 (st_sols st) us1 a vs1 b ;
         Ok (mk_search_state (st_cuckoo st) sols' us1 vs1, Skip)
       else Ok (mk_search_state (st_cuckoo st) (st_sols st) us1 vs1, Skip)).
Proof.
  intros Hinv Hcap Hlu Hlv Hu0 Hendu Hnu Hendv Hnv Hroots Ha Hb Hab Hmeet Hfirst.
  pose proof MAXPATHLEN_range as Hmp.
  destruct (sipnode_node nonce 0 ltac:(lia)) as [_ Hur].
  destruct (sipnode_node nonce 1 ltac:(lia)) as [Ev Hvr].
  unfold search_step.
  set (u0 := sipnode nonce 0) in *. set (v0 := sipnode nonce 1) in *.
  destruct (Z.eqb_spec u0 0) as [|_]; [contradiction|].
  rewrite (vec_set_in_range (st_us st) 0 u0) by lia. cbn [bind].
  rewrite (cuckoo_get_inv _ m u0 Hinv Hcap Hur). fold (next m u0). cbn [bind].
  rewrite (vec_set_in_range (st_vs st) 0 v0) by lia. cbn [bind].
  rewrite (cuckoo_get_inv _ m v0 Hinv Hcap Hvr). fold (next m v0). cbn [bind].
  destruct (path_known (st_cuckoo st) m u0 (<[Z.to_nat 0 := u0]> (st_us st)) nu
              Hinv Hcap Hur) as (us1 & -> & Hlu1 & Hus1); try assumption.
  { rewrite length_insert. exact Hlu. }
  { apply vec_get_set_eq. lia. }
  cbn [bind].
  destruct (path_known (st_cuckoo st) m v0 (<[Z.to_nat 0 := v0]> (st_vs st)) nv
              Hinv Hcap Hvr) as (vs1 & -> & Hlv1 & Hvs1); try assumption.
  { rewrite length_insert. exact Hlv. }
  { apply vec_get_set_eq. lia. }
  cbn [bind]. exists us1, vs1.
  rewrite (Hus1 nu ltac:(lia)), (Hvs1 nv ltac:(lia)). cbn [bind].
  rewrite Hroots, Z.eqb_refl.
  set (mn := if Z.of_nat nu <? Z.of_nat nv then Z.of_nat nu else Z.of_nat nv).
  assert (Emn : mn = Z.of_nat (Nat.min nu nv)).
  { unfold mn. destruct (Z.ltb_spec (Z.of_nat nu) (Z.of_nat nv)); lia. }
  set (du := (nu - Nat.min nu nv)%nat). set (dv := (nv - Nat.min nu nv)%nat).
  assert (Edu : u32 (Z.of_nat nu - mn) = Z.of_nat (du + 0))
    by (unfold u32; rewrite wrap_small by lia; lia).
  assert (Edv : u32 (Z.of_nat nv - mn) = Z.of_nat (dv + 0))
    by (unfold u32; rewrite wrap_small by lia; lia).
  rewrite Edu, Edv.
  assert (Hda : (du <= a)%nat /\ (a - du = b - dv)%nat /\ (dv <= b)%nat) by lia.
  rewrite (meet_first us1 vs1 (walk m u0) (walk m v0) du dv (a - du) 0
             (S path_fuel)).
  - cbn [bind]. replace (du + 0 + (a - du))%nat with a by lia.
    replace (dv + 0 + (a - du))%nat with b by lia.
    assert (El : u32 (Z.of_nat a + Z.of_nat b + 1) = Z.of_nat (a + b + 1))
      by (unfold u32; rewrite wrap_small by lia; lia).
    rewrite El, !Nat2Z.id. reflexivity.
  - unfold path_fuel. lia.
  - lia.
  - lia.
  - intros i Hi. apply Hus1. lia.
  - intros i Hi. apply Hvs1. lia.
  - replace (du + 0 + (a - du))%nat with a by lia.
    replace (dv + 0 + (a - du))%nat with b by lia. exact Hmeet.
  - intros k Hk. apply Hfirst; lia.
Qed.

(** X16. An edge that closes a cycle leaves the table alone.  When the ways
    from the two ends of the edge of [nonce] end in the same root, and
    [a], [b] are the first positions, equally far from the root, at which
    they hold the same node, the body of the search loop never spins and
    leaves by [continue] with the table untouched; the cycle has
    [a + b + 1] edges, and unless that is PROOFSIZE and a solution row is
    free the step returns with the solutions untouched as well; otherwise a
    step that returns has taken one more row. *)
Theorem search_closes_cycle (alive0 : shrinkingset) (maxsols nonce : Z)
    (st : search_state) (m : gmap Z Z) (nu nv a b : nat) :
  cuckoo_inv (st_cuckoo st) m -> Z.of_nat (size m) < CUCKOO_SIZE ->
  Z.of_nat (length (st_us st)) = MAXPATHLEN ->
  Z.of_nat (length (st_vs st)) = MAXPATHLEN ->
  sipnode nonce 0 <> 0 ->
  ends_after m (sipnode nonce 0) (S nu) -> Z.of_nat nu < MAXPATHLEN ->
  ends_after m (sipnode nonce 1) (S nv) -> Z.of_nat nv < MAXPATHLEN ->
  walk m (sipnode nonce 0) nu = walk m (sipnode nonce 1) nv ->
  (a <= nu)%nat -> (b <= nv)%nat -> (nu - a = nv - b)%nat ->
  walk m (sipnode nonce 0) a = walk m (sipnode nonce 1) b ->
  (forall i j, (i < a)%nat -> (j < b)%nat -> (nu - i = nv - j)%nat ->
     walk m (sipnode nonce 0) i <> walk m (sipnode nonce 1) j) ->
  search_step alive0 maxsols nonce st <> Err Spins /\
  (forall st' fl, search_step alive0 maxsols nonce st = Ok (st', fl) ->
     fl = Skip /\ st_cuckoo st' = st_cuckoo st) /\
  (Z.of_nat (a + b + 1) <> PROOFSIZE \/ maxsols <= nsols (st_sols st) ->
   exists st', search_step alive0 maxsols nonce st = Ok (st', Skip) /\
               st_sols st' = st_sols st) /\
  (Z.of_nat (a + b + 1) = PROOFSIZE -> nsols (st_sols st) < maxsols ->
   forall st' fl, search_step alive0 maxsols nonce st = Ok (st', fl) ->
     nsols (st_sols st') = u32 (nsols (st_sols st) + 1)).
Proof.
  intros Hinv Hcap Hlu Hlv Hu0 Hendu Hnu Hendv Hnv Hroots Ha Hb Hab Hmeet Hfirst.
  destruct (search_cycle_eval alive0 maxsols nonce st m nu nv a b)
    as (us1 & vs1 & ->); try assumption.
  destruct (Z.eqb_spec (Z.of_nat (a + b + 1)) PROOFSIZE) as [El|El];
    destruct (Z.ltb_spec (nsols (st_sols st)) maxsols) as [Hs|Hs]; cbn [andb].
  2-4: (split; [discriminate|]; split; [intros st' fl [= <- <-]; auto|];
        split; [intros _; eexists; split; reflexivity | intros; lia]).
  pose proof (solution_no_spin alive0 (st_sols st) us1 a vs1 b) as Hsp.
  destruct (solution alive0 (st_sols st) us1 a vs1 b) as [sols'|f] eqn:Hsol;
    cbn [bind].
  - split; [discriminate|]. split; [intros st' fl [= <- <-]; auto|].
    split; [intros [?|?]; lia|]. intros _ _ st' fl [= <- <-]. cbn [st_sols].
    unfold solution in Hsol.
    bind_as Hsol x1 H1. bind_as Hsol x2 H2. bind_as Hsol x3 H3.
    bind_as Hsol x4 H4. bind_as Hsol x5 H5. bind_as Hsol x6 H6.
    destruct x6 as [[cy row] n]. destruct (n =? PROOFSIZE); [|discriminate].
    bind_as Hsol x7 H7.
    injection Hsol as <-. reflexivity.
  - split; [intros [= ->]; apply Hsp; reflexivity|].
    split; [discriminate|]. split; [intros [?|?]; lia | discriminate].
Qed.

End Cuckoo.

(** * Worked examples on a small build: SIZESHIFT = 8, PART_BITS = 0 *)

Lemma shrinkingset_new_all_alive_witness :
  exists s, shrinkingset_new 8 1 = Ok s /\ test s 5 = Ok true /\ count s = 128.
Proof.
  apply (shrinkingset_new_all_alive 8); [lia | lia | lia |].
  change (HALFSIZE 8) with 128. lia.
Defined.

Lemma reset_twice_witness :
  exists s2, reset (mk_shrinkingset [8; 0] [127]) 3 0 = Ok s2 /\
             bits s2 = [8; 0] /\ count s2 = 126 /\
             count (mk_shrinkingset [8; 0] [127])
             = alive_count 8 (mk_shrinkingset [8; 0] [127]).
Proof.
  destruct (reset_twice 8 ltac:(lia) ltac:(lia) (mk_shrinkingset [0; 0] [128])
              (mk_shrinkingset [8; 0] [127]) 3 0 eq_refl)
    as (s2 & H & Hb & _ & _ & _ & Hc & Ha).
  exists s2. split; [exact H|]. split; [exact Hb|].
  split; [rewrite Hc; reflexivity|].
  apply (Ha 1).
  - split; reflexivity.
  - change (HALFSIZE 8) with 128. lia.
  - reflexivity.
  - vm_compute. reflexivity.
Defined.

Lemma reset_twice_count_counterexample :
  exists s0 s1 s2,
    shrinkingset_new 8 1 = Ok s0 /\ reset s0 3 0 = Ok s1 /\ reset s1 3 0 = Ok s2 /\
    count s1 = 127 /\ alive_count 8 s1 = 127 /\
    count s2 = 126 /\ alive_count 8 s2 = 127.
Proof.
  eexists. eexists. eexists.
  split; [reflexivity|]. split; [reflexivity|]. split; [reflexivity|].
  vm_compute. repeat split.
Qed.

Lemma block_alive_bits_witness :
  exists x, block (mk_shrinkingset [1; 0] [127]) 70 = Ok x /\
            test (mk_shrinkingset [1; 0] [127]) (64 * (70 / 64) + 3)
            = Ok (Z.testbit x 3).
Proof.
  destruct (block_alive_bits 8 ltac:(lia) 1
              (mk_shrinkingset [1; 0] [127]) [1; 0; 0; 0] 70)
    as ((x & Hx & Ht & _) & _).
  - split; reflexivity.
  - split; [reflexivity|]. repeat constructor; lia.
  - change (HALFSIZE 8) with 128. lia.
  - exists x. split; [exact Hx|]. apply Ht. lia.
Defined.

Lemma block_offset_counterexample :
  exists x, block (mk_shrinkingset [1; 0] [127]) 1 = Ok x /\
            Z.testbit x 0 = false /\
            test (mk_shrinkingset [1; 0] [127]) (1 + 0) = Ok true.
Proof. eexists. split; [reflexivity|]. split; reflexivity. Qed.

Lemma twice_set_saturating_witness :
  exists tw t,
    foldM twice_set_set [5; 5; 7] (twice_set_reset 8 0 (twice_set_new 8 0)) = Ok tw /\
    twice_set_test tw 5 = Ok t /\ t <> 0.
Proof.
  destruct (twice_set_saturating 8 0 ltac:(lia) ltac:(lia) ltac:(lia)
              (twice_set_new 8 0) [5; 5; 7] 5)
    as ((tw & st & t & Hf & _ & _ & _ & Ht & _ & _ & H2) & _).
  - reflexivity.
  - change (ONCE_BITS 8 0) with 128. repeat constructor; lia.
  - change (ONCE_BITS 8 0) with 128. lia.
  - exists tw, t. split; [exact Hf|]. split; [exact Ht|].
    apply H2. simpl. lia.
Defined.

Lemma kill_phase_kills_leaf_edges_witness :
  (exists s',
     kill_phase 8 0 toy_hash 2 [60; 0; 0; 0; 0; 0; 0; 0] 0 0
       (mk_shrinkingset [0; 0] [128; 0]) = Ok s' /\
     u64 (count (mk_shrinkingset [0; 0] [128; 0]) - count s')
     = alive_count 8 (mk_shrinkingset [0; 0] [128; 0]) - alive_count 8 s') /\
  (exists b' a t,
     gpu_kill_phase 8 0 toy_hash 2 [60; 0; 0; 0; 0; 0; 0; 0] 0 0 [0; 0; 0; 0]
     = Ok b' /\
     gpu_test [0; 0; 0; 0] 9 = Ok a /\
     twice_set_test [60; 0; 0; 0; 0; 0; 0; 0] (Z.shiftr (dipnode 8 toy_hash 9 0) 0)
     = Ok t /\
     gpu_test b' 9
     = Ok (a && negb ((Z.land (dipnode 8 toy_hash 9 0) (PART_MASK 0) =? 0)
                      && (t =? 0)))).
Proof.
  destruct (kill_phase_kills_leaf_edges 8 0 toy_hash ltac:(lia) ltac:(lia)
              ltac:(lia) ltac:(lia) 2 [60; 0; 0; 0; 0; 0; 0; 0] 0 0
              (mk_shrinkingset [0; 0] [128; 0]))
    as ((s' & Hk & _ & Hc) & Hgpu).
  - lia.
  - split; reflexivity.
  - reflexivity.
  - split; [exists s'; split; [exact Hk | exact Hc]|].
    destruct (Hgpu 2 [0; 0; 0; 0]) as (b' & Hb' & Hn).
    + lia.
    + reflexivity.
    + split; [reflexivity|]. repeat constructor; lia.
    + destruct (Hn 9) as (a & t & Ha & Ht & Hr);
        [change (HALFSIZE 8) with 128; lia|].
      exists b', a, t. auto.
Defined.

Lemma trimming_monotonic_witness :
  exists ctxk ctxk1,
    trim 8 0 toy_hash 1 1 (mk_cuckoo_ctx (mk_shrinkingset [0; 0] [128]) (twice_set_new 8 0))
    = Ok ctxk /\
    trim 8 0 toy_hash 1 2 (mk_cuckoo_ctx (mk_shrinkingset [0; 0] [128]) (twice_set_new 8 0))
    = Ok ctxk1 /\
    (test (alive ctxk) 5 = Ok false -> test (alive ctxk1) 5 = Ok false).
Proof.
  destruct (trimming_monotonic 8 0 toy_hash ltac:(lia) ltac:(lia) ltac:(lia)
              ltac:(lia) 1 1
              (mk_cuckoo_ctx (mk_shrinkingset [0; 0] [128]) (twice_set_new 8 0)))
    as ((c1 & c2 & H1 & H2 & Hm) & _).
  - lia.
  - split; [split|]; reflexivity.
  - exists c1, c2. split; [exact H1|]. split; [exact H2|].
    apply Hm. change (HALFSIZE 8) with 128. lia.
Defined.

Lemma overload_check_witness :
  (exists ctx0 ctx,
     cuckoo_ctx_new 8 0 1 = Ok ctx0 /\ trim 8 0 toy_hash 1 1 ctx0 = Ok ctx /\
     count (alive ctx) = alive_count 8 (alive ctx) /\
     (after_trim 8 6 (alive ctx) = Overloaded <->
      90 <= 100 * alive_count 8 (alive ctx) / CUCKOO_SIZE 8 6)) /\
  (exists st, gpu_after_trim 8 6 [4294967280; 4294967295; 4294967289; 4294967295]
              = Ok st /\
     (st = Overloaded <->
      90 <= 100 * gpu_alive_count 8 [4294967280; 4294967295; 4294967289; 4294967295]
            / CUCKOO_SIZE 8 6)).
Proof.
  destruct (overload_check 8 0 6 toy_hash ltac:(lia) ltac:(lia) ltac:(lia)
              ltac:(lia) 1 1)
    as ((ctx0 & ctx & H0 & H1 & Hc & _ & Ho & _) & Hgpu); try lia.
  split.
  - exists ctx0, ctx. auto.
  - destruct (Hgpu [4294967280; 4294967295; 4294967289; 4294967295])
      as (st & Hst & Hov & _).
    + split; [reflexivity|]. repeat constructor; lia.
    + exists st. auto.
Defined.

Lemma solution_sorted_witness :
  exists row,
    vec_get (sols (mk_solutions [[0; 1; 2; 3]] 1)) 0 = Ok row /\
    Z.of_nat (length row) = 4 /\ StronglySorted Z.lt row.
Proof.
  destruct (solution_sorted 8 4 toy_hash ltac:(lia) ltac:(lia) 1
              (mk_shrinkingset [18446744073709551600; 18446744047939747839] [6])
              (solutions_new 4 1) [2; 3; 4] 2 [5; 4] 1)
    as (_ & Hsol).
  - split; reflexivity.
  - repeat constructor.
  - destruct (Hsol (mk_solutions [[0; 1; 2; 3]] 1))
      as (row & cyc & _ & Hr & Hl & Hs & _).
    + vm_compute. reflexivity.
    + exists row. auto.
Defined.

Lemma cuckoo_round_trip_witness :
  exists c, cuckoo_run 8 6 [(0, 5); (7, 9); (0, 6)] = Ok c /\
            cuckoo_get 8 6 c 0 = Ok 6.
Proof.
  destruct (cuckoo_round_trip 8 6 ltac:(lia) ltac:(lia) ltac:(lia) ltac:(lia)
              [(0, 5); (7, 9); (0, 6)] 0)
    as (c & Hrun & Hget & _).
  - change (SIZE 8) with 256. repeat constructor; simpl; lia.
  - vm_compute. reflexivity.
  - change (SIZE 8) with 256. lia.
  - exists c. split; [exact Hrun | exact Hget].
Defined.

(** Why node 0 is kept out of the table (the spec reserves it, and the search
    never stores it): the entry of node 0 with value 0 is the word 0, the
    mark of an empty slot, and a lookup stops at it. *)
Lemma cuckoo_zero_example :
  exists c, cuckoo_run 8 6 [(0, 5); (1, 7); (0, 0)] = Ok c /\
            distinct_keys [(0, 5); (1, 7); (0, 0)] < CUCKOO_SIZE 8 6 /\
            last_set [(0, 5); (1, 7); (0, 0)] 1 = 7 /\
            cuckoo_get 8 6 c 1 = Ok 0.
Proof.
  eexists. split; [vm_compute; reflexivity|].
  split; [vm_compute; reflexivity|]. split; [reflexivity|].
  vm_compute. reflexivity.
Qed.

(** C5 as stated fails where the table does not keep the whole key.  With
    SIZESHIFT above 32 it keeps only the low KEYBITS bits: on a build with
    SIZESHIFT = 34 and IDXSHIFT = 30 (16 slots) the two sets [set(2, 9)] and
    [set(2^30 + 1, 7)], on nonzero nodes below SIZE and well within the
    capacity, store the key 2^30 + 1 as 1, one slot away from the home of
    node 1; the lookup of node 1, which was never set, meets that entry and
    fails the MAXDRIFT assert instead of returning 0. *)
Lemma cuckoo_truncation_counterexample :
  List.Forall (fun kv => 0 < kv.1 < SIZE 34 /\ 0 < kv.2 < SIZE 34)
    [(2, 9); (2 ^ 30 + 1, 7)] /\
  distinct_keys [(2, 9); (2 ^ 30 + 1, 7)] < CUCKOO_SIZE 34 30 /\
  last_set [(2, 9); (2 ^ 30 + 1, 7)] 1 = 0 /\
  cuckoo_run 34 30 [(2, 9); (2 ^ 30 + 1, 7)]
  = Ok [34359738377; 17179869191; 0; 0; 0; 0; 0; 0; 0; 0; 0; 0; 0; 0; 0; 0] /\
  cuckoo_get 34 30
    [34359738377; 17179869191; 0; 0; 0; 0; 0; 0; 0; 0; 0; 0; 0; 0; 0; 0] 1
  = Err AssertFailed /\
  cuckoo_get 34 30
    [34359738377; 17179869191; 0; 0; 0; 0; 0; 0; 0; 0; 0; 0; 0; 0; 0; 0] 1
  <> Ok (last_set [(2, 9); (2 ^ 30 + 1, 7)] 1).
Proof.
  split; [repeat constructor|].
  split; [vm_compute; reflexivity|]. split; [reflexivity|].
  split; [vm_compute; reflexivity|]. split; [vm_compute; reflexivity|].
  vm_compute. discriminate.
Qed.

(** * The search on a small graph: SIZESHIFT = 9, PROOFSIZE = 4

    256 nonces under [k23_hash]: six of them are the edges between two U
    nodes and three V nodes, which hold three 4-cycles, and one round of
    trimming leaves just these six alive.  With PART_BITS = 0 the default
    IDXSHIFT is 6, a table of 8 slots. *)

(** C7 as stated fails: the solutions found depend on the number of threads.
    On the ATOMIC build of the pthread miner, with one round of trimming and
    room for four solutions, one thread adds the edges in the order 0, 64,
    65, 66, 128, 129 and reports the cycles {0, 64, 65, 66} and {0, 64, 128,
    129}; with two threads, thread 0 has the blocks at 0 and 128 and thread
    1 the blocks at 64 and 192, and when thread 0 comes to the table first
    the edges go in as 0, 128, 129, 64, 65, 66 and the cycles reported are
    {0, 64, 128, 129} and {65, 66, 128, 129}.  The CUDA miner with MAXSOLS =
    2 prints the same two pairs for [nthreads] 1 and 2.  Without trimming
    (ntrims = 0: no count phase runs, and the two builds of the pthread
    miner do the same; IDXSHIFT = 0 for a table that takes all 256 edges)
    the solutions are these two pairs again. *)
Lemma solutions_depend_on_nthreads :
  solve 9 0 6 4 k23_hash 1 (fun _ _ => []) 1 4
  = Ok (Search,
        Some (mk_solutions
                [[0; 64; 65; 66]; [0; 64; 128; 129]; [0; 0; 0; 0]; [0; 0; 0; 0]]
                2)) /\
  solve 9 0 6 4 k23_hash 2 (fun _ _ => [1; 0; 0; 1]) 1 4
  = Ok (Search,
        Some (mk_solutions
                [[0; 64; 128; 129]; [65; 66; 128; 129]; [0; 0; 0; 0];
                 [0; 0; 0; 0]]
                2)) /\
  gpu_main 9 0 6 4 k23_hash 1 1 1 2 (replicate 16 5)
    (replicate 2 (replicate 4 (mk_noncedge 7 (9, 9))))
  = Ok (Search, [[0; 64; 65; 66]; [0; 64; 128; 129]]) /\
  gpu_main 9 0 6 4 k23_hash 2 1 1 2 (replicate 16 5)
    (replicate 2 (replicate 4 (mk_noncedge 7 (9, 9))))
  = Ok (Search, [[0; 64; 128; 129]; [65; 66; 128; 129]]) /\
  solve 9 0 0 4 k23_hash 1 (fun _ _ => []) 0 4
  = Ok (Search,
        Some (mk_solutions
                [[0; 64; 65; 66]; [0; 64; 128; 129]; [0; 0; 0; 0]; [0; 0; 0; 0]]
                2)) /\
  solve 9 0 0 4 k23_hash 2 (fun _ _ => []) 0 4
  = Ok (Search,
        Some (mk_solutions
                [[0; 64; 128; 129]; [65; 66; 128; 129]; [0; 0; 0; 0];
                 [0; 0; 0; 0]]
                2)) /\
  ~ (forall row : list Z,
       In row [[0; 64; 65; 66]; [0; 64; 128; 129]] <->
       In row [[0; 64; 128; 129]; [65; 66; 128; 129]]).
Proof.
  split; [vm_compute; reflexivity|]. split; [vm_compute; reflexivity|].
  split; [vm_compute; reflexivity|]. split; [vm_compute; reflexivity|].
  split; [vm_compute; reflexivity|]. split; [vm_compute; reflexivity|].
  intros H. destruct (proj1 (H [0; 64; 65; 66])) as [E|[E|[]]];
    [left; reflexivity | discriminate E | discriminate E].
Qed.

(** C1 on the CUDA miner, where the graph holds more cycles of length
    PROOFSIZE than the context has rows.  With MAXSOLS = 1 (the default),
    one thread and one round of trimming, [find_cycles] stores the first
    4-cycle in the only row and counts the second: [nsols] is 2.
    [find_nonces] and [main] then go through [nsols] rows, and the row at 1,
    which no thread wrote, lies past the array.  The pthread miner asks for
    [nsols < maxsols] before it calls [solution]. *)
Theorem gpu_second_cycle_overrun :
  gpu_trim 9 0 k23_hash 1 1 (gpu_ctx_new 9 (replicate 16 5))
  = Ok (mk_gpu_ctx
          [4294967294; 4294967295; 4294967288; 4294967295; 4294967292;
           4294967295; 4294967295; 4294967295]
          [252; 0; 0; 0; 0; 0; 0; 0; 0; 0; 0; 0; 0; 0; 0; 0]) /\
  find_cycles_kernel 9 6 4 k23_hash 1 1 1
    [4294967294; 4294967295; 4294967288; 4294967295; 4294967292;
     4294967295; 4294967295; 4294967295]
    (cuckoo_new 9 6, mk_gpu_solutions [replicate 4 (mk_noncedge 7 (9, 9))] 0)
  = Ok ([1538; 2051; 2562; 3586; 0; 0; 0; 0],
        mk_gpu_solutions
          [[mk_noncedge 7 (4, 5); mk_noncedge 7 (2, 3);
            mk_noncedge 7 (4, 3); mk_noncedge 7 (2, 5)]] 2) /\
  find_nonces_launch 9 4 k23_hash 1
    [4294967294; 4294967295; 4294967288; 4294967295; 4294967292;
     4294967295; 4294967295; 4294967295]
    2
    [[mk_noncedge 7 (4, 5); mk_noncedge 7 (2, 3);
      mk_noncedge 7 (4, 3); mk_noncedge 7 (2, 5)]]
  = Err OutOfBounds /\
  gpu_main 9 0 6 4 k23_hash 1 1 1 1 (replicate 16 5)
    [replicate 4 (mk_noncedge 7 (9, 9))]
  = Err OutOfBounds.
Proof. repeat split; vm_compute; reflexivity. Qed.

(** * Worked examples for the further properties *)

Lemma count_phase_degree_witness :
  (exists nl t,
     count_phase_atomic 8 0 toy_hash 2 [1; 0; 1; 1; 0; 7; 0]
       (mk_shrinkingset [0; 0] [64; 64]) 0 0
       (twice_set_reset 8 0 (twice_set_new 8 0)) = Ok nl /\
     twice_set_test nl 1 = Ok t /\ t <> 0) /\
  (exists nl t,
     count_phase 8 0 toy_hash 1 (mk_shrinkingset [0; 0] [128]) 0 0
       (twice_set_reset 8 0 (twice_set_new 8 0)) = Ok nl /\
     twice_set_test nl 1 = Ok t /\ t <> 0).
Proof.
  split.
  - destruct (count_phase_degree 8 0 toy_hash ltac:(lia) ltac:(lia) ltac:(lia)
                ltac:(lia) 2 [1; 0; 1; 1; 0; 7; 0]
                (mk_shrinkingset [0; 0] [64; 64]) 0 0 (twice_set_new 8 0))
      as [(nl & Hc & _ & Hu) _].
    + lia.
    + split; reflexivity.
    + reflexivity.
    + destruct (Hu 1) as (t & Ht & Hiff); [change (ONCE_BITS 8 0) with 128; lia|].
      exists nl, t. split; [exact Hc|]. split; [exact Ht|].
      apply Hiff. apply Nat.leb_le. vm_compute. reflexivity.
  - destruct (count_phase_degree 8 0 toy_hash ltac:(lia) ltac:(lia) ltac:(lia)
                ltac:(lia) 1 [] (mk_shrinkingset [0; 0] [128]) 0 0
                (twice_set_new 8 0))
      as [_ H1].
    + lia.
    + split; reflexivity.
    + reflexivity.
    + destruct (H1 eq_refl) as (nl & Hc & _ & Hu).
      destruct (Hu 1) as (t & Ht & Hiff); [change (ONCE_BITS 8 0) with 128; lia|].
      exists nl, t. split; [exact Hc|]. split; [exact Ht|].
      apply Hiff. apply Nat.leb_le. vm_compute. reflexivity.
Defined.

Lemma trim_pass_removes_leaves_witness :
  exists ctx',
    trim_pass_atomic 8 0 toy_hash 2 [1; 1; 0; 1; 0; 0]
      (mk_cuckoo_ctx (mk_shrinkingset [0; 0] [64; 64]) (twice_set_new 8 0))
      (0, 0)
    = Ok ctx' /\
    test (alive ctx') 5 = Ok false /\ test (alive ctx') 0 = Ok true.
Proof.
  destruct (trim_pass_removes_leaves 8 0 toy_hash ltac:(lia) ltac:(lia)
              ltac:(lia) ltac:(lia) 2 [1; 1; 0; 1; 0; 0]
              (mk_cuckoo_ctx (mk_shrinkingset [0; 0] [64; 64])
                 (twice_set_new 8 0))
              0 0)
    as [(ctx' & Hp & _ & Ht) _].
  - lia.
  - split; [split|]; reflexivity.
  - exists ctx'. split; [exact Hp|]. split.
    + rewrite (Ht 5) by (change (HALFSIZE 8) with 128; lia).
      vm_compute. reflexivity.
    + rewrite (Ht 0) by (change (HALFSIZE 8) with 128; lia).
      vm_compute. reflexivity.
Defined.

Lemma trimming_keeps_cycles_witness :
  exists ctx',
    trim_atomic 8 0 toy_hash 2 (fun _ _ => [1; 0; 1; 1]) 3
      (mk_cuckoo_ctx (mk_shrinkingset [0; 0] [64; 64]) (twice_set_new 8 0))
    = Ok ctx' /\
    test (alive ctx') 2 = Ok true.
Proof.
  destruct (trimming_keeps_cycles 8 0 toy_hash ltac:(lia) ltac:(lia)
              ltac:(lia) ltac:(lia) (fun n => (0 <=? n) && (n <? 4)) 2
              (fun _ _ => [1; 0; 1; 1]) 3
              (mk_cuckoo_ctx (mk_shrinkingset [0; 0] [64; 64])
                 (twice_set_new 8 0)))
    as [(ctx' & Hk & Hal) _].
  - lia.
  - split; [split|]; reflexivity.
  - intros n Hc. apply andb_prop in Hc as [H1 H2].
    apply Z.leb_le in H1. apply Z.ltb_lt in H2.
    assert (Hn : n = 0 \/ n = 1 \/ n = 2 \/ n = 3) by lia.
    split; [change (HALFSIZE 8) with 128; lia|].
    intros uorv Hu. assert (Hs : uorv = 0 \/ uorv = 1) by lia.
    destruct Hn as [->|[->|[->| ->]]], Hs as [->| ->].
    + exists 3. split; [reflexivity|]. split; [lia | reflexivity].
    + exists 1. split; [reflexivity|]. split; [lia | reflexivity].
    + exists 2. split; [reflexivity|]. split; [lia | reflexivity].
    + exists 0. split; [reflexivity|]. split; [lia | reflexivity].
    + exists 1. split; [reflexivity|]. split; [lia | reflexivity].
    + exists 3. split; [reflexivity|]. split; [lia | reflexivity].
    + exists 0. split; [reflexivity|]. split; [lia | reflexivity].
    + exists 2. split; [reflexivity|]. split; [lia | reflexivity].
  - intros n Hc. apply andb_prop in Hc as [H1 H2].
    apply Z.leb_le in H1. apply Z.ltb_lt in H2.
    assert (Hn : n = 0 \/ n = 1 \/ n = 2 \/ n = 3) by lia.
    destruct Hn as [->|[->|[->| ->]]]; reflexivity.
  - exists ctx'. split; [exact Hk|]. apply Hal. reflexivity.
Defined.

Lemma trimming_thread_independent_witness :
  exists c01 c1 c0 c,
    cuckoo_ctx_new 8 0 1 = Ok c01 /\ trim 8 0 toy_hash 1 2 c01 = Ok c1 /\
    cuckoo_ctx_new 8 0 3 = Ok c0 /\
    trim_atomic 8 0 toy_hash 3 (fun _ _ => [2; 0; 0; 1; 2; 2; 1]) 2 c0 = Ok c /\
    count (alive c1) = count (alive c) /\
    after_trim 8 6 (alive c1) = after_trim 8 6 (alive c).
Proof.
  destruct (trimming_thread_independent 8 0 6 toy_hash ltac:(lia) ltac:(lia)
              ltac:(lia) ltac:(lia) 3 (fun _ _ => [2; 0; 0; 1; 2; 2; 1]) 2)
    as (c01 & c1 & c0 & c & H1 & H2 & H3 & H4 & _ & Hc & Ha); try lia.
  exists c01, c1, c0, c. auto 10.
Defined.

Lemma trimming_deterministic_witness :
  exists c01 c1 c02 c2 c0 c,
    cuckoo_ctx_new 8 0 2 = Ok c01 /\
    trim_atomic 8 0 toy_hash 2 (fun _ _ => [1; 0; 1; 1]) 2 c01 = Ok c1 /\
    cuckoo_ctx_new 8 0 3 = Ok c02 /\
    trim_atomic 8 0 toy_hash 3 (fun _ _ => [2; 2; 0; 1; 2; 0]) 2 c02 = Ok c2 /\
    cuckoo_ctx_new 8 0 1 = Ok c0 /\ trim 8 0 toy_hash 1 2 c0 = Ok c /\
    count (alive c1) = count (alive c2) /\
    count (alive c1) = count (alive c) /\
    after_trim 8 6 (alive c1) = after_trim 8 6 (alive c2).
Proof.
  destruct (trimming_deterministic 8 0 6 toy_hash ltac:(lia) ltac:(lia)
              ltac:(lia) ltac:(lia) 2 3 (fun _ _ => [1; 0; 1; 1])
              (fun _ _ => [2; 2; 0; 1; 2; 0]) 2)
    as (c01 & c1 & c02 & c2 & c0 & c & H1 & H2 & H3 & H4 & H5 & H6 & _ & E1
        & E2 & E3 & _); try lia.
  exists c01, c1, c02, c2, c0, c. auto 12.
Defined.

Lemma gpu_trimming_agrees_witness :
  exists g c0 c,
    gpu_trim 8 0 toy_hash 2 1 (gpu_ctx_new 8 [7; 7; 7; 7; 7; 7; 7; 7]) = Ok g /\
    cuckoo_ctx_new 8 0 2 = Ok c0 /\
    trim_atomic 8 0 toy_hash 2 (fun _ _ => [1; 0; 1; 1]) 1 c0 = Ok c /\
    gpu_test (gpu_alive g) 5 = test (alive c) 5 /\
    gpu_count 8 (gpu_alive g) = Ok (count (alive c)).
Proof.
  destruct (gpu_trimming_agrees 8 0 6 toy_hash ltac:(lia) ltac:(lia) ltac:(lia)
              ltac:(lia) 2 2 (fun _ _ => [1; 0; 1; 1]) 1
              [7; 7; 7; 7; 7; 7; 7; 7])
    as (g & c0 & c & Hg & Hc0 & Hc & Ht & Hcount & _).
  - lia.
  - reflexivity.
  - lia.
  - reflexivity.
  - exists g, c0, c. split; [exact Hg|]. split; [exact Hc0|]. split; [exact Hc|].
    split; [|exact Hcount]. apply Ht. change (HALFSIZE 8) with 128. lia.
Defined.

Lemma main_tpb_default_witness :
  exists k, 0 <= k <= 15 /\ main_tpb 5 0 = Ok (2 ^ k) /\ 5 <= 2 ^ k * 2 ^ k /\
            (HALFSIZE 8 / 32) mod 2 ^ k = 0.
Proof.
  destruct (main_tpb_default 8 ltac:(lia) 5) as (k & Hk & Hr & Hup & _ & Hd).
  - lia.
  - exists k. split; [exact Hk|]. split; [exact Hr|]. split; [exact Hup|].
    apply Hd. vm_compute. discriminate.
Defined.

Lemma find_cycles_coverage_witness :
  find_cycles_launch 9 (fun id blk acc => Ok (acc ++ [(id, blk)])) 3 2 []
  = foldM (fun acc ib => Ok (acc ++ [(ib.1, ib.2)])) (find_cycles_blocks 9 3 2) [] /\
  forall id, ~ In (id, 128) (find_cycles_blocks 9 3 2).
Proof.
  destruct (find_cycles_coverage 9 ltac:(lia) ltac:(lia)
              (fun id blk acc => Ok (acc ++ [(id, blk)])) 3 2 [])
    as (Hrun & _ & Hin); [lia | lia |].
  split; [exact Hrun|]. intros id H.
  apply Hin in H as (_ & _ & -> & Hlt). revert Hlt. vm_compute. discriminate.
Defined.

Lemma find_nonces_fills_witness :
  exists sols' row' ne',
    find_nonces_launch 8 4 toy_hash 1 [0; 0; 0; 0] 1
      [[mk_noncedge 0 (2, 3); mk_noncedge 0 (4, 3);
        mk_noncedge 0 (4, 5); mk_noncedge 0 (2, 5)]] = Ok sols' /\
    sols' !! 0%nat = Some row' /\ row' !! 1%nat = Some ne' /\
    gpu_edge 8 toy_hash (nonce ne') = (4, 3).
Proof.
  destruct (find_nonces_fills 8 4 toy_hash ltac:(lia) ltac:(lia) 1 [0; 0; 0; 0]
              1 [[mk_noncedge 0 (2, 3); mk_noncedge 0 (4, 3);
                  mk_noncedge 0 (4, 5); mk_noncedge 0 (2, 5)]])
    as (sols' & Hrun & _ & _ & Hcell).
  - lia.
  - reflexivity.
  - split; [reflexivity|]. repeat constructor; lia.
  - simpl. lia.
  - repeat constructor.
  - destruct (Hcell 0%nat 1%nat
                [mk_noncedge 0 (2, 3); mk_noncedge 0 (4, 3);
                 mk_noncedge 0 (4, 5); mk_noncedge 0 (2, 5)]
                (mk_noncedge 0 (4, 3)))
      as (row' & ne' & Hrow & Hne & _ & Hsome & _); try reflexivity; [lia|].
    exists sols', row', ne'. split; [exact Hrun|]. split; [exact Hrow|].
    split; [exact Hne|]. apply Hsome. exists 1.
    split; [change (HALFSIZE 8) with 128; lia|]. split; reflexivity.
Defined.

Lemma gpu_solution_records_witness :
  exists row',
    gpu_solution 1
      (mk_gpu_solutions
         [[mk_noncedge 0 (0, 0); mk_noncedge 0 (0, 0);
           mk_noncedge 0 (0, 0); mk_noncedge 0 (0, 0)]] 0)
      [2; 3; 4] 2 [5; 4] 1
    = Ok (mk_gpu_solutions [row'] 1) /\
    length row' = 4%nat /\ map nonce row' = [0; 0; 0; 0].
Proof.
  destruct (gpu_solution_records 1
              (mk_gpu_solutions
                 [[mk_noncedge 0 (0, 0); mk_noncedge 0 (0, 0);
                   mk_noncedge 0 (0, 0); mk_noncedge 0 (0, 0)]] 0)
              [2; 3; 4] 2 [5; 4] 1
              [mk_noncedge 0 (0, 0); mk_noncedge 0 (0, 0);
               mk_noncedge 0 (0, 0); mk_noncedge 0 (0, 0)]
              (match cycle_edges [2; 3; 4] 2 [5; 4] 1 with
               | Ok cyc => cyc
               | Err _ => ∅
               end))
    as (row' & Hs & Hl & Hn & _).
  - simpl. lia.
  - vm_compute. discriminate.
  - reflexivity.
  - reflexivity.
  - vm_compute. reflexivity.
  - exists row'. split; [exact Hs|]. split; [exact Hl | exact Hn].
Defined.

Lemma gpu_solutions_overrun_witness :
  gpu_solution 1
    (mk_gpu_solutions
       [[mk_noncedge 0 (2, 3); mk_noncedge 0 (4, 3);
         mk_noncedge 0 (4, 5); mk_noncedge 0 (2, 5)]] 1)
    [2; 3; 4] 2 [5; 4] 1
  = Ok (mk_gpu_solutions
          [[mk_noncedge 0 (2, 3); mk_noncedge 0 (4, 3);
            mk_noncedge 0 (4, 5); mk_noncedge 0 (2, 5)]] 2) /\
  find_nonces_launch 8 4 toy_hash 1 [0; 0; 0; 0] 2
    [[mk_noncedge 0 (2, 3); mk_noncedge 0 (4, 3);
      mk_noncedge 0 (4, 5); mk_noncedge 0 (2, 5)]]
  = Err OutOfBounds.
Proof.
  apply (gpu_solutions_overrun 8 4 toy_hash ltac:(lia) ltac:(lia) 1 1
           (mk_gpu_solutions
              [[mk_noncedge 0 (2, 3); mk_noncedge 0 (4, 3);
                mk_noncedge 0 (4, 5); mk_noncedge 0 (2, 5)]] 1)
           [2; 3; 4] 2 [5; 4] 1 [0; 0; 0; 0] 0).
  - reflexivity.
  - simpl. split; [lia|]. vm_compute. reflexivity.
  - repeat constructor.
  - lia.
  - reflexivity.
  - split; [reflexivity|]. repeat constructor; lia.
  - change (HALFSIZE 8) with 128. lia.
  - reflexivity.
Defined.

Lemma solution_complete_witness :
  exists ctx',
    solution 8 4 toy_hash (mk_shrinkingset [0; 0] [128]) (solutions_new 4 1)
      [2; 3; 4] 2 [5; 4] 1 = Ok ctx' /\
    nsols ctx' = 1.
Proof.
  destruct (solution_complete 8 4 toy_hash ltac:(lia) ltac:(lia) 1
              (mk_shrinkingset [0; 0] [128]) (solutions_new 4 1)
              [2; 3; 4] 2 [5; 4] 1
              (match cycle_edges [2; 3; 4] 2 [5; 4] 1 with
               | Ok cyc => cyc
               | Err _ => ∅
               end))
    as (ctx' & Hsol & Hn).
  - split; reflexivity.
  - repeat constructor.
  - simpl. lia.
  - lia.
  - lia.
  - vm_compute. reflexivity.
  - vm_compute. reflexivity.
  - intros e He. apply elem_of_elements, list_elem_of_In in He.
    vm_compute in He.
    destruct He as [<-|[<-|[<-|[<-|[]]]]];
      first [ exists 0; split; [change (HALFSIZE 8) with 128; lia|];
              split; reflexivity
            | exists 1; split; [change (HALFSIZE 8) with 128; lia|];
              split; reflexivity
            | exists 2; split; [change (HALFSIZE 8) with 128; lia|];
              split; reflexivity
            | exists 3; split; [change (HALFSIZE 8) with 128; lia|];
              split; reflexivity ].
  - exists ctx'. split; [exact Hsol | exact Hn].
Defined.

Lemma cuckoo_get_never_asserts_witness :
  cuckoo_get 8 6 [1033; 0; 0; 0] 1 <> Err AssertFailed.
Proof. apply (cuckoo_get_never_asserts 8 6); lia. Defined.

Lemma cuckoo_full_table_spins_witness :
  exists c, cuckoo_run 8 6 [(1, 2); (3, 4); (70, 5); (200, 6)] = Ok c /\
            cuckoo_get 8 6 c 9 = Err Spins.
Proof.
  destruct (cuckoo_full_table_spins 8 6 ltac:(lia) ltac:(lia) ltac:(lia)
              ltac:(lia) [(1, 2); (3, 4); (70, 5); (200, 6)] 9)
    as (c & Hrun & Hget & _).
  - change (SIZE 8) with 256. repeat constructor; simpl; lia.
  - vm_compute. reflexivity.
  - change (SIZE 8) with 256. lia.
  - vm_compute. reflexivity.
  - exists c. split; [exact Hrun|]. apply Hget.
Defined.

Lemma path_follows_table_witness :
  exists c r,
    cuckoo_set 8 6 (cuckoo_new 8 6) 3 2 = Ok c /\
    path 8 6 (path_fuel 8) c 3 (replicate 32 0) 0 = Ok r.
Proof.
  destruct (cuckoo_set_inv 8 6 ltac:(lia) ltac:(lia) ltac:(lia) ltac:(lia)
              (cuckoo_new 8 6) ∅ 3 2)
    as (c & Hc & Hinv).
  - apply cuckoo_new_inv; lia.
  - change (SIZE 8) with 256. lia.
  - change (SIZE 8) with 256. lia.
  - vm_compute. discriminate.
  - destruct (path_follows_table 8 6 ltac:(lia) ltac:(lia) ltac:(lia) ltac:(lia)
                c (<[3 := 2]> ∅) 3 (replicate 32 0) Hinv)
      as (r & Hr & _).
    + vm_compute. reflexivity.
    + change (SIZE 8) with 256. lia.
    + reflexivity.
    + exists c, r. split; [exact Hc | exact Hr].
Defined.

Lemma search_adds_edge_witness :
  exists st',
    search_step 8 6 4 toy_hash (mk_shrinkingset [0; 0] [128]) 1 0
      (mk_search_state (cuckoo_new 8 6) (solutions_new 4 1)
         (replicate 32 0) (replicate 32 0))
    = Ok (st', Next).
Proof.
  destruct (search_adds_edge 8 6 4 toy_hash ltac:(lia) ltac:(lia) ltac:(lia)
              ltac:(lia) (mk_shrinkingset [0; 0] [128]) 1 0
              (mk_search_state (cuckoo_new 8 6) (solutions_new 4 1)
                 (replicate 32 0) (replicate 32 0)) ∅ 0 0)
    as (st' & Hs & _).
  - apply cuckoo_new_inv; lia.
  - vm_compute. reflexivity.
  - reflexivity.
  - reflexivity.
  - vm_compute. discriminate.
  - split; [reflexivity|]. intros [|i] Hi; [vm_compute; discriminate | lia].
  - vm_compute. reflexivity.
  - split; [reflexivity|]. intros [|i] Hi; [vm_compute; discriminate | lia].
  - vm_compute. reflexivity.
  - vm_compute. discriminate.
  - exists st'. exact Hs.
Defined.

Lemma search_closes_cycle_witness :
  exists c,
    cuckoo_run 8 6 [(3, 2); (4, 3); (5, 4)] = Ok c /\
    forall st' fl,
      search_step 8 6 4 toy_hash (mk_shrinkingset [0; 0] [128]) 1 3
        (mk_search_state c (solutions_new 4 1) (replicate 32 0) (replicate 32 0))
      = Ok (st', fl) ->
      fl = Skip /\ st_cuckoo st' = c /\ nsols (st_sols st') = 1.
Proof.
  destruct (cuckoo_fold_inv 8 6 ltac:(lia) ltac:(lia) ltac:(lia) ltac:(lia)
              [(3, 2); (4, 3); (5, 4)] (cuckoo_new 8 6) ∅)
    as (c & Hrun & Hinv).
  - apply cuckoo_new_inv; lia.
  - change (SIZE 8) with 256. repeat constructor; simpl; lia.
  - vm_compute. discriminate.
  - exists c. split; [exact Hrun|].
    destruct (search_closes_cycle 8 6 4 toy_hash ltac:(lia) ltac:(lia)
                ltac:(lia) ltac:(lia) (mk_shrinkingset [0; 0] [128]) 1 3
                (mk_search_state c (solutions_new 4 1)
                   (replicate 32 0) (replicate 32 0))
                (fold_left (fun m kv => <[kv.1 := kv.2]> m)
                   [(3, 2); (4, 3); (5, 4)] ∅) 0 3 0 3 Hinv)
      as (_ & Hskip & _ & Hsol).
    + vm_compute. reflexivity.
    + reflexivity.
    + reflexivity.
    + vm_compute. discriminate.
    + split; [reflexivity|]. intros [|i] Hi; [vm_compute; discriminate | lia].
    + vm_compute. reflexivity.
    + split; [reflexivity|].
      intros [|[|[|[|i]]]] Hi; try (vm_compute; discriminate). lia.
    + vm_compute. reflexivity.
    + reflexivity.
    + lia.
    + lia.
    + reflexivity.
    + reflexivity.
    + intros i j Hi. lia.
    + intros st' fl H. destruct (Hskip st' fl H) as [-> ->].
      split; [reflexivity|]. split; [reflexivity|].
      apply (Hsol eq_refl ltac:(simpl; lia) st' Skip H).
Defined.

Lemma gpu_solution_printed_witness :
  exists ctx' rows row,
    gpu_solution 1
      (mk_gpu_solutions [replicate 4 (mk_noncedge 77 (9, 9))] 0)
      [2; 3; 4] 2 [5; 4] 1 = Ok ctx' /\
    find_nonces_launch 8 4 toy_hash 1 [0; 0; 0; 0] (gnsols ctx') (gsols ctx')
    = Ok rows /\
    rows !! 0%nat = Some row /\
    Z.of_nat (length (gpu_print_solution 8 row)) = 4 /\
    StronglySorted Z.le (gpu_print_solution 8 row).
Proof.
  destruct (gpu_solution_printed 8 4 toy_hash ltac:(lia) ltac:(lia) 1 1
              [0; 0; 0; 0]
              (mk_gpu_solutions [replicate 4 (mk_noncedge 77 (9, 9))] 0)
              [2; 3; 4] 2 [5; 4] 1
              (match cycle_edges [2; 3; 4] 2 [5; 4] 1 with
               | Ok cyc => cyc
               | Err _ => ∅
               end))
    as (ctx' & rows & row & Hs & _ & Hf & Hr & Hl & Hsorted & _).
  - lia.
  - reflexivity.
  - split; [reflexivity|]. repeat constructor; lia.
  - simpl. lia.
  - vm_compute. discriminate.
  - reflexivity.
  - repeat constructor.
  - reflexivity.
  - vm_compute. reflexivity.
  - intros e He. apply elem_of_elements, list_elem_of_In in He.
    vm_compute in He.
    destruct He as [<-|[<-|[<-|[<-|[]]]]];
      first [ exists 0; split; [change (HALFSIZE 8) with 128; lia|];
              split; reflexivity
            | exists 1; split; [change (HALFSIZE 8) with 128; lia|];
              split; reflexivity
            | exists 2; split; [change (HALFSIZE 8) with 128; lia|];
              split; reflexivity
            | exists 3; split; [change (HALFSIZE 8) with 128; lia|];
              split; reflexivity ].
  - exists ctx', rows, row. auto.
Defined.

